(** * webr.html: the segment tokenizer, the tree builder, the node queries
      and the serializer of [src/webr/html/parser.py] and
      [src/webr/html/document.py], as Rocq functions.

    Conventions of the embedding.
    - A Python [str] is a [list ascii]; an index such as [self._html[i]] is
      [getitem], which raises [IndexError] past the end, and a slice such as
      [self._html[a:b]] is [slice], which never raises.
    - The buffer is taken to hold ASCII text: the character classes
      ([isspace], [isalpha], [isalnum]) and the case maps are those of Python
      on code points below 128.
    - Python exceptions are the [Raise] outcomes of [result]; the messages of
      the bare [Exception]s of the source are the constructors of [error].
    - A [while] loop that walks the buffer forward is a [Fixpoint] over the
      unread rest of the buffer ([skipn position html]) that carries
      [position] along, so that it is total without fuel. The two loops
      whose progress is not one character at a time (the attribute loop of
      [_readTag], the segment loops of the builder) take fuel and answer
      [OutOfFuel] when it runs out.
    - A [Dict[str, str]] is an association list in insertion order;
      assigning to a key that is present keeps its place. *)

From Stdlib Require Import List Ascii Bool Arith ZArith Lia.
From Stdlib Require String.
Import ListNotations.
Import String.StringSyntax.
Delimit Scope string_scope with string.
Local Open Scope char_scope.
Local Open Scope nat_scope.
Local Open Scope list_scope.

(** ** Python strings *)

Definition str := list ascii.

Definition lit (s : String.string) : str := String.list_ascii_of_string s.

Arguments lit s%_string.

Fixpoint str_eqb (a b : str) : bool :=
  match a, b with
  | [], [] => true
  | x :: a', y :: b' => Ascii.eqb x y && str_eqb a' b'
  | _, _ => false
  end.

Definition in_chars (c : ascii) (l : list ascii) : bool :=
  existsb (Ascii.eqb c) l.

Definition in_strs (s : str) (l : list str) : bool :=
  existsb (str_eqb s) l.

(** [str.isspace] on one ASCII character: TAB, LF, VT, FF, CR, the four
    separators FS, GS, RS, US and the space. *)
Definition isspace (c : ascii) : bool :=
  let n := nat_of_ascii c in
  ((9 <=? n) && (n <=? 13)) || ((28 <=? n) && (n <=? 32)).

Definition isupper (c : ascii) : bool :=
  let n := nat_of_ascii c in (65 <=? n) && (n <=? 90).

Definition islower (c : ascii) : bool :=
  let n := nat_of_ascii c in (97 <=? n) && (n <=? 122).

Definition isdigit (c : ascii) : bool :=
  let n := nat_of_ascii c in (48 <=? n) && (n <=? 57).

Definition isalpha (c : ascii) : bool := isupper c || islower c.

Definition isalnum (c : ascii) : bool := isalpha c || isdigit c.

Definition lower_char (c : ascii) : ascii :=
  if isupper c then ascii_of_nat (nat_of_ascii c + 32) else c.

Definition upper_char (c : ascii) : ascii :=
  if islower c then ascii_of_nat (nat_of_ascii c - 32) else c.

Definition lower (s : str) : str := map lower_char s.
Definition upper (s : str) : str := map upper_char s.

(** [s[a:b]] for [0 <= a] and [0 <= b]. *)
Definition slice (s : str) (a b : nat) : str := firstn (b - a) (skipn a s).

Fixpoint lstrip (s : str) : str :=
  match s with
  | c :: s' => if isspace c then lstrip s' else s
  | [] => []
  end.

Definition rstrip (s : str) : str := rev (lstrip (rev s)).

(** [s.strip()] *)
Definition strip (s : str) : str := rstrip (lstrip s).

Fixpoint startswith (s prefix : str) {struct prefix} : bool :=
  match prefix, s with
  | [], _ => true
  | p :: prefix', c :: s' => Ascii.eqb c p && startswith s' prefix'
  | _ :: _, [] => false
  end.

Fixpoint find_loop (sub rest : str) (position : nat) : option nat :=
  if startswith rest sub then Some position
  else match rest with
       | _ :: rest' => find_loop sub rest' (S position)
       | [] => None
       end.

(** [s.find(sub, start)]: [None] is Python's [-1]. *)
Definition find (s sub : str) (start : nat) : option nat :=
  if length s <? start then None else find_loop sub (skipn start s) start.

(** [s.split(sep)] for a one-character separator: never an empty list, and
    consecutive separators give empty tokens. *)
Fixpoint split (sep : ascii) (s : str) : list str :=
  match s with
  | [] => [[]]
  | c :: s' =>
      if Ascii.eqb c sep then [] :: split sep s'
      else match split sep s' with
           | tok :: toks => (c :: tok) :: toks
           | [] => [[c]]
           end
  end.

(** ** Dictionaries in insertion order *)

Definition dict := list (str * str).

Definition dict_mem (k : str) (d : dict) : bool :=
  existsb (fun kv => str_eqb k (fst kv)) d.

Fixpoint dict_get (k : str) (d : dict) : option str :=
  match d with
  | (k', v) :: d' => if str_eqb k k' then Some v else dict_get k d'
  | [] => None
  end.

(** [d[k] = v] *)
Fixpoint dict_set (k v : str) (d : dict) : dict :=
  match d with
  | (k', v') :: d' =>
      if str_eqb k k' then (k', v) :: d' else (k', v') :: dict_set k v d'
  | [] => [(k, v)]
  end.

(** ** Outcomes *)

Inductive error : Type :=
| IndexError
    (* Python: string index out of range *)
| UnparsableSegment (position : nat)
    (* Could not read a node, text node or comment at position ... *)
| NoMatchingOpen (position : nat)
    (* A close tag was found that has no matching open at position: ... *)
| StrayCloseTag (position : nat)
    (* A closing tag was found at the root level of the document ... *)
| UnidentifiedTag (position : nat)
    (* An unidentified tag was found at position: ... *)
| UnclosedElement
    (* HTML ended before all tags were closed. *)
| UnknownNodeType.
    (* Unknown node type. *)

Inductive result (A : Type) : Type :=
| Ok (a : A)
| Raise (e : error)
| OutOfFuel.

Arguments Ok {A} a.
Arguments Raise {A} e.
Arguments OutOfFuel {A}.

Definition bind {A B : Type} (r : result A) (k : A -> result B) : result B :=
  match r with
  | Ok a => k a
  | Raise e => Raise e
  | OutOfFuel => OutOfFuel
  end.

Notation "x <- r ;; k" := (bind r (fun x => k))
  (at level 61, r at next level, right associativity).

(** [s[i]] *)
Definition getitem (s : str) (i : nat) : result ascii :=
  match nth_error s i with
  | Some c => Ok c
  | None => Raise IndexError
  end.

(** ** Segments (parser.py, HTMLParserSegment and its subclasses) *)

Record HTMLParserElementSegment : Type := mkElementSegment {
  el_text : str;
  el_start : nat;
  el_end : nat;
  el_name : str;
  el_attributes : dict;
  el_open : bool;
  el_close : bool
}.

Inductive HTMLParserSegment : Type :=
| ElementSegment (e : HTMLParserElementSegment)
| TextSegment (text : str) (start end_ : nat)
| CommentSegment (text : str) (start end_ : nat) (comment : str).

Definition seg_text (s : HTMLParserSegment) : str :=
  match s with
  | ElementSegment e => el_text e
  | TextSegment text _ _ => text
  | CommentSegment text _ _ _ => text
  end.

Definition seg_start (s : HTMLParserSegment) : nat :=
  match s with
  | ElementSegment e => el_start e
  | TextSegment _ start _ => start
  | CommentSegment _ start _ _ => start
  end.

Definition seg_end (s : HTMLParserSegment) : nat :=
  match s with
  | ElementSegment e => el_end e
  | TextSegment _ _ end_ => end_
  | CommentSegment _ _ end_ _ => end_
  end.

(** The mutable fields of an [HTMLParser]; [_html] and [_strict] never
    change and are parameters of the methods below. *)
Record HTMLParser : Type := mkParser {
  _position : nat;
  _segmentCurrent : option HTMLParserSegment;
  _segmentNext : option HTMLParserSegment
}.

Definition _contextSwitchTags : list str :=
  [lit "script"; lit "style"; lit "block"].

(** The double quote character, and a string between double quotes. *)
Definition dquote : ascii := "034".

Definition quoted (s : str) : str := dquote :: s ++ [dquote].

Definition quotes : list ascii := [dquote; "'"].

(** [_unwrap] *)
Definition _unwrap (text : str) : str :=
  if startswith text [dquote] || startswith text ["'"]
  then slice text 1 (length text - 1)
  else text.

(** The scan of a quoted run, written twice in the source (in
    [_readTagAttributeProperty] and [_readTagAttributeValue]): [position]
    is just after the opening quote; the answer is the position after the
    closing quote, [None] when [matched] stays false. A backslash skips two
    characters. *)
Fixpoint readQuoted_loop (quote : ascii) (rest : str) (position : nat)
  : option nat :=
  match rest with
  | char :: rest' =>
      if Ascii.eqb char quote then Some (position + 1)
      else if Ascii.eqb char "\" then
        match rest' with
        | _ :: rest'' => readQuoted_loop quote rest'' (position + 2)
        | [] => None
        end
      else readQuoted_loop quote rest' (position + 1)
  | [] => None
  end.

(** A loop that stops ([break]) at the first character of [stops] or at a
    whitespace, and otherwise advances: the answer is the position at the
    exit. *)
Fixpoint readUntil_loop (stops : list ascii) (rest : str) (position : nat)
  : nat :=
  match rest with
  | char :: rest' =>
      if isspace char || in_chars char stops then position
      else readUntil_loop stops rest' (position + 1)
  | [] => position
  end.

Fixpoint readWhitespace_loop (rest : str) (position : nat) : nat :=
  match rest with
  | char :: rest' =>
      if isspace char then readWhitespace_loop rest' (position + 1)
      else position
  | [] => position
  end.

Section Parser.

Variable html : str.
Variable strict : bool.

Definition _htmlLength : nat := length html.

(** [_readWhitespace] *)
Definition _readWhitespace (position : nat) : nat :=
  readWhitespace_loop (skipn position html) position.

(** [_readTagNameDoctype] *)
Definition _readTagNameDoctype (position : nat) : result (option nat) :=
  let doctype := lit "!DOCTYPE" in
  let end_ := position + length doctype in
  if (end_ <? _htmlLength)
     && (str_eqb (slice html position end_) doctype
         || (negb strict
             && str_eqb (upper (slice html position end_)) doctype))
  then
    char <- getitem html end_ ;;
    if isspace char || in_chars char ["/"; ">"] then Ok (Some end_)
    else Ok None
  else Ok None.

(** The loop of [_readTagName]: [Some p] is the position at the exit,
    [None] is the [return None] of strict mode. *)
Fixpoint readTagName_loop (rest : str) (start position : nat)
  : option nat :=
  match rest with
  | char :: rest' =>
      if isspace char || in_chars char ["/"; ">"] then Some position
      else if strict
              && (if position =? start
                  then negb (isalpha char) && negb (in_chars char ["_"])
                  else negb (isalnum char)
                       && negb (in_chars char ["-"; "_"; "."]))
      then None
      else readTagName_loop rest' start (position + 1)
  | [] => Some position
  end.

(** [_readTagName] *)
Definition _readTagName (position : nat) : result (option nat) :=
  let start := position in
  result_ <- _readTagNameDoctype position ;;
  match result_ with
  | Some r => Ok (Some r)
  | None =>
      match readTagName_loop (skipn position html) start position with
      | Some position => if start <? position then Ok (Some position)
                         else Ok None
      | None => Ok None
      end
  end.

(** The loop of the unquoted branch of [_readTagAttributeProperty]. The
    source tests
    [self._strict and not char.isalnum and char not in ["-", "_", "."]]:
    [char.isalnum] is the bound method, not a call, and a method object
    is true, so [not char.isalnum] is [negb true]. [Some p] is the
    position at the exit, [None] the [return None]. *)
Fixpoint readTagAttributeProperty_loop (rest : str) (position : nat)
  : option nat :=
  match rest with
  | char :: rest' =>
      if isspace char || in_chars char ["="; "/"; ">"]
      then Some position
      else if strict && negb true
              && negb (in_chars char ["-"; "_"; "."])
      then None
      else readTagAttributeProperty_loop rest' (position + 1)
  | [] => Some position
  end.

(** [_readTagAttributeProperty] *)
Definition _readTagAttributeProperty (position : nat)
  : result (option nat) :=
  let start := position in
  quoted <- (if strict
             then (c <- getitem html position ;; Ok (in_chars c quotes))
             else Ok false) ;;
  if quoted then Ok None
  else
    quote <- getitem html position ;;
    if in_chars quote quotes then
      Ok (readQuoted_loop quote (skipn (position + 1) html) (position + 1))
    else
      match readTagAttributeProperty_loop (skipn position html) position
      with
      | Some position => if start <? position then Ok (Some position)
                         else Ok None
      | None => Ok None
      end.

(** [_readTagAttributeValue] *)
Definition _readTagAttributeValue (position : nat)
  : result (option nat) :=
  quote <- getitem html position ;;
  if in_chars quote quotes then
    Ok (readQuoted_loop quote (skipn (position + 1) html) (position + 1))
  else if negb strict then
    Ok (Some (readUntil_loop ["/"; ">"] (skipn position html) position))
  else Ok None.

(** [_readTagAttribute]: the answer carries the dictionary, which the
    source updates in place, and only when it returns a position. *)
Definition _readTagAttribute (position : nat) (attributes : dict)
  : result (option (nat * dict)) :=
  let position := _readWhitespace position in
  result_ <- _readTagAttributeProperty position ;;
  match result_ with
  | None => Ok None
  | Some r =>
      let name := lower (strip (_unwrap (slice html position r))) in
      let position := _readWhitespace r in
      c <- getitem html position ;;
      nv <- (if Ascii.eqb c "=" then
               let position := position + 1 in
               result_ <- _readTagAttributeValue position ;;
               match result_ with
               | Some r =>
                   Ok (Some (_unwrap (slice html position r), r))
               | None => Ok None
               end
             else Ok (Some (lit "true", position))) ;;
      match nv with
      | None => Ok None
      | Some (value, position) =>
          if strict && dict_mem name attributes then Ok None
          else Ok (Some (position, dict_set name value attributes))
      end
  end.

(** The attribute loop of [_readTag]:
    [while (result := self._readTagAttribute(position, attributes))
       is not None: position = self._readWhitespace(result)]. *)
Fixpoint readTagAttributes (fuel : nat) (position : nat)
  (attributes : dict) : result (nat * dict) :=
  match fuel with
  | 0 => OutOfFuel
  | S fuel =>
      result_ <- _readTagAttribute position attributes ;;
      match result_ with
      | Some (r, attributes) =>
          readTagAttributes fuel (_readWhitespace r) attributes
      | None => Ok (position, attributes)
      end
  end.

(** [_readTag] *)
Definition _readTag (position : nat)
  : result (option HTMLParserElementSegment) :=
  let start := position in
  c <- getitem html position ;;
  if negb (Ascii.eqb c "<") then Ok None
  else
    let position := position + 1 in
    c <- getitem html position ;;
    let '(position, open, close) :=
      if Ascii.eqb c "/" then (position + 1, false, true)
      else (position, true, false) in
    let position :=
      if negb strict then _readWhitespace position else position in
    result_ <- _readTagName position ;;
    match result_ with
    | None => Ok None
    | Some r =>
        let name := lower (_unwrap (slice html position r)) in
        let position := _readWhitespace r in
        pa <- readTagAttributes (S _htmlLength) position [] ;;
        let '(position, attributes) := pa in
        if negb open && (0 <? length attributes) then Ok None
        else
          c <- getitem html position ;;
          if Ascii.eqb c "/" && strict && close then Ok None
          else
            let '(position, close) :=
              if Ascii.eqb c "/" then (position + 1, true)
              else (position, close) in
            let position :=
              if negb strict then _readWhitespace position
              else position in
            c <- getitem html position ;;
            if Ascii.eqb c ">" then
              let end_ := position + 1 in
              Ok (Some (mkElementSegment (slice html start end_) start
                          end_ name attributes open close))
            else Ok None
    end.

(** [_readComment] *)
Definition _readComment (position : nat) : option HTMLParserSegment :=
  let start := position in
  if str_eqb (slice html position (position + 4)) (lit "<!--") then
    let position := position + 4 in
    match find html (lit "-->") position with
    | Some find_ =>
        let end_ := find_ + 3 in
        Some (CommentSegment (slice html start end_) start end_
                (strip (slice html position find_)))
    | None => None
    end
  else None.

(** The loop of [_readText],
    [while (position := self._html.find("<", position)) >= 0], as a scan
    of the rest of the buffer: at each ["<"] a comment, then a tag, is
    tried; [Some segmentNext] is the segment found, [None] the exit of
    the loop. *)
Fixpoint readText_loop (rest : str) (position : nat)
  : result (option HTMLParserSegment) :=
  match rest with
  | char :: rest' =>
      if Ascii.eqb char "<" then
        match _readComment position with
        | Some segmentNext => Ok (Some segmentNext)
        | None =>
            t <- _readTag position ;;
            match t with
            | Some e => Ok (Some (ElementSegment e))
            | None => readText_loop rest' (position + 1)
            end
        end
      else readText_loop rest' (position + 1)
  | [] => Ok None
  end.

(** [_readText]: the text segment, with the value it leaves in
    [self._segmentNext]. *)
Definition _readText (position : nat)
  : result (option (HTMLParserSegment * option HTMLParserSegment)) :=
  let start := position in
  found <- readText_loop (skipn position html) position ;;
  match found with
  | Some segmentNext =>
      let end_ := seg_start segmentNext in
      Ok (Some (TextSegment (strip (slice html start end_)) start end_,
                Some segmentNext))
  | None =>
      if negb strict then
        let end_ := _htmlLength in
        Ok (Some (TextSegment (strip (slice html start end_)) start end_,
                  None))
      else Ok None
  end.

(** [_readSpecialContextTagEnd] *)
Definition _readSpecialContextTagEnd (position : nat) (contextTag : str)
  : result (option HTMLParserElementSegment) :=
  segment <- _readTag position ;;
  match segment with
  | Some e =>
      if negb (el_open e) && el_close e && str_eqb (el_name e) contextTag
      then Ok (Some e)
      else Ok None
  | None => Ok None
  end.

Fixpoint readSpecialContextText_loop (contextTag : str) (rest : str)
  (position : nat) : result (option HTMLParserSegment) :=
  match rest with
  | char :: rest' =>
      if Ascii.eqb char "<" then
        t <- _readSpecialContextTagEnd position contextTag ;;
        match t with
        | Some e => Ok (Some (ElementSegment e))
        | None => readSpecialContextText_loop contextTag rest'
                    (position + 1)
        end
      else readSpecialContextText_loop contextTag rest' (position + 1)
  | [] => Ok None
  end.

(** [_readSpecialContextText] *)
Definition _readSpecialContextText (position : nat) (contextTag : str)
  : result (option (HTMLParserSegment * option HTMLParserSegment)) :=
  let start := position in
  found <- readSpecialContextText_loop contextTag (skipn position html)
             position ;;
  match found with
  | Some segmentNext =>
      let end_ := seg_start segmentNext in
      Ok (Some (TextSegment (strip (slice html start end_)) start end_,
                Some segmentNext))
  | None =>
      if negb strict then
        let end_ := _htmlLength in
        Ok (Some (TextSegment (strip (slice html start end_)) start end_,
                  None))
      else Ok None
  end.

(** What [next] returns when it has a segment: the segment becomes
    [_segmentCurrent] and the cursor moves to its end. *)
Definition emit (segment : HTMLParserSegment)
  (segmentNext : option HTMLParserSegment)
  : result (option HTMLParserSegment * HTMLParser) :=
  Ok (Some segment, mkParser (seg_end segment) (Some segment) segmentNext).

(** The test of the raw-text context in [next]: the name of the element
    whose body is being read, if any. *)
Definition specialContext (segmentCurrent : option HTMLParserSegment)
  : option str :=
  match segmentCurrent with
  | Some (ElementSegment e) =>
      if negb (el_close e) && in_strs (el_name e) _contextSwitchTags
      then Some (el_name e) else None
  | _ => None
  end.

(** [next]: the segment, or [None] at the end, with the parser after the
    call. *)
Definition next (self : HTMLParser)
  : result (option HTMLParserSegment * HTMLParser) :=
  let segmentCurrent := _segmentCurrent self in
  let position := _readWhitespace (_position self) in
  let self := mkParser position segmentCurrent (_segmentNext self) in
  if position =? _htmlLength then Ok (None, self)
  else
    match _segmentNext self with
    | Some segment => emit segment None
    | None =>
        match specialContext segmentCurrent with
        | Some name =>
            t <- _readSpecialContextTagEnd position name ;;
            match t with
            | Some e => emit (ElementSegment e) None
            | None =>
                t <- _readSpecialContextText position name ;;
                match t with
                | Some (segment, segmentNext) => emit segment segmentNext
                | None => Ok (None, self)
                end
            end
        | None =>
            match _readComment position with
            | Some segment => emit segment None
            | None =>
                t <- _readTag position ;;
                match t with
                | Some e => emit (ElementSegment e) None
                | None =>
                    t <- _readText position ;;
                    match t with
                    | Some (segment, segmentNext) =>
                        emit segment segmentNext
                    | None =>
                        if position =? _htmlLength then Ok (None, self)
                        else Raise (UnparsableSegment position)
                    end
                end
            end
        end
    end.

(** The iteration of the parser ([__next__] until [StopIteration]). *)
Fixpoint segments (fuel : nat) (self : HTMLParser)
  : result (list HTMLParserSegment) :=
  match fuel with
  | 0 => OutOfFuel
  | S fuel =>
      r <- next self ;;
      match r with
      | (Some segment, self) =>
          rest <- segments fuel self ;;
          Ok (segment :: rest)
      | (None, _) => Ok []
      end
  end.

End Parser.

(** [HTMLParser(html, strict)] *)
Definition HTMLParser_init : HTMLParser := mkParser 0 None None.

Definition tokenize (html : str) (strict : bool)
  : result (list HTMLParserSegment) :=
  segments html strict (S (length html)) HTMLParser_init.

#[local] Set Warnings "-register-all".

(** ** Nodes (document.py, HTMLNode and its subclasses)

    The [parent] back-reference of a node is not modelled: no operation
    below reads it. *)

Inductive HTMLNode : Type :=
| HTMLElementNode (name : str) (attributes : dict)
    (children : list HTMLNode)
| HTMLTextNode (text : str)
| HTMLCommentNode (comment : str).

Definition _voidTags : list str :=
  [lit "!doctype"; lit "area"; lit "base"; lit "br"; lit "col";
   lit "embed"; lit "hr"; lit "img"; lit "input"; lit "link"; lit "meta";
   lit "source"; lit "track"; lit "wbr"].

Definition _neverSelfClosing : list str :=
  [lit "script"; lit "style"; lit "html"; lit "head"; lit "body"].

(** [_createNode], for the segments the builder gives it: an open element
    segment, a text segment or a comment segment. The element starts
    without children. *)
Definition _createNode (segment : HTMLParserSegment) : option HTMLNode :=
  match segment with
  | ElementSegment e =>
      if el_open e
      then Some (HTMLElementNode (el_name e) (el_attributes e) [])
      else None
  | TextSegment text _ _ => Some (HTMLTextNode text)
  | CommentSegment _ _ _ comment => Some (HTMLCommentNode comment)
  end.

Section Document.

Variable html : str.
Variable strict : bool.
Variable comments : bool.

(** [_loadChildren]: [parent] is the name of the parent node and
    [children] its list of children, which the source extends in place;
    the answer is the response (the segment handed to the caller, or
    [None]), the children of the parent and the parser after the call.
    An element node is appended before the recursive call fills it; here
    it is appended with the children that call gave it. *)
Fixpoint _loadChildren (fuel : nat) (parent : str)
  (children : list HTMLNode) (parser : HTMLParser)
  : result (option HTMLParserSegment * list HTMLNode * HTMLParser) :=
  match fuel with
  | 0 => OutOfFuel
  | S fuel =>
      r <- next html strict parser ;;
      match r with
      | (None, parser) =>
          if strict then Raise UnclosedElement
          else Ok (None, children, parser)
      | (Some segment, parser) =>
          match segment with
          | ElementSegment e =>
              if el_open e then
                if negb (el_close e)
                   && negb (in_strs (el_name e) _voidTags)
                then
                  r <- _loadChildren fuel (el_name e) [] parser ;;
                  let '(response, node_children, parser) := r in
                  let children :=
                    children ++ [HTMLElementNode (el_name e)
                                   (el_attributes e) node_children] in
                  match response with
                  | Some _ =>
                      if str_eqb (el_name e) parent
                      then Ok (None, children, parser)
                      else Ok (Some segment, children, parser)
                  | None => _loadChildren fuel parent children parser
                  end
                else
                  _loadChildren fuel parent
                    (children ++ [HTMLElementNode (el_name e)
                                    (el_attributes e) []]) parser
              else if el_close e then
                if str_eqb (el_name e) parent
                then Ok (None, children, parser)
                else Ok (Some segment, children, parser)
              else if strict then Raise (UnidentifiedTag (el_start e))
              else _loadChildren fuel parent children parser
          | TextSegment text _ _ =>
              _loadChildren fuel parent (children ++ [HTMLTextNode text])
                parser
          | CommentSegment _ _ _ comment =>
              if comments
              then _loadChildren fuel parent
                     (children ++ [HTMLCommentNode comment]) parser
              else _loadChildren fuel parent children parser
          end
      end
  end.

(** The loop of [_load] over the segments of the root level; the answer
    is [_rootList]. *)
Fixpoint load_loop (fuel : nat) (rootList : list HTMLNode)
  (parser : HTMLParser) : result (list HTMLNode) :=
  match fuel with
  | 0 => OutOfFuel
  | S fuel =>
      r <- next html strict parser ;;
      match r with
      | (None, _) => Ok rootList
      | (Some segment, parser) =>
          match segment with
          | ElementSegment e =>
              if el_open e then
                if negb (el_close e)
                   && negb (in_strs (el_name e) _voidTags)
                then
                  r <- _loadChildren fuel (el_name e) [] parser ;;
                  let '(response, node_children, parser) := r in
                  let rootList :=
                    rootList ++ [HTMLElementNode (el_name e)
                                   (el_attributes e) node_children] in
                  match response with
                  | Some _ =>
                      if strict then Raise (NoMatchingOpen (el_start e))
                      else load_loop fuel rootList parser
                  | None => load_loop fuel rootList parser
                  end
                else
                  load_loop fuel
                    (rootList ++ [HTMLElementNode (el_name e)
                                    (el_attributes e) []]) parser
              else if strict then Raise (StrayCloseTag (el_start e))
              else load_loop fuel rootList parser
          | TextSegment text _ _ =>
              load_loop fuel (rootList ++ [HTMLTextNode text]) parser
          | CommentSegment _ _ _ comment =>
              if comments
              then load_loop fuel (rootList ++ [HTMLCommentNode comment])
                     parser
              else Raise UnknownNodeType
          end
      end
  end.

(** [_load]. Every pass of either loop calls [next] once, and at most
    [2 * len(html) + 2] calls are made. [_linkNodes], which only caches
    references into the finished tree, is not modelled. *)
Definition _load : result (list HTMLNode) :=
  load_loop (2 * length html + 2) [] HTMLParser_init.

End Document.

(** [HTMLDocument(html, strict, comments)]: the root list of the document
    built, or the exception of the constructor. *)
Definition HTMLDocument (html : str) (strict comments : bool)
  : result (list HTMLNode) :=
  _load html strict comments.

(** ** Serializer (document.py, [HTMLDocument.write]) *)

(** The [html] property of a text or comment node. *)
Definition node_html (node : HTMLNode) : str :=
  match node with
  | HTMLTextNode text => text
  | HTMLCommentNode comment => lit "<!-- " ++ comment ++ lit " -->"
  | HTMLElementNode _ _ _ => []
  end.

(** The loop over [node.attributes.items()] in [writeNode]. *)
Fixpoint writeAttributes (name : str) (attributes : dict) : str :=
  match attributes with
  | (key, value) :: attributes' =>
      (if str_eqb name (lit "!doctype") && str_eqb value (lit "true")
       then lit " " ++ key
       else lit " " ++ key ++ lit "=" ++ [dquote] ++ value ++ [dquote])
      ++ writeAttributes name attributes'
  | [] => []
  end.

(** The line break of the pretty printer, CR LF. *)
Definition crlf : str := ["013"; "010"].

Definition writeName (name : str) : str :=
  if str_eqb name (lit "!doctype") then upper name else name.

Section Write.

Variables (pretty : bool) (indent : nat) (tabs selfClosing : bool)
          (shrinkText : bool) (shrinkLimit : nat).

(** The [for node in nodeList] loop of [writeNode], over the function
    that writes one node: [first] is the local flag of the call. *)
Definition writeList (writeOne : HTMLNode -> nat -> bool -> str)
  (depth : nat) : list HTMLNode -> bool -> str :=
  fix loop (nodeList : list HTMLNode) (first : bool) : str :=
    match nodeList with
    | node :: nodeList' =>
        let newline :=
          if pretty && negb first then crlf else [] in
        let first := if pretty then false else first in
        newline ++ writeOne node depth first ++ loop nodeList' first
    | [] => []
    end.

(** The body of the loop of [writeNode] for one node, after the newline:
    the indentation and the node. *)
Fixpoint writeOne (node : HTMLNode) (depth : nat) (first : bool) : str :=
  let prefix :=
    if pretty then
      if tabs then repeat "009" depth else repeat " " (depth * indent)
    else [] in
  prefix ++
  match node with
  | HTMLElementNode name attributes children =>
      if negb (in_strs name _neverSelfClosing)
         && (in_strs name _voidTags
             || (selfClosing && (length children =? 0)))
      then
        lit "<" ++ writeName name ++ writeAttributes name attributes
        ++ (if negb (in_strs name _voidTags)
            then (if 0 <? length attributes then lit " " else [])
                 ++ lit "/"
            else [])
        ++ lit ">"
      else
        lit "<" ++ writeName name ++ writeAttributes name attributes
        ++ lit ">"
        ++ (match children with
            | [HTMLTextNode text] =>
                if shrinkText && (length text <=? shrinkLimit)
                then text
                else writeList writeOne (depth + 1) children first
                     ++ (if pretty
                         then crlf
                              ++ prefix
                         else [])
            | _ =>
                writeList writeOne (depth + 1) children first
                ++ (if pretty
                    then crlf
                         ++ prefix
                    else [])
            end)
        ++ lit "</" ++ name ++ lit ">"
  | _ => node_html node
  end.

(** [writeNode(document, nodeList, ..., depth, first)] *)
Definition writeNode (nodeList : list HTMLNode) (depth : nat)
  (first : bool) : str :=
  writeList writeOne depth nodeList first.

(** [HTMLDocument.write] on the root list of the document. *)
Definition write (rootList : list HTMLNode) : str :=
  writeNode rootList 0 true.

End Write.

(** ** Queries (document.py, [HTMLElementNode]) *)

(** [hasClass] *)
Definition hasClass (attributes : dict) (className : str) : bool :=
  match dict_get (lit "class") attributes with
  | Some value => in_strs className (split " " value)
  | None => false
  end.

(** The test on the result cap of [searchRecursive]:
    [maxResults is not None and len(results) >= maxResults]. *)
Definition capped (maxResults : option Z) (results : list HTMLNode) : bool :=
  match maxResults with
  | Some m => (m <=? Z.of_nat (length results))%Z
  | None => false
  end.

(** The [for child in node.children] loop of [searchRecursive], over the
    recursive call [rec]: it stops at the first child for which the call
    returns [False]. *)
Definition searchChildren {S : Type} (rec : S -> HTMLNode -> S * bool)
  : S -> list HTMLNode -> S * bool :=
  fix loop (results : S) (children : list HTMLNode) :=
    match children with
    | child :: children' =>
        let '(results, continue) := rec results child in
        if negb continue then (results, false)
        else loop results children'
    | [] => (results, true)
    end.

Section Search.

Variable filter : HTMLNode -> bool.
Variable maxResults : option Z.

(** [searchRecursive]: the list [results], which the source extends in
    place, is returned with the boolean. *)
Fixpoint searchRecursive (results : list HTMLNode) (node : HTMLNode)
  (depthRemaining : option Z) {struct node} : list HTMLNode * bool :=
  let descend (results : list HTMLNode) : list HTMLNode * bool :=
    match node with
    | HTMLElementNode _ _ children =>
        let depthRemaining :=
          match depthRemaining with
          | Some d => Some (d - 1)%Z
          | None => None
          end in
        if match depthRemaining with
           | Some d => (0 <=? d)%Z
           | None => true
           end
        then searchChildren
               (fun results child =>
                  searchRecursive results child depthRemaining)
               results children
        else (results, true)
    | _ => (results, true)
    end in
  if filter node then
    let results := results ++ [node] in
    if capped maxResults results
    then (results, false)
    else descend results
  else descend results.

End Search.

(** [search] *)
Definition search (self : HTMLNode) (filter : HTMLNode -> bool)
  (maxDepth maxResults : option Z) : list HTMLNode :=
  fst (searchRecursive filter maxResults [] self maxDepth).

(** [getElementsByClassName] *)
Definition getElementsByClassName (self : HTMLNode) (className : str)
  : list HTMLNode :=
  search self
    (fun node =>
       match node with
       | HTMLElementNode _ attributes _ => hasClass attributes className
       | _ => false
       end)
    None None.

(** ** Reference notions for the statements *)

(** The nodes of a subtree in document order: depth first, a node before
    its children. *)
Fixpoint preorder (node : HTMLNode) : list HTMLNode :=
  node ::
  match node with
  | HTMLElementNode _ _ children => flat_map preorder children
  | _ => []
  end.

(** The nodes at most [d] generations below [node], in document order. *)
Fixpoint preorder_depth (d : nat) (node : HTMLNode) : list HTMLNode :=
  node ::
  match d, node with
  | S d', HTMLElementNode _ _ children =>
      flat_map (preorder_depth d') children
  | _, _ => []
  end.

(** The first [k] elements of [l] that satisfy [f], with the prefix of [l]
    that has to be read to find them: the scan stops at the [k]-th match. *)
Fixpoint scan_until {A : Type} (f : A -> bool) (k : nat) (l : list A)
  : list A :=
  match l with
  | x :: l' =>
      if f x then
        match k with
        | 0 | 1 => [x]
        | S k' => x :: scan_until f k' l'
        end
      else x :: scan_until f k l'
  | [] => []
  end.

Section SearchVisits.

Variable filter : HTMLNode -> bool.
Variable maxResults : option Z.

(** [searchRecursive] with the list of the nodes [filter] is called on,
    in the order of the calls, kept next to [results]. *)
Fixpoint searchRecursive_visits (state : list HTMLNode * list HTMLNode)
  (node : HTMLNode) (depthRemaining : option Z) {struct node}
  : list HTMLNode * list HTMLNode * bool :=
  let '(results, visits) := state in
  let visits := visits ++ [node] in
  let descend (results : list HTMLNode) :=
    match node with
    | HTMLElementNode _ _ children =>
        let depthRemaining :=
          match depthRemaining with
          | Some d => Some (d - 1)%Z
          | None => None
          end in
        if match depthRemaining with
           | Some d => (0 <=? d)%Z
           | None => true
           end
        then searchChildren
               (fun state child =>
                  searchRecursive_visits state child depthRemaining)
               (results, visits) children
        else (results, visits, true)
    | _ => (results, visits, true)
    end in
  if filter node then
    let results := results ++ [node] in
    if capped maxResults results
    then (results, visits, false)
    else descend results
  else descend results.

End SearchVisits.

(** Python's [str.split()] without a separator: the maximal runs of
    characters that are not whitespace. *)
Fixpoint split_whitespace_loop (token : str) (s : str) : list str :=
  match s with
  | c :: s' =>
      if isspace c
      then match token with
           | [] => split_whitespace_loop [] s'
           | _ => rev token :: split_whitespace_loop [] s'
           end
      else split_whitespace_loop (c :: token) s'
  | [] => match token with [] => [] | _ => [rev token] end
  end.

Definition split_whitespace (s : str) : list str :=
  split_whitespace_loop [] s.

(** Class matching as the specification words it: membership among the
    tokens of the [class] attribute split on whitespace. *)
Definition hasClass_whitespace (attributes : dict) (className : str)
  : bool :=
  match dict_get (lit "class") attributes with
  | Some value => in_strs className (split_whitespace value)
  | None => false
  end.

(** The nodes a search with depth bound [depth] may reach from [node], in
    document order. *)
Definition nodes_within (depth : option Z) (node : HTMLNode)
  : list HTMLNode :=
  match depth with
  | Some d => preorder_depth (Z.to_nat d) node
  | None => preorder node
  end.

(** A search as one pass over a list of nodes: the state is the pair of
    the results and of the nodes visited. *)
Fixpoint scan (filter : HTMLNode -> bool) (maxResults : option Z)
  (state : list HTMLNode * list HTMLNode) (l : list HTMLNode)
  : list HTMLNode * list HTMLNode * bool :=
  match l with
  | x :: l' =>
      let '(results, visits) := state in
      let visits := visits ++ [x] in
      if filter x then
        let results := results ++ [x] in
        if capped maxResults results then (results, visits, false)
        else scan filter maxResults (results, visits) l'
      else scan filter maxResults (results, visits) l'
  | [] => (state, true)
  end.

(** The nodes on which [search] calls the filter, in the order of the
    calls. *)
Definition search_visits (self : HTMLNode) (filter : HTMLNode -> bool)
  (maxDepth maxResults : option Z) : list HTMLNode :=
  snd (fst (searchRecursive_visits filter maxResults ([], []) self
              maxDepth)).

(** Induction on a node with the hypothesis for every child. *)
Fixpoint HTMLNode_nested_ind (P : HTMLNode -> Prop)
  (Helement : forall name attributes children,
      Forall P children -> P (HTMLElementNode name attributes children))
  (Htext : forall text, P (HTMLTextNode text))
  (Hcomment : forall comment, P (HTMLCommentNode comment))
  (node : HTMLNode) {struct node} : P node :=
  match node with
  | HTMLElementNode name attributes children =>
      Helement name attributes children
        ((fix all (l : list HTMLNode) : Forall P l :=
            match l with
            | [] => Forall_nil P
            | x :: l' =>
                Forall_cons x
                  (HTMLNode_nested_ind P Helement Htext Hcomment x) (all l')
            end) children)
  | HTMLTextNode text => Htext text
  | HTMLCommentNode comment => Hcomment comment
  end.

(** A token of [s.split(sep)] starts at the start of [s] or after a
    separator, and ends at the end of [s] or before a separator. *)
Definition bounded_before (sep : ascii) (before : str) : Prop :=
  before = [] \/ exists b, before = b ++ [sep].

Definition bounded_after (sep : ascii) (after : str) : Prop :=
  after = [] \/ exists a, after = sep :: a.

(** The part of [_readTag] before the attribute loop: the position where
    the loop starts, the flags [open] and [close] and the name. *)
Definition readTagHead (html : str) (strict : bool) (position : nat)
  : result (option (nat * bool * bool * str)) :=
  c <- getitem html position ;;
  if negb (Ascii.eqb c "<") then Ok None
  else
    let position := position + 1 in
    c <- getitem html position ;;
    let '(position, open, close) :=
      if Ascii.eqb c "/" then (position + 1, false, true)
      else (position, true, false) in
    let position :=
      if negb strict then _readWhitespace html position else position in
    result_ <- _readTagName html strict position ;;
    match result_ with
    | None => Ok None
    | Some r =>
        Ok (Some (_readWhitespace html r, open, close,
                  lower (_unwrap (slice html position r))))
    end.

(** The part of [_readTag] after the attribute loop. *)
Definition readTagTail (html : str) (strict : bool) (start : nat)
  (name : str) (open close : bool) (position : nat) (attributes : dict)
  : result (option HTMLParserElementSegment) :=
  if negb open && (0 <? length attributes) then Ok None
  else
    c <- getitem html position ;;
    if Ascii.eqb c "/" && strict && close then Ok None
    else
      let '(position, close) :=
        if Ascii.eqb c "/" then (position + 1, true)
        else (position, close) in
      let position :=
        if negb strict then _readWhitespace html position
        else position in
      c <- getitem html position ;;
      if Ascii.eqb c ">" then
        let end_ := position + 1 in
        Ok (Some (mkElementSegment (slice html start end_) start
                    end_ name attributes open close))
      else Ok None.

(** What a segment keeps of the source: an element or comment segment
    keeps the slice between its offsets, a text segment keeps that slice
    stripped. *)
Definition seg_text_ok (html : str) (s : HTMLParserSegment) : Prop :=
  match s with
  | TextSegment text start end_ => text = strip (slice html start end_)
  | _ => seg_text s = slice html (seg_start s) (seg_end s)
  end.

(** The segment in the one-segment cache of the parser, if any, keeps its
    slice of the source. *)
Definition cache_ok (html : str) (self : HTMLParser) : Prop :=
  match _segmentNext self with
  | Some s => seg_text_ok html s
  | None => True
  end.

(** ** Documents made of discrete markup segments

    The segments the test builders emit (tests/htmltools/builder.py,
    [HTMLSegmentBuilder]), and the forms of a tag the serializer writes:
    a tag has a name, attributes with or without a value, and ends with
    [>], [/>] or [ />]. *)

Inductive slash : Type := NoSlash | Slash | SpaceSlash.

Inductive markup : Type :=
| MTag (tagName : str) (attributes : list (str * option str))
    (ending : slash)
| MClose (tagName : str)
| MComment (comment : str)
| MText (text : str).

Definition valued (attributes : dict) : list (str * option str) :=
  map (fun kv => (fst kv, Some (snd kv))) attributes.




Definition builder_comment (comment : str) : markup := MComment comment.



Definition render_attribute (a : str * option str) : str :=
  lit " " ++ fst a
  ++ match snd a with
     | Some value => lit "=" ++ quoted value
     | None => []
     end.

Definition render_ending (e : slash) : str :=
  match e with
  | NoSlash => []
  | Slash => lit "/"
  | SpaceSlash => lit " /"
  end.

(** The text of a segment, as the builder formats it. *)
Definition render (m : markup) : str :=
  match m with
  | MTag tagName attributes ending =>
      lit "<" ++ tagName ++ flat_map render_attribute attributes
      ++ render_ending ending ++ lit ">"
  | MClose tagName => lit "</" ++ tagName ++ lit ">"
  | MComment comment => lit "<!-- " ++ comment ++ lit " -->"
  | MText text => text
  end.

(** The parts of the text of a tag: one attribute without the space in
    front of it, what follows the name or an attribute, and the end of the
    tag once the whitespace is skipped. *)
Definition attribute_body (a : str * option str) : str :=
  fst a
  ++ match snd a with
     | Some value => lit "=" ++ quoted value
     | None => []
     end.

Definition tail_text (attributes : list (str * option str)) (e : slash)
  : str :=
  flat_map render_attribute attributes ++ render_ending e ++ lit ">".

Definition end_text (e : slash) : str :=
  match e with
  | NoSlash => lit ">"
  | _ => lit "/>"
  end.

Definition attribute_value (a : str * option str) : str :=
  match snd a with
  | Some value => value
  | None => lit "true"
  end.

(** The document: every segment after a prefix (the indentation of the
    pretty builder, or the delimiter of [HTMLBuilder.get]). *)
Definition document (pieces : list (str * markup)) : str :=
  flat_map (fun pm => fst pm ++ render (snd pm)) pieces.

(** Well-formed names and contents. *)
Definition wordchar (c : ascii) : bool :=
  isalnum c || in_chars c ["-"; "_"; "."].

Definition tag_name_ok (n : str) : bool :=
  match n with
  | c :: r => isalpha c && forallb wordchar r
  | [] => false
  end.

Definition name_ok (n : str) : bool :=
  str_eqb n (lit "!DOCTYPE") || tag_name_ok n.

Definition attr_char_ok (c : ascii) : bool :=
  negb (isspace c) && negb (in_chars c ["="; "/"; ">"]).

Definition attr_name_ok (k : str) : bool :=
  match k with
  | c :: _ => negb (in_chars c quotes) && forallb attr_char_ok k
  | [] => false
  end.

Definition value_ok (v : str) : bool :=
  forallb (fun c => negb (Ascii.eqb c dquote) && negb (Ascii.eqb c "\")) v.

Definition attribute_ok (a : str * option str) : bool :=
  attr_name_ok (fst a)
  && match snd a with
     | Some value => value_ok value
     | None => true
     end.

Fixpoint nodupb (l : list str) : bool :=
  match l with
  | x :: l' => negb (in_strs x l') && nodupb l'
  | [] => true
  end.

Definition contains (s sub : str) : bool :=
  match find_loop sub s 0 with
  | Some _ => true
  | None => false
  end.

Definition markup_ok (m : markup) : bool :=
  match m with
  | MTag tagName attributes _ =>
      name_ok tagName && forallb attribute_ok attributes
      && nodupb (map (fun a => lower (fst a)) attributes)
  | MClose tagName => tag_name_ok tagName
  | MComment comment => negb (contains comment (lit "-->"))
  | MText text => negb (in_chars "<" text) && negb (forallb isspace text)
  end.

Definition is_text (m : markup) : bool :=
  match m with
  | MText _ => true
  | _ => false
  end.

(** The raw-text context a segment opens: the name of a [script], [style]
    or [block] tag that is not closed in place. *)
Definition context_after (m : markup) : option str :=
  match m with
  | MTag tagName _ NoSlash =>
      if in_strs (lower tagName) _contextSwitchTags
      then Some (lower tagName) else None
  | _ => None
  end.

Definition closes (name : str) (pieces : list (str * markup)) : bool :=
  match pieces with
  | (_, MClose n) :: _ => str_eqb (lower n) name
  | _ => false
  end.

(** A well-formed document: whitespace prefixes, well-formed segments, no
    text segment right after another, no text segment at the end in strict
    mode, and after the open tag of a raw-text element its close tag, with
    at most one text segment in between. *)
Fixpoint wf_pieces (strict : bool) (context : option str)
  (pieces : list (str * markup)) : bool :=
  match pieces with
  | (pre, m) :: rest =>
      forallb isspace pre && markup_ok m
      && (if is_text m
          then match rest with
               | [] => negb strict
               | (_, m') :: _ => negb (is_text m')
               end
          else true)
      && match context with
         | Some name =>
             if is_text m then closes name rest
             else closes name pieces
         | None => true
         end
      && wf_pieces strict (context_after m) rest
  | [] => true
  end.

(** The attributes a tag stores. *)
Definition attribute_dict (attributes : list (str * option str)) : dict :=
  map (fun a => (lower (fst a), attribute_value a)) attributes.

(** The segment expected for a tag or a comment that starts at [start]. *)
Definition expected_segment (start : nat) (m : markup)
  : HTMLParserSegment :=
  let end_ := start + length (render m) in
  match m with
  | MTag tagName attributes ending =>
      ElementSegment
        (mkElementSegment (render m) start end_ (lower tagName)
           (attribute_dict attributes) true
           match ending with NoSlash => false | _ => true end)
  | MClose tagName =>
      ElementSegment
        (mkElementSegment (render m) start end_ (lower tagName) [] false
           true)
  | MComment comment => CommentSegment (render m) start end_ (strip comment)
  | MText text => TextSegment (strip text) start end_
  end.

(** The segments expected for the pieces of a document that start at
    [offset]. A text segment starts on its first character that is not
    whitespace and ends where the next segment starts. *)
Fixpoint expected (offset : nat) (pieces : list (str * markup))
  : list HTMLParserSegment :=
  match pieces with
  | (pre, m) :: rest =>
      let start := offset + length pre in
      let next_offset := start + length (render m) in
      match m with
      | MText text =>
          TextSegment (strip text)
            (start + (length text - length (lstrip text)))
            (next_offset
             + match rest with
               | (pre', _) :: _ => length pre'
               | [] => 0
               end)
      | _ => expected_segment start m
      end :: expected next_offset rest
  | [] => []
  end.

(** The parser in front of the pieces that remain: the buffer holds them
    from [offset] on, the raw-text context is the one the last segment
    opened, and either the cursor is at [offset] with an empty cache, or
    the cache holds the segment of the first piece and the cursor is where
    that segment starts. *)
Definition Ready (html : str) (self : HTMLParser) (offset : nat)
  (context : option str) (pieces : list (str * markup)) : Prop :=
  skipn offset html = document pieces
  /\ offset <= length html
  /\ specialContext (_segmentCurrent self) = context
  /\ ((_segmentNext self = None /\ _position self = offset)
      \/ (exists pre m rest,
             pieces = (pre, m) :: rest
             /\ is_text m = false
             /\ _segmentNext self
                = Some (expected_segment (offset + length pre) m)
             /\ _position self = offset + length pre)).

(** A segment captures a piece of the document: it has the kind of the
    piece; for a tag or a comment its text is the text of the piece, and
    for a text it is that text stripped. *)
Definition captures (pm : str * markup) (segment : HTMLParserSegment)
  : Prop :=
  match snd pm, segment with
  | MTag tagName attributes ending, ElementSegment e =>
      el_text e = render (snd pm) /\ el_name e = lower tagName
      /\ el_attributes e = attribute_dict attributes
      /\ el_open e = true
      /\ el_close e = match ending with NoSlash => false | _ => true end
  | MClose tagName, ElementSegment e =>
      el_text e = render (snd pm) /\ el_name e = lower tagName
      /\ el_open e = false /\ el_close e = true
  | MComment comment, CommentSegment text _ _ c =>
      text = render (snd pm) /\ c = strip comment
  | MText t, TextSegment text _ _ => text = strip t
  | _, _ => False
  end.


(** ** Documents the serializer can write back

    What [write] emits for a tree, with [pretty] and [shrinkText] off, as
    markup segments; and the trees whose content needs no escaping. *)

(** The attributes as [writeNode] writes them: for the doctype an
    attribute of value ["true"] is a bare name. *)
Definition written_attributes (name : str) (attributes : dict)
  : list (str * option str) :=
  map (fun kv =>
         if str_eqb name (lit "!doctype") && str_eqb (snd kv) (lit "true")
         then (fst kv, None)
         else (fst kv, Some (snd kv)))
      attributes.

Fixpoint markups_of (selfClosing : bool) (node : HTMLNode) : list markup :=
  match node with
  | HTMLElementNode name attributes children =>
      if negb (in_strs name _neverSelfClosing)
         && (in_strs name _voidTags
             || (selfClosing && (length children =? 0)))
      then [MTag (writeName name) (written_attributes name attributes)
              (if negb (in_strs name _voidTags)
               then (if 0 <? length attributes then SpaceSlash else Slash)
               else NoSlash)]
      else MTag (writeName name) (written_attributes name attributes)
             NoSlash
           :: flat_map (markups_of selfClosing) children ++ [MClose name]
  | HTMLTextNode text => [MText text]
  | HTMLCommentNode comment => [MComment comment]
  end.

Definition unprefixed (l : list markup) : list (str * markup) :=
  map (fun m => ([], m)) l.

Definition pieces_of (selfClosing : bool) (nodes : list HTMLNode)
  : list (str * markup) :=
  unprefixed (flat_map (markups_of selfClosing) nodes).

Definition is_text_node (node : HTMLNode) : bool :=
  match node with
  | HTMLTextNode _ => true
  | _ => false
  end.

(** No text node right after a text node. *)
Fixpoint texts_apart (l : list HTMLNode) : bool :=
  match l with
  | a :: l' =>
      match l' with
      | b :: _ => negb (is_text_node a && is_text_node b)
      | [] => true
      end && texts_apart l'
  | [] => true
  end.

Definition ends_with_text (l : list HTMLNode) : bool :=
  match rev l with
  | node :: _ => is_text_node node
  | [] => false
  end.

Definition element_name_ok (name : str) : bool :=
  str_eqb name (lit "!doctype")
  || (tag_name_ok name && str_eqb (lower name) name).

Definition safe_attribute (kv : str * str) : bool :=
  attr_name_ok (fst kv) && str_eqb (lower (fst kv)) (fst kv)
  && value_ok (snd kv).

Definition text_ok (t : str) : bool :=
  negb (in_chars "<" t) && negb (forallb isspace t) && str_eqb (strip t) t.

Definition comment_ok (c : str) : bool :=
  negb (contains c (lit "-->")) && str_eqb (strip c) c.

(** A node that [write] gives back to the parser as it is: names and
    attribute names the tokenizer reads back, in lower case; values
    without a double quote or a backslash; no child under a void element;
    under a raw-text element at most one text; texts and comments stripped
    and without markup in them; comments only when the document keeps
    them. *)
Fixpoint safe_node (comments : bool) (node : HTMLNode) : bool :=
  match node with
  | HTMLElementNode name attributes children =>
      element_name_ok name
      && forallb safe_attribute attributes
      && nodupb (map fst attributes)
      && (if in_strs name _voidTags then length children =? 0 else true)
      && (if in_strs name _contextSwitchTags
          then match children with
               | [] => true
               | [HTMLTextNode _] => true
               | _ => false
               end
          else true)
      && forallb (safe_node comments) children
      && texts_apart children
  | HTMLTextNode text => text_ok text
  | HTMLCommentNode comment => comments && comment_ok comment
  end.

Definition safe_document (strict comments : bool)
  (rootList : list HTMLNode) : bool :=
  forallb (safe_node comments) rootList && texts_apart rootList
  && negb (strict && ends_with_text rootList).

(** The number of nodes of a tree, which bounds the fuel the builder
    needs. *)
Fixpoint weight (node : HTMLNode) : nat :=
  match node with
  | HTMLElementNode _ _ children => S (list_sum (map weight children))
  | _ => 1
  end.

Definition weight_forest (l : list HTMLNode) : nat :=
  list_sum (map weight l).

(** A text segment may come right before these pieces. *)
Definition text_may_precede (strict : bool) (pieces : list (str * markup))
  : bool :=
  match pieces with
  | [] => negb strict
  | (_, m) :: _ => negb (is_text m)
  end.

(** The pieces of a node, in front of pieces [K], are well formed when
    [K] is and a text may stand where the node ends. *)
Definition node_wf (strict comments selfClosing : bool) (node : HTMLNode)
  : Prop :=
  forall K context,
    safe_node comments node = true ->
    wf_pieces strict None K = true ->
    (is_text_node node = true -> text_may_precede strict K = true) ->
    match context with
    | Some name => is_text_node node = true /\ closes name K = true
    | None => True
    end ->
    wf_pieces strict context
      (unprefixed (markups_of selfClosing node) ++ K) = true.

(** One pass of the loop of [_loadChildren] in front of the pieces of a
    node: the node is appended to the children and the loop goes on, in
    front of the pieces that follow. *)
Definition node_loads (html : str) (strict comments selfClosing : bool)
  (node : HTMLNode) : Prop :=
  forall fuel parent acc self offset context R,
    weight node <= fuel ->
    safe_node comments node = true ->
    Ready html self offset context
      (unprefixed (markups_of selfClosing node) ++ R) ->
    wf_pieces strict context
      (unprefixed (markups_of selfClosing node) ++ R) = true ->
    exists self' offset',
      _loadChildren html strict comments (S fuel) parent acc self
      = _loadChildren html strict comments fuel parent (acc ++ [node]) self'
      /\ Ready html self' offset' None R
      /\ wf_pieces strict None R = true.

(** ** The other queries of [HTMLElementNode] (document.py) *)

(** The filter of [getElementById]:
    [isinstance(node, HTMLElementNode) and "id" in node.attributes
     and node.attributes["id"] == id]. *)
Definition id_filter (id : str) (node : HTMLNode) : bool :=
  match node with
  | HTMLElementNode _ attributes _ =>
      dict_mem (lit "id") attributes
      && match dict_get (lit "id") attributes with
         | Some value => str_eqb value id
         | None => false
         end
  | _ => false
  end.

(** [getElementById]: [None] is Python's [None]. *)
Definition getElementById (self : HTMLNode) (id : str) : option HTMLNode :=
  let results := search self (id_filter id) None (Some 1%Z) in
  match results with
  | node :: _ => Some node
  | [] => None
  end.

(** The filter of [getElementsByAttribute]:
    [isinstance(node, HTMLElementNode) and attribute in node.attributes
     and (value is None or node.attributes[attribute] == value)]. *)
Definition attribute_filter (attribute : str) (value : option str)
  (node : HTMLNode) : bool :=
  match node with
  | HTMLElementNode _ attributes _ =>
      dict_mem attribute attributes
      && match value with
         | None => true
         | Some value =>
             match dict_get attribute attributes with
             | Some v => str_eqb v value
             | None => false
             end
         end
  | _ => false
  end.

(** [getElementsByAttribute] *)
Definition getElementsByAttribute (self : HTMLNode) (attribute : str)
  (value : option str) : list HTMLNode :=
  search self (attribute_filter attribute value) None None.

(** [getElementsById] *)
Definition getElementsById (self : HTMLNode) (id : str) : list HTMLNode :=
  getElementsByAttribute self (lit "id") (Some id).

(** [getElementsByName] *)
Definition getElementsByName (self : HTMLNode) (name : str)
  : list HTMLNode :=
  getElementsByAttribute self (lit "name") (Some name).

(** The filter of [getElementsByTagName]:
    [isinstance(node, HTMLElementNode) and node.name == tagName]. *)
Definition is_named (tagName : str) (node : HTMLNode) : bool :=
  match node with
  | HTMLElementNode name _ _ => str_eqb name tagName
  | _ => false
  end.

(** [getElementsByTagName] *)
Definition getElementsByTagName (self : HTMLNode) (tagName : str)
  : list HTMLNode :=
  search self (is_named tagName) None None.

(** The [text] field of a text node. [getText] reads it on the results of
    a search whose filter keeps text nodes only; on another node, which
    has no such field, the empty string stands for it. *)
Definition node_text (node : HTMLNode) : str :=
  match node with
  | HTMLTextNode text => text
  | _ => []
  end.

(** [getText] *)
Definition getText (self : HTMLNode) (maxDepth maxResults : option Z)
  : list str :=
  let textNodeList := search self is_text_node maxDepth maxResults in
  map node_text textNodeList.

(** The texts of the text nodes of a list of nodes, in order. *)
Definition texts_of (l : list HTMLNode) : list str :=
  flat_map (fun node =>
              match node with
              | HTMLTextNode text => [text]
              | _ => []
              end) l.

(** ** The shortcut accessors (document.py, [HTMLDocument._linkNodes]) *)

(** The fields [_doctype], [_html], [_head] and [_body] of a document. *)
Record HTMLDocumentLinks : Type := mkLinks {
  _doctype : option HTMLNode;
  _html : option HTMLNode;
  _head : option HTMLNode;
  _body : option HTMLNode
}.

(** One loop of [_linkNodes], which the source writes twice: over the
    root list with the names [!doctype] and [html], and over the children
    of the [html] node with the names [head] and [body]. An element named
    [first] is linked when its index is 0, an element named [second] when
    its index is 0 or 1; without [strict] the index is not looked at.
    [a] and [b] are the two fields so far. *)
Fixpoint link_loop (strict : bool) (first second : str) (index : nat)
  (nodes : list HTMLNode) (a b : option HTMLNode)
  : option HTMLNode * option HTMLNode :=
  match nodes with
  | node :: nodes' =>
      let '(a, b) :=
        match node with
        | HTMLElementNode name _ _ =>
            if str_eqb name first then
              if (index =? 0) || negb strict then (Some node, b)
              else (a, b)
            else if str_eqb name second then
              if (index =? 0) || (index =? 1) || negb strict
              then (a, Some node)
              else (a, b)
            else (a, b)
        | _ => (a, b)
        end in
      link_loop strict first second (S index) nodes' a b
  | [] => (a, b)
  end.

(** [_linkNodes], on the root list of a document whose four fields are
    [None], as [__init__] leaves them. *)
Definition _linkNodes (strict : bool) (rootList : list HTMLNode)
  : HTMLDocumentLinks :=
  let '(doctype, html) :=
    link_loop strict (lit "!doctype") (lit "html") 0 rootList None None in
  let '(head, body) :=
    match html with
    | Some (HTMLElementNode _ _ children) =>
        link_loop strict (lit "head") (lit "body") 0 children None None
    | _ => (None, None)
    end in
  mkLinks doctype html head body.

(** The last node of a list that satisfies [f]. *)
Definition find_last (f : HTMLNode -> bool) (l : list HTMLNode)
  : option HTMLNode :=
  List.find f (rev l).

(** The node at [index] if it satisfies [f]. *)
Definition node_at (f : HTMLNode -> bool) (index : nat)
  (l : list HTMLNode) : option HTMLNode :=
  match nth_error l index with
  | Some node => if f node then Some node else None
  | None => None
  end.

(** The first of two options that holds a value. *)
Definition or_else (a b : option HTMLNode) : option HTMLNode :=
  match a with
  | Some _ => a
  | None => b
  end.

(** ** Where the segments of [next] come from *)

(** A segment read at [q] by [_readComment] or by [_readTag]. *)
Definition read_fresh (html : str) (strict : bool) (q : nat)
  (s : HTMLParserSegment) : Prop :=
  _readComment html q = Some s
  \/ exists e, _readTag html strict q = Ok (Some e) /\ s = ElementSegment e.

(** A text segment read at [p] by [_readText] or
    [_readSpecialContextText], with the value it leaves in
    [_segmentNext]: the text runs to the end of the buffer, in lenient
    mode, or to a later position where a comment or a tag was read. *)
Definition read_text (html : str) (strict : bool) (p : nat)
  (s : HTMLParserSegment) (cache : option HTMLParserSegment) : Prop :=
  exists end_,
    s = TextSegment (strip (slice html p end_)) p end_
    /\ ((cache = None /\ strict = false /\ end_ = length html)
        \/ exists sn,
             cache = Some sn /\ read_fresh html strict end_ sn
             /\ p < end_).

(** The cursor is inside the buffer, and the segment in the cache, if
    any, was read where the cursor is. *)
Definition parser_ok (html : str) (strict : bool) (self : HTMLParser)
  : Prop :=
  _position self <= length html
  /\ match _segmentNext self with
     | Some s => read_fresh html strict (_position self) s
     | None => True
     end.

(** Segments one after the other from [from] on: each starts at or after
    the end of the one before, is not empty and ends inside the
    buffer. *)
Fixpoint segments_ordered (html : str) (from : nat)
  (l : list HTMLParserSegment) : Prop :=
  match l with
  | s :: l' =>
      from <= seg_start s /\ seg_start s < seg_end s
      /\ seg_end s <= length html
      /\ segments_ordered html (seg_end s) l'
  | [] => True
  end.

(** The names of a dictionary are in lower case. *)
Definition keys_lower (d : dict) : Prop :=
  Forall (fun kv => lower (fst kv) = fst kv) d.

(** What a segment holds, whatever the buffer: an element segment a name
    and attribute names in lower case, a text segment a text that is
    stripped and not empty, a comment segment a stripped comment. *)
Definition segment_sound (s : HTMLParserSegment) : Prop :=
  match s with
  | ElementSegment e =>
      lower (el_name e) = el_name e /\ keys_lower (el_attributes e)
  | TextSegment text _ _ => strip text = text /\ text <> []
  | CommentSegment _ _ _ comment => strip comment = comment
  end.

(** What a node of a built tree holds: an element a name and attribute
    names in lower case, and no child when it is a void element; a text
    node a text that is stripped and not empty; a comment node, which
    only a document that keeps comments has, a stripped comment. *)
Fixpoint node_sound (comments : bool) (node : HTMLNode) : Prop :=
  match node with
  | HTMLElementNode name attributes children =>
      lower name = name /\ keys_lower attributes
      /\ (in_strs name _voidTags = true -> children = [])
      /\ (fix all (l : list HTMLNode) : Prop :=
            match l with
            | child :: l' => node_sound comments child /\ all l'
            | [] => True
            end) children
  | HTMLTextNode text => strip text = text /\ text <> []
  | HTMLCommentNode comment => comments = true /\ strip comment = comment
  end.

(** The nodes of a list of trees, in document order. *)
Definition nodes_of (rootList : list HTMLNode) : list HTMLNode :=
  flat_map preorder rootList.

(** A computation that ends within its fuel and raises nothing but
    Python's [IndexError]. *)
Definition index_only {A : Type} (r : result A) : Prop :=
  match r with
  | Ok _ | Raise IndexError => True
  | _ => False
  end.

(** The outcomes of the tokenizer: a value, Python's [IndexError], or, in
    strict mode only, the exception of [next]. *)
Definition tokenizer_outcome {A : Type} (strict : bool) (r : result A)
  : Prop :=
  match r with
  | Ok _ | Raise IndexError => True
  | Raise (UnparsableSegment _) => strict = true
  | _ => False
  end.


(** The text between two quotes [quote] as [_readTagAttributeValue]
    scans it: characters other than the quote and the backslash, and
    backslashes each followed by one character of any kind. *)
Fixpoint escaped_body (quote : ascii) (body : str) : bool :=
  match body with
  | c :: body' =>
      if Ascii.eqb c "\" then
        match body' with
        | _ :: body'' => escaped_body quote body''
        | [] => false
        end
      else negb (Ascii.eqb c quote) && escaped_body quote body'
  | [] => true
  end.

(** ** Properly nested documents

    The trees a list of markup segments describes when every open tag
    that is not closed in place and is not a void element has its close
    tag: a text gives a text node with the text stripped, a comment a
    comment node with the comment stripped when the document keeps
    comments and nothing otherwise, a tag its element, with the nodes of
    the segments between the open tag and the close tag as children.
    [top] tells the root level, where a comment that is not kept has no
    place, from the level of the children. *)
Inductive nested (comments : bool)
  : bool -> list (str * markup) -> list HTMLNode -> Prop :=
| nested_nil (top : bool) : nested comments top [] []
| nested_text (top : bool) (pre t : str) (rest : list (str * markup))
    (l : list HTMLNode) :
    nested comments top rest l ->
    nested comments top ((pre, MText t) :: rest)
      (HTMLTextNode (strip t) :: l)
| nested_comment_kept (top : bool) (pre c : str)
    (rest : list (str * markup)) (l : list HTMLNode) :
    comments = true ->
    nested comments top rest l ->
    nested comments top ((pre, MComment c) :: rest)
      (HTMLCommentNode (strip c) :: l)
| nested_comment_dropped (pre c : str) (rest : list (str * markup))
    (l : list HTMLNode) :
    comments = false ->
    nested comments false rest l ->
    nested comments false ((pre, MComment c) :: rest) l
| nested_single (top : bool) (pre n : str)
    (attributes : list (str * option str)) (e : slash)
    (rest : list (str * markup)) (l : list HTMLNode) :
    e <> NoSlash \/ in_strs (lower n) _voidTags = true ->
    nested comments top rest l ->
    nested comments top ((pre, MTag n attributes e) :: rest)
      (HTMLElementNode (lower n) (attribute_dict attributes) [] :: l)
| nested_pair (top : bool) (pre n : str)
    (attributes : list (str * option str))
    (inner : list (str * markup)) (children : list HTMLNode)
    (pre' n' : str) (rest : list (str * markup)) (l : list HTMLNode) :
    in_strs (lower n) _voidTags = false ->
    nested comments false inner children ->
    lower n' = lower n ->
    nested comments top rest l ->
    nested comments top
      ((pre, MTag n attributes NoSlash)
       :: inner ++ (pre', MClose n') :: rest)
      (HTMLElementNode (lower n) (attribute_dict attributes) children
       :: l).

(** ** What [write] emits with any settings

    The segments of [markups_of], each with the whitespace [write] puts
    in front of it: the line break and the indentation of the pretty
    printer. *)
Section WritePieces.

Variables (pretty : bool) (indent : nat) (tabs selfClosing : bool)
          (shrinkText : bool) (shrinkLimit : nat).

(** The indentation of a line at [depth]. *)
Definition indentation (depth : nat) : str :=
  if pretty then
    if tabs then repeat "009" depth else repeat " " (depth * indent)
  else [].

(** The line break between two nodes. *)
Definition line_break : str := if pretty then crlf else [].

(** The pieces of a node written at [depth] after the whitespace
    [lead]. *)
Fixpoint pieces_written (node : HTMLNode) (depth : nat) (lead : str)
  : list (str * markup) :=
  let prefix := lead ++ indentation depth in
  match node with
  | HTMLElementNode name attributes children =>
      if negb (in_strs name _neverSelfClosing)
         && (in_strs name _voidTags
             || (selfClosing && (length children =? 0)))
      then [(prefix,
             MTag (writeName name) (written_attributes name attributes)
               (if negb (in_strs name _voidTags)
                then (if 0 <? length attributes then SpaceSlash else Slash)
                else NoSlash))]
      else
        (prefix,
         MTag (writeName name) (written_attributes name attributes)
           NoSlash)
        :: match children with
           | [HTMLTextNode text] =>
               if shrinkText && (length text <=? shrinkLimit)
               then [([], MText text); ([], MClose name)]
               else flat_map
                      (fun child =>
                         pieces_written child (depth + 1) line_break)
                      children
                    ++ [(line_break ++ indentation depth, MClose name)]
           | _ =>
               flat_map
                 (fun child =>
                    pieces_written child (depth + 1) line_break)
                 children
               ++ [(line_break ++ indentation depth, MClose name)]
           end
  | HTMLTextNode text => [(prefix, MText text)]
  | HTMLCommentNode comment => [(prefix, MComment comment)]
  end.

(** The pieces of the root list: no line break in front of the first
    node. *)
Definition pieces_written_root (rootList : list HTMLNode)
  : list (str * markup) :=
  match rootList with
  | node :: rootList' =>
      pieces_written node 0 []
      ++ flat_map (fun node => pieces_written node 0 line_break) rootList'
  | [] => []
  end.

End WritePieces.

(** ** The [html] property (document.py, [HTMLNode.html],
    [HTMLElementNode.innerHtml]) *)

(** The loop over [self.attributes.items()] of the [html] property of an
    element: every attribute with its value between double quotes. *)
Definition htmlAttributes (attributes : dict) : str :=
  flat_map (fun kv =>
              lit " " ++ fst kv ++ lit "=" ++ [dquote] ++ snd kv
              ++ [dquote])
           attributes.

(** The [html] property of the three classes of nodes. An element with
    no child is closed in place, whatever its name. *)
Fixpoint HTMLNode_html (node : HTMLNode) : str :=
  match node with
  | HTMLElementNode name attributes children =>
      let html := lit "<" ++ name ++ htmlAttributes attributes in
      if 0 <? length children
      then html ++ lit ">" ++ flat_map HTMLNode_html children
           ++ lit "</" ++ name ++ lit ">"
      else html ++ lit "/>"
  | HTMLTextNode text => text
  | HTMLCommentNode comment => lit "<!-- " ++ comment ++ lit " -->"
  end.

(** [innerHtml], a property of elements only. *)
Definition innerHtml (self : HTMLNode) : str :=
  match self with
  | HTMLElementNode _ _ children => flat_map HTMLNode_html children
  | _ => []
  end.

(** The [html] property as markup segments. *)
Fixpoint html_markups (node : HTMLNode) : list markup :=
  match node with
  | HTMLElementNode name attributes children =>
      if 0 <? length children
      then MTag name (valued attributes) NoSlash
           :: flat_map html_markups children ++ [MClose name]
      else [MTag name (valued attributes) Slash]
  | HTMLTextNode text => [MText text]
  | HTMLCommentNode comment => [MComment comment]
  end.

(** No element of the subtree is the doctype. *)
Fixpoint no_doctype (node : HTMLNode) : bool :=
  match node with
  | HTMLElementNode name _ children =>
      negb (str_eqb name (lit "!doctype")) && forallb no_doctype children
  | _ => true
  end.

(** ** The flags of an element segment *)

(** The flags as [_readTag] leaves them: a segment is open, close, or
    both for a tag closed in place; a segment that is not open, a close
    tag, has no attribute. *)
Definition flags_ok (s : HTMLParserSegment) : Prop :=
  match s with
  | ElementSegment e =>
      el_open e || el_close e = true
      /\ (el_open e = false -> el_attributes e = [])
  | _ => True
  end.

(** A computation that does not raise the exception [_loadChildren] keeps
    for an element segment that is neither open nor close. *)
Definition no_unidentified {A : Type} (r : result A) : Prop :=
  match r with
  | Raise (UnidentifiedTag _) => False
  | _ => True
  end.

(** ** The names [_readTagName] accepts *)



(** ** Documents that end inside open elements

    The children a list of markup segments describes when it runs to the
    end of the buffer: properly nested segments, then possibly an open
    tag that is never closed, whose children the segments after it
    describe in the same way. *)
Inductive open_ended (comments : bool)
  : list (str * markup) -> list HTMLNode -> Prop :=
| open_ended_closed (pieces : list (str * markup)) (l : list HTMLNode) :
    nested comments false pieces l -> open_ended comments pieces l
| open_ended_open (before : list (str * markup)) (l : list HTMLNode)
    (pre n : str) (attributes : list (str * option str))
    (inner : list (str * markup)) (children : list HTMLNode) :
    nested comments false before l ->
    in_strs (lower n) _voidTags = false ->
    open_ended comments inner children ->
    open_ended comments
      (before ++ (pre, MTag n attributes NoSlash) :: inner)
      (l ++ [HTMLElementNode (lower n) (attribute_dict attributes)
               children]).

(** * Properties *)

(** ** Strings and dictionaries *)

Lemma str_eqb_eq (a b : str) : str_eqb a b = true <-> a = b.
Proof.
  revert b; induction a as [|x a IH]; intros [|y b]; simpl;
    try (split; intro H; [discriminate || reflexivity | discriminate || reflexivity]).
  rewrite andb_true_iff, Ascii.eqb_eq, IH.
  split; [intros [-> ->]; reflexivity | intros [= -> ->]; auto].
Qed.

Lemma str_eqb_refl (a : str) : str_eqb a a = true.
Proof. apply str_eqb_eq; reflexivity. Qed.

Lemma str_eqb_neq (a b : str) : str_eqb a b = false <-> a <> b.
Proof.
  rewrite <- str_eqb_eq. destruct (str_eqb a b); split; intro H;
    try reflexivity; try discriminate; try congruence.
Qed.

Lemma in_strs_In (s : str) (l : list str) : in_strs s l = true <-> In s l.
Proof.
  unfold in_strs. rewrite existsb_exists. split.
  - intros (x & Hin & Heq). apply str_eqb_eq in Heq. subst; assumption.
  - intro Hin. exists s. split; [assumption | apply str_eqb_refl].
Qed.

Lemma in_chars_In (c : ascii) (l : list ascii) :
  in_chars c l = true <-> In c l.
Proof.
  unfold in_chars. rewrite existsb_exists. split.
  - intros (x & Hin & Heq). apply Ascii.eqb_eq in Heq. subst; assumption.
  - intro Hin. exists c. split; [assumption | apply Ascii.eqb_refl].
Qed.

Lemma dict_mem_set (k v : str) (d : dict) k' :
  dict_mem k' (dict_set k v d) = dict_mem k' d || str_eqb k' k.
Proof.
  induction d as [|[k0 v0] d IH]; simpl.
  - rewrite orb_false_r. reflexivity.
  - destruct (str_eqb k k0) eqn:E; simpl.
    + apply str_eqb_eq in E. subst k0.
      destruct (str_eqb k' k); simpl; [reflexivity|].
      rewrite orb_false_r. reflexivity.
    + rewrite IH. rewrite orb_assoc. reflexivity.
Qed.

Lemma dict_get_set_same (k v : str) (d : dict) :
  dict_get k (dict_set k v d) = Some v.
Proof.
  induction d as [|[k0 v0] d IH]; simpl.
  - rewrite str_eqb_refl. reflexivity.
  - destruct (str_eqb k k0) eqn:E; simpl; rewrite E; auto.
Qed.

Lemma dict_set_fresh (k v : str) (d : dict) :
  dict_mem k d = false -> dict_set k v d = d ++ [(k, v)].
Proof.
  induction d as [|[k0 v0] d IH]; simpl; [reflexivity|].
  intro H. apply orb_false_iff in H as [H1 H2].
  rewrite H1, IH by assumption. reflexivity.
Qed.

(** ** The buffer seen from a position *)

Lemma skipn_cons_nth (A : Type) (l : list A) (p : nat) (x : A) (r : list A) :
  skipn p l = x :: r -> nth_error l p = Some x /\ skipn (S p) l = r.
Proof.
  revert l; induction p as [|p IH]; intros [|y l]; simpl; try discriminate.
  - intros [= -> ->]. auto.
  - apply IH.
Qed.

Lemma skipn_nil_nth (A : Type) (l : list A) (p : nat) :
  skipn p l = [] -> nth_error l p = None.
Proof.
  intro H. apply nth_error_None.
  destruct (le_lt_dec (length l) p) as [|Hlt]; [assumption|].
  exfalso. apply (f_equal (@length A)) in H. rewrite length_skipn in H.
  simpl in H. lia.
Qed.

Lemma nth_error_skipn_cons (A : Type) (l : list A) (p : nat) (x : A) :
  nth_error l p = Some x -> exists r, skipn p l = x :: r.
Proof.
  revert l; induction p as [|p IH]; intros [|y l] H; try discriminate.
  - injection H as ->. exists l. reflexivity.
  - apply IH. exact H.
Qed.

Lemma getitem_skipn_cons (html : str) (p : nat) (c : ascii) (r : str) :
  skipn p html = c :: r -> getitem html p = Ok c.
Proof.
  intro H. apply skipn_cons_nth in H as [H _]. unfold getitem.
  rewrite H. reflexivity.
Qed.

Lemma getitem_skipn_nil (html : str) (p : nat) :
  skipn p html = [] -> getitem html p = Raise IndexError.
Proof.
  intro H. apply skipn_nil_nth in H. unfold getitem. rewrite H. reflexivity.
Qed.

(** ** C3: a buffer truncated inside a tag *)

(** A tag read that starts on the last character of the buffer, a ["<"],
    indexes the buffer one past its end. *)
Lemma readTag_truncated (html : str) (strict : bool) (position : nat) :
  skipn position html = ["<"] ->
  _readTag html strict position = Raise IndexError.
Proof.
  intro H. unfold _readTag.
  rewrite (getitem_skipn_cons _ _ _ _ H). simpl.
  apply skipn_cons_nth in H as [_ H].
  replace (position + 1) with (S position) by lia.
  rewrite (getitem_skipn_nil _ _ H). reflexivity.
Qed.


(** C3 (defect of the code). The claim: each read attempt of the tokenizer
    succeeds or fails cleanly, never with an out-of-bounds access, also on
    a buffer that ends in a lone ["<"]. The code: on the buffer ["<"],
    in strict and in lenient mode, the first call of [next] raises
    [IndexError] (from [_readTag], which reads [self._html[1]]), not
    [UnparsableSegment]. *)
Theorem next_lone_open_bracket_IndexError :
  forall strict : bool,
    _readComment (lit "<") 0 = None
    /\ _readTag (lit "<") strict 0 = Raise IndexError
    /\ next (lit "<") strict HTMLParser_init = Raise IndexError
    /\ tokenize (lit "<") strict = Raise IndexError.
Proof. intros [|]; repeat split; reflexivity. Qed.

(** ** C10: unquoted attribute names in strict mode *)

Lemma readTagAttributeProperty_loop_strict (rest : str) (position : nat) :
  readTagAttributeProperty_loop true rest position
  = readTagAttributeProperty_loop false rest position.
Proof.
  revert position; induction rest as [|char rest IH]; intro position;
    simpl; [reflexivity|].
  match goal with |- (if ?b then _ else _) = _ => destruct b end;
    [reflexivity | apply IH].
Qed.

(** C10. Reading an unquoted attribute name does not depend on the mode:
    at every position of every buffer where the character is not a quote
    (also past the end of the buffer), [_readTagAttributeProperty] answers
    the same in strict and in lenient mode. *)
Theorem readTagAttributeProperty_unquoted_same (html : str) (position : nat) :
  (forall c, nth_error html position = Some c -> in_chars c quotes = false) ->
  _readTagAttributeProperty html true position
  = _readTagAttributeProperty html false position.
Proof.
  intro H. unfold _readTagAttributeProperty, getitem.
  destruct (nth_error html position) as [c|] eqn:E; [|reflexivity].
  cbn [bind]. rewrite (H c eq_refl).
  rewrite readTagAttributeProperty_loop_strict. reflexivity.
Qed.

Lemma readTagAttributeProperty_unquoted_same_witness :
  _readTagAttributeProperty (lit "<a $x=1>") true 3
  = _readTagAttributeProperty (lit "<a $x=1>") false 3.
Proof.
  apply (readTagAttributeProperty_unquoted_same (lit "<a $x=1>") 3).
  intros c [= <-]. reflexivity.
Defined.

(** ** C7: search *)

Section SearchFacts.

Variable filter : HTMLNode -> bool.
Variable maxResults : option Z.

Lemma scan_app (state : list HTMLNode * list HTMLNode)
  (l1 l2 : list HTMLNode) :
  scan filter maxResults state (l1 ++ l2)
  = let '(state', continue) := scan filter maxResults state l1 in
    if continue then scan filter maxResults state' l2
    else (state', false).
Proof.
  revert state; induction l1 as [|x l1 IH]; intros [results visits];
    simpl; [reflexivity|].
  destruct (filter x); [destruct (capped maxResults (results ++ [x]))|];
    try reflexivity; apply IH.
Qed.

Lemma nodes_within_element (depth : option Z) name attributes children :
  nodes_within depth (HTMLElementNode name attributes children)
  = HTMLElementNode name attributes children
    :: (if match depth with
           | Some d => (0 <=? d - 1)%Z
           | None => true
           end
        then flat_map
               (nodes_within
                  match depth with
                  | Some d => Some (d - 1)%Z
                  | None => None
                  end) children
        else []).
Proof.
  destruct depth as [d|]; simpl; [|reflexivity].
  destruct (0 <=? d - 1)%Z eqn:E.
  - apply Z.leb_le in E.
    replace (Z.to_nat d) with (S (Z.to_nat (d - 1))) by lia.
    reflexivity.
  - apply Z.leb_gt in E.
    replace (Z.to_nat d) with 0 by lia. reflexivity.
Qed.

Lemma searchChildren_scan (rec : list HTMLNode * list HTMLNode ->
                                 HTMLNode ->
                                 list HTMLNode * list HTMLNode * bool)
  (within : HTMLNode -> list HTMLNode) (children : list HTMLNode) :
  Forall (fun child => forall state,
              rec state child = scan filter maxResults state (within child))
    children ->
  forall state,
    searchChildren rec state children
    = scan filter maxResults state (flat_map within children).
Proof.
  induction 1 as [|child children Hchild _ IH]; intro state;
    [reflexivity|].
  cbn [flat_map searchChildren]. rewrite scan_app, Hchild.
  destruct (scan filter maxResults state (within child))
    as [state' [|]]; cbn [negb]; [apply IH | reflexivity].
Qed.

(** The recursive search is the pass over the nodes within the depth
    bound, in document order. *)
Lemma searchRecursive_visits_scan (node : HTMLNode) :
  forall state depth,
    searchRecursive_visits filter maxResults state node depth
    = scan filter maxResults state (nodes_within depth node).
Proof.
  induction node as [name attributes children IH|text|comment]
    using HTMLNode_nested_ind; intros [results visits] depth.
  - rewrite nodes_within_element.
    cbn [searchRecursive_visits scan].
    set (depth' := match depth with
                   | Some d => Some (d - 1)%Z
                   | None => None
                   end).
    assert (Hloop : forall state,
      searchChildren
        (fun state child =>
           searchRecursive_visits filter maxResults state child depth')
        state children
      = scan filter maxResults state
          (flat_map (nodes_within depth') children)).
    { apply searchChildren_scan. eapply Forall_impl; [|exact IH].
      intros child H state. apply H. }
    replace (match depth' with Some d => (0 <=? d)%Z | None => true end)
      with (match depth with Some d => (0 <=? d - 1)%Z | None => true end)
      by (destruct depth; reflexivity).
    destruct (match depth with Some d => (0 <=? d - 1)%Z | None => true end);
      destruct (filter (HTMLElementNode name attributes children));
      try destruct (capped maxResults
                      (results ++ [HTMLElementNode name attributes children]));
      try reflexivity; apply Hloop.
  - replace (nodes_within depth (HTMLTextNode text))
      with [HTMLTextNode text]
      by (destruct depth as [d|]; cbn; [destruct (Z.to_nat d)|];
          reflexivity).
    cbn [searchRecursive_visits scan].
    destruct (filter (HTMLTextNode text));
      try destruct (capped maxResults (results ++ [HTMLTextNode text]));
      reflexivity.
  - replace (nodes_within depth (HTMLCommentNode comment))
      with [HTMLCommentNode comment]
      by (destruct depth as [d|]; cbn; [destruct (Z.to_nat d)|];
          reflexivity).
    cbn [searchRecursive_visits scan].
    destruct (filter (HTMLCommentNode comment));
      try destruct (capped maxResults (results ++ [HTMLCommentNode comment]));
      reflexivity.
Qed.

Lemma searchChildren_erase
  (rec : list HTMLNode -> HTMLNode -> list HTMLNode * bool)
  (rec_visits : list HTMLNode * list HTMLNode -> HTMLNode ->
                list HTMLNode * list HTMLNode * bool)
  (children : list HTMLNode) :
  Forall (fun child => forall results visits,
              rec results child
              = (fst (fst (rec_visits (results, visits) child)),
                 snd (rec_visits (results, visits) child)))
    children ->
  forall results visits,
    searchChildren rec results children
    = (fst (fst (searchChildren rec_visits (results, visits) children)),
       snd (searchChildren rec_visits (results, visits) children)).
Proof.
  induction 1 as [|child children Hchild _ IH]; intros results visits;
    [reflexivity|].
  cbn [searchChildren]. rewrite (Hchild results visits).
  destruct (rec_visits (results, visits) child)
    as [[results1 visits1] [|]]; cbn [fst snd negb];
    [apply IH | reflexivity].
Qed.

(** The log of visits does not change the search. *)
Lemma searchRecursive_erase (node : HTMLNode) :
  forall results visits depth,
    searchRecursive filter maxResults results node depth
    = (fst (fst (searchRecursive_visits filter maxResults
                   (results, visits) node depth)),
       snd (searchRecursive_visits filter maxResults
              (results, visits) node depth)).
Proof.
  induction node as [name attributes children IH|text|comment]
    using HTMLNode_nested_ind; intros results visits depth.
  - cbn [searchRecursive searchRecursive_visits].
    fold (capped maxResults).
    set (depth' := match depth with
                   | Some d => Some (d - 1)%Z
                   | None => None
                   end).
    assert (Hloop : forall results visits,
      searchChildren
        (fun results child =>
           searchRecursive filter maxResults results child depth')
        results children
      = (fst (fst (searchChildren
           (fun state child =>
              searchRecursive_visits filter maxResults state child depth')
           (results, visits) children)),
         snd (searchChildren
           (fun state child =>
              searchRecursive_visits filter maxResults state child depth')
           (results, visits) children))).
    { apply searchChildren_erase. eapply Forall_impl; [|exact IH].
      intros child H results0 visits0. apply H. }
    destruct (match depth' with Some d => (0 <=? d)%Z | None => true end);
      destruct (filter (HTMLElementNode name attributes children));
      try destruct (capped maxResults
                      (results ++ [HTMLElementNode name attributes children]));
      try reflexivity; apply Hloop.
  - cbn [searchRecursive searchRecursive_visits].
    destruct (filter (HTMLTextNode text));
      try destruct (capped maxResults (results ++ [HTMLTextNode text]));
      reflexivity.
  - cbn [searchRecursive searchRecursive_visits].
    destruct (filter (HTMLCommentNode comment));
      try destruct (capped maxResults (results ++ [HTMLCommentNode comment]));
      reflexivity.
Qed.

End SearchFacts.

Section ScanFacts.

Variable filter : HTMLNode -> bool.

Lemma scan_unbounded (l : list HTMLNode) :
  forall results visits,
    scan filter None (results, visits) l
    = (results ++ List.filter filter l, visits ++ l, true).
Proof.
  induction l as [|x l IH]; intros results visits; simpl.
  - rewrite !app_nil_r. reflexivity.
  - destruct (filter x); rewrite IH, <- !app_assoc; reflexivity.
Qed.

(** With a cap [m] that the results have not reached yet, the pass
    collects the matches that are missing and reads the list up to the
    last of them. *)
Lemma scan_bounded (m : Z) (l : list HTMLNode) :
  forall results visits,
    (Z.of_nat (length results) < m)%Z ->
    let need := Z.to_nat (m - Z.of_nat (length results)) in
    scan filter (Some m) (results, visits) l
    = (results ++ firstn need (List.filter filter l),
       visits ++ scan_until filter need l,
       length (List.filter filter l) <? need).
Proof.
  induction l as [|x l IH]; intros results visits Hlt need.
  - simpl. rewrite firstn_nil, !app_nil_r.
    replace (0 <? need) with true
      by (symmetry; apply Nat.ltb_lt; subst need; lia).
    reflexivity.
  - cbn [scan List.filter scan_until]. destruct (filter x) eqn:Hx.
    + unfold capped. rewrite length_app. cbn [length].
      destruct (m <=? Z.of_nat (length results + 1))%Z eqn:Hcap.
      * apply Z.leb_le in Hcap.
        assert (Hneed : need = 1) by (subst need; lia).
        rewrite Hneed. reflexivity.
      * apply Z.leb_gt in Hcap.
        assert (Hneed : exists k, need = S (S k)).
        { exists (need - 2). subst need. lia. }
        destruct Hneed as [k Hneed]. rewrite Hneed.
        specialize (IH (results ++ [x]) (visits ++ [x])).
        rewrite length_app in IH. cbn [length] in IH.
        rewrite IH by lia.
        replace (Z.to_nat (m - Z.of_nat (length results + 1)))
          with (S k) by (subst need; lia).
        cbn [firstn length]. rewrite <- !app_assoc. reflexivity.
    + rewrite IH by assumption. fold need.
      rewrite <- app_assoc. reflexivity.
Qed.

Lemma scan_until_prefix (k : nat) (l : list HTMLNode) :
  exists rest, l = scan_until filter k l ++ rest.
Proof.
  revert k; induction l as [|x l IH]; intro k; simpl.
  - exists []. reflexivity.
  - destruct (filter x).
    + destruct k as [|[|k]];
        [exists l; reflexivity | exists l; reflexivity |].
      destruct (IH (S k)) as [rest Hrest]. exists rest.
      simpl. f_equal. exact Hrest.
    + destruct (IH k) as [rest Hrest]. exists rest.
      simpl. f_equal. exact Hrest.
Qed.

(** The pass stops on the [k]-th match: when there are [k] matches, the
    nodes read end with one, and hold [k - 1] matches before it. *)
Lemma scan_until_stops (k : nat) (l : list HTMLNode) :
  1 <= k -> k <= length (List.filter filter l) ->
  exists before x,
    scan_until filter k l = before ++ [x]
    /\ filter x = true
    /\ length (List.filter filter before) = k - 1.
Proof.
  revert k; induction l as [|x l IH]; intros k Hk Hlen; simpl in *.
  - lia.
  - destruct (filter x) eqn:Hx.
    + destruct k as [|[|k]]; [lia| |].
      * exists [], x. auto.
      * simpl in Hlen.
        destruct (IH (S k)) as (before & y & Heq & Hy & Hcount);
          [lia | lia |].
        exists (x :: before), y. rewrite Heq. simpl. rewrite Hx.
        simpl. repeat split; auto. lia.
    + destruct (IH k) as (before & y & Heq & Hy & Hcount);
        [lia | lia |].
      exists (x :: before), y. rewrite Heq. simpl. rewrite Hx.
      auto.
Qed.

Lemma firstn_filter_sorted_prefix (k : nat) (l : list HTMLNode) :
  exists rest, List.filter filter l
               = firstn k (List.filter filter l) ++ rest.
Proof.
  exists (skipn k (List.filter filter l)). symmetry.
  apply firstn_skipn.
Qed.

End ScanFacts.

Lemma search_scan (self : HTMLNode) (filter : HTMLNode -> bool)
  (maxDepth maxResults : option Z) :
  search self filter maxDepth maxResults
  = fst (fst (scan filter maxResults ([], [])
                (nodes_within maxDepth self))).
Proof.
  unfold search. rewrite (searchRecursive_erase _ _ _ [] []).
  rewrite searchRecursive_visits_scan. reflexivity.
Qed.

(** What C7 says, for a depth bound [d >= 0] and a cap [k >= 1]: the
    results are the first [k] matches among the nodes at most [d]
    generations below the start, in document order; and the filter is
    called on no node after the [k]-th match. *)
Lemma search_within_bounds (self : HTMLNode) (filter : HTMLNode -> bool)
  (d k : Z) :
  (0 <= d)%Z -> (1 <= k)%Z ->
  let within := preorder_depth (Z.to_nat d) self in
  search self filter (Some d) (Some k)
  = firstn (Z.to_nat k) (List.filter filter within)
  /\ (Z.of_nat (length (search self filter (Some d) (Some k))) <= k)%Z
  /\ search_visits self filter (Some d) (Some k)
     = scan_until filter (Z.to_nat k) within
  /\ (exists rest,
         within = search_visits self filter (Some d) (Some k) ++ rest)
  /\ (Z.to_nat k <= length (List.filter filter within) ->
      exists before x,
        search_visits self filter (Some d) (Some k) = before ++ [x]
        /\ filter x = true
        /\ length (List.filter filter before) = Z.to_nat k - 1).
Proof.
  intros Hd Hk within.
  assert (Hscan := scan_bounded filter k within [] []).
  cbn [length app] in Hscan. rewrite Z.sub_0_r in Hscan.
  specialize (Hscan ltac:(lia)).
  assert (Hres : search self filter (Some d) (Some k)
                 = firstn (Z.to_nat k) (List.filter filter within)).
  { rewrite search_scan. cbn [nodes_within]. fold within.
    rewrite Hscan. reflexivity. }
  assert (Hvis : search_visits self filter (Some d) (Some k)
                 = scan_until filter (Z.to_nat k) within).
  { unfold search_visits. rewrite searchRecursive_visits_scan.
    cbn [nodes_within]. fold within. rewrite Hscan. reflexivity. }
  split; [exact Hres|]. split; [|split; [exact Hvis|split]].
  - rewrite Hres, length_firstn. lia.
  - rewrite Hvis. apply scan_until_prefix.
  - intro Hlen. rewrite Hvis. apply scan_until_stops; lia.
Qed.

(** With depth bound [0] only the start node is within reach. *)
Lemma preorder_depth_0 (self : HTMLNode) : preorder_depth 0 self = [self].
Proof. destruct self; reflexivity. Qed.

(** Without bounds the search returns every match, in document order. *)
Lemma search_unbounded (self : HTMLNode) (filter : HTMLNode -> bool) :
  search self filter None None = List.filter filter (preorder self).
Proof.
  rewrite search_scan. cbn [nodes_within]. rewrite scan_unbounded.
  reflexivity.
Qed.

(** C7 (defect of the code). The claim: for every cap [k], [search]
    returns at most [k] results. The code tests the cap after it has
    appended a match, so with [maxResults = 0] the first match is
    returned: on a single text node, with a filter that accepts every
    node, [search] returns one result. For every cap [k >= 1] the claim
    holds ([search_within_bounds]). *)
Theorem search_maxResults_zero_returns_one :
  let node := HTMLTextNode (lit "x") in
  search node (fun _ => true) None (Some 0%Z) = [node]
  /\ ~ (Z.of_nat (length (search node (fun _ => true) None (Some 0%Z)))
        <= 0)%Z.
Proof. split; [reflexivity | cbn; lia]. Qed.

(** ** C8: class matching *)

Section SplitFacts.

Variable sep : ascii.

(** The first token is the part of the string before the first
    separator; every other token follows a separator. *)
Lemma split_shape (s : str) :
  exists tok toks,
    split sep s = tok :: toks
    /\ ~ In sep tok
    /\ (exists after, s = tok ++ after /\ bounded_after sep after)
    /\ (forall c, In c toks ->
          ~ In sep c
          /\ exists b after, s = (b ++ [sep]) ++ c ++ after
                             /\ bounded_after sep after).
Proof.
  induction s
    as [|x s (tok & toks & Heq & Htok & (after & Hs & Hafter) & Htoks)].
  - exists [], []. simpl. split; [reflexivity|]. split; [auto|].
    split; [|intros tk []].
    exists []. split; [reflexivity | left; reflexivity].
  - simpl. destruct (Ascii.eqb x sep) eqn:Hx.
    + apply Ascii.eqb_eq in Hx. subst x.
      exists [], (split sep s). split; [reflexivity|]. split; [auto|].
      split.
      * exists (sep :: s). split; [reflexivity | right; eauto].
      * intros tk Hin. rewrite Heq in Hin.
        destruct Hin as [<- | Hin].
        -- split; [assumption|]. exists [], after. simpl.
           rewrite Hs at 1. auto.
        -- destruct (Htoks tk Hin) as (Htk & b & after' & Hs' & Ha').
           split; [assumption|].
           exists (sep :: b), after'. simpl. rewrite Hs' at 1. auto.
    + apply Ascii.eqb_neq in Hx. rewrite Heq.
      exists (x :: tok), toks. split; [reflexivity|]. split; [|split].
      * intros [Hin | Hin]; [congruence | contradiction].
      * exists after. simpl. rewrite Hs at 1. auto.
      * intros tk Hin.
        destruct (Htoks tk Hin) as (Htk & b & after' & Hs' & Ha').
        split; [assumption|].
        exists (x :: b), after'. simpl. rewrite Hs' at 1. auto.
Qed.

Lemma split_no_sep (c : str) : ~ In sep c -> split sep c = [c].
Proof.
  induction c as [|x c IH]; intro H; simpl; [reflexivity|].
  destruct (Ascii.eqb x sep) eqn:Hx.
  - apply Ascii.eqb_eq in Hx. subst x. exfalso. apply H. left. reflexivity.
  - rewrite IH; [reflexivity|]. intro Hin. apply H. right. exact Hin.
Qed.

Lemma split_app (a b : str) :
  split sep (a ++ sep :: b) = split sep a ++ split sep b.
Proof.
  induction a as [|x a IH]; simpl.
  - rewrite Ascii.eqb_refl. reflexivity.
  - destruct (Ascii.eqb x sep); [rewrite IH; reflexivity|].
    rewrite IH.
    destruct (split_shape a) as (tok & toks & Heq & _). rewrite Heq.
    reflexivity.
Qed.

(** The tokens of [split] are the runs between separators: a string is a
    token exactly when it holds no separator and occurs in [s] between
    two separators or ends of [s]. *)
Lemma In_split (s c : str) :
  In c (split sep s) <->
  ~ In sep c
  /\ exists before after,
       s = before ++ c ++ after
       /\ bounded_before sep before /\ bounded_after sep after.
Proof.
  split.
  - intro H.
    destruct (split_shape s)
      as (tok & toks & Heq & Htok & (after & Hs & Hafter) & Htoks).
    rewrite Heq in H. destruct H as [<- | Hin].
    + split; [assumption|]. exists [], after. simpl.
      repeat split; auto. left; reflexivity.
    + destruct (Htoks c Hin) as (Hc & b & after' & Hs' & Ha').
      split; [assumption|]. exists (b ++ [sep]), after'.
      repeat split; auto. right; eauto.
  - intros (Hc & before & after & Hs & Hb & Ha). subst s.
    assert (Htail : In c (split sep (c ++ after))).
    { destruct Ha as [-> | (a & ->)].
      - rewrite app_nil_r, split_no_sep by assumption. left; reflexivity.
      - rewrite split_app, split_no_sep by assumption. left; reflexivity. }
    destruct Hb as [-> | (b & ->)]; [exact Htail|].
    rewrite <- app_assoc. simpl. rewrite split_app.
    apply in_or_app. right. exact Htail.
Qed.

End SplitFacts.

(** C8 (the claim fails as stated). The class list written with a tab,
    [class="a<TAB>b"], has the whitespace-separated tokens [a] and [b], but
    [hasClass] splits on the space character only and does not find
    [a]. *)
Lemma hasClass_tab_separated_counterexample :
  let attributes := [(lit "class", ["a"; "009"; "b"])] in
  In (lit "a") (split_whitespace ["a"; "009"; "b"])
  /\ hasClass_whitespace attributes (lit "a") = true
  /\ hasClass attributes (lit "a") = false
  /\ getElementsByClassName (HTMLElementNode (lit "p") attributes [])
       (lit "a") = [].
Proof. repeat split; try reflexivity. vm_compute. auto. Qed.

(** C8 (amended). Class matching is exact membership among the tokens of
    the [class] attribute split on the space character: [hasClass]
    succeeds exactly when the element has a [class] attribute and the name
    holds no space and occurs in the value between two spaces or ends of
    the value (so a name is never matched as a part of a longer token, a
    tab or a newline does not separate tokens, and two spaces in a row
    make the empty name a token); [getElementsByClassName] returns, in
    document order, the elements of the subtree for which [hasClass]
    succeeds. *)
Theorem hasClass_space_tokens (attributes : dict) (className : str) :
  (hasClass attributes className = true <->
   exists value,
     dict_get (lit "class") attributes = Some value
     /\ ~ In " " className
     /\ exists before after,
          value = before ++ className ++ after
          /\ (before = [] \/ exists b, before = b ++ [" "])
          /\ (after = [] \/ exists a, after = " " :: a))
  /\ (forall self,
        getElementsByClassName self className
        = List.filter
            (fun node =>
               match node with
               | HTMLElementNode _ attributes _ =>
                   hasClass attributes className
               | _ => false
               end)
            (preorder self)).
Proof.
  split.
  - unfold hasClass.
    destruct (dict_get (lit "class") attributes) as [value|].
    + rewrite in_strs_In, In_split. split.
      * intros (Hc & before & after & Hs & Hb & Ha).
        exists value. split; [reflexivity|]. split; [assumption|].
        exists before, after. auto.
      * intros (value' & [= <-] & Hc & before & after & Hs & Hb & Ha).
        split; [assumption|]. exists before, after. auto.
    + split; [discriminate|]. intros (value & Hget & _). discriminate.
  - intro self. unfold getElementsByClassName. apply search_unbounded.
Qed.

(** ** The tag read in three parts *)

Lemma readTag_parts (html : str) (strict : bool) (position : nat) :
  _readTag html strict position
  = (h <- readTagHead html strict position ;;
     match h with
     | None => Ok None
     | Some (p, open, close, name) =>
         pa <- readTagAttributes html strict (S (length html)) p [] ;;
         readTagTail html strict position name open close (fst pa) (snd pa)
     end).
Proof.
  unfold _readTag, readTagHead, readTagTail, _htmlLength.
  destruct (getitem html position) as [c| |]; cbn [bind]; try reflexivity.
  destruct (negb (Ascii.eqb c "<")); [reflexivity|].
  destruct (getitem html (position + 1)) as [c1| |]; cbn [bind];
    try reflexivity.
  destruct (Ascii.eqb c1 "/").
  - destruct (_readTagName html strict _) as [[r|]| |]; cbn [bind];
      try reflexivity.
    destruct (readTagAttributes html strict _ _ _) as [[q attributes]| |];
      reflexivity.
  - destruct (_readTagName html strict _) as [[r|]| |]; cbn [bind];
      try reflexivity.
    destruct (readTagAttributes html strict _ _ _) as [[q attributes]| |];
      reflexivity.
Qed.

(** ** C1: an unresolved close segment in the child pass *)

(** What the child pass does when the recursive call for a child element
    hands back a segment: it compares the name of the open segment of that
    child with the name of the parent, and hands the open segment of the
    child, not the segment it received, to its own caller. *)
Lemma loadChildren_unresolved (html : str) (strict comments : bool)
  (fuel : nat) (parent : str) (children : list HTMLNode)
  (parser parser1 parser2 : HTMLParser) (e : HTMLParserElementSegment)
  (response : HTMLParserSegment) (node_children : list HTMLNode) :
  next html strict parser = Ok (Some (ElementSegment e), parser1) ->
  el_open e = true -> el_close e = false ->
  in_strs (el_name e) _voidTags = false ->
  _loadChildren html strict comments fuel (el_name e) [] parser1
  = Ok (Some response, node_children, parser2) ->
  _loadChildren html strict comments (S fuel) parent children parser
  = Ok (if str_eqb (el_name e) parent then None
        else Some (ElementSegment e),
        children ++ [HTMLElementNode (el_name e) (el_attributes e)
                       node_children],
        parser2).
Proof.
  intros Hnext Hopen Hclose Hvoid Hrec. cbn [_loadChildren].
  rewrite Hnext. cbn [bind]. rewrite Hopen, Hclose, Hvoid. cbn [negb andb].
  rewrite Hrec. cbn [bind].
  destruct (str_eqb (el_name e) parent); reflexivity.
Qed.

(** C1 (defect of the code). The claim: when a recursive call returns an
    unresolved close segment, the name of that close segment is compared
    with the name of the parent, and on a mismatch the same close segment
    goes one level up. The code compares the name of the child that was
    just opened and hands up the open segment of that child
    ([loadChildren_unresolved]). In lenient mode, on
    [<d><p>A<b>B</p>C</d>], the [</p>] that [b] does not match does not
    close [p]: it is taken up to the root, so [C] becomes a root node
    instead of a child of [d]. In strict mode a stray [</p>] below two
    [div]s is accepted, because the child [div] has the name of its
    parent. The scenario of the specification, [<p>A<b>B</p>], gives
    [p[A, b[B]]] in lenient mode and fails in strict mode with the error of
    an unmatched close tag. *)
Theorem loadChildren_compares_open_segment :
  HTMLDocument (lit "<d><p>A<b>B</p>C</d>") false false
  = Ok [HTMLElementNode (lit "d") []
          [HTMLElementNode (lit "p") []
             [HTMLTextNode (lit "A");
              HTMLElementNode (lit "b") [] [HTMLTextNode (lit "B")]]];
        HTMLTextNode (lit "C")]
  /\ HTMLDocument (lit "<div><div><span></p>") true false
     = Ok [HTMLElementNode (lit "div") []
             [HTMLElementNode (lit "div") []
                [HTMLElementNode (lit "span") [] []]]]
  /\ HTMLDocument (lit "<p>A<b>B</p>") false false
     = Ok [HTMLElementNode (lit "p") []
             [HTMLTextNode (lit "A");
              HTMLElementNode (lit "b") [] [HTMLTextNode (lit "B")]]]
  /\ HTMLDocument (lit "<p>A<b>B</p>") true false
     = Raise (NoMatchingOpen 0).
Proof. repeat split; vm_compute; reflexivity. Qed.

(** ** C6: the end of the input inside an element *)

(** When the child pass finds the end of the segments, strict mode raises
    [UnclosedElement] and lenient mode returns without a response, with
    the children read so far. *)
Lemma loadChildren_end_of_input (html : str) (strict comments : bool)
  (fuel : nat) (parent : str) (children : list HTMLNode)
  (parser parser1 : HTMLParser) :
  next html strict parser = Ok (None, parser1) ->
  _loadChildren html strict comments (S fuel) parent children parser
  = if strict then Raise UnclosedElement
    else Ok (None, children, parser1).
Proof.
  intro Hnext. cbn [_loadChildren]. rewrite Hnext. reflexivity.
Qed.


(** ** C9 and C5: one attribute *)

Lemma skipn_app_shift (A : Type) (l a b : list A) (p : nat) :
  skipn p l = a ++ b -> skipn (p + length a) l = b.
Proof.
  intro H. rewrite Nat.add_comm, <- skipn_skipn, H.
  rewrite skipn_app, skipn_all, Nat.sub_diag. reflexivity.
Qed.

Lemma skipn_cons_shift (A : Type) (l : list A) (x : A) (r : list A)
  (p : nat) :
  skipn p l = x :: r -> skipn (p + 1) l = r.
Proof. intro H. apply (skipn_app_shift A l [x] r p H). Qed.

Lemma slice_skipn (l a b : str) (p : nat) :
  skipn p l = a ++ b -> slice l p (p + length a) = a.
Proof.
  intro H. unfold slice. rewrite H.
  replace (p + length a - p) with (length a + 0) by lia.
  rewrite firstn_app_2. simpl. apply app_nil_r.
Qed.

(** A quoted run without the quote and without a backslash is read up
    to the closing quote. *)
Lemma readQuoted_loop_plain (quote : ascii) (body rest : str)
  (position : nat) :
  (forall c, In c body -> c <> quote /\ c <> "\") ->
  readQuoted_loop quote (body ++ quote :: rest) position
  = Some (position + length body + 1).
Proof.
  revert position; induction body as [|c body IH]; intros position H;
    cbn [app readQuoted_loop length].
  - rewrite Ascii.eqb_refl. f_equal. lia.
  - destruct (H c (or_introl eq_refl)) as [H1 H2].
    apply Ascii.eqb_neq in H1, H2. rewrite H1, H2.
    rewrite IH by (intros c' Hc'; apply H; right; exact Hc').
    f_equal. lia.
Qed.

(** The dictionary only decides, at the end of [_readTagAttribute],
    whether the attribute read is stored: the read itself is the one made
    with an empty dictionary. *)
Lemma readTagAttribute_dict (html : str) (strict : bool) (position : nat)
  (attributes : dict) :
  _readTagAttribute html strict position attributes
  = (a <- _readTagAttribute html strict position [] ;;
     match a with
     | Some (p, [(name, value)]) =>
         if strict && dict_mem name attributes then Ok None
         else Ok (Some (p, dict_set name value attributes))
     | _ => Ok None
     end).
Proof.
  unfold _readTagAttribute.
  destruct (_readTagAttributeProperty html strict _) as [[r|]| |];
    cbn [bind]; try reflexivity.
  destruct (getitem html (_readWhitespace html r)) as [c| |]; cbn [bind];
    try reflexivity.
  destruct (Ascii.eqb c "=").
  - destruct (_readTagAttributeValue html strict _) as [[r'|]| |];
      cbn [bind]; try reflexivity.
    cbn [dict_mem existsb dict_set]. rewrite andb_false_r. reflexivity.
  - cbn [bind dict_mem existsb dict_set]. rewrite andb_false_r.
    reflexivity.
Qed.

(** The name read in strict mode starts with a character that is neither
    ["/"] nor [">"]: the checks that follow the attribute loop in
    [_readTag] fail in front of it. *)
Lemma readTagAttributeProperty_first (html : str) (strict : bool)
  (position r : nat) :
  _readTagAttributeProperty html strict position = Ok (Some r) ->
  exists c, getitem html position = Ok c
            /\ (strict = true -> c <> "/" /\ c <> ">").
Proof.
  unfold _readTagAttributeProperty. intro H.
  destruct (getitem html position) as [c| |] eqn:Hc;
    [|destruct strict; discriminate..].
  exists c. split; [reflexivity|]. intros ->. cbn [bind] in H.
  destruct (in_chars c quotes) eqn:Hq; [discriminate|].
  unfold getitem in Hc.
  destruct (nth_error html position) as [c'|] eqn:Hn; [|discriminate].
  injection Hc as ->.
  destruct (nth_error_skipn_cons _ _ _ _ Hn) as [rest Hs].
  rewrite Hs in H.
  cbn [readTagAttributeProperty_loop] in H.
  destruct (isspace c || in_chars c ["="; "/"; ">"]) eqn:Hstop.
  - rewrite Nat.ltb_irrefl in H. discriminate.
  - apply orb_false_iff in Hstop as [_ Hstop]. cbn in Hstop.
    split; intros ->; discriminate.
Qed.

Lemma readWhitespace_idempotent (html : str) (position : nat) :
  _readWhitespace html (_readWhitespace html position)
  = _readWhitespace html position.
Proof.
  unfold _readWhitespace.
  assert (H : forall rest p,
             skipn (readWhitespace_loop rest p - p) rest
             = skipn (readWhitespace_loop rest p - p) rest
             /\ p <= readWhitespace_loop rest p
             /\ readWhitespace_loop
                  (skipn (readWhitespace_loop rest p - p) rest)
                  (readWhitespace_loop rest p)
                = readWhitespace_loop rest p).
  { induction rest as [|c rest IH]; intro p; cbn [readWhitespace_loop].
    - rewrite Nat.sub_diag. auto.
    - destruct (isspace c) eqn:Hc.
      + destruct (IH (p + 1)) as (_ & Hle & Heq).
        split; [reflexivity|]. split; [lia|].
        replace (readWhitespace_loop rest (p + 1) - p)
          with (S (readWhitespace_loop rest (p + 1) - (p + 1))) by lia.
        exact Heq.
      + rewrite Nat.sub_diag. cbn [skipn readWhitespace_loop].
        rewrite Hc. auto. }
  destruct (H (skipn position html) position) as (_ & Hle & Heq).
  set (q := readWhitespace_loop (skipn position html) position) in *.
  replace (skipn q html) with (skipn (q - position) (skipn position html));
    [exact Heq|].
  rewrite skipn_skipn. f_equal. lia.
Qed.

Lemma isspace_not_delimiter (c : ascii) :
  isspace c = true -> c <> "/" /\ c <> ">" /\ c <> "=" /\ c <> "<".
Proof. intro H. repeat split; intros ->; discriminate. Qed.

(** The character under the cursor in front of an attribute that can be
    read in strict mode is neither ["/"] nor [">"]. *)
Lemma readTagAttribute_first (html : str) (position p : nat) (a : dict) :
  _readTagAttribute html true position [] = Ok (Some (p, a)) ->
  exists c, getitem html position = Ok c /\ c <> "/" /\ c <> ">".
Proof.
  unfold _readTagAttribute. intro H.
  destruct (_readTagAttributeProperty html true (_readWhitespace html position))
    as [[r|]| |] eqn:Hprop; try discriminate.
  destruct (readTagAttributeProperty_first _ _ _ _ Hprop)
    as (c' & Hc' & Hnot).
  destruct (Hnot eq_refl) as [Hn1 Hn2]. clear H Hnot Hprop.
  unfold _readWhitespace in Hc'.
  destruct (skipn position html) as [|c rest] eqn:Hs.
  - cbn in Hc'. rewrite (getitem_skipn_nil _ _ Hs) in Hc'. discriminate.
  - rewrite (getitem_skipn_cons _ _ _ _ Hs). exists c.
    split; [reflexivity|]. cbn [readWhitespace_loop] in Hc'.
    destruct (isspace c) eqn:Hsp.
    + destruct (isspace_not_delimiter c Hsp) as (H1 & H2 & _). auto.
    + rewrite (getitem_skipn_cons _ _ _ _ Hs) in Hc'.
      injection Hc' as ->. auto.
Qed.

(** When the attribute loop ends, the last read of an attribute answered
    [None]. *)
Lemma readTagAttributes_stop (html : str) (strict : bool) (fuel : nat) :
  forall position attributes q attributes',
    readTagAttributes html strict fuel position attributes
    = Ok (q, attributes') ->
    _readTagAttribute html strict q attributes' = Ok None.
Proof.
  induction fuel as [|fuel IH]; intros position attributes q attributes' H;
    [discriminate|].
  cbn [readTagAttributes] in H.
  destruct (_readTagAttribute html strict position attributes)
    as [[[r a]|]| |] eqn:Hone; cbn [bind] in H; try discriminate.
  - apply IH in H. exact H.
  - injection H as <- <-. exact Hone.
Qed.

(** C5 (the claim fails as stated). In strict mode the input
    [<p><a x="1" x="2"></p>], whose tag [a] repeats the attribute [x], is
    not rejected: the tag is read as text and the document is built. In
    lenient mode the tag is read, with the later value. *)
Lemma duplicate_attribute_strict_builds_counterexample :
  HTMLDocument (lit "<p><a x='1' x='2'></p>") true false
  = Ok [HTMLElementNode (lit "p") []
          [HTMLTextNode (lit "<a x='1' x='2'>")]]
  /\ HTMLDocument (lit "<p><a x='1' x='2'></p>") false false
     = Ok [HTMLElementNode (lit "p") []
             [HTMLElementNode (lit "a") [(lit "x", lit "2")] []]].
Proof. split; vm_compute; reflexivity. Qed.

(** C5 (amended). In strict mode a repeated attribute name makes the tag
    read fail without an exception: [_readTagAttribute] answers [None] in
    front of an attribute whose name the dictionary of the tag already
    holds, and whenever the attribute loop of a tag stops in front of an
    attribute that can be read, [_readTag] answers [None] (the tokenizer
    then tries to read text at that place). In lenient mode the repeated
    attribute is accepted: its value replaces the one stored, in the same
    place of the dictionary. *)
Theorem duplicate_attribute_refused_not_fatal (html : str)
  (position p : nat) (name value : str) :
  (_readTagAttribute html true position [] = Ok (Some (p, [(name, value)])) ->
   (forall attributes,
      dict_mem name attributes = true ->
      _readTagAttribute html true position attributes = Ok None)
   /\ (forall start p0 open close tag attributes,
         readTagHead html true start = Ok (Some (p0, open, close, tag)) ->
         readTagAttributes html true (S (length html)) p0 []
         = Ok (position, attributes) ->
         dict_mem name attributes = true
         /\ _readTag html true start = Ok None))
  /\ (_readTagAttribute html false position [] = Ok (Some (p, [(name, value)])) ->
      forall attributes,
        _readTagAttribute html false position attributes
        = Ok (Some (p, dict_set name value attributes))
        /\ dict_get name (dict_set name value attributes) = Some value
        /\ (dict_mem name attributes = true ->
            length (dict_set name value attributes) = length attributes)).
Proof.
  split.
  - intro Hfresh. split.
    + intros attributes Hmem. rewrite readTagAttribute_dict, Hfresh.
      cbn [bind]. rewrite Hmem. reflexivity.
    + intros start p0 open close tag attributes Hhead Hloop.
      assert (Hmem : dict_mem name attributes = true).
      { apply readTagAttributes_stop in Hloop.
        rewrite readTagAttribute_dict, Hfresh in Hloop. cbn [bind] in Hloop.
        destruct (dict_mem name attributes); [reflexivity | discriminate]. }
      split; [exact Hmem|].
      rewrite readTag_parts, Hhead. cbn [bind]. rewrite Hloop.
      cbn [bind fst snd]. unfold readTagTail.
      destruct (negb open && (0 <? length attributes)); [reflexivity|].
      destruct (readTagAttribute_first _ _ _ _ Hfresh) as (c & Hc & H1 & H2).
      rewrite Hc. cbn [bind].
      apply Ascii.eqb_neq in H1, H2. rewrite H1. cbn [andb negb].
      rewrite Hc. cbn [bind]. rewrite H2. reflexivity.
  - intros Hfresh attributes. split; [|split].
    + rewrite readTagAttribute_dict, Hfresh. reflexivity.
    + apply dict_get_set_same.
    + intro Hmem. induction attributes as [|[k v] attributes IH];
        [discriminate|].
      cbn [dict_set]. destruct (str_eqb name k) eqn:Hk; [reflexivity|].
      cbn [length]. f_equal. apply IH. cbn in Hmem. rewrite Hk in Hmem.
      exact Hmem.
Qed.

Lemma duplicate_attribute_refused_not_fatal_witness :
  ((forall attributes,
      dict_mem (lit "x") attributes = true ->
      _readTagAttribute (lit "<a x='1' x='2'>") true 9 attributes
      = Ok None)
   /\ (forall start p0 open close tag attributes,
         readTagHead (lit "<a x='1' x='2'>") true start
         = Ok (Some (p0, open, close, tag)) ->
         readTagAttributes (lit "<a x='1' x='2'>") true 16 p0 []
         = Ok (9, attributes) ->
         dict_mem (lit "x") attributes = true
         /\ _readTag (lit "<a x='1' x='2'>") true start = Ok None))
  /\ (forall attributes,
        _readTagAttribute (lit "<a x='1' x='2'>") false 9 attributes
        = Ok (Some (14, dict_set (lit "x") (lit "2") attributes))
        /\ dict_get (lit "x") (dict_set (lit "x") (lit "2") attributes)
           = Some (lit "2")
        /\ (dict_mem (lit "x") attributes = true ->
            length (dict_set (lit "x") (lit "2") attributes)
            = length attributes)).
Proof.
  split.
  - apply (proj1 (duplicate_attribute_refused_not_fatal
                    (lit "<a x='1' x='2'>") 9 14 (lit "x") (lit "2"))).
    reflexivity.
  - apply (proj2 (duplicate_attribute_refused_not_fatal
                    (lit "<a x='1' x='2'>") 9 14 (lit "x") (lit "2"))).
    reflexivity.
Defined.

(** For an element that is not the doctype every attribute is written
    as [key="value"], whatever the value. *)
Lemma writeAttributes_element (name : str) (attributes : dict) :
  str_eqb name (lit "!doctype") = false ->
  writeAttributes name attributes
  = flat_map
      (fun kv => lit " " ++ fst kv ++ lit "=" ++ [dquote] ++ snd kv
                 ++ [dquote])
      attributes.
Proof.
  intro H. induction attributes as [|[key value] attributes IH];
    [reflexivity|].
  cbn [writeAttributes flat_map fst snd]. rewrite H, IH. reflexivity.
Qed.



(** The two spellings on a whole tag, in both modes, and the two ways the
    value is written. *)
Lemma bare_attribute_examples :
  (forall strict,
     option_map el_attributes
       (match _readTag (lit "<a x>") strict 0 with
        | Ok e => e | _ => None end)
     = Some [(lit "x", lit "true")]
     /\ option_map el_attributes
          (match _readTag (lit "<a x='true'>") strict 0 with
           | Ok e => e | _ => None end)
        = Some [(lit "x", lit "true")])
  /\ write false 2 false true false 20
       [HTMLElementNode (lit "a") [(lit "x", lit "true")] []]
     = lit "<a x=" ++ quoted (lit "true") ++ lit " />"
  /\ write false 2 false true false 20
       [HTMLElementNode (lit "!doctype") [(lit "html", lit "true")] []]
     = lit "<!DOCTYPE html>".
Proof.
  split; [intros [|]; split; reflexivity | split; reflexivity].
Qed.

(** ** C2: what an emitted segment keeps of the source *)

Section SegmentText.

Variable html : str.
Variable strict : bool.

Lemma readTag_text (position : nat) (e : HTMLParserElementSegment) :
  _readTag html strict position = Ok (Some e) ->
  seg_text_ok html (ElementSegment e).
Proof.
  rewrite readTag_parts.
  destruct (readTagHead html strict position) as [[[[[p open] close] name]|]| |];
    cbn [bind]; try discriminate.
  destruct (readTagAttributes html strict _ p []) as [[q attributes]| |];
    cbn [bind fst snd]; try discriminate.
  unfold readTagTail.
  destruct (negb open && (0 <? length attributes)); [discriminate|].
  destruct (getitem html q) as [c| |]; cbn [bind]; try discriminate.
  destruct (Ascii.eqb c "/" && strict && close); [discriminate|].
  destruct (if Ascii.eqb c "/" then (q + 1, true) else (q, close))
    as [q' close'].
  destruct (getitem html _) as [c'| |]; cbn [bind]; try discriminate.
  destruct (Ascii.eqb c' ">"); [|discriminate].
  intros [= <-]. reflexivity.
Qed.

Lemma readComment_text (position : nat) (s : HTMLParserSegment) :
  _readComment html position = Some s -> seg_text_ok html s.
Proof.
  unfold _readComment.
  destruct (str_eqb _ _); [|discriminate].
  destruct (find html _ _); [|discriminate].
  intros [= <-]. reflexivity.
Qed.

Lemma readSpecialContextTagEnd_text (position : nat) (contextTag : str)
  (e : HTMLParserElementSegment) :
  _readSpecialContextTagEnd html strict position contextTag = Ok (Some e) ->
  seg_text_ok html (ElementSegment e).
Proof.
  unfold _readSpecialContextTagEnd.
  destruct (_readTag html strict position) as [[e'|]| |] eqn:Htag;
    cbn [bind]; try discriminate.
  destruct (negb (el_open e') && el_close e' && str_eqb (el_name e') contextTag);
    [|discriminate].
  intros [= <-]. exact (readTag_text _ _ Htag).
Qed.

Lemma readText_loop_text (rest : str) :
  forall position s,
    readText_loop html strict rest position = Ok (Some s) ->
    seg_text_ok html s.
Proof.
  induction rest as [|c rest IH]; intros position s; cbn [readText_loop];
    [discriminate|].
  destruct (Ascii.eqb c "<"); [|apply IH].
  destruct (_readComment html position) as [sc|] eqn:Hc.
  - intros [= <-]. exact (readComment_text _ _ Hc).
  - destruct (_readTag html strict position) as [[e|]| |] eqn:Ht;
      cbn [bind]; try discriminate.
    + intros [= <-]. exact (readTag_text _ _ Ht).
    + apply IH.
Qed.

Lemma readSpecialContextText_loop_text (contextTag : str) (rest : str) :
  forall position s,
    readSpecialContextText_loop html strict contextTag rest position
    = Ok (Some s) ->
    seg_text_ok html s.
Proof.
  induction rest as [|c rest IH]; intros position s;
    cbn [readSpecialContextText_loop]; [discriminate|].
  destruct (Ascii.eqb c "<"); [|apply IH].
  destruct (_readSpecialContextTagEnd html strict position contextTag)
    as [[e|]| |] eqn:Ht; cbn [bind]; try discriminate.
  - intros [= <-]. exact (readSpecialContextTagEnd_text _ _ _ Ht).
  - apply IH.
Qed.

(** A call of [next] emits a segment that keeps its slice of the source,
    and leaves such a segment, if any, in the cache. *)
Lemma next_text (self self' : HTMLParser) (s : option HTMLParserSegment) :
  cache_ok html self ->
  next html strict self = Ok (s, self') ->
  cache_ok html self'
  /\ match s with Some s => seg_text_ok html s | None => True end.
Proof.
  unfold cache_ok, next, emit. intro Hcache.
  destruct (_readWhitespace html (_position self) =? _htmlLength html).
  { intros [= <- <-]. cbn. auto. }
  cbn [_segmentNext].
  destruct (_segmentNext self) as [sn|].
  { intros [= <- <-]. cbn. auto. }
  destruct (specialContext (_segmentCurrent self)) as [name|].
  - destruct (_readSpecialContextTagEnd html strict _ name)
      as [[e|]| |] eqn:He; cbn [bind]; try discriminate.
    + intros [= <- <-]. cbn [_segmentNext]. split; [exact I|].
      exact (readSpecialContextTagEnd_text _ _ _ He).
    + unfold _readSpecialContextText.
      destruct (readSpecialContextText_loop html strict name _ _)
        as [[sn|]| |] eqn:Hl; cbn [bind]; try discriminate.
      * intros [= <- <-]. cbn [_segmentNext]. split; [|reflexivity].
        exact (readSpecialContextText_loop_text _ _ _ _ Hl).
      * destruct (negb strict); cbn [bind].
        -- intros [= <- <-]. cbn. auto.
        -- intros [= <- <-]. cbn. auto.
  - destruct (_readComment html _) as [sc|] eqn:Hc.
    + intros [= <- <-]. cbn [_segmentNext]. split; [exact I|].
      exact (readComment_text _ _ Hc).
    + destruct (_readTag html strict _) as [[e|]| |] eqn:Ht; cbn [bind];
        try discriminate.
      * intros [= <- <-]. cbn [_segmentNext]. split; [exact I|].
        exact (readTag_text _ _ Ht).
      * unfold _readText.
        destruct (readText_loop html strict _ _) as [[sn|]| |] eqn:Hl;
          cbn [bind]; try discriminate.
        -- intros [= <- <-]. cbn [_segmentNext]. split; [|reflexivity].
           exact (readText_loop_text _ _ _ Hl).
        -- destruct (negb strict); cbn [bind].
           ++ intros [= <- <-]. cbn. auto.
           ++ discriminate.
Qed.

Lemma segments_text (fuel : nat) :
  forall self l,
    cache_ok html self ->
    segments html strict fuel self = Ok l ->
    Forall (seg_text_ok html) l.
Proof.
  induction fuel as [|fuel IH]; intros self l Hcache; [discriminate|].
  cbn [segments].
  destruct (next html strict self) as [[[s|] self']| |] eqn:Hnext;
    cbn [bind]; try discriminate.
  - destruct (next_text _ _ _ Hcache Hnext) as [Hcache' Hs].
    destruct (segments html strict fuel self') as [l'| |] eqn:Hrest;
      cbn [bind]; try discriminate.
    intros [= <-]. constructor; [exact Hs|].
    exact (IH _ _ Hcache' Hrest).
  - intros [= <-]. constructor.
Qed.

End SegmentText.


(** ** C2: the tokenizer on a well-formed document *)

(** *** Character classes *)

Ltac ascii_cases c :=
  destruct c as [[|] [|] [|] [|] [|] [|] [|] [|]];
  try reflexivity; try discriminate.

Lemma wordchar_not_stop (c : ascii) :
  wordchar c = true -> isspace c || in_chars c ["/"; ">"] = false.
Proof. ascii_cases c. Qed.

Lemma isalpha_not_stop (c : ascii) :
  isalpha c = true -> isspace c || in_chars c ["/"; ">"] = false.
Proof. ascii_cases c. Qed.

Lemma isalpha_not_special (c : ascii) :
  isalpha c = true ->
  Ascii.eqb c "!" = false /\ Ascii.eqb (upper_char c) "!" = false
  /\ Ascii.eqb c "/" = false /\ Ascii.eqb c "<" = false
  /\ in_chars c quotes = false /\ isspace c = false.
Proof. ascii_cases c; repeat split; reflexivity. Qed.

Lemma wordchar_strict_check (c : ascii) :
  wordchar c = true ->
  negb (isalnum c) && negb (in_chars c ["-"; "_"; "."]) = false.
Proof.
  unfold wordchar. destruct (isalnum c); [reflexivity|].
  cbn [orb negb andb]. intros ->. reflexivity.
Qed.

Lemma attr_char_not_stop (c : ascii) :
  attr_char_ok c = true ->
  isspace c || in_chars c ["="; "/"; ">"] = false.
Proof.
  unfold attr_char_ok. destruct (isspace c); [discriminate|].
  cbn [negb andb orb]. destruct (in_chars c ["="; "/"; ">"]);
    [discriminate | reflexivity].
Qed.

Lemma attr_char_not_space (c : ascii) :
  attr_char_ok c = true -> isspace c = false.
Proof.
  unfold attr_char_ok. destruct (isspace c); [discriminate | reflexivity].
Qed.

Lemma attr_char_not_eq (c : ascii) :
  attr_char_ok c = true -> Ascii.eqb c "=" = false.
Proof.
  unfold attr_char_ok. destruct (isspace c); [discriminate|].
  cbn [negb andb in_chars existsb]. destruct (Ascii.eqb c "=");
    [discriminate | reflexivity].
Qed.

(** *** Leading and trailing whitespace *)

Lemma readWhitespace_loop_skip (ws rest : str) (p : nat) :
  forallb isspace ws = true ->
  readWhitespace_loop (ws ++ rest) p
  = readWhitespace_loop rest (p + length ws).
Proof.
  revert p; induction ws as [|c ws IH]; intros p H; cbn [app length].
  - rewrite Nat.add_0_r. reflexivity.
  - cbn [forallb] in H. apply andb_true_iff in H as [Hc Hws].
    cbn [readWhitespace_loop]. rewrite Hc, IH by assumption.
    f_equal. lia.
Qed.

Lemma readWhitespace_at (html ws : str) (c : ascii) (rest : str) (p : nat) :
  skipn p html = ws ++ c :: rest ->
  forallb isspace ws = true -> isspace c = false ->
  _readWhitespace html p = p + length ws.
Proof.
  intros Hs Hws Hc. unfold _readWhitespace.
  rewrite Hs, readWhitespace_loop_skip by assumption.
  cbn [readWhitespace_loop]. rewrite Hc. reflexivity.
Qed.

Lemma readWhitespace_here (html : str) (c : ascii) (rest : str) (p : nat) :
  skipn p html = c :: rest -> isspace c = false ->
  _readWhitespace html p = p.
Proof.
  intros Hs Hc.
  rewrite (readWhitespace_at html [] c rest p Hs eq_refl Hc).
  cbn. lia.
Qed.

Lemma readWhitespace_end (html ws : str) (p : nat) :
  skipn p html = ws -> forallb isspace ws = true ->
  _readWhitespace html p = p + length ws.
Proof.
  intros Hs Hws. unfold _readWhitespace.
  rewrite Hs, <- (app_nil_r ws), readWhitespace_loop_skip by assumption.
  rewrite app_nil_r. reflexivity.
Qed.

Lemma skipn_cons_lt (A : Type) (l : list A) (p : nat) (x : A) (r : list A) :
  skipn p l = x :: r -> p < length l.
Proof.
  intro H. apply skipn_cons_nth in H as [H _].
  apply nth_error_Some. rewrite H. discriminate.
Qed.

Lemma lstrip_app_nonspace (ws : str) (c : ascii) (rest : str) :
  forallb isspace ws = true -> isspace c = false ->
  lstrip (ws ++ c :: rest) = c :: rest.
Proof.
  induction ws as [|x ws IH]; intros Hws Hc; cbn [app lstrip].
  - rewrite Hc. reflexivity.
  - cbn [forallb] in Hws. apply andb_true_iff in Hws as [Hx Hws].
    rewrite Hx. apply IH; assumption.
Qed.

Lemma lstrip_all_space (ws : str) :
  forallb isspace ws = true -> lstrip ws = [].
Proof.
  induction ws as [|x ws IH]; intro H; cbn [lstrip]; [reflexivity|].
  cbn [forallb] in H. apply andb_true_iff in H as [Hx Hws].
  rewrite Hx. apply IH; assumption.
Qed.

(** A string splits into its leading whitespace and the rest. *)
Lemma lstrip_split (s : str) :
  exists ws, s = ws ++ lstrip s /\ forallb isspace ws = true
             /\ length ws = length s - length (lstrip s).
Proof.
  induction s as [|c s (ws & Hs & Hws & Hlen)]; cbn [lstrip].
  - exists []. auto.
  - destruct (isspace c) eqn:Hc.
    + exists (c :: ws). cbn [app forallb length]. rewrite Hc, Hws.
      split; [f_equal; exact Hs|]. split; [reflexivity|].
      assert (length (lstrip s) <= length s).
      { rewrite Hs at 2. rewrite length_app. lia. }
      lia.
    + exists []. cbn. split; [reflexivity|]. split; [reflexivity|]. lia.
Qed.

Lemma lstrip_head (s : str) (c : ascii) (r : str) :
  lstrip s = c :: r -> isspace c = false.
Proof.
  induction s as [|x s IH]; cbn [lstrip]; [discriminate|].
  destruct (isspace x) eqn:Hx; [exact IH|].
  intros [= <- _]. exact Hx.
Qed.

Lemma lstrip_nonempty (s : str) :
  forallb isspace s = false -> exists c r, lstrip s = c :: r.
Proof.
  induction s as [|x s IH]; cbn [forallb lstrip]; [discriminate|].
  destruct (isspace x); [exact IH | eauto].
Qed.

Lemma lstrip_idempotent (s : str) : lstrip (lstrip s) = lstrip s.
Proof.
  destruct (lstrip s) as [|c r] eqn:E; [reflexivity|].
  cbn [lstrip]. rewrite (lstrip_head _ _ _ E). reflexivity.
Qed.

Lemma lstrip_app_space (s ws : str) :
  forallb isspace ws = true -> forallb isspace s = false ->
  lstrip (s ++ ws) = lstrip s ++ ws.
Proof.
  induction s as [|x s IH]; cbn [forallb]; [discriminate|].
  intros Hws H. cbn [app lstrip]. destruct (isspace x); [|reflexivity].
  apply IH; assumption.
Qed.

Lemma forallb_isspace_rev (s : str) :
  forallb isspace (rev s) = forallb isspace s.
Proof.
  induction s as [|x s IH]; [reflexivity|].
  cbn [rev forallb]. rewrite forallb_app, IH. cbn [forallb].
  rewrite andb_true_r. apply andb_comm.
Qed.

(** Whitespace around a string does not change what [strip] gives. *)
Lemma strip_pad (a s b : str) :
  forallb isspace a = true -> forallb isspace b = true ->
  strip (a ++ s ++ b) = strip s.
Proof.
  intros Ha Hb. unfold strip, rstrip.
  destruct (forallb isspace s) eqn:Hs.
  - rewrite (lstrip_all_space (a ++ s ++ b)), (lstrip_all_space s);
      [reflexivity | assumption |].
    rewrite !forallb_app, Ha, Hs, Hb. reflexivity.
  - destruct (lstrip_nonempty s Hs) as (c & r & Hl).
    destruct (lstrip_split s) as (ws & Hsplit & Hws & _).
    assert (Hlead : lstrip (a ++ s ++ b) = lstrip s ++ b).
    { rewrite Hsplit at 1. rewrite Hl, <- !app_assoc.
      rewrite app_assoc. cbn [app].
      rewrite (lstrip_app_nonspace (a ++ ws) c (r ++ b));
        [reflexivity | rewrite forallb_app, Ha, Hws; reflexivity |].
      exact (lstrip_head _ _ _ Hl). }
    rewrite Hlead, rev_app_distr.
    assert (Hr : forallb isspace (rev (lstrip s)) = false).
    { rewrite forallb_isspace_rev, Hl. cbn [forallb].
      rewrite (lstrip_head _ _ _ Hl). reflexivity. }
    destruct (lstrip_nonempty _ Hr) as (c' & r' & Hl').
    destruct (lstrip_split (rev (lstrip s))) as (ws' & Hsplit' & Hws' & _).
    rewrite Hsplit' at 1. rewrite Hl', app_assoc.
    rewrite (lstrip_app_nonspace (rev b ++ ws') c' r');
      [reflexivity | rewrite forallb_app, forallb_isspace_rev, Hb, Hws';
                     reflexivity |].
    exact (lstrip_head _ _ _ Hl').
Qed.

Lemma strip_no_space (s : str) :
  forallb (fun c => negb (isspace c)) s = true -> strip s = s.
Proof.
  intro H. unfold strip, rstrip.
  assert (Hl : forall t, forallb (fun c => negb (isspace c)) t = true ->
                         lstrip t = t).
  { intros [|c t]; cbn [forallb lstrip]; [reflexivity|].
    intro Ht. apply andb_true_iff in Ht as [Hc _].
    apply negb_true_iff in Hc. rewrite Hc. reflexivity. }
  rewrite (Hl s H), Hl; [apply rev_involutive|].
  rewrite forallb_forall in *. intros c Hc. apply H.
  apply in_rev. exact Hc.
Qed.

(** *** The name of a tag *)

Section ReadName.

Variable html : str.
Variable strict : bool.

Lemma readTagName_loop_tail (r : str) (d : ascii) (rest : str)
  (start p : nat) :
  forallb wordchar r = true ->
  isspace d || in_chars d ["/"; ">"] = true ->
  start < p ->
  readTagName_loop strict (r ++ d :: rest) start p = Some (p + length r).
Proof.
  revert p; induction r as [|c r IH]; intros p Hr Hd Hp;
    cbn [app length readTagName_loop].
  - rewrite Hd. f_equal. lia.
  - cbn [forallb] in Hr. apply andb_true_iff in Hr as [Hc Hr].
    rewrite (wordchar_not_stop c Hc).
    replace (p =? start) with false
      by (symmetry; apply Nat.eqb_neq; lia).
    rewrite (wordchar_strict_check c Hc), andb_false_r.
    rewrite IH by (try assumption; lia). f_equal. lia.
Qed.

Lemma readTagName_loop_name (n : str) (d : ascii) (rest : str) (p : nat) :
  tag_name_ok n = true ->
  isspace d || in_chars d ["/"; ">"] = true ->
  readTagName_loop strict (n ++ d :: rest) p p = Some (p + length n).
Proof.
  destruct n as [|c r]; [discriminate|]. cbn [tag_name_ok].
  intros Hn Hd. apply andb_true_iff in Hn as [Hc Hr].
  cbn [app length readTagName_loop].
  rewrite (isalpha_not_stop c Hc), Nat.eqb_refl, Hc.
  cbn [negb andb]. rewrite andb_false_r.
  rewrite readTagName_loop_tail by (try assumption; lia).
  f_equal. lia.
Qed.

Lemma slice_prefix (a b : str) (p n : nat) :
  skipn p html = a ++ b -> slice html p (p + n) = firstn n (a ++ b).
Proof.
  intro H. unfold slice. rewrite H. f_equal. lia.
Qed.

(** The name of an element is not taken for the doctype. *)
Lemma readTagNameDoctype_name (c : ascii) (rest : str) (p : nat) :
  skipn p html = c :: rest -> isalpha c = true ->
  _readTagNameDoctype html strict p = Ok None.
Proof.
  intros Hs Hc. unfold _readTagNameDoctype.
  destruct (isalpha_not_special c Hc) as (H1 & H2 & _).
  rewrite (slice_prefix [c] rest p _ Hs).
  cbn [lit String.list_ascii_of_string length app firstn upper map
       str_eqb].
  rewrite H1, H2. cbn [andb orb]. rewrite andb_false_r, andb_false_r.
  reflexivity.
Qed.

Lemma readTagName_name (n : str) (d : ascii) (rest : str) (p : nat) :
  skipn p html = n ++ d :: rest ->
  tag_name_ok n = true ->
  isspace d || in_chars d ["/"; ">"] = true ->
  _readTagName html strict p = Ok (Some (p + length n)).
Proof.
  intros Hs Hn Hd. unfold _readTagName.
  destruct n as [|c r] eqn:En; [discriminate|].
  assert (Hc : isalpha c = true).
  { cbn [tag_name_ok] in Hn. apply andb_true_iff in Hn as [Hc _].
    exact Hc. }
  rewrite (readTagNameDoctype_name c (r ++ d :: rest) p Hs Hc).
  cbn [bind]. rewrite Hs, <- En in *.
  rewrite readTagName_loop_name by assumption.
  replace (p <? p + length n) with true
    by (symmetry; apply Nat.ltb_lt; rewrite En; cbn; lia).
  reflexivity.
Qed.

Lemma readTagName_doctype (d : ascii) (rest : str) (p : nat) :
  skipn p html = lit "!DOCTYPE" ++ d :: rest ->
  isspace d || in_chars d ["/"; ">"] = true ->
  _readTagName html strict p = Ok (Some (p + 8)).
Proof.
  intros Hs Hd. unfold _readTagName, _readTagNameDoctype.
  change (length (lit "!DOCTYPE")) with 8.
  assert (Hd' : skipn (p + 8) html = d :: rest)
    by (apply (skipn_app_shift _ html (lit "!DOCTYPE")); exact Hs).
  replace (p + 8 <? _htmlLength html) with true
    by (symmetry; apply Nat.ltb_lt; exact (skipn_cons_lt _ _ _ _ _ Hd')).
  change (slice html p (p + 8))
    with (slice html p (p + length (lit "!DOCTYPE"))).
  rewrite (slice_skipn html (lit "!DOCTYPE") (d :: rest) p Hs).
  cbn [andb orb str_eqb lit String.list_ascii_of_string Ascii.eqb
       Bool.eqb].
  rewrite (getitem_skipn_cons _ _ _ _ Hd'). cbn [bind].
  rewrite Hd. reflexivity.
Qed.

Lemma unwrap_plain (s : str) :
  match s with c :: _ => in_chars c quotes = false | [] => True end ->
  _unwrap s = s.
Proof.
  unfold _unwrap. destruct s as [|c s]; [reflexivity|].
  cbn [startswith in_chars existsb quotes]. intro H.
  apply orb_false_iff in H as [H1 H2].
  apply orb_false_iff in H2 as [H2 _].
  rewrite H1, H2. reflexivity.
Qed.

Lemma unwrap_quoted (v : str) : _unwrap (quoted v) = v.
Proof.
  unfold _unwrap, quoted. cbn [startswith]. rewrite Ascii.eqb_refl.
  cbn [andb orb]. unfold slice. cbn [skipn length].
  rewrite length_app. cbn [length].
  replace (S (length v + 1) - 1 - 1) with (length v + 0) by lia.
  rewrite firstn_app_2. cbn [firstn]. apply app_nil_r.
Qed.

(** The name stored for a well-formed tag name. *)
Lemma name_ok_unwrap (n : str) : name_ok n = true -> _unwrap n = n.
Proof.
  intro H. apply unwrap_plain. destruct n as [|c r]; [exact I|].
  unfold name_ok in H. apply orb_true_iff in H as [H | H].
  - apply str_eqb_eq in H. injection H as -> _. reflexivity.
  - cbn [tag_name_ok] in H. apply andb_true_iff in H as [Hc _].
    apply (isalpha_not_special c Hc).
Qed.

End ReadName.

(** *** The attributes of a tag *)

Lemma render_attribute_body (a : str * option str) :
  render_attribute a = " " :: attribute_body a.
Proof. destruct a as [k [v|]]; reflexivity. Qed.

Lemma tail_text_cons (a : str * option str)
  (attributes : list (str * option str)) (e : slash) :
  tail_text (a :: attributes) e
  = " " :: attribute_body a ++ tail_text attributes e.
Proof.
  unfold tail_text. cbn [flat_map]. rewrite render_attribute_body.
  cbn [app]. rewrite <- app_assoc. reflexivity.
Qed.

Lemma attr_name_head (k : str) :
  attr_name_ok k = true ->
  exists c k', k = c :: k' /\ in_chars c quotes = false
               /\ attr_char_ok c = true /\ forallb attr_char_ok k = true.
Proof.
  destruct k as [|c k']; [discriminate|]. cbn [attr_name_ok].
  intro H. apply andb_true_iff in H as [Hq Hall].
  exists c, k'. apply negb_true_iff in Hq. repeat split; auto.
  cbn [forallb] in Hall. apply andb_true_iff in Hall as [Hc _]. exact Hc.
Qed.

Lemma attribute_body_head (a : str * option str) :
  attribute_ok a = true ->
  exists c t, attribute_body a = c :: t /\ attr_char_ok c = true.
Proof.
  unfold attribute_ok. intro H. apply andb_true_iff in H as [Hk _].
  destruct (attr_name_head _ Hk) as (c & k' & Ek & _ & Hc & _).
  unfold attribute_body. rewrite Ek. cbn [app]. eauto.
Qed.

(** What follows the name of a tag, or one of its attributes: at most one
    space, then the next attribute or the end of the tag. *)
Lemma tail_text_split (attributes : list (str * option str)) (e : slash) :
  forallb attribute_ok attributes = true ->
  exists ws c t,
    tail_text attributes e = ws ++ c :: t
    /\ forallb isspace ws = true
    /\ lstrip (tail_text attributes e) = c :: t
    /\ isspace c = false /\ Ascii.eqb c "=" = false
    /\ c :: t = match attributes with
                | a :: attributes' =>
                    attribute_body a ++ tail_text attributes' e
                | [] => end_text e
                end.
Proof.
  intro H. destruct attributes as [|a attributes].
  - destruct e; [exists [] | exists [] | exists [" "]];
      eexists; eexists; repeat split; reflexivity.
  - cbn [forallb] in H. apply andb_true_iff in H as [Ha _].
    destruct (attribute_body_head a Ha) as (c & t & Eb & Hc).
    rewrite tail_text_cons, Eb. cbn [app].
    exists [" "], c, (t ++ tail_text attributes e).
    assert (Hs := attr_char_not_space c Hc).
    split; [reflexivity|]. split; [reflexivity|].
    split; [cbn; rewrite Hs; reflexivity|].
    split; [exact Hs|]. split; [apply attr_char_not_eq; exact Hc|].
    reflexivity.
Qed.

Lemma tail_text_head (attributes : list (str * option str)) (e : slash) :
  exists d t,
    tail_text attributes e = d :: t
    /\ isspace d || in_chars d ["/"; ">"] = true
    /\ isspace d || in_chars d ["="; "/"; ">"] = true.
Proof.
  destruct attributes as [|a attributes].
  - destruct e; eexists; eexists; repeat split; reflexivity.
  - rewrite tail_text_cons. eexists; eexists; repeat split; reflexivity.
Qed.

Section ReadAttributes.

Variable html : str.
Variable strict : bool.

Lemma readTagAttributeProperty_loop_name (k : str) (d : ascii)
  (rest : str) (p : nat) :
  forallb attr_char_ok k = true ->
  isspace d || in_chars d ["="; "/"; ">"] = true ->
  readTagAttributeProperty_loop strict (k ++ d :: rest) p
  = Some (p + length k).
Proof.
  revert p; induction k as [|c k IH]; intros p Hk Hd;
    cbn [app length readTagAttributeProperty_loop].
  - rewrite Hd. f_equal. lia.
  - cbn [forallb] in Hk. apply andb_true_iff in Hk as [Hc Hk].
    rewrite (attr_char_not_stop c Hc). cbn [negb].
    rewrite andb_false_r. cbn [andb].
    rewrite IH by assumption. f_equal. lia.
Qed.

(** The name of an attribute that starts at [p]. *)
Lemma readTagAttributeProperty_name (k : str) (d : ascii) (rest : str)
  (p : nat) :
  skipn p html = k ++ d :: rest ->
  attr_name_ok k = true ->
  isspace d || in_chars d ["="; "/"; ">"] = true ->
  _readTagAttributeProperty html strict p = Ok (Some (p + length k)).
Proof.
  intros Hs Hk Hd.
  destruct (attr_name_head k Hk) as (c & k' & Ek & Hq & Hc & Hall).
  unfold _readTagAttributeProperty.
  assert (Hget : getitem html p = Ok c).
  { apply (getitem_skipn_cons html p c (k' ++ d :: rest)).
    rewrite Hs, Ek. reflexivity. }
  rewrite Hget.
  assert (Hquoted :
    (if strict then (c0 <- Ok c ;; Ok (in_chars c0 quotes)) else Ok false)
    = Ok false).
  { destruct strict; [cbn [bind]; rewrite Hq|]; reflexivity. }
  rewrite Hquoted. cbn [bind]. rewrite Hq, Hs.
  rewrite readTagAttributeProperty_loop_name by assumption.
  replace (p <? p + length k) with true
    by (symmetry; apply Nat.ltb_lt; rewrite Ek; cbn; lia).
  reflexivity.
Qed.

(** No attribute starts on the end of the tag. *)
Lemma readTagAttribute_end (e : slash) (following : str) (p : nat)
  (attributes : dict) :
  skipn p html = end_text e ++ following ->
  _readTagAttribute html strict p attributes = Ok None.
Proof.
  intro Hs.
  assert (H : exists c t, skipn p html = c :: t
                          /\ isspace c = false
                          /\ in_chars c quotes = false
                          /\ isspace c || in_chars c ["="; "/"; ">"] = true).
  { rewrite Hs. destruct e; eexists; eexists; repeat split; reflexivity. }
  destruct H as (c & t & Hc & Hsp & Hq & Hstop).
  unfold _readTagAttribute.
  rewrite (readWhitespace_here html c t p Hc Hsp).
  unfold _readTagAttributeProperty.
  rewrite (getitem_skipn_cons _ _ _ _ Hc).
  assert (Hquoted :
    (if strict then (c0 <- Ok c ;; Ok (in_chars c0 quotes)) else Ok false)
    = Ok false).
  { destruct strict; [cbn [bind]; rewrite Hq|]; reflexivity. }
  rewrite Hquoted. cbn [bind]. rewrite Hq, Hc.
  cbn [readTagAttributeProperty_loop]. rewrite Hstop.
  rewrite Nat.ltb_irrefl. reflexivity.
Qed.

Lemma value_ok_plain (v : str) :
  value_ok v = true -> forall c, In c v -> c <> dquote /\ c <> "\".
Proof.
  unfold value_ok. rewrite forallb_forall. intros H c Hc.
  specialize (H c Hc). apply andb_true_iff in H as [H1 H2].
  apply negb_true_iff in H1, H2. apply Ascii.eqb_neq in H1, H2. auto.
Qed.

Lemma attr_name_stored (k : str) :
  attr_name_ok k = true -> lower (strip (_unwrap k)) = lower k.
Proof.
  intro Hk. destruct (attr_name_head k Hk) as (c & k' & Ek & Hq & _ & Hall).
  rewrite unwrap_plain by (rewrite Ek; exact Hq).
  rewrite strip_no_space; [reflexivity|].
  rewrite forallb_forall in *. intros x Hx.
  apply negb_true_iff. apply attr_char_not_space. apply Hall. exact Hx.
Qed.

(** One well-formed attribute, read at its first character: it is stored
    at the end of the dictionary, and after the whitespace that follows it
    the cursor is on the next attribute or on the end of the tag. *)
Lemma readTagAttribute_wf (a : str * option str)
  (attributes' : list (str * option str)) (e : slash) (d0 : dict)
  (q : nat) (following : str) :
  attribute_ok a = true ->
  forallb attribute_ok attributes' = true ->
  dict_mem (lower (fst a)) d0 = false ->
  skipn q html = attribute_body a ++ tail_text attributes' e ++ following ->
  exists r q',
    _readTagAttribute html strict q d0
    = Ok (Some (r, d0 ++ [(lower (fst a), attribute_value a)]))
    /\ _readWhitespace html r = q'
    /\ skipn q' html = lstrip (tail_text attributes' e) ++ following
    /\ q' + length (lstrip (tail_text attributes' e))
       = q + length (attribute_body a ++ tail_text attributes' e).
Proof.
  intros Ha Hrest Hfresh Hs.
  destruct a as [k value]. unfold attribute_ok in Ha. cbn [fst snd] in *.
  apply andb_true_iff in Ha as [Hk Hv].
  destruct (attr_name_head k Hk) as (c & k' & Ek & Hq & Hc & Hall).
  destruct (tail_text_split attributes' e Hrest)
    as (ws & c1 & t1 & HT & Hws & Hl & Hc1 & Hc1eq & _).
  destruct (tail_text_head attributes' e) as (d & t & Hd & _ & Hdstop).
  unfold _readTagAttribute.
  assert (Hq0 : skipn q html = c :: (k' ++ match value with
                                          | Some v => lit "=" ++ quoted v
                                          | None => []
                                          end
                                     ++ tail_text attributes' e ++ following)).
  { rewrite Hs. unfold attribute_body. cbn [fst snd]. rewrite Ek.
    cbn [app]. rewrite <- !app_assoc. reflexivity. }
  rewrite (readWhitespace_here html c _ q Hq0 (attr_char_not_space c Hc)).
  assert (Hlen : length (tail_text attributes' e)
                 = length ws + length (lstrip (tail_text attributes' e))).
  { rewrite HT at 1. rewrite Hl, length_app. reflexivity. }
  destruct value as [v|]; unfold attribute_body, attribute_value in *;
    cbn [fst snd] in *.
  - (* name="value" *)
    assert (Hname : skipn q html
                    = k ++ "=" :: (quoted v ++ tail_text attributes' e
                                   ++ following)).
    { rewrite Hs, <- !app_assoc. reflexivity. }
    rewrite (readTagAttributeProperty_name k "=" _ q Hname Hk eq_refl).
    cbn [bind].
    rewrite (slice_skipn html k _ q Hname), (attr_name_stored k Hk).
    assert (Heq : skipn (q + length k) html
                  = "=" :: (quoted v ++ tail_text attributes' e
                            ++ following))
      by (apply (skipn_app_shift _ html k); exact Hname).
    rewrite (readWhitespace_here html "=" _ _ Heq eq_refl).
    rewrite (getitem_skipn_cons _ _ _ _ Heq). cbn [bind].
    rewrite Ascii.eqb_refl.
    assert (Hval : skipn (q + length k + 1) html
                   = quoted v ++ tail_text attributes' e ++ following)
      by (apply (skipn_cons_shift _ html "="); exact Heq).
    unfold _readTagAttributeValue.
    assert (Hval' : skipn (q + length k + 1) html
                    = dquote :: (v ++ dquote :: (tail_text attributes' e
                                                 ++ following))).
    { rewrite Hval. unfold quoted. cbn [app]. rewrite <- app_assoc.
      reflexivity. }
    rewrite (getitem_skipn_cons _ _ _ _ Hval'). cbn [bind].
    change (in_chars dquote quotes) with true. cbv iota.
    rewrite (skipn_cons_shift _ _ _ _ _ Hval').
    rewrite readQuoted_loop_plain by (apply value_ok_plain; exact Hv).
    cbn [bind].
    replace (q + length k + 1 + 1 + length v + 1)
      with (q + length k + 1 + length (quoted v))
      by (unfold quoted; cbn [length]; rewrite length_app; cbn; lia).
    rewrite (slice_skipn html (quoted v) _ _ Hval), unwrap_quoted.
    rewrite Hfresh, andb_false_r, (dict_set_fresh _ _ _ Hfresh).
    assert (Hafter : skipn (q + length k + 1 + length (quoted v)) html
                     = ws ++ c1 :: (t1 ++ following)).
    { rewrite (skipn_app_shift _ html (quoted v) _ _ Hval), HT,
        <- app_assoc. reflexivity. }
    exists (q + length k + 1 + length (quoted v)),
           (q + length k + 1 + length (quoted v) + length ws).
    split; [reflexivity|].
    split; [exact (readWhitespace_at html ws c1 _ _ Hafter Hws Hc1)|].
    split.
    + rewrite (skipn_app_shift _ html ws _ _ Hafter), Hl. reflexivity.
    + rewrite !length_app, Hlen. cbn [lit String.list_ascii_of_string length].
      lia.
  - (* bare name *)
    rewrite app_nil_r in *.
    assert (Hname : skipn q html = k ++ d :: (t ++ following)).
    { rewrite Hs, Hd. reflexivity. }
    rewrite (readTagAttributeProperty_name k d _ q Hname Hk Hdstop).
    cbn [bind].
    rewrite (slice_skipn html k _ q Hname), (attr_name_stored k Hk).
    assert (Hafter : skipn (q + length k) html
                     = ws ++ c1 :: (t1 ++ following)).
    { rewrite (skipn_app_shift _ html k _ _ Hs), HT, <- app_assoc.
      reflexivity. }
    rewrite (readWhitespace_at html ws c1 _ _ Hafter Hws Hc1).
    assert (Hc1s : skipn (q + length k + length ws) html
                   = c1 :: (t1 ++ following))
      by (apply (skipn_app_shift _ html ws); exact Hafter).
    rewrite (getitem_skipn_cons _ _ _ _ Hc1s). cbn [bind].
    rewrite Hc1eq. cbn [bind].
    rewrite Hfresh, andb_false_r, (dict_set_fresh _ _ _ Hfresh).
    exists (q + length k + length ws), (q + length k + length ws).
    split; [reflexivity|].
    split; [exact (readWhitespace_here html c1 _ _ Hc1s Hc1)|].
    split.
    + rewrite Hc1s, Hl. reflexivity.
    + rewrite length_app, Hlen. lia.
Qed.

End ReadAttributes.

Lemma nodupb_middle (l1 : list str) (x : str) (l2 : list str) :
  nodupb (l1 ++ x :: l2) = true -> in_strs x l1 = false.
Proof.
  induction l1 as [|y l1 IH]; cbn [app nodupb]; [reflexivity|].
  intro H. apply andb_true_iff in H as [Hy Hrest].
  apply negb_true_iff in Hy. unfold in_strs in *.
  rewrite existsb_app in Hy. apply orb_false_iff in Hy as [_ Hy].
  cbn [existsb] in Hy. apply orb_false_iff in Hy as [Hyx _].
  cbn [existsb]. rewrite (IH Hrest), orb_false_r.
  apply str_eqb_neq. apply str_eqb_neq in Hyx. congruence.
Qed.

Lemma dict_mem_keys (k : str) (d : dict) :
  dict_mem k d = in_strs k (map fst d).
Proof.
  unfold dict_mem, in_strs. induction d as [|kv d IH]; [reflexivity|].
  cbn [existsb map]. rewrite IH. reflexivity.
Qed.

Lemma length_attributes (attributes : list (str * option str)) :
  length attributes <= length (flat_map render_attribute attributes).
Proof.
  induction attributes as [|a attributes IH]; [apply Nat.le_refl|].
  cbn [flat_map length]. rewrite length_app, render_attribute_body.
  cbn [length]. lia.
Qed.

Lemma render_tag (n : str) (attributes : list (str * option str))
  (e : slash) :
  render (MTag n attributes e) = "<" :: n ++ tail_text attributes e.
Proof. reflexivity. Qed.

Section ReadTag.

Variable html : str.
Variable strict : bool.

(** The attribute loop on the attributes of a well-formed tag: it stores
    them in order and stops on the end of the tag. *)
Lemma readTagAttributes_wf (e : slash) (following : str) :
  forall attributes d0 q fuel,
    length attributes < fuel ->
    forallb attribute_ok attributes = true ->
    nodupb (map fst d0 ++ map (fun a => lower (fst a)) attributes) = true ->
    skipn q html = lstrip (tail_text attributes e) ++ following ->
    exists q_end,
      readTagAttributes html strict fuel q d0
      = Ok (q_end, d0 ++ attribute_dict attributes)
      /\ skipn q_end html = end_text e ++ following
      /\ q_end + length (end_text e)
         = q + length (lstrip (tail_text attributes e)).
Proof.
  induction attributes as [|a attributes IH];
    intros d0 q fuel Hfuel Hok Hdup Hs;
    (destruct fuel as [|fuel]; [lia|]);
    destruct (tail_text_split _ e Hok)
      as (ws & c & t & HT & Hws & Hl & Hc & Hceq & Hform);
    rewrite Hl, Hform in Hs; rewrite Hl, Hform;
    cbn [readTagAttributes].
  - rewrite (readTagAttribute_end html strict e following q d0 Hs).
    cbn [bind]. exists q. rewrite app_nil_r. auto.
  - cbn [forallb] in Hok. apply andb_true_iff in Hok as [Ha Hrest].
    cbn [map] in Hdup.
    assert (Hfresh : dict_mem (lower (fst a)) d0 = false).
    { rewrite dict_mem_keys. exact (nodupb_middle _ _ _ Hdup). }
    rewrite <- app_assoc in Hs.
    destruct (readTagAttribute_wf html strict a attributes e d0 q following
                Ha Hrest Hfresh Hs)
      as (r & q' & Hread & Hrw & Hs' & Hlen).
    rewrite Hread. cbn [bind]. rewrite Hrw.
    destruct (IH (d0 ++ [(lower (fst a), attribute_value a)]) q' fuel)
      as (q_end & Hloop & Hend & Hlen'); try assumption.
    + cbn [length] in Hfuel. lia.
    + rewrite map_app. cbn [map fst]. rewrite <- app_assoc. exact Hdup.
    + exists q_end. rewrite Hloop. split.
      * cbn [attribute_dict map]. rewrite <- app_assoc. reflexivity.
      * split; [exact Hend | lia].
Qed.

Lemma readComment_not_comment (q : nat) (c1 c2 : ascii) (rest : str) :
  skipn q html = "<" :: c1 :: c2 :: rest ->
  Ascii.eqb c1 "!" && Ascii.eqb c2 "-" = false ->
  _readComment html q = None.
Proof.
  intros Hs H. unfold _readComment.
  rewrite (slice_prefix html ["<"] (c1 :: c2 :: rest) q 4 Hs).
  cbn [app firstn lit String.list_ascii_of_string str_eqb].
  rewrite Ascii.eqb_refl. cbn [andb].
  destruct (Ascii.eqb c1 "!"); [|reflexivity]. cbn [andb] in *.
  rewrite H. reflexivity.
Qed.

(** A well-formed open, void or doctype tag is read as the segment
    expected for it, and is not taken for a comment. *)
Lemma readTag_tag (n : str) (attributes : list (str * option str))
  (e : slash) (following : str) (q : nat) :
  skipn q html = render (MTag n attributes e) ++ following ->
  markup_ok (MTag n attributes e) = true ->
  _readComment html q = None
  /\ (t <- _readTag html strict q ;; Ok (option_map ElementSegment t))
     = Ok (Some (expected_segment q (MTag n attributes e))).
Proof.
  intros Hs Hok. cbn [markup_ok] in Hok.
  apply andb_true_iff in Hok as [Hok Hdup].
  apply andb_true_iff in Hok as [Hn Hattrs].
  rewrite render_tag in Hs. cbn [app] in Hs. rewrite <- app_assoc in Hs.
  destruct (tail_text_split attributes e Hattrs)
    as (ws & c & t & HT & Hws & Hl & Hc & _ & _).
  destruct (tail_text_head attributes e) as (d & td & Hd & Hdstop & _).
  assert (Hname : skipn (q + 1) html = n ++ d :: (td ++ following)).
  { rewrite (skipn_cons_shift _ _ _ _ _ Hs), Hd. reflexivity. }
  assert (Hhead : exists c0 n', n = c0 :: n'
                    /\ Ascii.eqb c0 "/" = false /\ isspace c0 = false
                    /\ (forall c2 r, n' ++ d :: td ++ following = c2 :: r ->
                        Ascii.eqb c0 "!" && Ascii.eqb c2 "-" = false)
                    /\ _readTagName html strict (q + 1)
                       = Ok (Some (q + 1 + length n))).
  { unfold name_ok in Hn. apply orb_true_iff in Hn as [Hn | Hn].
    - apply str_eqb_eq in Hn. subst n. eexists; eexists.
      split; [reflexivity|]. split; [reflexivity|].
      split; [reflexivity|]. split.
      + intros c2 r [= <- _]. reflexivity.
      + exact (readTagName_doctype html strict d _ (q + 1) Hname Hdstop).
    - destruct n as [|c0 n'] eqn:En; [discriminate|].
      assert (Hc0 : isalpha c0 = true).
      { cbn [tag_name_ok] in Hn. apply andb_true_iff in Hn as [H _].
        exact H. }
      destruct (isalpha_not_special c0 Hc0) as (H1 & _ & H3 & _ & _ & H6).
      exists c0, n'. repeat split; auto.
      + intros c2 r _. rewrite H1. reflexivity.
      + rewrite <- En in *.
        exact (readTagName_name html strict n d _ (q + 1) Hname Hn Hdstop). }
  destruct Hhead as (c0 & n' & En & Hslash & Hsp & Hnc & Hrn).
  split.
  { destruct (n' ++ d :: td ++ following) as [|c2 r] eqn:E.
    - destruct n'; discriminate.
    - apply (readComment_not_comment q c0 c2 r).
      + rewrite Hs, En, Hd. cbn [app]. rewrite <- E. reflexivity.
      + exact (Hnc c2 r eq_refl). }
  assert (Hc0 : skipn (q + 1) html = c0 :: (n' ++ d :: td ++ following)).
  { rewrite Hname, En. reflexivity. }
  assert (Hafter : skipn (q + 1 + length n) html
                   = ws ++ c :: (t ++ following)).
  { rewrite (skipn_app_shift _ html n _ _ Hname).
    change (d :: td ++ following) with ((d :: td) ++ following).
    rewrite <- Hd, HT, <- app_assoc. reflexivity. }
  assert (Hq0 : skipn (q + 1 + length n + length ws) html
                = lstrip (tail_text attributes e) ++ following).
  { rewrite (skipn_app_shift _ html ws _ _ Hafter), Hl. reflexivity. }
  assert (Hfuel : length attributes < S (length html)).
  { assert (H := length_attributes attributes).
    assert (H1 : length (skipn q html) <= length html)
      by (rewrite length_skipn; lia).
    rewrite Hs in H1. cbn [length] in H1. rewrite !length_app in H1.
    unfold tail_text in H1. rewrite !length_app in H1. lia. }
  destruct (readTagAttributes_wf e following attributes []
              (q + 1 + length n + length ws) (S (length html))
              Hfuel Hattrs Hdup Hq0)
    as (q_end & Hloop & Hend & Hlen).
  rewrite readTag_parts. unfold readTagHead.
  rewrite (getitem_skipn_cons _ _ _ _ Hs). cbn [bind].
  rewrite Ascii.eqb_refl. cbn [negb].
  rewrite (getitem_skipn_cons _ _ _ _ Hc0). cbn [bind].
  rewrite Hslash.
  assert (Hpos : (if negb strict then _readWhitespace html (q + 1)
                  else q + 1) = q + 1).
  { destruct strict; [reflexivity|].
    exact (readWhitespace_here html c0 _ _ Hc0 Hsp). }
  rewrite Hpos, Hrn. cbn [bind].
  rewrite (readWhitespace_at html ws c _ _ Hafter Hws Hc).
  rewrite Hloop. cbn [bind fst snd app].
  rewrite (slice_skipn html n _ (q + 1) Hname), (name_ok_unwrap n Hn).
  assert (Htotal : q_end + length (end_text e)
                   = q + length (render (MTag n attributes e))).
  { rewrite render_tag. cbn [length]. rewrite length_app.
    assert (Hsplit : length (tail_text attributes e)
                     = length ws + length (lstrip (tail_text attributes e))).
    { rewrite HT at 1. rewrite Hl, length_app. reflexivity. }
    lia. }
  assert (Hrender : slice html q (q + length (render (MTag n attributes e)))
                    = render (MTag n attributes e)).
  { apply (slice_skipn html _ following). rewrite render_tag.
    cbn [app]. rewrite <- app_assoc. exact Hs. }
  unfold readTagTail. cbn [negb andb].
  destruct e; cbn [end_text lit String.list_ascii_of_string app] in Hend.
  - rewrite (getitem_skipn_cons _ _ _ _ Hend). cbn [bind].
    cbn [Ascii.eqb Bool.eqb andb].
    assert (Hp : (if negb strict then _readWhitespace html q_end
                  else q_end) = q_end).
    { destruct strict; [reflexivity|].
      exact (readWhitespace_here html ">" _ _ Hend eq_refl). }
    rewrite Hp, (getitem_skipn_cons _ _ _ _ Hend). cbn [bind].
    rewrite Ascii.eqb_refl. cbn [option_map expected_segment].
    cbn [end_text lit String.list_ascii_of_string length] in Htotal.
    rewrite Htotal, Hrender. reflexivity.
  - rewrite (getitem_skipn_cons _ _ _ _ Hend). cbn [bind].
    rewrite Ascii.eqb_refl, andb_false_r.
    assert (Hgt := skipn_cons_shift _ _ _ _ _ Hend).
    assert (Hp : (if negb strict then _readWhitespace html (q_end + 1)
                  else q_end + 1) = q_end + 1).
    { destruct strict; [reflexivity|].
      exact (readWhitespace_here html ">" _ _ Hgt eq_refl). }
    rewrite Hp, (getitem_skipn_cons _ _ _ _ Hgt). cbn [bind].
    rewrite Ascii.eqb_refl. cbn [option_map expected_segment].
    cbn [end_text lit String.list_ascii_of_string length] in Htotal.
    replace (q_end + 1 + 1) with (q_end + 2) by lia.
    rewrite Htotal, Hrender. reflexivity.
  - rewrite (getitem_skipn_cons _ _ _ _ Hend). cbn [bind].
    rewrite Ascii.eqb_refl, andb_false_r.
    assert (Hgt := skipn_cons_shift _ _ _ _ _ Hend).
    assert (Hp : (if negb strict then _readWhitespace html (q_end + 1)
                  else q_end + 1) = q_end + 1).
    { destruct strict; [reflexivity|].
      exact (readWhitespace_here html ">" _ _ Hgt eq_refl). }
    rewrite Hp, (getitem_skipn_cons _ _ _ _ Hgt). cbn [bind].
    rewrite Ascii.eqb_refl. cbn [option_map expected_segment].
    cbn [end_text lit String.list_ascii_of_string length] in Htotal.
    replace (q_end + 1 + 1) with (q_end + 2) by lia.
    rewrite Htotal, Hrender. reflexivity.
Qed.

(** A well-formed close tag. *)
Lemma readTag_close (n : str) (following : str) (q : nat) :
  skipn q html = render (MClose n) ++ following ->
  tag_name_ok n = true ->
  _readComment html q = None
  /\ (t <- _readTag html strict q ;; Ok (option_map ElementSegment t))
     = Ok (Some (expected_segment q (MClose n))).
Proof.
  intros Hs Hn.
  assert (Hs' : skipn q html = "<" :: "/" :: n ++ ">" :: following).
  { rewrite Hs. cbn [render lit String.list_ascii_of_string app].
    rewrite <- app_assoc. reflexivity. }
  destruct n as [|c0 n'] eqn:En; [discriminate|]. rewrite <- En in *.
  split.
  { apply (readComment_not_comment q "/" c0 (n' ++ ">" :: following));
      [|reflexivity].
    rewrite Hs', En. reflexivity. }
  assert (H1 := skipn_cons_shift _ _ _ _ _ Hs').
  assert (H2 : skipn (q + 1 + 1) html = n ++ ">" :: following)
    by exact (skipn_cons_shift _ _ _ _ _ H1).
  assert (Hc0 : isalpha c0 = true).
  { rewrite En in Hn. cbn [tag_name_ok] in Hn.
    apply andb_true_iff in Hn as [H _]. exact H. }
  destruct (isalpha_not_special c0 Hc0) as (_ & _ & _ & _ & _ & Hsp).
  assert (H3 : skipn (q + 1 + 1 + length n) html = ">" :: following)
    by exact (skipn_app_shift _ html n _ _ H2).
  rewrite readTag_parts. unfold readTagHead.
  rewrite (getitem_skipn_cons _ _ _ _ Hs'). cbn [bind].
  rewrite Ascii.eqb_refl. cbn [negb].
  rewrite (getitem_skipn_cons _ _ _ _ H1). cbn [bind].
  rewrite Ascii.eqb_refl.
  assert (Hpos : (if negb strict then _readWhitespace html (q + 1 + 1)
                  else q + 1 + 1) = q + 1 + 1).
  { destruct strict; [reflexivity|].
    apply (readWhitespace_here html c0 (n' ++ ">" :: following));
      [rewrite H2, En; reflexivity | exact Hsp]. }
  rewrite Hpos.
  rewrite (readTagName_name html strict n ">" following _ H2 Hn eq_refl).
  cbn [bind].
  rewrite (readWhitespace_here html ">" _ _ H3 eq_refl).
  cbn [readTagAttributes].
  rewrite (readTagAttribute_end html strict NoSlash following _ [] H3).
  cbn [bind fst snd].
  rewrite (slice_skipn html n _ _ H2), unwrap_plain
    by (rewrite En; apply (isalpha_not_special c0 Hc0)).
  unfold readTagTail. cbn [negb length Nat.ltb Nat.leb andb].
  rewrite (getitem_skipn_cons _ _ _ _ H3). cbn [bind].
  cbn [Ascii.eqb Bool.eqb andb].
  assert (Hp : (if negb strict
                then _readWhitespace html (q + 1 + 1 + length n)
                else q + 1 + 1 + length n) = q + 1 + 1 + length n).
  { destruct strict; [reflexivity|].
    exact (readWhitespace_here html ">" _ _ H3 eq_refl). }
  rewrite Hp, (getitem_skipn_cons _ _ _ _ H3). cbn [bind].
  rewrite Ascii.eqb_refl. cbn [option_map expected_segment].
  assert (Hlen : q + 1 + 1 + length n + 1 = q + length (render (MClose n))).
  { cbn [render lit String.list_ascii_of_string app length].
    rewrite length_app. cbn [length]. lia. }
  rewrite Hlen, (slice_skipn html _ following q Hs). reflexivity.
Qed.

End ReadTag.

(** *** Comments *)

Lemma find_loop_shift (sub s : str) (p k : nat) :
  find_loop sub s (p + k) = option_map (fun i => i + k) (find_loop sub s p).
Proof.
  revert p; induction s as [|c s IH]; intro p; cbn [find_loop].
  - destruct (startswith [] sub); reflexivity.
  - destruct (startswith (c :: s) sub); [reflexivity|].
    exact (IH (S p)).
Qed.

Lemma contains_cons (c : ascii) (s sub : str) :
  contains (c :: s) sub = false ->
  startswith (c :: s) sub = false /\ contains s sub = false.
Proof.
  unfold contains. cbn [find_loop].
  destruct (startswith (c :: s) sub); [discriminate|].
  intro H. split; [reflexivity|].
  change 1 with (0 + 1) in H. rewrite find_loop_shift in H.
  destruct (find_loop sub s 0); [discriminate | reflexivity].
Qed.

Lemma startswith_app_space (sub : str) :
  forall c r,
    ~ In " " sub ->
    startswith (c ++ " " :: r) sub = startswith c sub.
Proof.
  induction sub as [|s0 sub IH]; intros c r Hsub; [reflexivity|].
  destruct c as [|x c]; cbn [app startswith].
  - replace (Ascii.eqb " " s0) with false; [reflexivity|].
    symmetry. apply Ascii.eqb_neq. intros <-. apply Hsub. left. reflexivity.
  - rewrite IH; [reflexivity|]. intro H. apply Hsub. right. exact H.
Qed.

(** The end of a comment whose text does not hold [-->] is found right
    after the text. *)
Lemma find_loop_comment (c following : str) :
  forall p,
    contains c (lit "-->") = false ->
    find_loop (lit "-->") (c ++ lit " -->" ++ following) p
    = Some (p + length c + 1).
Proof.
  induction c as [|x c IH]; intros p H.
  - cbn. f_equal. lia.
  - destruct (contains_cons _ _ _ H) as [Hstart Hrest].
    change ((x :: c) ++ lit " -->" ++ following)
      with (x :: (c ++ lit " -->" ++ following)).
    cbn [find_loop].
    change (startswith (x :: c ++ lit " -->" ++ following) (lit "-->"))
      with (startswith ((x :: c) ++ " " :: (lit "-->" ++ following))
              (lit "-->")).
    rewrite startswith_app_space, Hstart
      by (intros [H1|[H1|[H1|[]]]]; discriminate).
    rewrite IH by assumption. cbn [length]. f_equal. lia.
Qed.

Lemma readComment_comment (html : str) (c following : str) (q : nat) :
  skipn q html = render (MComment c) ++ following ->
  contains c (lit "-->") = false ->
  _readComment html q = Some (expected_segment q (MComment c)).
Proof.
  intros Hs Hc. unfold _readComment.
  assert (Hs4 : skipn q html
                = lit "<!--" ++ " " :: (c ++ lit " -->" ++ following)).
  { rewrite Hs. cbn [render lit String.list_ascii_of_string app].
    rewrite <- app_assoc. reflexivity. }
  rewrite (slice_prefix html (lit "<!--") _ q 4 Hs4).
  assert (Hb : skipn (q + 4) html = " " :: (c ++ lit " -->" ++ following))
    by exact (skipn_app_shift _ html (lit "<!--") _ q Hs4).
  replace (str_eqb (firstn 4 (lit "<!--" ++ " " :: c ++ lit " -->"
                                ++ following)) (lit "<!--"))
    with true by reflexivity.
  unfold find.
  replace (length html <? q + 4) with false
    by (symmetry; apply Nat.ltb_ge;
        apply Nat.lt_le_incl; exact (skipn_cons_lt _ _ _ _ _ Hb)).
  rewrite Hb.
  assert (Hfind : find_loop (lit "-->")
                    (" " :: c ++ lit " -->" ++ following) (q + 4)
                  = Some (q + 4 + 1 + length c + 1)).
  { cbn [find_loop]. replace (startswith _ (lit "-->")) with false
      by reflexivity.
    replace (S (q + 4)) with (q + 4 + 1) by lia.
    apply find_loop_comment. exact Hc. }
  rewrite Hfind. cbn [expected_segment].
  assert (Hlen : q + 4 + 1 + length c + 1 + 3
                 = q + length (render (MComment c))).
  { cbn [render lit String.list_ascii_of_string app length].
    rewrite length_app. cbn [length]. lia. }
  rewrite Hlen, (slice_skipn html _ following q Hs).
  f_equal. f_equal.
  assert (Hin : skipn (q + 4) html
                = (" " :: c ++ [" "]) ++ lit "-->" ++ following).
  { rewrite Hb. cbn [app]. rewrite <- app_assoc. reflexivity. }
  replace (q + 4 + 1 + length c + 1)
    with (q + 4 + length (" " :: c ++ [" "]))
    by (cbn [length]; rewrite length_app; cbn [length]; lia).
  rewrite (slice_skipn html _ _ _ Hin).
  exact (strip_pad [" "] c [" "] eq_refl eq_refl).
Qed.

(** *** Text *)

Section ReadText.

Variable html : str.
Variable strict : bool.

Lemma readText_loop_skip (a b : str) (p : nat) :
  in_chars "<" a = false ->
  readText_loop html strict (a ++ b) p
  = readText_loop html strict b (p + length a).
Proof.
  revert p; induction a as [|c a IH]; intros p H; cbn [app length].
  - rewrite Nat.add_0_r. reflexivity.
  - cbn [in_chars existsb] in H. apply orb_false_iff in H as [Hc Ha].
    cbn [readText_loop]. rewrite Ascii.eqb_sym, Hc.
    rewrite IH by exact Ha. f_equal. lia.
Qed.

Lemma readSpecialContextText_loop_skip (contextTag : str) (a b : str)
  (p : nat) :
  in_chars "<" a = false ->
  readSpecialContextText_loop html strict contextTag (a ++ b) p
  = readSpecialContextText_loop html strict contextTag b (p + length a).
Proof.
  revert p; induction a as [|c a IH]; intros p H; cbn [app length].
  - rewrite Nat.add_0_r. reflexivity.
  - cbn [in_chars existsb] in H. apply orb_false_iff in H as [Hc Ha].
    cbn [readSpecialContextText_loop]. rewrite Ascii.eqb_sym, Hc.
    rewrite IH by exact Ha. f_equal. lia.
Qed.

Lemma in_chars_app (c : ascii) (a b : str) :
  in_chars c (a ++ b) = in_chars c a || in_chars c b.
Proof. apply existsb_app. Qed.

Lemma in_chars_space (ws : str) :
  forallb isspace ws = true -> in_chars "<" ws = false.
Proof.
  induction ws as [|c ws IH]; [reflexivity|]. cbn [forallb in_chars existsb].
  intro H. apply andb_true_iff in H as [Hc Hws].
  fold (in_chars "<" ws). rewrite (IH Hws), orb_false_r.
  destruct (isspace_not_delimiter c Hc) as (_ & _ & _ & Hlt).
  apply Ascii.eqb_neq. congruence.
Qed.

(** A segment that is not a text is read where it starts, as a comment or
    as a tag. *)
Lemma read_markup (m : markup) (following : str) (q : nat) :
  skipn q html = render m ++ following ->
  markup_ok m = true -> is_text m = false ->
  (exists r, render m = "<" :: r)
  /\ match _readComment html q with
     | Some s => Ok (Some s)
     | None => t <- _readTag html strict q ;;
               Ok (option_map ElementSegment t)
     end = Ok (Some (expected_segment q m)).
Proof.
  intros Hs Hok Hnt. destruct m as [n a e|n|c|t]; [| | |discriminate].
  - split; [rewrite render_tag; eauto|].
    destruct (readTag_tag html strict n a e following q Hs Hok) as [Hc Ht].
    rewrite Hc. exact Ht.
  - split; [eexists; reflexivity|].
    destruct (readTag_close html strict n following q Hs Hok) as [Hc Ht].
    rewrite Hc. exact Ht.
  - split; [eexists; reflexivity|].
    cbn [markup_ok] in Hok. apply negb_true_iff in Hok.
    rewrite (readComment_comment html c following q Hs Hok). reflexivity.
Qed.

End ReadText.

Lemma seg_start_expected (q : nat) (m : markup) :
  seg_start (expected_segment q m) = q.
Proof. destruct m; reflexivity. Qed.

Lemma seg_end_expected (q : nat) (m : markup) :
  seg_end (expected_segment q m) = q + length (render m).
Proof. destruct m; reflexivity. Qed.

Lemma specialContext_expected (q : nat) (m : markup) :
  specialContext (Some (expected_segment q m)) = context_after m.
Proof.
  destruct m as [n a e|n|c|t]; try reflexivity.
  destruct e; reflexivity.
Qed.

(** *** One call of [next] in front of a well-formed segment *)

Lemma readTag_inv (r : result (option HTMLParserElementSegment))
  (s : HTMLParserSegment) :
  (t <- r ;; Ok (option_map ElementSegment t)) = Ok (Some s) ->
  exists e, r = Ok (Some e) /\ ElementSegment e = s.
Proof.
  destruct r as [[e|]| |]; cbn [bind option_map]; try discriminate.
  intros [= <-]. eauto.
Qed.

Section NextStep.

Variable html : str.
Variable strict : bool.

Lemma next_cached (self : HTMLParser) (segment : HTMLParserSegment) :
  _segmentNext self = Some segment ->
  _readWhitespace html (_position self) <> length html ->
  next html strict self
  = Ok (Some segment, mkParser (seg_end segment) (Some segment) None).
Proof.
  intros Hc Hp. unfold next, emit, _htmlLength.
  apply Nat.eqb_neq in Hp. rewrite Hp. cbn [_segmentNext].
  rewrite Hc. reflexivity.
Qed.

(** In front of a tag or a comment, with an empty cache. *)
Lemma next_markup (self : HTMLParser) (m : markup) (following : str)
  (q : nat) :
  _segmentNext self = None ->
  _readWhitespace html (_position self) = q ->
  skipn q html = render m ++ following ->
  markup_ok m = true -> is_text m = false ->
  match specialContext (_segmentCurrent self) with
  | Some name => closes name [([], m)] = true
  | None => True
  end ->
  next html strict self
  = Ok (Some (expected_segment q m),
        mkParser (q + length (render m)) (Some (expected_segment q m))
          None).
Proof.
  intros Hcache Hrw Hs Hok Hnt Hctx.
  destruct (read_markup html strict m following q Hs Hok Hnt)
    as [[r Hr] Hread].
  unfold next, emit, _htmlLength. rewrite Hrw.
  replace (q =? length html) with false
    by (symmetry; apply Nat.eqb_neq; apply Nat.lt_neq;
        apply (skipn_cons_lt _ html q "<" (r ++ following));
        rewrite Hs, Hr; reflexivity).
  cbn [_segmentNext]. rewrite Hcache.
  destruct (specialContext (_segmentCurrent self)) as [name|].
  - destruct m as [n a e|n|c|t]; try discriminate.
    cbn [closes] in Hctx.
    destruct (readTag_close html strict n following q Hs Hok) as [_ Ht].
    apply readTag_inv in Ht as (e & Ht & He).
    unfold _readSpecialContextTagEnd. rewrite Ht. cbn [bind].
    assert (Hfields : el_open e = false /\ el_close e = true
                      /\ el_name e = lower n).
    { cbn [expected_segment] in He. injection He as ->. auto. }
    destruct Hfields as (-> & -> & ->). rewrite Hctx. cbn [negb andb bind].
    rewrite He, seg_end_expected. reflexivity.
  - destruct (_readComment html q) as [s|].
    + injection Hread as ->. rewrite seg_end_expected. reflexivity.
    + apply readTag_inv in Hread as (e & Ht & He).
      rewrite Ht. cbn [bind]. rewrite He, seg_end_expected. reflexivity.
Qed.

(** In front of a text, with an empty cache: nothing but text is read up
    to the next tag or comment, which goes to the cache. *)
Lemma next_text_then (self : HTMLParser) (c0 : ascii) (body ws : str)
  (m : markup) (following : str) (q : nat) :
  _segmentNext self = None ->
  _readWhitespace html (_position self) = q ->
  skipn q html = (c0 :: body) ++ ws ++ render m ++ following ->
  in_chars "<" (c0 :: body) = false ->
  forallb isspace ws = true ->
  markup_ok m = true -> is_text m = false ->
  match specialContext (_segmentCurrent self) with
  | Some name => closes name [([], m)] = true
  | None => True
  end ->
  let q' := q + length (c0 :: body) + length ws in
  let text := TextSegment (strip (c0 :: body)) q q' in
  next html strict self
  = Ok (Some text, mkParser q' (Some text) (Some (expected_segment q' m))).
Proof.
  intros Hcache Hrw Hs Hlt Hws Hok Hnt Hctx q' text.
  assert (Hs0 : skipn q html
                = c0 :: (body ++ ws ++ render m ++ following))
    by exact Hs.
  assert (Hc0 : Ascii.eqb c0 "<" = false).
  { cbn [in_chars existsb] in Hlt. apply orb_false_iff in Hlt as [H _].
    rewrite Ascii.eqb_sym. exact H. }
  assert (Hs' : skipn q html
                = ((c0 :: body) ++ ws) ++ render m ++ following)
    by (rewrite Hs, <- app_assoc; reflexivity).
  assert (Hq' : skipn q' html = render m ++ following).
  { unfold q'. rewrite <- Nat.add_assoc, <- length_app.
    exact (skipn_app_shift _ html _ _ q Hs'). }
  destruct (read_markup html strict m following q' Hq' Hok Hnt)
    as [[r Hr] Hread].
  assert (Hskip : in_chars "<" ((c0 :: body) ++ ws) = false).
  { rewrite in_chars_app, Hlt, (in_chars_space ws Hws). reflexivity. }
  assert (Htext : strip (slice html q q') = strip (c0 :: body)).
  { unfold q'. rewrite <- Nat.add_assoc, <- length_app.
    rewrite (slice_skipn html _ _ q Hs').
    exact (strip_pad [] (c0 :: body) ws eq_refl Hws). }
  assert (Hnocomment : _readComment html q = None).
  { unfold _readComment.
    rewrite (slice_prefix html [c0] _ q 4 Hs0).
    cbn [app firstn lit String.list_ascii_of_string str_eqb].
    rewrite Hc0. reflexivity. }
  assert (Hnotag : _readTag html strict q = Ok None).
  { unfold _readTag. rewrite (getitem_skipn_cons _ _ _ _ Hs0).
    cbn [bind]. rewrite Hc0. reflexivity. }
  unfold next, emit, _htmlLength. rewrite Hrw.
  replace (q =? length html) with false
    by (symmetry; apply Nat.eqb_neq; apply Nat.lt_neq;
        exact (skipn_cons_lt _ _ _ _ _ Hs0)).
  cbn [_segmentNext]. rewrite Hcache.
  destruct (specialContext (_segmentCurrent self)) as [name|].
  - destruct m as [n a e|n|c|t]; try discriminate.
    cbn [closes] in Hctx.
    destruct (readTag_close html strict n following q' Hq' Hok) as [_ Ht].
    apply readTag_inv in Ht as (e & Ht & He).
    assert (Hfields : el_open e = false /\ el_close e = true
                      /\ el_name e = lower n).
    { cbn [expected_segment] in He. injection He as ->. auto. }
    destruct Hfields as (Ho & Hcl & Hn).
    unfold _readSpecialContextTagEnd at 1. rewrite Hnotag. cbn [bind].
    unfold _readSpecialContextText.
    rewrite Hs', readSpecialContextText_loop_skip by exact Hskip.
    rewrite length_app, Nat.add_assoc. fold q'.
    rewrite Hr. cbn [app readSpecialContextText_loop].
    rewrite Ascii.eqb_refl.
    unfold _readSpecialContextTagEnd. rewrite Ht. cbn [bind].
    rewrite Ho, Hcl, Hn, Hctx. cbn [negb andb bind].
    rewrite He, seg_start_expected, Htext. reflexivity.
  - rewrite Hnocomment, Hnotag. cbn [bind].
    unfold _readText.
    rewrite Hs', readText_loop_skip by exact Hskip.
    rewrite length_app, Nat.add_assoc. fold q'.
    rewrite Hr. cbn [app readText_loop]. rewrite Ascii.eqb_refl.
    destruct (_readComment html q') as [s|].
    + injection Hread as ->. cbn [bind].
      rewrite seg_start_expected, Htext. reflexivity.
    + apply readTag_inv in Hread as (e & Ht & He).
      rewrite Ht. cbn [bind]. rewrite He, seg_start_expected, Htext.
      reflexivity.
Qed.

(** In front of a text that ends the buffer, in lenient mode. *)
Lemma next_text_last (self : HTMLParser) (c0 : ascii) (body : str)
  (q : nat) :
  strict = false ->
  _segmentNext self = None ->
  _readWhitespace html (_position self) = q ->
  skipn q html = c0 :: body ->
  in_chars "<" (c0 :: body) = false ->
  specialContext (_segmentCurrent self) = None ->
  let text := TextSegment (strip (c0 :: body)) q (length html) in
  next html strict self
  = Ok (Some text, mkParser (length html) (Some text) None).
Proof.
  intros Hlenient Hcache Hrw Hs Hlt Hctx text.
  assert (Hc0 : Ascii.eqb c0 "<" = false).
  { cbn [in_chars existsb] in Hlt. apply orb_false_iff in Hlt as [H _].
    rewrite Ascii.eqb_sym. exact H. }
  assert (Hnocomment : _readComment html q = None).
  { unfold _readComment.
    rewrite (slice_prefix html [c0] _ q 4 Hs).
    cbn [app firstn lit String.list_ascii_of_string str_eqb].
    rewrite Hc0. reflexivity. }
  assert (Hnotag : _readTag html strict q = Ok None).
  { unfold _readTag. rewrite (getitem_skipn_cons _ _ _ _ Hs).
    cbn [bind]. rewrite Hc0. reflexivity. }
  assert (Htext : slice html q (length html) = c0 :: body).
  { unfold slice. rewrite <- (length_skipn q html), firstn_all. exact Hs. }
  unfold next, emit, _htmlLength. rewrite Hrw.
  replace (q =? length html) with false
    by (symmetry; apply Nat.eqb_neq; apply Nat.lt_neq;
        exact (skipn_cons_lt _ _ _ _ _ Hs)).
  cbn [_segmentNext]. rewrite Hcache, Hctx, Hnocomment, Hnotag.
  cbn [bind]. unfold _readText, _htmlLength.
  assert (Hloop : readText_loop html strict (skipn q html) q = Ok None).
  { rewrite Hs.
    rewrite <- (app_nil_r (c0 :: body)), readText_loop_skip by exact Hlt.
    reflexivity. }
  rewrite Hloop. cbn [bind]. rewrite Hlenient. cbn [negb bind].
  rewrite Htext. reflexivity.
Qed.

(** At the end of the buffer. *)
Lemma next_end (self : HTMLParser) :
  _position self = length html ->
  next html strict self
  = Ok (None, mkParser (length html) (_segmentCurrent self)
                (_segmentNext self)).
Proof.
  intro Hp. unfold next, _htmlLength.
  assert (Hrw : _readWhitespace html (_position self) = length html).
  { unfold _readWhitespace. rewrite Hp, skipn_all. reflexivity. }
  rewrite Hrw, Nat.eqb_refl. reflexivity.
Qed.

End NextStep.

(** *** The whole document *)

Lemma document_cons (pre : str) (m : markup) (rest : list (str * markup)) :
  document ((pre, m) :: rest) = pre ++ render m ++ document rest.
Proof. unfold document. cbn [flat_map fst snd]. apply eq_sym, app_assoc. Qed.

Lemma expected_nontext (offset : nat) (pre : str) (m : markup)
  (rest : list (str * markup)) :
  is_text m = false ->
  expected offset ((pre, m) :: rest)
  = expected_segment (offset + length pre) m
    :: expected (offset + length pre + length (render m)) rest.
Proof. destruct m; try discriminate; reflexivity. Qed.

Lemma strip_lstrip (t : str) : strip (lstrip t) = strip t.
Proof.
  destruct (lstrip_split t) as (lead & Ht & Hlead & _).
  rewrite Ht at 2. rewrite <- (app_nil_r (lstrip t)) at 2.
  symmetry. exact (strip_pad lead (lstrip t) [] Hlead eq_refl).
Qed.

Lemma closes_head (name : str) (pre : str) (m : markup)
  (rest : list (str * markup)) :
  closes name ((pre, m) :: rest) = closes name [([], m)].
Proof. reflexivity. Qed.

Section Tokenize.

Variable html : str.
Variable strict : bool.

Lemma Ready_length (self : HTMLParser) (offset : nat)
  (context : option str) (pieces : list (str * markup)) :
  Ready html self offset context pieces ->
  length html = offset + length (document pieces).
Proof.
  intros (Hs & Hle & _). rewrite <- Hs, length_skipn. lia.
Qed.

(** In front of the remaining pieces of a well-formed document, [next]
    emits the segment expected for the first piece and is then in front of
    the others. *)
Lemma next_step (self : HTMLParser) (offset : nat) (context : option str)
  (pre : str) (m : markup) (rest : list (str * markup)) :
  Ready html self offset context ((pre, m) :: rest) ->
  wf_pieces strict context ((pre, m) :: rest) = true ->
  exists segment self',
    next html strict self = Ok (Some segment, self')
    /\ expected offset ((pre, m) :: rest)
       = segment
         :: expected (offset + length pre + length (render m)) rest
    /\ Ready html self' (offset + length pre + length (render m))
         (context_after m) rest.
Proof.
  intros HR Hwf. assert (Hlen := Ready_length _ _ _ _ HR).
  destruct HR as (Hs & Hle & Hctx & Hstate).
  rewrite document_cons in Hs, Hlen. rewrite !length_app in Hlen.
  cbn [wf_pieces] in Hwf.
  apply andb_true_iff in Hwf as [Hwf Hrest].
  apply andb_true_iff in Hwf as [Hwf Hcc].
  apply andb_true_iff in Hwf as [Hwf Hseq].
  apply andb_true_iff in Hwf as [Hpre Hok].
  assert (Hm : skipn (offset + length pre) html = render m ++ document rest)
    by exact (skipn_app_shift _ html pre _ offset Hs).
  assert (Hafter : skipn (offset + length pre + length (render m)) html
                   = document rest)
    by exact (skipn_app_shift _ html (render m) _ _ Hm).
  assert (Hnontext :
    is_text m = false ->
    forall self0,
      _segmentNext self0 = None ->
      _position self0 = offset + length pre + length (render m) ->
      _segmentCurrent self0 = Some (expected_segment (offset + length pre) m) ->
      Ready html self0 (offset + length pre + length (render m))
        (context_after m) rest).
  { intros Hnt self0 H1 H2 H3. split; [exact Hafter|]. split; [lia|].
    split; [rewrite H3; apply specialContext_expected|]. left. auto. }
  destruct Hstate as [[Hcache Hpos] | (pre0 & m0 & rest0 & E & Hnt & Hcache & Hpos)].
  2: { (* the segment is in the cache *)
    injection E as <- <- <-.
    destruct (read_markup html strict m _ _ Hm Hok Hnt) as [[r Hr] _].
    assert (Hlt : skipn (offset + length pre) html
                  = "<" :: (r ++ document rest))
      by (rewrite Hm, Hr; reflexivity).
    eexists; eexists. split; [|split].
    - apply next_cached; [exact Hcache|]. rewrite Hpos.
      rewrite (readWhitespace_here html "<" _ _ Hlt eq_refl).
      apply Nat.lt_neq. exact (skipn_cons_lt _ _ _ _ _ Hlt).
    - apply expected_nontext. exact Hnt.
    - apply (Hnontext Hnt); cbn [_segmentNext _position _segmentCurrent];
        [reflexivity | apply seg_end_expected | reflexivity]. }
  destruct (is_text m) eqn:Hnt.
  2: { (* a tag or a comment *)
    destruct (read_markup html strict m _ _ Hm Hok Hnt) as [[r Hr] _].
    assert (Hlt : skipn offset html = pre ++ "<" :: (r ++ document rest))
      by (rewrite Hs, Hr; reflexivity).
    eexists; eexists. split; [|split].
    - apply (next_markup html strict self m (document rest)
               (offset + length pre)); try assumption.
      + rewrite Hpos.
        exact (readWhitespace_at html pre "<" _ _ Hlt Hpre eq_refl).
      + rewrite Hctx. destruct context as [name|]; [|exact I].
        rewrite <- (closes_head name pre m rest). exact Hcc.
    - apply expected_nontext. exact Hnt.
    - apply (Hnontext eq_refl);
        cbn [_segmentNext _position _segmentCurrent]; reflexivity. }
  (* a text *)
  destruct m as [n a e|n|c|t]; try discriminate.
  cbn [render] in *. cbn [markup_ok] in Hok.
  apply andb_true_iff in Hok as [Hlt Hnw].
  apply negb_true_iff in Hlt, Hnw.
  destruct (lstrip_nonempty t Hnw) as (c0 & body & Hl).
  destruct (lstrip_split t) as (lead & Ht & Hlead & Hleadlen).
  assert (Hc0 : isspace c0 = false) by exact (lstrip_head _ _ _ Hl).
  assert (Hbody : in_chars "<" (c0 :: body) = false).
  { rewrite Ht, in_chars_app, Hl in Hlt.
    apply orb_false_iff in Hlt as [_ H]. exact H. }
  assert (Htlen : length t = length lead + length (c0 :: body)).
  { rewrite Ht at 1. rewrite Hl, length_app. reflexivity. }
  cbn [length] in Htlen.
  assert (Hstrip : strip (c0 :: body) = strip t)
    by (rewrite <- Hl; apply strip_lstrip).
  assert (Hrw : _readWhitespace html (_position self)
                = offset + length pre + length lead).
  { rewrite Hpos, <- Nat.add_assoc, <- length_app.
    apply (readWhitespace_at html (pre ++ lead) c0
             (body ++ document rest)); [| |exact Hc0].
    - rewrite Hs, Ht, Hl, <- !app_assoc. reflexivity.
    - rewrite forallb_app, Hpre, Hlead. reflexivity. }
  assert (Hq : skipn (offset + length pre + length lead) html
               = (c0 :: body) ++ document rest).
  { apply (skipn_app_shift _ html lead). rewrite Hm, Ht, Hl, <- app_assoc.
    reflexivity. }
  destruct rest as [|[pre' m'] rest'].
  - (* the text ends the document *)
    apply negb_true_iff in Hseq.
    assert (Hnone : context = None).
    { destruct context as [name|]; [discriminate | reflexivity]. }
    rewrite Hnone in *. cbn [document flat_map] in *.
    rewrite app_nil_r in Hq. cbn [length] in Hlen.
    eexists; eexists. split; [|split].
    + apply (next_text_last html strict self c0 body _ Hseq Hcache Hrw Hq
               Hbody Hctx).
    + cbn [expected render length]. rewrite Hstrip. f_equal. f_equal; lia.
    + split; [|split; [|split]].
      * exact Hafter.
      * lia.
      * reflexivity.
      * left. cbn [_segmentNext _position]. split; [reflexivity | lia].
  - (* the text is followed by a tag or a comment *)
    cbn [is_text] in Hseq. apply negb_true_iff in Hseq.
    assert (Hrest' := Hrest). cbn [wf_pieces] in Hrest'.
    apply andb_true_iff in Hrest' as [Hw _].
    apply andb_true_iff in Hw as [Hw _].
    apply andb_true_iff in Hw as [Hw _].
    apply andb_true_iff in Hw as [Hpre' Hok'].
    rewrite document_cons in Hq.
    eexists; eexists. split; [|split].
    + apply (next_text_then html strict self c0 body pre' m'
               (document rest') _ Hcache Hrw Hq Hbody Hpre' Hok' Hseq).
      rewrite Hctx. destruct context as [name|]; [|exact I].
      rewrite <- (closes_head name pre' m' rest'). exact Hcc.
    + cbn [expected render length]. rewrite Hstrip. f_equal.
      f_equal; lia.
    + split; [exact Hafter|]. split; [lia|]. split; [reflexivity|].
      right. exists pre', m', rest'.
      cbn [_segmentNext _position length]. repeat split; try assumption.
      * f_equal. f_equal. lia.
      * lia.
Qed.


End Tokenize.

Lemma markup_ok_nonempty (m : markup) :
  markup_ok m = true -> 1 <= length (render m).
Proof.
  destruct m as [n a e|n|c|t]; cbn [render]; intro H;
    try (cbn [lit String.list_ascii_of_string app length]; lia).
  cbn [markup_ok] in H. apply andb_true_iff in H as [_ H].
  destruct t; [discriminate | cbn; lia].
Qed.

Lemma wf_pieces_length (strict : bool) (pieces : list (str * markup)) :
  forall context,
    wf_pieces strict context pieces = true ->
    length pieces <= length (document pieces).
Proof.
  induction pieces as [|[pre m] rest IH]; intros context H;
    [apply Nat.le_refl|].
  rewrite document_cons, !length_app. cbn [length wf_pieces] in *.
  apply andb_true_iff in H as [H Hrest].
  apply andb_true_iff in H as [H _].
  apply andb_true_iff in H as [H _].
  apply andb_true_iff in H as [_ Hok].
  apply markup_ok_nonempty in Hok. apply IH in Hrest. lia.
Qed.



Lemma expected_captures (pieces : list (str * markup)) :
  forall offset, Forall2 captures pieces (expected offset pieces).
Proof.
  induction pieces as [|[pre m] rest IH]; intro offset; cbn [expected];
    constructor; [|apply IH].
  destruct m as [n a e|n|c|t]; cbn; auto.
Qed.




(** ** C4: writing a document and building it again *)

(** *** What the serializer writes *)

Lemma writeAttributes_written (name : str) (attributes : dict) :
  writeAttributes name attributes
  = flat_map render_attribute (written_attributes name attributes).
Proof.
  induction attributes as [|[key value] attributes IH]; [reflexivity|].
  cbn [writeAttributes written_attributes map flat_map fst snd].
  fold (written_attributes name attributes). rewrite <- IH.
  destruct (str_eqb name (lit "!doctype") && str_eqb value (lit "true"));
    cbn [flat_map]; unfold render_attribute, quoted; cbn [fst snd];
    rewrite <- ?app_assoc; cbn [app]; rewrite <- ?app_assoc;
    rewrite ?app_nil_r; reflexivity.
Qed.

Lemma document_unprefixed_app (a b : list markup) :
  document (unprefixed (a ++ b))
  = document (unprefixed a) ++ document (unprefixed b).
Proof.
  unfold document, unprefixed. rewrite map_app, flat_map_app. reflexivity.
Qed.

Lemma document_unprefixed_cons (m : markup) (l : list markup) :
  document (unprefixed (m :: l)) = render m ++ document (unprefixed l).
Proof. reflexivity. Qed.

Section WriteMarkups.

Variables (indent : nat) (tabs selfClosing : bool) (shrinkLimit : nat).




End WriteMarkups.

(** *** A safe tree is written as a well-formed document *)

Lemma void_not_raw (name : str) :
  in_strs name _voidTags = true ->
  in_strs name _contextSwitchTags = false
  /\ in_strs name _neverSelfClosing = false.
Proof.
  intro H. apply in_strs_In in H. cbn [_voidTags In] in H.
  repeat (destruct H as [<- | H]; [split; reflexivity|]). destruct H.
Qed.

Lemma raw_not_doctype (name : str) :
  in_strs name _contextSwitchTags = true ->
  str_eqb name (lit "!doctype") = false.
Proof.
  intro H. apply in_strs_In in H. cbn [_contextSwitchTags In] in H.
  repeat (destruct H as [<- | H]; [reflexivity|]). destruct H.
Qed.

Lemma tag_name_not_doctype (name : str) :
  tag_name_ok name = true -> str_eqb name (lit "!doctype") = false.
Proof.
  destruct name as [|c r]; [discriminate|]. cbn [tag_name_ok].
  intro H. apply andb_true_iff in H as [Hc _].
  destruct (isalpha_not_special c Hc) as (H1 & _).
  cbn [lit String.list_ascii_of_string str_eqb]. rewrite H1. reflexivity.
Qed.

Lemma element_name_cases (name : str) :
  element_name_ok name = true ->
  (name = lit "!doctype" /\ writeName name = lit "!DOCTYPE")
  \/ (tag_name_ok name = true /\ lower name = name
      /\ writeName name = name
      /\ str_eqb name (lit "!doctype") = false).
Proof.
  unfold element_name_ok, writeName. intro H.
  destruct (str_eqb name (lit "!doctype")) eqn:E.
  - left. apply str_eqb_eq in E. subst name. split; reflexivity.
  - right. cbn [orb] in H. apply andb_true_iff in H as [H1 H2].
    apply str_eqb_eq in H2. auto.
Qed.

Lemma element_name_written (name : str) :
  element_name_ok name = true ->
  name_ok (writeName name) = true /\ lower (writeName name) = name.
Proof.
  intro H. destruct (element_name_cases name H)
    as [[-> ->] | (Ht & Hl & -> & _)].
  - split; reflexivity.
  - split; [|exact Hl]. unfold name_ok. rewrite Ht. apply orb_true_r.
Qed.

Lemma written_attributes_ok (name : str) (attributes : dict) :
  forallb safe_attribute attributes = true ->
  nodupb (map fst attributes) = true ->
  forallb attribute_ok (written_attributes name attributes) = true
  /\ nodupb (map (fun a => lower (fst a))
               (written_attributes name attributes)) = true
  /\ attribute_dict (written_attributes name attributes) = attributes.
Proof.
  intros Hsafe Hdup.
  assert (Hkeys : map (fun a => lower (fst a))
                    (written_attributes name attributes)
                  = map fst attributes
                  /\ forallb attribute_ok (written_attributes name attributes)
                     = true
                  /\ attribute_dict (written_attributes name attributes)
                     = attributes).
  { clear Hdup. induction attributes as [|[k v] attributes IH];
      [repeat split; reflexivity|].
    cbn [forallb] in Hsafe. apply andb_true_iff in Hsafe as [Hkv Hrest].
    destruct (IH Hrest) as (IH1 & IH2 & IH3).
    unfold safe_attribute in Hkv. cbn [fst snd] in Hkv.
    apply andb_true_iff in Hkv as [Hkv Hv].
    apply andb_true_iff in Hkv as [Hk Hlow]. apply str_eqb_eq in Hlow.
    cbn [written_attributes map fst snd].
    fold (written_attributes name attributes).
    destruct (str_eqb name (lit "!doctype") && str_eqb v (lit "true"))
      eqn:E; cbn [map fst snd forallb attribute_dict].
    - apply andb_true_iff in E as [_ E]. apply str_eqb_eq in E. subst v.
      fold (attribute_dict (written_attributes name attributes)).
      rewrite IH1, IH2, IH3, Hlow. unfold attribute_ok, attribute_value.
      cbn [fst snd]. rewrite Hk. repeat split; reflexivity.
    - fold (attribute_dict (written_attributes name attributes)).
      rewrite IH1, IH2, IH3, Hlow. unfold attribute_ok, attribute_value.
      cbn [fst snd]. rewrite Hk, Hv. repeat split; reflexivity. }
  destruct Hkeys as (H1 & H2 & H3). rewrite H1. auto.
Qed.

Lemma text_ok_markup (t : str) :
  text_ok t = true -> markup_ok (MText t) = true /\ strip t = t.
Proof.
  unfold text_ok. intro H. apply andb_true_iff in H as [H Hs].
  apply str_eqb_eq in Hs. split; [exact H | exact Hs].
Qed.

Lemma pieces_of_cons (selfClosing : bool) (node : HTMLNode)
  (l : list HTMLNode) :
  pieces_of selfClosing (node :: l)
  = unprefixed (markups_of selfClosing node) ++ pieces_of selfClosing l.
Proof. unfold pieces_of, unprefixed. cbn [flat_map]. apply map_app. Qed.

Lemma pieces_head_nontext (selfClosing : bool) (node : HTMLNode)
  (K : list (str * markup)) (strict : bool) :
  is_text_node node = false ->
  text_may_precede strict (unprefixed (markups_of selfClosing node) ++ K)
  = true.
Proof.
  destruct node as [name attributes children|t|c]; [| discriminate |].
  - intros _. cbn [markups_of].
    destruct (negb (in_strs name _neverSelfClosing)
              && (in_strs name _voidTags
                  || selfClosing && (length children =? 0)));
      reflexivity.
  - reflexivity.
Qed.

Section SafeWellFormed.

Variables (strict comments selfClosing : bool).

Lemma forest_wf (l : list HTMLNode) :
  Forall (node_wf strict comments selfClosing) l ->
  forall K,
    forallb (safe_node comments) l = true ->
    texts_apart l = true ->
    wf_pieces strict None K = true ->
    (ends_with_text l = true -> text_may_precede strict K = true) ->
    wf_pieces strict None (pieces_of selfClosing l ++ K) = true.
Proof.
  induction 1 as [|node l Hnode _ IH]; intros K Hsafe Hapart HK Hend;
    [exact HK|].
  rewrite pieces_of_cons, <- app_assoc.
  cbn [forallb] in Hsafe. apply andb_true_iff in Hsafe as [Hs Hsl].
  cbn [texts_apart] in Hapart. apply andb_true_iff in Hapart as [Hadj Hal].
  assert (Hend' : ends_with_text l = true -> text_may_precede strict K = true).
  { intro H. apply Hend. unfold ends_with_text in *. cbn [rev].
    destruct (rev l) as [|x r]; [discriminate|]. exact H. }
  apply (Hnode _ None Hs (IH K Hsl Hal HK Hend')); [|exact I].
  intro Htext. destruct l as [|b l'].
  - apply Hend. unfold ends_with_text. cbn. exact Htext.
  - rewrite Htext in Hadj. cbn [andb] in Hadj. apply negb_true_iff in Hadj.
    rewrite pieces_of_cons, <- app_assoc.
    apply pieces_head_nontext. exact Hadj.
Qed.

Lemma safe_node_wf (node : HTMLNode) :
  node_wf strict comments selfClosing node.
Proof.
  induction node as [name attributes children IH|t|c]
    using HTMLNode_nested_ind; intros K context Hsafe HK Htext Hctx.
  - assert (Hnone : context = None).
    { destruct context as [n|]; [|reflexivity].
      destruct Hctx as [H _]. discriminate. }
    subst context. cbn [safe_node] in Hsafe.
    apply andb_true_iff in Hsafe as [Hsafe Hapart].
    apply andb_true_iff in Hsafe as [Hsafe Hchildren].
    apply andb_true_iff in Hsafe as [Hsafe Hraw].
    apply andb_true_iff in Hsafe as [Hsafe Hvoid].
    apply andb_true_iff in Hsafe as [Hsafe Hdup].
    apply andb_true_iff in Hsafe as [Hname Hattrs].
    destruct (element_name_written name Hname) as [Hnok Hlow].
    destruct (written_attributes_ok name attributes Hattrs Hdup)
      as (Haok & Hadup & _).
    assert (Htag : forall e,
      markup_ok (MTag (writeName name) (written_attributes name attributes) e)
      = true).
    { intro e. cbn [markup_ok]. rewrite Hnok, Haok, Hadup. reflexivity. }
    cbn [markups_of].
    destruct (negb (in_strs name _neverSelfClosing)
              && (in_strs name _voidTags
                  || selfClosing && (length children =? 0))) eqn:Hbranch.
    + cbn [unprefixed map app wf_pieces forallb is_text].
      rewrite Htag. cbn [andb].
      replace (context_after _) with (@None str); [exact HK|].
      destruct (in_strs name _voidTags) eqn:Hv; cbn [negb].
      * cbn [context_after]. rewrite Hlow.
        destruct (void_not_raw name Hv) as [-> _]. reflexivity.
      * destruct (0 <? length attributes); reflexivity.
    + cbn [unprefixed map app wf_pieces forallb is_text].
      rewrite Htag. cbn [andb context_after]. rewrite Hlow.
      rewrite map_app. cbn [map]. rewrite <- app_assoc. cbn [app].
      fold (unprefixed (flat_map (markups_of selfClosing) children)).
      fold (pieces_of selfClosing children).
      assert (Hnotvoid : in_strs name _voidTags = false).
      { destruct (in_strs name _voidTags) eqn:Hv; [|reflexivity].
        destruct (void_not_raw name Hv) as [_ Hn].
        rewrite Hn in Hbranch. discriminate. }
      assert (Hclose : tag_name_ok name = true /\ lower name = name).
      { destruct (element_name_cases name Hname)
          as [[-> _] | (H1 & H2 & _)]; [discriminate | auto]. }
      destruct Hclose as [Hcn Hcl].
      assert (HK' : forall ctx,
        match ctx with
        | Some n => str_eqb name n = true
        | None => True
        end ->
        wf_pieces strict ctx (([], MClose name) :: K) = true).
      { intros ctx Hc. cbn [wf_pieces forallb is_text markup_ok].
        rewrite Hcn. cbn [andb context_after]. rewrite HK, andb_true_r.
        destruct ctx as [n|]; [|reflexivity].
        cbn [closes]. rewrite Hcl. exact Hc. }
      destruct (in_strs name _contextSwitchTags) eqn:Hr.
      * destruct children as [|[n a ch|t|c] [|b l]]; try discriminate.
        -- apply (HK' (Some name)). apply str_eqb_refl.
        -- cbn [forallb safe_node] in Hchildren.
           rewrite andb_true_r in Hchildren.
           destruct (text_ok_markup t Hchildren) as [Hm _].
           cbn [pieces_of flat_map markups_of app unprefixed map
                wf_pieces forallb is_text closes context_after].
           rewrite Hm, Hcl, str_eqb_refl. cbn [andb negb].
           apply (HK' None). exact I.
      * apply (forest_wf children IH); try assumption.
        -- apply (HK' None). exact I.
        -- intros _. reflexivity.
  - cbn [safe_node] in Hsafe. destruct (text_ok_markup t Hsafe) as [Hm _].
    cbn [markups_of unprefixed map app wf_pieces forallb is_text
         context_after].
    rewrite Hm, HK. cbn [andb].
    assert (Hpre : match K with
                   | [] => negb strict
                   | (_, m') :: _ => negb (is_text m')
                   end = true) by exact (Htext eq_refl).
    rewrite Hpre. cbn [andb]. rewrite andb_true_r.
    destruct context as [n|]; [|reflexivity]. apply Hctx.
  - assert (Hnone : context = None).
    { destruct context as [n|]; [|reflexivity].
      destruct Hctx as [H _]. discriminate. }
    subst context. cbn [safe_node] in Hsafe.
    apply andb_true_iff in Hsafe as [_ Hc]. unfold comment_ok in Hc.
    apply andb_true_iff in Hc as [Hc _].
    cbn [markups_of unprefixed map app wf_pieces forallb is_text
         context_after markup_ok].
    rewrite Hc, HK. reflexivity.
Qed.

(** The serializer writes a safe document as a well-formed one. *)
Lemma safe_document_wf (rootList : list HTMLNode) :
  safe_document strict comments rootList = true ->
  wf_pieces strict None (pieces_of selfClosing rootList) = true.
Proof.
  unfold safe_document. intro H.
  apply andb_true_iff in H as [H Hend].
  apply andb_true_iff in H as [Hsafe Hapart].
  rewrite <- (app_nil_r (pieces_of selfClosing rootList)).
  apply forest_wf; try assumption; try reflexivity.
  - apply Forall_forall. intros node _. apply safe_node_wf.
  - intro He. rewrite He, andb_true_r in Hend. exact Hend.
Qed.

End SafeWellFormed.

(** *** The builder on a well-formed document *)

Section Build.

Variable html : str.
Variables (strict comments selfClosing : bool).

(** One call of [next] in front of a piece without prefix. *)
Lemma ready_step (self : HTMLParser) (offset : nat) (context : option str)
  (m : markup) (R : list (str * markup)) :
  Ready html self offset context (([], m) :: R) ->
  wf_pieces strict context (([], m) :: R) = true ->
  exists segment self',
    next html strict self = Ok (Some segment, self')
    /\ captures ([], m) segment
    /\ Ready html self' (offset + length (render m)) (context_after m) R
    /\ wf_pieces strict (context_after m) R = true.
Proof.
  intros HR Hwf.
  destruct (next_step html strict self offset context [] m R HR Hwf)
    as (segment & self' & Hnext & Hexp & HR').
  exists segment, self'. split; [exact Hnext|]. split; [|split].
  - assert (H : Forall2 captures (([], m) :: R)
                 (segment
                  :: expected (offset + length (@nil ascii)
                               + length (render m)) R)).
    { rewrite <- Hexp. apply expected_captures. }
    inversion H; subst. assumption.
  - cbn [length] in HR'. rewrite Nat.add_0_r in HR'. exact HR'.
  - cbn [wf_pieces] in Hwf. apply andb_true_iff in Hwf as [_ H]. exact H.
Qed.

(** The child pass in front of the pieces of the children and the close
    tag of the parent. *)
Lemma forest_loads (l : list HTMLNode) :
  Forall (node_loads html strict comments selfClosing) l ->
  forall fuel parent acc self offset context K,
    weight_forest l < fuel ->
    forallb (safe_node comments) l = true ->
    lower parent = parent ->
    Ready html self offset context
      (pieces_of selfClosing l ++ ([], MClose parent) :: K) ->
    wf_pieces strict context
      (pieces_of selfClosing l ++ ([], MClose parent) :: K) = true ->
    exists self' offset',
      _loadChildren html strict comments fuel parent acc self
      = Ok (None, acc ++ l, self')
      /\ Ready html self' offset' None K
      /\ wf_pieces strict None K = true.
Proof.
  induction 1 as [|node l Hnode _ IH];
    intros fuel parent acc self offset context K Hfuel Hsafe Hlow HR Hwf;
    (destruct fuel as [|fuel]; [lia|]).
  - cbn [pieces_of flat_map unprefixed map app] in HR, Hwf.
    destruct (ready_step self offset context _ K HR Hwf)
      as (segment & self' & Hnext & Hcap & HR' & Hwf').
    exists self', (offset + length (render (MClose parent))).
    split; [|split; assumption].
    cbn [_loadChildren]. rewrite Hnext. cbn [bind].
    destruct segment as [e| |]; cbn [captures snd] in Hcap;
      try contradiction.
    destruct Hcap as (_ & Hn & Ho & Hc).
    rewrite Ho, Hc, Hn, Hlow, str_eqb_refl, app_nil_r. reflexivity.
  - rewrite pieces_of_cons, <- app_assoc in HR, Hwf.
    cbn [forallb] in Hsafe. apply andb_true_iff in Hsafe as [Hs Hsl].
    unfold weight_forest in Hfuel. cbn [map list_sum fold_right] in Hfuel.
    fold (list_sum (map weight l)) in Hfuel.
    fold (weight_forest l) in Hfuel.
    assert (Hw : 1 <= weight node) by (destruct node; cbn; lia).
    destruct (Hnode fuel parent acc self offset context _
                ltac:(lia) Hs HR Hwf)
      as (self1 & offset1 & Hstep & HR1 & Hwf1).
    destruct (IH fuel parent (acc ++ [node]) self1 offset1 None K
                ltac:(lia) Hsl Hlow HR1 Hwf1)
      as (self2 & offset2 & Hrest & HR2 & Hwf2).
    exists self2, offset2. split; [|split; assumption].
    rewrite Hstep, Hrest, <- app_assoc. reflexivity.
Qed.

Lemma single_tag_context (name : str) (attributes : dict)
  (children : list HTMLNode) :
  element_name_ok name = true ->
  context_after
    (MTag (writeName name) (written_attributes name attributes)
       (if negb (in_strs name _voidTags)
        then if 0 <? length attributes then SpaceSlash else Slash
        else NoSlash)) = None.
Proof.
  intro Hname. destruct (element_name_written name Hname) as [_ Hlow].
  destruct (in_strs name _voidTags) eqn:Hv; cbn [negb].
  - cbn [context_after]. rewrite Hlow.
    destruct (void_not_raw name Hv) as [-> _]. reflexivity.
  - destruct (0 <? length attributes); reflexivity.
Qed.

(** Every safe node is loaded back by one pass of the child loop. *)
Lemma safe_node_loads (node : HTMLNode) :
  node_loads html strict comments selfClosing node.
Proof.
  induction node as [name attributes children IH|t|c]
    using HTMLNode_nested_ind;
    intros fuel parent acc self offset context R Hfuel Hsafe HR Hwf.
  - cbn [safe_node] in Hsafe.
    apply andb_true_iff in Hsafe as [Hsafe Hapart].
    apply andb_true_iff in Hsafe as [Hsafe Hchildren].
    apply andb_true_iff in Hsafe as [Hsafe Hraw].
    apply andb_true_iff in Hsafe as [Hsafe Hvoid].
    apply andb_true_iff in Hsafe as [Hsafe Hdup].
    apply andb_true_iff in Hsafe as [Hname Hattrs].
    destruct (element_name_written name Hname) as [_ Hlow].
    destruct (written_attributes_ok name attributes Hattrs Hdup)
      as (_ & _ & Hdict).
    cbn [markups_of] in HR, Hwf.
    destruct (negb (in_strs name _neverSelfClosing)
              && (in_strs name _voidTags
                  || selfClosing && (length children =? 0))) eqn:Hbranch.
    + (* one tag *)
      cbn [unprefixed map app] in HR, Hwf.
      destruct (ready_step self offset context _ R HR Hwf)
        as (segment & self' & Hnext & Hcap & HR' & Hwf').
      rewrite (single_tag_context name attributes children Hname)
        in HR', Hwf'.
      eexists; eexists. split; [|split; eassumption].
      cbn [_loadChildren]. rewrite Hnext. cbn [bind].
      destruct segment as [e| |]; cbn [captures snd] in Hcap;
        try contradiction.
      destruct Hcap as (_ & Hn & Ha & Ho & Hc).
      rewrite Ho, Hc, Hn, Ha, Hlow, Hdict.
      assert (Hnone : children = []).
      { apply andb_true_iff in Hbranch as [_ Hb].
        destruct (in_strs name _voidTags).
        - apply Nat.eqb_eq in Hvoid. destruct children; [reflexivity|].
          discriminate.
        - cbn [orb] in Hb. apply andb_true_iff in Hb as [_ Hb].
          apply Nat.eqb_eq in Hb. destruct children; [reflexivity|].
          discriminate. }
      subst children.
      destruct (in_strs name _voidTags); cbn [negb andb];
        [reflexivity|].
      destruct (0 <? length attributes); reflexivity.
    + (* an open tag, the children, a close tag *)
      assert (Hnotvoid : in_strs name _voidTags = false).
      { destruct (in_strs name _voidTags) eqn:Hv; [|reflexivity].
        destruct (void_not_raw name Hv) as [_ Hn].
        rewrite Hn in Hbranch. discriminate. }
      assert (Hcl : lower name = name).
      { destruct (element_name_cases name Hname)
          as [[-> _] | (_ & H2 & _)]; [discriminate | exact H2]. }
      assert (Hpieces :
        unprefixed
          (MTag (writeName name) (written_attributes name attributes)
             NoSlash
           :: flat_map (markups_of selfClosing) children ++ [MClose name])
        ++ R
        = ([], MTag (writeName name) (written_attributes name attributes)
                 NoSlash)
          :: (pieces_of selfClosing children ++ ([], MClose name) :: R)).
      { unfold pieces_of, unprefixed. cbn [map app].
        rewrite map_app, <- app_assoc. reflexivity. }
      rewrite Hpieces in HR, Hwf.
      destruct (ready_step self offset context _ _ HR Hwf)
        as (segment & self1 & Hnext & Hcap & HR1 & Hwf1).
      cbn [weight] in Hfuel. fold (weight_forest children) in Hfuel.
      destruct (forest_loads children IH fuel name [] self1 _ _ R
                  ltac:(lia) Hchildren Hcl HR1 Hwf1)
        as (self2 & offset2 & Hrec & HR2 & Hwf2).
      exists self2, offset2. split; [|split; assumption].
      cbn [_loadChildren]. rewrite Hnext. cbn [bind].
      destruct segment as [e| |]; cbn [captures snd] in Hcap;
        try contradiction.
      destruct Hcap as (_ & Hn & Ha & Ho & Hc).
      rewrite Ho, Hc, Hn, Ha, Hlow, Hdict, Hnotvoid. cbn [negb andb].
      rewrite Hrec. reflexivity.
  - cbn [safe_node] in Hsafe. destruct (text_ok_markup t Hsafe) as [_ Hs].
    cbn [markups_of unprefixed map app] in HR, Hwf.
    destruct (ready_step self offset context _ R HR Hwf)
      as (segment & self' & Hnext & Hcap & HR' & Hwf').
    eexists; eexists. split; [|split; eassumption].
    cbn [_loadChildren]. rewrite Hnext. cbn [bind].
    destruct segment as [|text a b|]; cbn [captures snd] in Hcap;
      try contradiction.
    rewrite Hcap, Hs. reflexivity.
  - cbn [safe_node] in Hsafe. apply andb_true_iff in Hsafe as [Hcom Hc].
    unfold comment_ok in Hc. apply andb_true_iff in Hc as [_ Hs].
    apply str_eqb_eq in Hs.
    cbn [markups_of unprefixed map app] in HR, Hwf.
    destruct (ready_step self offset context _ R HR Hwf)
      as (segment & self' & Hnext & Hcap & HR' & Hwf').
    eexists; eexists. split; [|split; eassumption].
    cbn [_loadChildren]. rewrite Hnext. cbn [bind].
    destruct segment as [| |text a b c']; cbn [captures snd] in Hcap;
      try contradiction.
    destruct Hcap as [_ ->]. rewrite Hcom, Hs. reflexivity.
Qed.

(** One pass of the loop of [_load] in front of the pieces of a node. *)
Lemma root_step (node : HTMLNode) :
  forall fuel acc self offset context R,
    weight node <= fuel ->
    safe_node comments node = true ->
    Ready html self offset context
      (unprefixed (markups_of selfClosing node) ++ R) ->
    wf_pieces strict context
      (unprefixed (markups_of selfClosing node) ++ R) = true ->
    exists self' offset',
      load_loop html strict comments (S fuel) acc self
      = load_loop html strict comments fuel (acc ++ [node]) self'
      /\ Ready html self' offset' None R
      /\ wf_pieces strict None R = true.
Proof.
  destruct node as [name attributes children|t|c];
    intros fuel acc self offset context R Hfuel Hsafe HR Hwf.
  - cbn [safe_node] in Hsafe.
    apply andb_true_iff in Hsafe as [Hsafe Hapart].
    apply andb_true_iff in Hsafe as [Hsafe Hchildren].
    apply andb_true_iff in Hsafe as [Hsafe Hraw].
    apply andb_true_iff in Hsafe as [Hsafe Hvoid].
    apply andb_true_iff in Hsafe as [Hsafe Hdup].
    apply andb_true_iff in Hsafe as [Hname Hattrs].
    destruct (element_name_written name Hname) as [_ Hlow].
    destruct (written_attributes_ok name attributes Hattrs Hdup)
      as (_ & _ & Hdict).
    cbn [markups_of] in HR, Hwf.
    destruct (negb (in_strs name _neverSelfClosing)
              && (in_strs name _voidTags
                  || selfClosing && (length children =? 0))) eqn:Hbranch.
    + cbn [unprefixed map app] in HR, Hwf.
      destruct (ready_step self offset context _ R HR Hwf)
        as (segment & self' & Hnext & Hcap & HR' & Hwf').
      rewrite (single_tag_context name attributes children Hname)
        in HR', Hwf'.
      eexists; eexists. split; [|split; eassumption].
      cbn [load_loop]. rewrite Hnext. cbn [bind].
      destruct segment as [e| |]; cbn [captures snd] in Hcap;
        try contradiction.
      destruct Hcap as (_ & Hn & Ha & Ho & Hc).
      rewrite Ho, Hc, Hn, Ha, Hlow, Hdict.
      assert (Hnone : children = []).
      { apply andb_true_iff in Hbranch as [_ Hb].
        destruct (in_strs name _voidTags).
        - apply Nat.eqb_eq in Hvoid. destruct children; [reflexivity|].
          discriminate.
        - cbn [orb] in Hb. apply andb_true_iff in Hb as [_ Hb].
          apply Nat.eqb_eq in Hb. destruct children; [reflexivity|].
          discriminate. }
      subst children.
      destruct (in_strs name _voidTags); cbn [negb andb];
        [reflexivity|].
      destruct (0 <? length attributes); reflexivity.
    + assert (Hnotvoid : in_strs name _voidTags = false).
      { destruct (in_strs name _voidTags) eqn:Hv; [|reflexivity].
        destruct (void_not_raw name Hv) as [_ Hn].
        rewrite Hn in Hbranch. discriminate. }
      assert (Hcl : lower name = name).
      { destruct (element_name_cases name Hname)
          as [[-> _] | (_ & H2 & _)]; [discriminate | exact H2]. }
      assert (Hpieces :
        unprefixed
          (MTag (writeName name) (written_attributes name attributes)
             NoSlash
           :: flat_map (markups_of selfClosing) children ++ [MClose name])
        ++ R
        = ([], MTag (writeName name) (written_attributes name attributes)
                 NoSlash)
          :: (pieces_of selfClosing children ++ ([], MClose name) :: R)).
      { unfold pieces_of, unprefixed. cbn [map app].
        rewrite map_app, <- app_assoc. reflexivity. }
      rewrite Hpieces in HR, Hwf.
      destruct (ready_step self offset context _ _ HR Hwf)
        as (segment & self1 & Hnext & Hcap & HR1 & Hwf1).
      cbn [weight] in Hfuel. fold (weight_forest children) in Hfuel.
      assert (Hall : Forall (node_loads html strict comments selfClosing)
                       children).
      { apply Forall_forall. intros node _. apply safe_node_loads. }
      destruct (forest_loads children Hall fuel name [] self1 _ _ R
                  ltac:(lia) Hchildren Hcl HR1 Hwf1)
        as (self2 & offset2 & Hrec & HR2 & Hwf2).
      exists self2, offset2. split; [|split; assumption].
      cbn [load_loop]. rewrite Hnext. cbn [bind].
      destruct segment as [e| |]; cbn [captures snd] in Hcap;
        try contradiction.
      destruct Hcap as (_ & Hn & Ha & Ho & Hc).
      rewrite Ho, Hc, Hn, Ha, Hlow, Hdict, Hnotvoid. cbn [negb andb].
      rewrite Hrec. reflexivity.
  - cbn [safe_node] in Hsafe. destruct (text_ok_markup t Hsafe) as [_ Hs].
    cbn [markups_of unprefixed map app] in HR, Hwf.
    destruct (ready_step self offset context _ R HR Hwf)
      as (segment & self' & Hnext & Hcap & HR' & Hwf').
    eexists; eexists. split; [|split; eassumption].
    cbn [load_loop]. rewrite Hnext. cbn [bind].
    destruct segment as [|text a b|]; cbn [captures snd] in Hcap;
      try contradiction.
    rewrite Hcap, Hs. reflexivity.
  - cbn [safe_node] in Hsafe. apply andb_true_iff in Hsafe as [Hcom Hc].
    unfold comment_ok in Hc. apply andb_true_iff in Hc as [_ Hs].
    apply str_eqb_eq in Hs.
    cbn [markups_of unprefixed map app] in HR, Hwf.
    destruct (ready_step self offset context _ R HR Hwf)
      as (segment & self' & Hnext & Hcap & HR' & Hwf').
    eexists; eexists. split; [|split; eassumption].
    cbn [load_loop]. rewrite Hnext. cbn [bind].
    destruct segment as [| |text a b c']; cbn [captures snd] in Hcap;
      try contradiction.
    destruct Hcap as [_ ->]. rewrite Hcom, Hs. reflexivity.
Qed.

(** The loop of [_load] in front of the pieces of the root nodes, and
    nothing after them. *)
Lemma root_loads (l : list HTMLNode) :
  forall fuel acc self offset context,
    weight_forest l < fuel ->
    forallb (safe_node comments) l = true ->
    Ready html self offset context (pieces_of selfClosing l) ->
    wf_pieces strict context (pieces_of selfClosing l) = true ->
    load_loop html strict comments fuel acc self = Ok (acc ++ l).
Proof.
  induction l as [|node l IH];
    intros fuel acc self offset context Hfuel Hsafe HR Hwf;
    (destruct fuel as [|fuel]; [lia|]).
  - assert (Hlen := Ready_length html self offset context _ HR).
    destruct HR as (_ & _ & _ & [[_ Hp] | (pre & m & rest & He & _)]);
      [|discriminate].
    cbn [pieces_of flat_map unprefixed map document length] in Hlen.
    cbn [load_loop]. rewrite next_end by lia. cbn [bind].
    rewrite app_nil_r. reflexivity.
  - rewrite pieces_of_cons in HR, Hwf.
    cbn [forallb] in Hsafe. apply andb_true_iff in Hsafe as [Hs Hsl].
    unfold weight_forest in Hfuel. cbn [map list_sum fold_right] in Hfuel.
    fold (list_sum (map weight l)) in Hfuel.
    fold (weight_forest l) in Hfuel.
    assert (Hw : 1 <= weight node) by (destruct node; cbn; lia).
    destruct (root_step node fuel acc self offset context _
                ltac:(lia) Hs HR Hwf)
      as (self1 & offset1 & Hstep & HR1 & Hwf1).
    rewrite Hstep, (IH fuel (acc ++ [node]) self1 offset1 None
                      ltac:(lia) Hsl HR1 Hwf1), <- app_assoc.
    reflexivity.
Qed.

(** A safe node is written with at least one segment for each node. *)
Lemma weight_markups (node : HTMLNode) :
  safe_node comments node = true ->
  weight node <= length (markups_of selfClosing node).
Proof.
  induction node as [name attributes children IH|t|c]
    using HTMLNode_nested_ind; intro Hsafe;
    [|apply Nat.le_refl|apply Nat.le_refl].
  cbn [safe_node] in Hsafe.
  apply andb_true_iff in Hsafe as [Hsafe _].
  apply andb_true_iff in Hsafe as [Hsafe Hchildren].
  apply andb_true_iff in Hsafe as [Hsafe _].
  apply andb_true_iff in Hsafe as [_ Hvoid].
  assert (Hsum : list_sum (map weight children)
                 <= length (flat_map (markups_of selfClosing) children)).
  { clear Hvoid. induction children as [|child children IHl];
      [apply Nat.le_refl|].
    cbn [forallb] in Hchildren.
    apply andb_true_iff in Hchildren as [Hc Hcs].
    inversion IH as [|? ? Hchild Hrest]; subst.
    cbn [map list_sum fold_right flat_map].
    fold (list_sum (map weight children)). rewrite length_app.
    specialize (Hchild Hc). specialize (IHl Hrest Hcs). lia. }
  cbn [weight markups_of].
  destruct (negb (in_strs name _neverSelfClosing)
            && (in_strs name _voidTags
                || selfClosing && (length children =? 0))) eqn:Hbranch.
  - assert (Hnone : children = []).
    { apply andb_true_iff in Hbranch as [_ Hb].
      destruct (in_strs name _voidTags).
      - apply Nat.eqb_eq in Hvoid. destruct children; [reflexivity|].
        discriminate.
      - cbn [orb] in Hb. apply andb_true_iff in Hb as [_ Hb].
        apply Nat.eqb_eq in Hb. destruct children; [reflexivity|].
        discriminate. }
    subst children. apply Nat.le_refl.
  - cbn [length]. rewrite length_app. cbn [length]. lia.
Qed.

Lemma weight_pieces (l : list HTMLNode) :
  forallb (safe_node comments) l = true ->
  weight_forest l <= length (pieces_of selfClosing l).
Proof.
  unfold pieces_of, unprefixed, weight_forest. rewrite length_map.
  induction l as [|node l IH]; intro Hsafe; [apply Nat.le_refl|].
  cbn [forallb] in Hsafe. apply andb_true_iff in Hsafe as [Hs Hsl].
  cbn [map list_sum fold_right flat_map].
  fold (list_sum (map weight l)). rewrite length_app.
  specialize (IH Hsl). assert (H := weight_markups node Hs). lia.
Qed.

End Build.



(** The same happens to an attribute value that holds a double quote,
    which [write] does not escape: the value [y], a double quote, [z] of
    [x] is written between double quotes and read back as the value [y]
    of [x] and a second attribute. *)
Lemma write_rebuild_unescaped_quote_example :
  let value := lit "y" ++ [dquote] ++ lit "z" in
  let built := [HTMLElementNode (lit "a") [(lit "x", value)] []] in
  forall strict : bool,
    HTMLDocument (lit "<a x='" ++ value ++ lit "'></a>") strict false
    = Ok built
    /\ write false 2 false false false 20 built
       = lit "<a x=" ++ quoted value ++ lit "></a>"
    /\ HTMLDocument (write false 2 false false false 20 built) strict false
       = Ok [HTMLElementNode (lit "a")
               [(lit "x", lit "y"); (lit "z" ++ [dquote], lit "true")] []].
Proof.
  intros value built [|]; repeat split; vm_compute; reflexivity.
Qed.



(** * Further properties *)

(** ** The queries by id, attribute, tag name and text *)

Lemma dict_mem_get (k : str) (d : dict) :
  dict_mem k d = true <-> exists v, dict_get k d = Some v.
Proof.
  induction d as [|[k' v'] d IH]; cbn [dict_mem existsb dict_get fst].
  - split; [discriminate | intros [v H]; discriminate].
  - destruct (str_eqb k k'); cbn [orb].
    + split; [eauto | reflexivity].
    + exact IH.
Qed.

Lemma id_filter_attribute (id : str) (node : HTMLNode) :
  id_filter id node = attribute_filter (lit "id") (Some id) node.
Proof. destruct node; reflexivity. Qed.

Lemma find_firstn_filter (f : HTMLNode -> bool) (l : list HTMLNode) :
  match firstn 1 (List.filter f l) with
  | node :: _ => Some node
  | [] => None
  end = List.find f l.
Proof.
  induction l as [|x l IH]; [reflexivity|].
  cbn [List.filter List.find]. destruct (f x); [reflexivity | exact IH].
Qed.

Lemma hd_error_filter (f : HTMLNode -> bool) (l : list HTMLNode) :
  hd_error (List.filter f l) = List.find f l.
Proof.
  induction l as [|x l IH]; [reflexivity|].
  cbn [List.filter List.find]. destruct (f x); [reflexivity | exact IH].
Qed.

Lemma search_first (self : HTMLNode) (filter : HTMLNode -> bool) :
  search self filter None (Some 1%Z)
  = firstn 1 (List.filter filter (preorder self)).
Proof.
  rewrite search_scan. cbn [nodes_within].
  rewrite scan_bounded by (cbn; lia). reflexivity.
Qed.

Lemma search_capped (self : HTMLNode) (filter : HTMLNode -> bool)
  (maxDepth : option Z) (k : Z) :
  (1 <= k)%Z ->
  search self filter maxDepth (Some k)
  = firstn (Z.to_nat k) (List.filter filter (nodes_within maxDepth self)).
Proof.
  intro Hk. rewrite search_scan.
  rewrite scan_bounded by (cbn; lia). cbn [fst length app].
  rewrite Z.sub_0_r. reflexivity.
Qed.

Lemma search_uncapped (self : HTMLNode) (filter : HTMLNode -> bool)
  (maxDepth : option Z) :
  search self filter maxDepth None
  = List.filter filter (nodes_within maxDepth self).
Proof. rewrite search_scan, scan_unbounded. reflexivity. Qed.

Lemma texts_of_filter (l : list HTMLNode) :
  map node_text (List.filter is_text_node l) = texts_of l.
Proof.
  induction l as [|node l IH]; [reflexivity|].
  destruct node as [name attributes children|text|comment];
    cbn [List.filter is_text_node map node_text texts_of flat_map app];
    [exact IH | f_equal; exact IH | exact IH].
Qed.

Lemma texts_of_firstn (k : nat) (l : list HTMLNode) :
  map node_text (firstn k (List.filter is_text_node l))
  = firstn k (texts_of l).
Proof. rewrite <- firstn_map, texts_of_filter. reflexivity. Qed.

(** [getElementById] returns the first element, in document order and
    the node itself included, whose [id] attribute is the id asked for,
    and [None] when there is none; it is the first of the elements
    [getElementsById] returns. *)
Theorem getElementById_first_in_document_order (self : HTMLNode)
  (id : str) :
  getElementById self id = List.find (id_filter id) (preorder self)
  /\ getElementById self id = hd_error (getElementsById self id)
  /\ (getElementById self id = None <->
      forall name attributes children,
        In (HTMLElementNode name attributes children) (preorder self) ->
        dict_get (lit "id") attributes <> Some id).
Proof.
  assert (Hfind : getElementById self id
                  = List.find (id_filter id) (preorder self)).
  { unfold getElementById. rewrite search_first.
    apply find_firstn_filter. }
  split; [exact Hfind|]. split.
  - rewrite Hfind. unfold getElementsById, getElementsByAttribute.
    rewrite search_unbounded, hd_error_filter.
    clear Hfind. induction (preorder self) as [|x l IH]; [reflexivity|].
    cbn [List.find]. rewrite id_filter_attribute, IH. reflexivity.
  - rewrite Hfind. split.
    + intros Hnone name attributes children Hin Hid.
      apply (find_none _ _ Hnone) in Hin. cbn [id_filter] in Hin.
      rewrite Hid, str_eqb_refl, andb_true_r in Hin.
      assert (H : dict_mem (lit "id") attributes = true)
        by (apply dict_mem_get; eauto).
      congruence.
    + intro Hall. destruct (List.find (id_filter id) (preorder self))
        as [node|] eqn:E; [|reflexivity].
      apply find_some in E as [Hin Hf].
      destruct node as [name attributes children| |]; try discriminate.
      cbn [id_filter] in Hf. apply andb_true_iff in Hf as [_ Hf].
      destruct (dict_get (lit "id") attributes) as [v|] eqn:Ev;
        [|discriminate].
      apply str_eqb_eq in Hf. subst v.
      exfalso. exact (Hall name attributes children Hin Ev).
Qed.

(** [getElementsByAttribute] returns, in document order and the node
    itself included, exactly the elements that have the attribute, with
    the value asked for when one is given; [getElementsById] and
    [getElementsByName] are the cases of the attributes [id] and
    [name]. *)
Theorem getElementsByAttribute_document_order (self : HTMLNode)
  (attribute : str) (value : option str) :
  getElementsByAttribute self attribute value
  = List.filter (attribute_filter attribute value) (preorder self)
  /\ (forall node,
        In node (getElementsByAttribute self attribute value) <->
        In node (preorder self)
        /\ exists name attributes children v,
             node = HTMLElementNode name attributes children
             /\ dict_get attribute attributes = Some v
             /\ match value with
                | Some w => v = w
                | None => True
                end)
  /\ (forall id,
        getElementsById self id
        = List.filter (attribute_filter (lit "id") (Some id))
            (preorder self))
  /\ (forall name,
        getElementsByName self name
        = List.filter (attribute_filter (lit "name") (Some name))
            (preorder self)).
Proof.
  assert (Heq : forall a v,
             getElementsByAttribute self a v
             = List.filter (attribute_filter a v) (preorder self)).
  { intros a v. apply search_unbounded. }
  split; [apply Heq|]. split; [|split; intro; apply Heq].
  intro node. rewrite Heq, filter_In. split.
  - intros [Hin Hf]. split; [exact Hin|].
    destruct node as [name attributes children| |]; try discriminate.
    cbn [attribute_filter] in Hf. apply andb_true_iff in Hf as [Hmem Hv].
    apply dict_mem_get in Hmem as [v Hget].
    exists name, attributes, children, v.
    split; [reflexivity|]. split; [exact Hget|].
    destruct value as [w|]; [|exact I].
    rewrite Hget in Hv. apply str_eqb_eq in Hv. exact Hv.
  - intros [Hin (name & attributes & children & v & -> & Hget & Hv)].
    split; [exact Hin|]. cbn [attribute_filter].
    apply andb_true_iff. split; [apply dict_mem_get; eauto|].
    destruct value as [w|]; [|reflexivity].
    rewrite Hget. subst w. apply str_eqb_refl.
Qed.

(** [getElementsByTagName] returns, in document order and the node itself
    included, exactly the elements whose name is the name asked for; the
    names are compared as they are, letter case included. *)
Theorem getElementsByTagName_document_order (self : HTMLNode)
  (tagName : str) :
  getElementsByTagName self tagName
  = List.filter (is_named tagName) (preorder self)
  /\ (forall node,
        In node (getElementsByTagName self tagName) <->
        In node (preorder self)
        /\ exists attributes children,
             node = HTMLElementNode tagName attributes children).
Proof.
  assert (Heq : getElementsByTagName self tagName
                = List.filter (is_named tagName) (preorder self))
    by apply search_unbounded.
  split; [exact Heq|]. intro node. rewrite Heq, filter_In. split.
  - intros [Hin Hf]. split; [exact Hin|].
    destruct node as [name attributes children| |]; try discriminate.
    cbn [is_named] in Hf. apply str_eqb_eq in Hf. subst name. eauto.
  - intros [Hin (attributes & children & ->)]. split; [exact Hin|].
    apply str_eqb_refl.
Qed.

(** [getText] returns the texts of the text nodes at most [maxDepth]
    generations below the node (all of them without [maxDepth], the node
    alone for a bound below 1), in document order; with a cap
    [maxResults] of at least 1, the first [maxResults] of them. *)
Theorem getText_texts_in_document_order (self : HTMLNode)
  (maxDepth maxResults : option Z) :
  match maxResults with
  | Some k => (1 <= k)%Z
  | None => True
  end ->
  getText self maxDepth maxResults
  = match maxResults with
    | Some k =>
        firstn (Z.to_nat k) (texts_of (nodes_within maxDepth self))
    | None => texts_of (nodes_within maxDepth self)
    end.
Proof.
  intro Hk. unfold getText. destruct maxResults as [k|].
  - rewrite search_capped by exact Hk. apply texts_of_firstn.
  - rewrite search_uncapped. apply texts_of_filter.
Qed.

Lemma getText_texts_in_document_order_witness :
  let tree :=
    HTMLElementNode (lit "p") []
      [HTMLTextNode (lit "a");
       HTMLElementNode (lit "b") [] [HTMLTextNode (lit "c")];
       HTMLTextNode (lit "d")] in
  getText tree (Some 1%Z) (Some 2%Z)
  = firstn 2 (texts_of (nodes_within (Some 1%Z) tree)).
Proof.
  apply (getText_texts_in_document_order
           (HTMLElementNode (lit "p") []
              [HTMLTextNode (lit "a");
               HTMLElementNode (lit "b") [] [HTMLTextNode (lit "c")];
               HTMLTextNode (lit "d")])
           (Some 1%Z) (Some 2%Z)).
  cbn. lia.
Defined.

(** ** The shortcut accessors *)

Lemma find_app_or_else (f : HTMLNode -> bool) (l1 l2 : list HTMLNode) :
  List.find f (l1 ++ l2) = or_else (List.find f l1) (List.find f l2).
Proof.
  induction l1 as [|x l1 IH]; [reflexivity|].
  cbn [app List.find]. destruct (f x); [reflexivity | exact IH].
Qed.

Lemma find_last_cons (f : HTMLNode -> bool) (node : HTMLNode)
  (l : list HTMLNode) :
  find_last f (node :: l)
  = or_else (find_last f l) (if f node then Some node else None).
Proof.
  unfold find_last. cbn [rev]. rewrite find_app_or_else.
  cbn [List.find]. destruct (f node); reflexivity.
Qed.

Lemma or_else_assoc (a b c : option HTMLNode) :
  or_else (or_else a b) c = or_else a (or_else b c).
Proof. destruct a; reflexivity. Qed.

(** Without [strict] each field of a loop of [_linkNodes] ends on the
    last node of its name. *)
Lemma link_loop_lenient (first second : str) (nodes : list HTMLNode) :
  first <> second ->
  forall index a b,
    link_loop false first second index nodes a b
    = (or_else (find_last (is_named first) nodes) a,
       or_else (find_last (is_named second) nodes) b).
Proof.
  intro Hne. induction nodes as [|node nodes IH]; intros index a b;
    [reflexivity|].
  cbn [link_loop]. rewrite !find_last_cons, !or_else_assoc.
  destruct node as [name attributes children|text|comment];
    cbn [is_named]; try (rewrite IH; reflexivity).
  cbn [negb]. rewrite !orb_true_r.
  destruct (str_eqb name first) eqn:E1.
  - apply str_eqb_eq in E1. subst name.
    assert (E2 : str_eqb first second = false)
      by (apply str_eqb_neq; exact Hne).
    rewrite E2, IH. reflexivity.
  - destruct (str_eqb name second); rewrite IH; reflexivity.
Qed.

(** With [strict] a loop of [_linkNodes] looks at the first two nodes
    only. *)
Lemma link_loop_strict_late (first second : str) (nodes : list HTMLNode) :
  forall index a b,
    2 <= index ->
    link_loop true first second index nodes a b = (a, b).
Proof.
  induction nodes as [|node nodes IH]; intros index a b Hi;
    [reflexivity|].
  cbn [link_loop negb]. rewrite !orb_false_r.
  assert (H0 : (index =? 0) = false) by (apply Nat.eqb_neq; lia).
  assert (H1 : (index =? 1) = false) by (apply Nat.eqb_neq; lia).
  rewrite H0, H1. cbn [orb].
  destruct node as [name attributes children|text|comment];
    [destruct (str_eqb name first); [|destruct (str_eqb name second)]| |];
    apply IH; lia.
Qed.

Lemma link_loop_strict (first second : str) (nodes : list HTMLNode) :
  first <> second ->
  forall a b,
    link_loop true first second 0 nodes a b
    = (or_else (node_at (is_named first) 0 nodes) a,
       or_else (node_at (is_named second) 1 nodes)
         (or_else (node_at (is_named second) 0 nodes) b)).
Proof.
  intros Hne a b.
  destruct nodes as [|n0 [|n1 nodes]]; [reflexivity| |];
    cbn [link_loop Nat.eqb orb negb node_at nth_error];
    repeat match goal with
           | |- context [match ?n with
                         | HTMLElementNode _ _ _ => _
                         | _ => _
                         end] =>
               is_var n; destruct n as [? ? ?|?|?]
           end;
    cbn [is_named or_else];
    repeat match goal with
           | |- context [str_eqb ?x ?y] =>
               let E := fresh "E" in destruct (str_eqb x y) eqn:E
           end;
    rewrite ?link_loop_strict_late by lia; cbn [or_else];
    try reflexivity;
    (exfalso;
     repeat match goal with
            | H : str_eqb _ _ = true |- _ => apply str_eqb_eq in H
            end;
     subst; congruence).
Qed.

(** In strict mode [_linkNodes] links the doctype only when it is the
    first root node, the [html] element only when it is the first or the
    second root node (the second if both are), and likewise the [head]
    and [body] elements among the children of the linked [html] element;
    without an [html] element there is no [head] and no [body]. *)
Theorem linkNodes_strict_first_nodes (rootList : list HTMLNode) :
  let links := _linkNodes true rootList in
  _doctype links = node_at (is_named (lit "!doctype")) 0 rootList
  /\ _html links
     = or_else (node_at (is_named (lit "html")) 1 rootList)
         (node_at (is_named (lit "html")) 0 rootList)
  /\ match _html links with
     | Some (HTMLElementNode _ _ children) =>
         _head links = node_at (is_named (lit "head")) 0 children
         /\ _body links
            = or_else (node_at (is_named (lit "body")) 1 children)
                (node_at (is_named (lit "body")) 0 children)
     | _ => _head links = None /\ _body links = None
     end.
Proof.
  unfold _linkNodes.
  rewrite (link_loop_strict (lit "!doctype") (lit "html") rootList)
    by discriminate.
  set (d := node_at (is_named (lit "!doctype")) 0 rootList).
  set (h := or_else (node_at (is_named (lit "html")) 1 rootList)
              (or_else (node_at (is_named (lit "html")) 0 rootList)
                 None)).
  assert (Hh : h = or_else (node_at (is_named (lit "html")) 1 rootList)
                     (node_at (is_named (lit "html")) 0 rootList)).
  { subst h. destruct (node_at (is_named (lit "html")) 0 rootList);
      reflexivity. }
  assert (Hd : or_else d None = d) by (destruct d; reflexivity).
  rewrite Hd, <- Hh.
  destruct h as [[name attributes children|text|comment]|];
    cbn [_doctype _html _head _body]; try (repeat split; reflexivity).
  rewrite (link_loop_strict (lit "head") (lit "body") children)
    by discriminate.
  cbn [_doctype _html _head _body].
  split; [reflexivity|]. split; [reflexivity|]. split.
  - destruct (node_at (is_named (lit "head")) 0 children); reflexivity.
  - destruct (node_at (is_named (lit "body")) 0 children),
      (node_at (is_named (lit "body")) 1 children); reflexivity.
Qed.

(** In lenient mode [_linkNodes] links the last root element named
    [!doctype] and the last one named [html], wherever they are, and the
    last [head] and the last [body] among the children of the linked
    [html] element; without an [html] element there is no [head] and no
    [body]. *)
Theorem linkNodes_lenient_last_nodes (rootList : list HTMLNode) :
  let links := _linkNodes false rootList in
  _doctype links = find_last (is_named (lit "!doctype")) rootList
  /\ _html links = find_last (is_named (lit "html")) rootList
  /\ match _html links with
     | Some (HTMLElementNode _ _ children) =>
         _head links = find_last (is_named (lit "head")) children
         /\ _body links = find_last (is_named (lit "body")) children
     | _ => _head links = None /\ _body links = None
     end.
Proof.
  assert (Hor : forall a : option HTMLNode, or_else a None = a)
    by (intros [a|]; reflexivity).
  unfold _linkNodes.
  rewrite (link_loop_lenient (lit "!doctype") (lit "html") rootList)
    by discriminate.
  rewrite !Hor.
  destruct (find_last (is_named (lit "html")) rootList)
    as [[name attributes children|text|comment]|];
    cbn [_doctype _html _head _body]; try (repeat split; reflexivity).
  rewrite (link_loop_lenient (lit "head") (lit "body") children)
    by discriminate.
  rewrite !Hor. cbn [_doctype _html _head _body].
  repeat split; reflexivity.
Qed.

(** ** The cursor of the tokenizer *)

Lemma readWhitespace_loop_spec (rest : str) :
  forall p,
    let q := readWhitespace_loop rest p in
    p <= q /\ q <= p + length rest
    /\ forallb isspace (firstn (q - p) rest) = true
    /\ match skipn (q - p) rest with
       | c :: _ => isspace c = false
       | [] => True
       end.
Proof.
  induction rest as [|c rest IH]; intro p; cbn [readWhitespace_loop].
  - cbn zeta. rewrite Nat.sub_diag. cbn. repeat split; lia.
  - destruct (isspace c) eqn:Hc.
    + specialize (IH (p + 1)). cbn zeta in IH |- *.
      destruct IH as (H1 & H2 & H3 & H4).
      set (q := readWhitespace_loop rest (p + 1)) in *.
      replace (q - p) with (S (q - (p + 1))) by lia.
      cbn [length firstn forallb skipn]. rewrite Hc, H3.
      repeat split; try lia. exact H4.
    + cbn zeta. rewrite Nat.sub_diag. cbn [firstn forallb skipn length].
      repeat split; try lia. exact Hc.
Qed.


Lemma readWhitespace_ge (html : str) (p : nat) :
  p <= _readWhitespace html p.
Proof.
  unfold _readWhitespace.
  destruct (readWhitespace_loop_spec (skipn p html) p) as [H _].
  exact H.
Qed.

Lemma readWhitespace_le (html : str) (p : nat) :
  p <= length html -> _readWhitespace html p <= length html.
Proof.
  unfold _readWhitespace. intro Hp.
  destruct (readWhitespace_loop_spec (skipn p html) p) as (_ & H & _).
  rewrite length_skipn in H. lia.
Qed.

Lemma readWhitespace_nonspace (html : str) (p : nat) :
  p <= length html ->
  _readWhitespace html p <> length html ->
  exists c r,
    skipn (_readWhitespace html p) html = c :: r /\ isspace c = false.
Proof.
  intros Hp Hne. assert (Hle := readWhitespace_le html p Hp).
  assert (Hge := readWhitespace_ge html p).
  unfold _readWhitespace in *.
  destruct (readWhitespace_loop_spec (skipn p html) p)
    as (_ & _ & _ & H4).
  set (q := readWhitespace_loop (skipn p html) p) in *.
  rewrite skipn_skipn in H4.
  replace (q - p + p) with q in H4 by lia.
  destruct (skipn q html) as [|c r] eqn:E.
  - exfalso. apply (f_equal (@length _)) in E.
    rewrite length_skipn in E. cbn in E. lia.
  - eauto.
Qed.

(** ** The positions a tag read goes through *)

Lemma index_only_bind (A B : Type) (r : result A) (k : A -> result B) :
  index_only r -> (forall a, r = Ok a -> index_only (k a)) ->
  index_only (x <- r ;; k x).
Proof. destruct r as [a| |]; cbn; auto. Qed.

Lemma outcome_bind (A B : Type) (strict : bool) (r : result A)
  (k : A -> result B) :
  index_only r ->
  (forall a, r = Ok a -> tokenizer_outcome strict (k a)) ->
  tokenizer_outcome strict (x <- r ;; k x).
Proof.
  destruct r as [a|[]|]; cbn; auto; intros [].
Qed.

Lemma tokenizer_outcome_bind (A B : Type) (strict : bool) (r : result A)
  (k : A -> result B) :
  tokenizer_outcome strict r ->
  (forall a, r = Ok a -> tokenizer_outcome strict (k a)) ->
  tokenizer_outcome strict (x <- r ;; k x).
Proof. destruct r as [a|[]|]; cbn; auto. Qed.

Lemma index_only_getitem (s : str) (i : nat) : index_only (getitem s i).
Proof. unfold getitem. destruct (nth_error s i); exact I. Qed.

Lemma getitem_lt (s : str) (i : nat) (c : ascii) :
  getitem s i = Ok c -> i < length s.
Proof.
  unfold getitem. destruct (nth_error s i) eqn:E; [|discriminate].
  intros _. apply nth_error_Some. congruence.
Qed.

Lemma lower_char_idempotent (c : ascii) :
  lower_char (lower_char c) = lower_char c.
Proof. ascii_cases c. Qed.

Lemma lower_idempotent (s : str) : lower (lower s) = lower s.
Proof.
  unfold lower. rewrite map_map. apply map_ext. intro c.
  apply lower_char_idempotent.
Qed.

Lemma keys_lower_set (k v : str) (d : dict) :
  lower k = k -> keys_lower d -> keys_lower (dict_set k v d).
Proof.
  intros Hk Hd. induction Hd as [|[k' v'] d Hkv Hd IH];
    cbn [dict_set].
  - constructor; [exact Hk | constructor].
  - destruct (str_eqb k k'); constructor; assumption.
Qed.

Section TagPositions.

Variable html : str.
Variable strict : bool.

Lemma readTagName_gt (p r : nat) :
  _readTagName html strict p = Ok (Some r) -> p < r.
Proof.
  unfold _readTagName, _readTagNameDoctype.
  match goal with
  | |- context [if ?b then _ else _] => destruct b
  end; cbn [bind].
  - destruct (getitem html _) as [c| |]; cbn [bind]; try discriminate.
    destruct (isspace c || in_chars c ["/"; ">"]); cbn [bind].
    + intros [= <-]. cbn. lia.
    + destruct (readTagName_loop strict _ p p) as [q|]; [|discriminate].
      destruct (p <? q) eqn:E; [|discriminate].
      intros [= <-]. apply Nat.ltb_lt. exact E.
  - destruct (readTagName_loop strict _ p p) as [q|]; [|discriminate].
    destruct (p <? q) eqn:E; [|discriminate].
    intros [= <-]. apply Nat.ltb_lt. exact E.
Qed.

Lemma index_only_readTagName (p : nat) :
  index_only (_readTagName html strict p).
Proof.
  unfold _readTagName, _readTagNameDoctype.
  apply index_only_bind.
  - match goal with
    | |- context [if ?b then _ else _] => destruct b
    end; [|exact I].
    apply index_only_bind; [apply index_only_getitem|]. intros c _.
    destruct (isspace c || in_chars c ["/"; ">"]); exact I.
  - intros [r|] _; [exact I|].
    destruct (readTagName_loop strict _ p p) as [q|]; [|exact I].
    destruct (p <? q); exact I.
Qed.

Lemma readQuoted_loop_gt (quote : ascii) (rest : str) :
  forall p r, readQuoted_loop quote rest p = Some r -> p < r.
Proof.
  assert (H : forall n rest p r,
             length rest <= n ->
             readQuoted_loop quote rest p = Some r -> p < r).
  { induction n as [|n IH]; intros rest' p r Hn;
      (destruct rest' as [|c rest']; [discriminate|]);
      cbn [length] in Hn; [lia|].
    cbn [readQuoted_loop]. destruct (Ascii.eqb c quote).
    - intros [= <-]. lia.
    - destruct (Ascii.eqb c "\").
      + destruct rest' as [|c' rest']; [discriminate|].
        cbn [length] in Hn.
        intro H. apply IH in H; [lia | lia].
      + intro H. apply IH in H; [lia | lia]. }
  intros p r. apply (H (length rest) rest). apply Nat.le_refl.
Qed.

Lemma readUntil_loop_ge (stops : list ascii) (rest : str) :
  forall p, p <= readUntil_loop stops rest p.
Proof.
  induction rest as [|c rest IH]; intro p; cbn [readUntil_loop];
    [lia|].
  destruct (isspace c || in_chars c stops); [lia|].
  specialize (IH (p + 1)). lia.
Qed.

Lemma readTagAttributeProperty_gt (p r : nat) :
  _readTagAttributeProperty html strict p = Ok (Some r) ->
  p < r /\ p < length html.
Proof.
  unfold _readTagAttributeProperty.
  destruct (getitem html p) as [c| |] eqn:Hc.
  - assert (Hlt := getitem_lt _ _ _ Hc).
    assert (Hbody :
      (if in_chars c quotes
       then Ok (readQuoted_loop c (skipn (p + 1) html) (p + 1))
       else match readTagAttributeProperty_loop strict (skipn p html) p
            with
            | Some position =>
                if p <? position then Ok (Some position) else Ok None
            | None => Ok None
            end) = Ok (Some r) -> p < r).
    { destruct (in_chars c quotes).
      - intros [= H]. apply readQuoted_loop_gt in H. lia.
      - destruct (readTagAttributeProperty_loop strict _ p) as [q|];
          [|discriminate].
        destruct (p <? q) eqn:E; [|discriminate].
        intros [= <-]. apply Nat.ltb_lt. exact E. }
    destruct strict; cbn [bind].
    + destruct (in_chars c quotes) eqn:Hq; cbn [bind]; [discriminate|].
      try rewrite Hq in Hbody. intro H. split; [exact (Hbody H) | exact Hlt].
    + intro H. split; [exact (Hbody H) | exact Hlt].
  - destruct strict; cbn [bind]; discriminate.
  - destruct strict; cbn [bind]; discriminate.
Qed.

Lemma index_only_readTagAttributeProperty (p : nat) :
  index_only (_readTagAttributeProperty html strict p).
Proof.
  unfold _readTagAttributeProperty.
  apply index_only_bind.
  - destruct strict; [|exact I].
    apply index_only_bind; [apply index_only_getitem|]. intros c _.
    exact I.
  - intros [|] _; [exact I|].
    apply index_only_bind; [apply index_only_getitem|]. intros c _.
    destruct (in_chars c quotes); [exact I|].
    destruct (readTagAttributeProperty_loop strict _ p) as [q|];
      [|exact I].
    destruct (p <? q); exact I.
Qed.

Lemma readTagAttributeValue_ge (p r : nat) :
  _readTagAttributeValue html strict p = Ok (Some r) -> p <= r.
Proof.
  unfold _readTagAttributeValue.
  destruct (getitem html p) as [c| |]; cbn [bind]; try discriminate.
  destruct (in_chars c quotes).
  - intros [= H]. apply readQuoted_loop_gt in H. lia.
  - destruct (negb strict); [|discriminate].
    intros [= <-]. apply readUntil_loop_ge.
Qed.

Lemma index_only_readTagAttributeValue (p : nat) :
  index_only (_readTagAttributeValue html strict p).
Proof.
  unfold _readTagAttributeValue.
  apply index_only_bind; [apply index_only_getitem|]. intros c _.
  destruct (in_chars c quotes); [exact I|].
  destruct (negb strict); exact I.
Qed.

Lemma readTagAttribute_gt (p r : nat) (attributes attributes' : dict) :
  _readTagAttribute html strict p attributes
  = Ok (Some (r, attributes')) ->
  p < r /\ p < length html
  /\ (keys_lower attributes -> keys_lower attributes').
Proof.
  unfold _readTagAttribute.
  assert (Hw := readWhitespace_ge html p).
  destruct (_readTagAttributeProperty html strict _) as [[r1|]| |] eqn:Hp;
    cbn [bind]; try discriminate.
  apply readTagAttributeProperty_gt in Hp as [Hp1 Hp2].
  assert (Hw1 := readWhitespace_ge html r1).
  destruct (getitem html _) as [c| |] eqn:Hc; cbn [bind];
    try discriminate.
  set (name := lower (strip (_unwrap (slice html _ r1)))).
  assert (Hname : lower name = name) by apply lower_idempotent.
  destruct (Ascii.eqb c "=").
  - destruct (_readTagAttributeValue html strict _) as [[r2|]| |] eqn:Hv;
      cbn [bind]; try discriminate.
    apply readTagAttributeValue_ge in Hv.
    destruct (strict && dict_mem name attributes); [discriminate|].
    intros [= <- <-]. split; [lia|]. split; [lia|].
    apply keys_lower_set. exact Hname.
  - cbn [bind].
    destruct (strict && dict_mem name attributes); [discriminate|].
    intros [= <- <-]. split; [lia|]. split; [lia|].
    apply keys_lower_set. exact Hname.
Qed.

Lemma index_only_readTagAttribute (p : nat) (attributes : dict) :
  index_only (_readTagAttribute html strict p attributes).
Proof.
  unfold _readTagAttribute.
  apply index_only_bind; [apply index_only_readTagAttributeProperty|].
  intros [r1|] _; [|exact I].
  apply index_only_bind; [apply index_only_getitem|]. intros c _.
  apply index_only_bind.
  - destruct (Ascii.eqb c "="); [|exact I].
    apply index_only_bind; [apply index_only_readTagAttributeValue|].
    intros [r2|] _; exact I.
  - intros [[value q]|] _; [|exact I].
    destruct (strict && dict_mem _ attributes); exact I.
Qed.

(** The attribute loop of [_readTag] ends within [len(html) + 1] passes:
    an attribute read that succeeds starts inside the buffer and ends
    after its start. *)
Lemma index_only_readTagAttributes (fuel : nat) :
  forall p attributes,
    length html - p < fuel ->
    index_only (readTagAttributes html strict fuel p attributes).
Proof.
  induction fuel as [|fuel IH]; intros p attributes Hfuel; [lia|].
  cbn [readTagAttributes].
  apply index_only_bind; [apply index_only_readTagAttribute|].
  intros [[r attributes']|] Ha; [|exact I].
  apply readTagAttribute_gt in Ha as (H1 & H2 & _).
  apply IH. assert (H := readWhitespace_ge html r). lia.
Qed.

Lemma readTagAttributes_ge (fuel : nat) :
  forall p attributes q attributes',
    readTagAttributes html strict fuel p attributes
    = Ok (q, attributes') ->
    p <= q /\ (keys_lower attributes -> keys_lower attributes').
Proof.
  induction fuel as [|fuel IH]; intros p attributes q attributes';
    [discriminate|].
  cbn [readTagAttributes].
  destruct (_readTagAttribute html strict p attributes)
    as [[[r a]|]| |] eqn:Ha; cbn [bind]; try discriminate.
  - apply readTagAttribute_gt in Ha as (H1 & _ & Hk).
    intro H. apply IH in H as [H Hk'].
    assert (Hw := readWhitespace_ge html r). split; [lia | auto].
  - intros [= <- <-]. split; [lia | auto].
Qed.

Lemma readTagHead_gt (p q : nat) (open close : bool) (name : str) :
  readTagHead html strict p = Ok (Some (q, open, close, name)) ->
  p < q /\ lower name = name.
Proof.
  unfold readTagHead.
  destruct (getitem html p) as [c| |]; cbn [bind]; try discriminate.
  destruct (negb (Ascii.eqb c "<")); [discriminate|].
  destruct (getitem html (p + 1)) as [c1| |]; cbn [bind];
    try discriminate.
  destruct (Ascii.eqb c1 "/");
    (destruct (_readTagName html strict _) as [[r|]| |] eqn:Hn;
     cbn [bind]; try discriminate;
     apply readTagName_gt in Hn;
     intros [= <- <- <- <-];
     assert (Hw := readWhitespace_ge html r);
     split; [|apply lower_idempotent];
     destruct strict; cbn [negb] in *;
     try (assert (Hw1 := readWhitespace_ge html (p + 1)));
     try (assert (Hw2 := readWhitespace_ge html (p + 1 + 1)));
     lia).
Qed.

Lemma index_only_readTagHead (p : nat) :
  index_only (readTagHead html strict p).
Proof.
  unfold readTagHead.
  apply index_only_bind; [apply index_only_getitem|]. intros c _.
  destruct (negb (Ascii.eqb c "<")); [exact I|].
  apply index_only_bind; [apply index_only_getitem|]. intros c1 _.
  destruct (Ascii.eqb c1 "/");
    (apply index_only_bind; [apply index_only_readTagName|];
     intros [r|] _; exact I).
Qed.

Lemma readTagTail_offsets (start : nat) (name : str) (open close : bool)
  (q : nat) (attributes : dict) (e : HTMLParserElementSegment) :
  readTagTail html strict start name open close q attributes
  = Ok (Some e) ->
  el_start e = start /\ q < el_end e /\ el_end e <= length html
  /\ el_name e = name /\ el_attributes e = attributes.
Proof.
  unfold readTagTail.
  destruct (negb open && (0 <? length attributes)); [discriminate|].
  destruct (getitem html q) as [c| |]; cbn [bind]; try discriminate.
  destruct (Ascii.eqb c "/" && strict && close); [discriminate|].
  destruct (Ascii.eqb c "/");
    (destruct (getitem html _) as [c1| |] eqn:Hc1; cbn [bind];
     try discriminate;
     apply getitem_lt in Hc1;
     destruct (Ascii.eqb c1 ">"); [|discriminate];
     intros [= <-]; cbn [el_start el_end el_name el_attributes];
     repeat split; try lia;
     destruct strict; cbn [negb] in *;
     try (assert (Hw1 := readWhitespace_ge html q));
     try (assert (Hw2 := readWhitespace_ge html (q + 1)));
     lia).
Qed.

Lemma index_only_readTagTail (start : nat) (name : str) (open close : bool)
  (q : nat) (attributes : dict) :
  index_only (readTagTail html strict start name open close q attributes).
Proof.
  unfold readTagTail.
  destruct (negb open && (0 <? length attributes)); [exact I|].
  apply index_only_bind; [apply index_only_getitem|]. intros c _.
  destruct (Ascii.eqb c "/" && strict && close); [exact I|].
  destruct (Ascii.eqb c "/");
    (apply index_only_bind; [apply index_only_getitem|];
     intros c1 _; destruct (Ascii.eqb c1 ">"); exact I).
Qed.

(** A tag that [_readTag] reads at [p] starts at [p], is not empty and
    ends inside the buffer; its name and the names of its attributes are
    in lower case. *)
Lemma readTag_offsets (p : nat) (e : HTMLParserElementSegment) :
  _readTag html strict p = Ok (Some e) ->
  el_start e = p /\ p < el_end e /\ el_end e <= length html
  /\ lower (el_name e) = el_name e /\ keys_lower (el_attributes e).
Proof.
  rewrite readTag_parts.
  destruct (readTagHead html strict p) as [[[[[q open] close] name]|]| |]
    eqn:Hh; cbn [bind]; try discriminate.
  apply readTagHead_gt in Hh as [Hq Hname].
  destruct (readTagAttributes html strict _ q [])
    as [[q' attributes]| |] eqn:Ha; cbn [bind fst snd]; try discriminate.
  apply readTagAttributes_ge in Ha as [Hq' Hk].
  intro Ht. apply readTagTail_offsets in Ht as (H1 & H2 & H3 & H4 & H5).
  rewrite H4, H5. repeat split; try lia; [exact Hname|].
  apply Hk. constructor.
Qed.

Lemma index_only_readTag (p : nat) : index_only (_readTag html strict p).
Proof.
  rewrite readTag_parts.
  apply index_only_bind; [apply index_only_readTagHead|].
  intros [[[[q open] close] name]|] _; [|exact I].
  apply index_only_bind.
  - apply index_only_readTagAttributes. lia.
  - intros [q' attributes] _. apply index_only_readTagTail.
Qed.

End TagPositions.

(** ** Where the segments of [next] come from *)

Lemma strip_decompose (s : str) :
  exists a b,
    s = a ++ strip s ++ b
    /\ forallb isspace a = true /\ forallb isspace b = true.
Proof.
  destruct (lstrip_split s) as (a & Ha & Hsa & _).
  destruct (lstrip_split (rev (lstrip s))) as (b & Hb & Hsb & _).
  exists a, (rev b). split; [|split].
  - unfold strip, rstrip. rewrite <- rev_app_distr, <- Hb, rev_involutive.
    exact Ha.
  - exact Hsa.
  - rewrite forallb_isspace_rev. exact Hsb.
Qed.

Lemma strip_idempotent (s : str) : strip (strip s) = strip s.
Proof.
  destruct (strip_decompose s) as (a & b & Hs & Ha & Hb).
  rewrite Hs at 2. rewrite strip_pad by assumption. reflexivity.
Qed.

Lemma strip_nonempty (c : ascii) (r : str) :
  isspace c = false -> strip (c :: r) <> [].
Proof.
  intros Hc. unfold strip, rstrip. cbn [lstrip]. rewrite Hc.
  destruct (lstrip_nonempty (rev (c :: r))) as (c' & r' & H).
  - rewrite forallb_isspace_rev. cbn [forallb]. rewrite Hc. reflexivity.
  - rewrite H. intro E. apply (f_equal (@length _)) in E.
    rewrite length_rev in E. discriminate.
Qed.

Lemma startswith_length (sub : str) :
  forall s, startswith s sub = true -> length sub <= length s.
Proof.
  induction sub as [|c sub IH]; intros s H; [cbn; lia|].
  destruct s as [|c' s]; [discriminate|].
  cbn [startswith] in H. apply andb_true_iff in H as [_ H].
  apply IH in H. cbn [length]. lia.
Qed.

Lemma find_loop_bounds (sub rest : str) :
  forall p f,
    find_loop sub rest p = Some f ->
    p <= f /\ f + length sub <= p + length rest.
Proof.
  induction rest as [|c rest IH]; intros p f.
  - cbn [find_loop]. destruct (startswith [] sub) eqn:E; [|discriminate].
    intros [= <-]. apply startswith_length in E. cbn in *. lia.
  - cbn [find_loop]. destruct (startswith (c :: rest) sub) eqn:E.
    + intros [= <-]. apply startswith_length in E. lia.
    + intro H. apply IH in H. cbn [length]. lia.
Qed.

Lemma find_bounds (s sub : str) (start f : nat) :
  find s sub start = Some f ->
  start <= f /\ f + length sub <= length s.
Proof.
  unfold find. destruct (length s <? start) eqn:E; [discriminate|].
  apply Nat.ltb_ge in E. intro H. apply find_loop_bounds in H.
  rewrite length_skipn in H. lia.
Qed.

Section SegmentOrigins.

Variable html : str.
Variable strict : bool.

Lemma readComment_offsets (p : nat) (s : HTMLParserSegment) :
  _readComment html p = Some s ->
  seg_start s = p /\ p < seg_end s /\ seg_end s <= length html
  /\ segment_sound s.
Proof.
  unfold _readComment.
  destruct (str_eqb (slice html p (p + 4)) (lit "<!--")); [|discriminate].
  destruct (find html (lit "-->") (p + 4)) as [f|] eqn:Hf;
    [|discriminate].
  apply find_bounds in Hf. cbn [lit String.list_ascii_of_string length]
    in Hf.
  intros [= <-]. cbn [seg_start seg_end segment_sound].
  repeat split; try lia. apply strip_idempotent.
Qed.

(** A segment read at [q] starts at [q], is not empty, ends inside the
    buffer and is sound. *)
Lemma read_fresh_sound (q : nat) (s : HTMLParserSegment) :
  read_fresh html strict q s ->
  seg_start s = q /\ q < seg_end s /\ seg_end s <= length html
  /\ segment_sound s.
Proof.
  intros [H | (e & H & ->)].
  - exact (readComment_offsets _ _ H).
  - apply readTag_offsets in H as (H1 & H2 & H3 & H4 & H5).
    cbn [seg_start seg_end segment_sound]. auto.
Qed.

Lemma specialTagEnd_readTag (q : nat) (contextTag : str)
  (e : HTMLParserElementSegment) :
  _readSpecialContextTagEnd html strict q contextTag = Ok (Some e) ->
  _readTag html strict q = Ok (Some e).
Proof.
  unfold _readSpecialContextTagEnd.
  destruct (_readTag html strict q) as [[e'|]| |]; cbn [bind];
    try discriminate.
  destruct (negb (el_open e') && el_close e'
            && str_eqb (el_name e') contextTag); [|discriminate].
  intros [= <-]. reflexivity.
Qed.

Lemma index_only_specialTagEnd (q : nat) (contextTag : str) :
  index_only (_readSpecialContextTagEnd html strict q contextTag).
Proof.
  unfold _readSpecialContextTagEnd.
  apply index_only_bind; [apply index_only_readTag|].
  intros [e|] _; [|exact I].
  destruct (negb (el_open e) && el_close e
            && str_eqb (el_name e) contextTag); exact I.
Qed.

Lemma readText_loop_origin (rest : str) :
  forall pos sn,
    readText_loop html strict rest pos = Ok (Some sn) ->
    exists q, pos <= q /\ read_fresh html strict q sn.
Proof.
  induction rest as [|c rest IH]; intros pos sn; [discriminate|].
  cbn [readText_loop]. destruct (Ascii.eqb c "<").
  - destruct (_readComment html pos) as [s|] eqn:Hc.
    + intros [= <-]. exists pos. split; [lia | left; exact Hc].
    + destruct (_readTag html strict pos) as [[e|]| |] eqn:Ht;
        cbn [bind]; try discriminate.
      * intros [= <-]. exists pos. split; [lia|]. right. eauto.
      * intro H. apply IH in H as (q & Hq & Hf). exists q.
        split; [lia | exact Hf].
  - intro H. apply IH in H as (q & Hq & Hf). exists q.
    split; [lia | exact Hf].
Qed.

Lemma index_only_readText_loop (rest : str) :
  forall pos, index_only (readText_loop html strict rest pos).
Proof.
  induction rest as [|c rest IH]; intro pos; [exact I|].
  cbn [readText_loop]. destruct (Ascii.eqb c "<"); [|apply IH].
  destruct (_readComment html pos); [exact I|].
  apply index_only_bind; [apply index_only_readTag|].
  intros [e|] _; [exact I | apply IH].
Qed.

Lemma readSpecialContextText_loop_origin (contextTag : str) (rest : str) :
  forall pos sn,
    readSpecialContextText_loop html strict contextTag rest pos
    = Ok (Some sn) ->
    exists q e,
      pos <= q
      /\ _readSpecialContextTagEnd html strict q contextTag = Ok (Some e)
      /\ sn = ElementSegment e.
Proof.
  induction rest as [|c rest IH]; intros pos sn; [discriminate|].
  cbn [readSpecialContextText_loop]. destruct (Ascii.eqb c "<").
  - destruct (_readSpecialContextTagEnd html strict pos contextTag)
      as [[e|]| |] eqn:Ht; cbn [bind]; try discriminate.
    + intros [= <-]. exists pos, e. split; [lia|]. auto.
    + intro H. apply IH in H as (q & e & Hq & Hf). exists q, e.
      split; [lia | exact Hf].
  - intro H. apply IH in H as (q & e & Hq & Hf). exists q, e.
    split; [lia | exact Hf].
Qed.

Lemma index_only_readSpecialContextText_loop (contextTag : str)
  (rest : str) :
  forall pos,
    index_only (readSpecialContextText_loop html strict contextTag rest
                pos).
Proof.
  induction rest as [|c rest IH]; intro pos; [exact I|].
  cbn [readSpecialContextText_loop].
  destruct (Ascii.eqb c "<"); [|apply IH].
  apply index_only_bind; [apply index_only_specialTagEnd|].
  intros [e|] _; [exact I | apply IH].
Qed.

(** [_readText] after [_readComment] and [_readTag] have failed at the
    same position. *)
Lemma readText_origin (p : nat) (s : HTMLParserSegment)
  (cache : option HTMLParserSegment) :
  _readComment html p = None ->
  _readTag html strict p = Ok None ->
  _readText html strict p = Ok (Some (s, cache)) ->
  read_text html strict p s cache.
Proof.
  intros Hc Ht. unfold _readText.
  destruct (readText_loop html strict _ p) as [[sn|]| |] eqn:Hl;
    cbn [bind]; try discriminate.
  - intros [= <- <-].
    apply readText_loop_origin in Hl as (q & Hq & Hf).
    destruct (read_fresh_sound q sn Hf) as (Hstart & _).
    exists (seg_start sn). split; [reflexivity|]. right.
    exists sn. rewrite Hstart. split; [reflexivity|].
    split; [exact Hf|].
    destruct (Nat.eq_dec q p) as [->|Hne]; [|lia].
    exfalso. destruct Hf as [Hf | (e & Hf & _)]; congruence.
  - destruct strict; cbn [negb]; [discriminate|].
    intros [= <- <-]. exists (length html). split; [reflexivity|].
    left. auto.
Qed.

Lemma readSpecialContextText_origin (p : nat) (contextTag : str)
  (s : HTMLParserSegment) (cache : option HTMLParserSegment) :
  _readSpecialContextTagEnd html strict p contextTag = Ok None ->
  _readSpecialContextText html strict p contextTag
  = Ok (Some (s, cache)) ->
  read_text html strict p s cache.
Proof.
  intros Ht. unfold _readSpecialContextText.
  destruct (readSpecialContextText_loop html strict contextTag _ p)
    as [[sn|]| |] eqn:Hl; cbn [bind]; try discriminate.
  - intros [= <- <-].
    apply readSpecialContextText_loop_origin in Hl
      as (q & e & Hq & He & ->).
    assert (Hf : read_fresh html strict q (ElementSegment e)).
    { right. exists e. split; [|reflexivity].
      exact (specialTagEnd_readTag _ _ _ He). }
    destruct (read_fresh_sound q _ Hf) as (Hstart & _).
    exists (seg_start (ElementSegment e)). split; [reflexivity|]. right.
    exists (ElementSegment e). rewrite Hstart. split; [reflexivity|].
    split; [exact Hf|].
    destruct (Nat.eq_dec q p) as [->|Hne]; [|lia].
    congruence.
  - destruct strict; cbn [negb]; [discriminate|].
    intros [= <- <-]. exists (length html). split; [reflexivity|].
    left. auto.
Qed.

(** The ways [next] returns a segment: from the cache, from a read of a
    comment or a tag where the cursor is once the whitespace is skipped,
    or from a read of a text there. *)
Lemma next_origin (self self' : HTMLParser) (s : HTMLParserSegment) :
  next html strict self = Ok (Some s, self') ->
  let p := _readWhitespace html (_position self) in
  p <> length html
  /\ exists cache,
       self' = mkParser (seg_end s) (Some s) cache
       /\ ((_segmentNext self = Some s /\ cache = None)
           \/ (_segmentNext self = None
               /\ ((cache = None /\ read_fresh html strict p s)
                   \/ read_text html strict p s cache))).
Proof.
  cbn zeta. unfold next, emit, _htmlLength.
  destruct (_readWhitespace html (_position self) =? length html) eqn:E;
    [discriminate|].
  apply Nat.eqb_neq in E. cbn [_segmentNext].
  destruct (_segmentNext self) as [sn|].
  { intros [= <- <-]. split; [exact E|]. exists None. auto. }
  destruct (specialContext (_segmentCurrent self)) as [name|].
  - destruct (_readSpecialContextTagEnd html strict _ name)
      as [[e|]| |] eqn:He; cbn [bind]; try discriminate.
    + intros [= <- <-]. split; [exact E|]. exists None.
      split; [reflexivity|]. right. split; [reflexivity|]. left.
      split; [reflexivity|]. right. exists e.
      split; [exact (specialTagEnd_readTag _ _ _ He) | reflexivity].
    + destruct (_readSpecialContextText html strict _ name)
        as [[[s' cache]|]| |] eqn:Hs; cbn [bind]; try discriminate.
      intros [= <- <-]. split; [exact E|]. exists cache.
      split; [reflexivity|]. right. split; [reflexivity|]. right.
      exact (readSpecialContextText_origin _ _ _ _ He Hs).
  - destruct (_readComment html _) as [sc|] eqn:Hc.
    + intros [= <- <-]. split; [exact E|]. exists None.
      split; [reflexivity|]. right. split; [reflexivity|]. left.
      split; [reflexivity|]. left. exact Hc.
    + destruct (_readTag html strict _) as [[e|]| |] eqn:Ht; cbn [bind];
        try discriminate.
      * intros [= <- <-]. split; [exact E|]. exists None.
        split; [reflexivity|]. right. split; [reflexivity|]. left.
        split; [reflexivity|]. right. eauto.
      * destruct (_readText html strict _) as [[[s' cache]|]| |] eqn:Hs;
          cbn [bind]; try discriminate.
        intros [= <- <-]. split; [exact E|]. exists cache.
        split; [reflexivity|]. right. split; [reflexivity|]. right.
        exact (readText_origin _ _ _ Hc Ht Hs).
Qed.

(** The ways [next] returns [None]: at the end of the buffer or, in
    strict mode, inside a raw-text element that is not closed; the parser
    is as it was, with the cursor after the whitespace. *)
Lemma next_none_state (self self' : HTMLParser) :
  next html strict self = Ok (None, self') ->
  self' = mkParser (_readWhitespace html (_position self))
            (_segmentCurrent self) (_segmentNext self).
Proof.
  unfold next, emit, _htmlLength.
  destruct (_readWhitespace html (_position self) =? length html) eqn:E.
  { intros [= <-]. reflexivity. }
  cbn [_segmentNext].
  destruct (_segmentNext self) as [sn|]; [discriminate|].
  destruct (specialContext (_segmentCurrent self)) as [name|].
  - destruct (_readSpecialContextTagEnd html strict _ name)
      as [[e|]| |]; cbn [bind]; try discriminate.
    destruct (_readSpecialContextText html strict _ name)
      as [[[s' cache]|]| |]; cbn [bind]; try discriminate.
    intros [= <-]. reflexivity.
  - destruct (_readComment html _) as [sc|]; [discriminate|].
    destruct (_readTag html strict _) as [[e|]| |]; cbn [bind];
      try discriminate.
    destruct (_readText html strict _) as [[[s' cache]|]| |];
      cbn [bind]; discriminate.
Qed.

Lemma next_normal (self : HTMLParser) :
  next html strict
    (mkParser (_readWhitespace html (_position self))
       (_segmentCurrent self) (_segmentNext self))
  = next html strict self.
Proof.
  unfold next. cbn [_position _segmentCurrent _segmentNext].
  rewrite readWhitespace_idempotent. reflexivity.
Qed.

Lemma read_fresh_here (q : nat) (s : HTMLParserSegment) :
  read_fresh html strict q s -> _readWhitespace html q = q.
Proof.
  intros [H | (e & H & _)].
  - unfold _readComment in H.
    destruct (str_eqb (slice html q (q + 4)) (lit "<!--")) eqn:E;
      [|discriminate].
    apply str_eqb_eq in E. unfold slice in E.
    replace (q + 4 - q) with 4 in E by lia.
    destruct (skipn q html) as [|c r] eqn:Hs; [discriminate|].
    injection E as -> _. exact (readWhitespace_here _ _ _ _ Hs eq_refl).
  - unfold _readTag in H.
    destruct (getitem html q) as [c| |] eqn:Hc; cbn [bind] in H;
      try discriminate.
    destruct (Ascii.eqb c "<") eqn:E; cbn [negb] in H; [|discriminate].
    apply Ascii.eqb_eq in E. subst c. unfold getitem in Hc.
    destruct (nth_error html q) as [c|] eqn:Hn; [|discriminate].
    injection Hc as ->.
    destruct (nth_error_skipn_cons _ _ _ _ Hn) as [r Hr].
    exact (readWhitespace_here _ _ _ _ Hr eq_refl).
Qed.

Lemma readText_lenient (buffer : str) (p : nat) :
  _readText buffer false p <> Ok None.
Proof.
  unfold _readText.
  destruct (readText_loop buffer false _ p) as [[sn|]| |];
    cbn [bind negb]; discriminate.
Qed.

Lemma next_outcome (self : HTMLParser) :
  tokenizer_outcome strict (next html strict self).
Proof.
  unfold next, emit.
  destruct (_readWhitespace html (_position self) =? _htmlLength html);
    [exact I|].
  cbn [_segmentNext]. destruct (_segmentNext self); [exact I|].
  destruct (specialContext (_segmentCurrent self)) as [name|].
  - apply outcome_bind; [apply index_only_specialTagEnd|].
    intros [e|] _; [exact I|].
    apply outcome_bind.
    + unfold _readSpecialContextText.
      apply index_only_bind;
        [apply index_only_readSpecialContextText_loop|].
      intros [sn|] _; [exact I|]. destruct (negb strict); exact I.
    + intros [[s cache]|] _; exact I.
  - destruct (_readComment html _); [exact I|].
    apply outcome_bind; [apply index_only_readTag|].
    intros [e|] _; [exact I|].
    apply outcome_bind.
    + unfold _readText.
      apply index_only_bind; [apply index_only_readText_loop|].
      intros [sn|] _; [exact I|]. destruct (negb strict); exact I.
    + intros [[s cache]|] Ht; [exact I|]. cbn [tokenizer_outcome].
      destruct strict; [reflexivity|].
      exfalso. exact (readText_lenient _ _ Ht).
Qed.

(** A call of [next] that returns a segment keeps the parser sound and
    moves the cursor forward: the segment starts at or after the cursor,
    is not empty, ends inside the buffer, where the cursor then is, and is
    sound. *)
Lemma next_sound (self self' : HTMLParser) (s : HTMLParserSegment) :
  parser_ok html strict self ->
  next html strict self = Ok (Some s, self') ->
  parser_ok html strict self'
  /\ _position self <= seg_start s /\ seg_start s < seg_end s
  /\ seg_end s <= length html /\ _position self' = seg_end s
  /\ _segmentCurrent self' = Some s
  /\ segment_sound s.
Proof.
  intros [Hpos Hcache] Hnext.
  assert (Hge := readWhitespace_ge html (_position self)).
  assert (Hle := readWhitespace_le html _ Hpos).
  destruct (next_origin _ _ _ Hnext)
    as (Hne & cache & -> & [[Hc ->] | [Hc [[-> Hf] | Ht]]]).
  all: assert (Hlt : _readWhitespace html (_position self) < length html)
         by lia.
  - rewrite Hc in Hcache.
    destruct (read_fresh_sound _ _ Hcache) as (H1 & H2 & H3 & H4).
    unfold parser_ok. cbn [_position _segmentNext _segmentCurrent].
    repeat split; try lia; assumption.
  - destruct (read_fresh_sound _ _ Hf) as (H1 & H2 & H3 & H4).
    unfold parser_ok. cbn [_position _segmentNext _segmentCurrent].
    repeat split; try lia; assumption.
  - destruct Ht as (end_ & -> & Hend).
    assert (Hns : exists c r,
               skipn (_readWhitespace html (_position self)) html
               = c :: r /\ isspace c = false).
    { apply readWhitespace_nonspace; [exact Hpos | lia]. }
    destruct Hns as (c & r & Hskip & Hc0).
    assert (Hbounds : _readWhitespace html (_position self) < end_
                      /\ end_ <= length html
                      /\ match cache with
                         | Some sn => read_fresh html strict end_ sn
                         | None => True
                         end).
    { destruct Hend as [(-> & _ & ->) | (sn & -> & Hf & Hp)].
      - repeat split; [lia | lia].
      - destruct (read_fresh_sound _ _ Hf) as (H1 & H2 & H3 & H4).
        repeat split; [lia | lia | exact Hf]. }
    destruct Hbounds as (Hb1 & Hb2 & Hb3).
    unfold parser_ok.
    cbn [_position _segmentNext _segmentCurrent seg_start seg_end
         segment_sound].
    repeat split; try lia; try assumption.
    + apply strip_idempotent.
    + unfold slice. rewrite Hskip.
      destruct (end_ - _readWhitespace html (_position self)) as [|n]
        eqn:En; [lia|].
      cbn [firstn]. apply strip_nonempty. exact Hc0.
Qed.

Lemma next_none_sound (self self' : HTMLParser) :
  parser_ok html strict self ->
  next html strict self = Ok (None, self') ->
  parser_ok html strict self' /\ _position self <= _position self'.
Proof.
  intros [Hpos Hcache] Hnext. apply next_none_state in Hnext. subst self'.
  unfold parser_ok. cbn [_position _segmentNext].
  assert (Hge := readWhitespace_ge html (_position self)).
  assert (Hle := readWhitespace_le html _ Hpos).
  repeat split; [exact Hle | | exact Hge].
  destruct (_segmentNext self) as [s|]; [|exact I].
  rewrite (read_fresh_here _ _ Hcache). exact Hcache.
Qed.

End SegmentOrigins.

(** ** The tokenizer on any buffer *)

Section TokenizerInvariants.

Variable html : str.
Variable strict : bool.

Lemma segments_sound (fuel : nat) :
  forall self l,
    parser_ok html strict self ->
    segments html strict fuel self = Ok l ->
    segments_ordered html (_position self) l /\ Forall segment_sound l.
Proof.
  induction fuel as [|fuel IH]; intros self l Hok; [discriminate|].
  cbn [segments].
  destruct (next html strict self) as [[[s|] self']| |] eqn:Hnext;
    cbn [bind]; try discriminate.
  - destruct (next_sound _ _ _ _ _ Hok Hnext)
      as (Hok' & H1 & H2 & H3 & H4 & _ & H5).
    destruct (segments html strict fuel self') as [l'| |] eqn:Hrest;
      cbn [bind]; try discriminate.
    intros [= <-]. destruct (IH _ _ Hok' Hrest) as [Ho Hs].
    rewrite H4 in Ho. cbn [segments_ordered]. auto.
  - intros [= <-]. split; [exact I | constructor].
Qed.

(** The loop over the segments ends within [len(html) + 1] calls of
    [next]: every call that returns a segment moves the cursor
    forward. *)
Lemma segments_outcome (fuel : nat) :
  forall self,
    parser_ok html strict self ->
    length html - _position self < fuel ->
    tokenizer_outcome strict (segments html strict fuel self).
Proof.
  induction fuel as [|fuel IH]; intros self Hok Hfuel; [lia|].
  cbn [segments].
  apply tokenizer_outcome_bind; [apply next_outcome|].
  intros [[s|] self'] Hnext; [|exact I].
  destruct (next_sound _ _ _ _ _ Hok Hnext)
    as (Hok' & H1 & H2 & H3 & H4 & _).
  apply tokenizer_outcome_bind; [apply IH; [exact Hok' | lia]|].
  intros rest _. exact I.
Qed.

End TokenizerInvariants.

Lemma parser_ok_init (html : str) (strict : bool) :
  parser_ok html strict HTMLParser_init.
Proof. split; [cbn; lia | exact I]. Qed.

(** The segments of a buffer come in the order of the buffer and do not
    overlap: each starts at or after the end of the one before, holds at
    least one character and ends inside the buffer. *)
Theorem tokenize_segments_in_order (html : str) (strict : bool)
  (l : list HTMLParserSegment) :
  tokenize html strict = Ok l -> segments_ordered html 0 l.
Proof.
  intro H.
  exact (proj1 (segments_sound html strict _ _ _
                  (parser_ok_init html strict) H)).
Qed.

Lemma tokenize_segments_in_order_witness :
  exists l,
    tokenize (lit "<p class='x'>a <b>c</b><!-- d --></p>") true = Ok l
    /\ segments_ordered (lit "<p class='x'>a <b>c</b><!-- d --></p>") 0 l.
Proof.
  eexists. split; [vm_compute; reflexivity|].
  apply (tokenize_segments_in_order
           (lit "<p class='x'>a <b>c</b><!-- d --></p>") true).
  vm_compute. reflexivity.
Defined.

(** Whatever the buffer, an element segment holds a name and attribute
    names in lower case, a text segment a text that is stripped and not
    empty, and a comment segment a stripped comment. *)
Theorem tokenize_segments_sound (html : str) (strict : bool)
  (l : list HTMLParserSegment) :
  tokenize html strict = Ok l -> Forall segment_sound l.
Proof.
  intro H.
  exact (proj2 (segments_sound html strict _ _ _
                  (parser_ok_init html strict) H)).
Qed.

Lemma tokenize_segments_sound_witness :
  exists l,
    tokenize (lit "<P Class='x'> a <B>c</B><!-- d --></P>") false = Ok l
    /\ Forall segment_sound l.
Proof.
  eexists. split; [vm_compute; reflexivity|].
  apply (tokenize_segments_sound
           (lit "<P Class='x'> a <B>c</B><!-- d --></P>") false).
  vm_compute. reflexivity.
Defined.

(** The tokenizer ends on every buffer, within [len(html) + 1] calls of
    [next]: with the list of the segments, with Python's [IndexError]
    or, in strict mode only, with the exception of [next] ("Could not
    read a node, text node or comment"). In lenient mode [IndexError] is
    the only failure. *)
Theorem tokenize_outcomes (html : str) (strict : bool) :
  (exists l, tokenize html strict = Ok l)
  \/ tokenize html strict = Raise IndexError
  \/ (strict = true
      /\ exists position,
           tokenize html strict = Raise (UnparsableSegment position)).
Proof.
  assert (H : tokenizer_outcome strict (tokenize html strict)).
  { apply segments_outcome; [apply parser_ok_init | cbn; lia]. }
  destruct (tokenize html strict) as [l|e|]; cbn in H.
  - left. eauto.
  - destruct e; try contradiction; [right; left; reflexivity|].
    right. right. eauto.
  - contradiction.
Qed.

(** What a call of [next] does to the parser: when it returns a segment,
    [current] is that segment and the cursor is at its end; when it
    returns [None], [current] and the cache are as they were, the cursor
    has only skipped whitespace, and every later call returns [None]
    again. *)
Theorem next_updates_state (html : str) (strict : bool)
  (self self' : HTMLParser) (r : option HTMLParserSegment) :
  next html strict self = Ok (r, self') ->
  match r with
  | Some s => _segmentCurrent self' = Some s /\ _position self' = seg_end s
  | None =>
      _segmentCurrent self' = _segmentCurrent self
      /\ _segmentNext self' = _segmentNext self
      /\ _position self' = _readWhitespace html (_position self)
      /\ next html strict self' = Ok (None, self')
  end.
Proof.
  intro Hnext. destruct r as [s|].
  - destruct (next_origin _ _ _ _ _ Hnext) as (_ & cache & -> & _).
    split; reflexivity.
  - assert (Hs := next_none_state _ _ _ _ Hnext). subst self'.
    cbn [_position _segmentCurrent _segmentNext].
    repeat split. rewrite next_normal. exact Hnext.
Qed.

Lemma next_updates_state_witness :
  let html := lit "<script>x" in
  let self :=
    mkParser 8
      (Some (ElementSegment
               (mkElementSegment (lit "<script>") 0 8 (lit "script") []
                  true false)))
      None in
  _segmentCurrent self = _segmentCurrent self
  /\ _segmentNext self = _segmentNext self
  /\ _position self = _readWhitespace html (_position self)
  /\ next html true self = Ok (None, self).
Proof.
  apply (next_updates_state (lit "<script>x") true
           (mkParser 8
              (Some (ElementSegment
                       (mkElementSegment (lit "<script>") 0 8
                          (lit "script") [] true false)))
              None)
           (mkParser 8
              (Some (ElementSegment
                       (mkElementSegment (lit "<script>") 0 8
                          (lit "script") [] true false)))
              None)
           None).
  vm_compute. reflexivity.
Defined.

(** ** The builder on any buffer *)

Lemma node_sound_children (comments : bool) (l : list HTMLNode) :
  (fix all (l : list HTMLNode) : Prop :=
     match l with
     | child :: l' => node_sound comments child /\ all l'
     | [] => True
     end) l
  <-> Forall (node_sound comments) l.
Proof.
  induction l as [|x l IH]; [split; [constructor | exact (fun _ => I)]|].
  split.
  - intros [Hx Hl]. constructor; [exact Hx | apply IH; exact Hl].
  - intro H. inversion H; subst. split; [assumption | apply IH; assumption].
Qed.

Lemma node_sound_element (comments : bool) (name : str)
  (attributes : dict) (children : list HTMLNode) :
  lower name = name -> keys_lower attributes ->
  (in_strs name _voidTags = true -> children = []) ->
  Forall (node_sound comments) children ->
  node_sound comments (HTMLElementNode name attributes children).
Proof.
  intros H1 H2 H3 H4. cbn [node_sound].
  split; [exact H1|]. split; [exact H2|]. split; [exact H3|].
  apply node_sound_children. exact H4.
Qed.

Lemma Forall_snoc (A : Type) (P : A -> Prop) (l : list A) (x : A) :
  Forall P l -> P x -> Forall P (l ++ [x]).
Proof.
  intros Hl Hx. apply Forall_app. split; [exact Hl|].
  constructor; [exact Hx | constructor].
Qed.



Section BuilderInvariants.

Variable html : str.
Variables (strict comments : bool).

(** A pass of [_loadChildren] keeps the parser sound, never moves the
    cursor back and adds only sound nodes. *)
Lemma loadChildren_sound (fuel : nat) :
  forall parent children parser response children' parser',
    parser_ok html strict parser ->
    Forall (node_sound comments) children ->
    _loadChildren html strict comments fuel parent children parser
    = Ok (response, children', parser') ->
    parser_ok html strict parser'
    /\ _position parser <= _position parser'
    /\ Forall (node_sound comments) children'.
Proof.
  induction fuel as [|fuel IH];
    intros parent children parser response children' parser' Hok Hall;
    [discriminate|].
  cbn [_loadChildren].
  destruct (next html strict parser) as [[[segment|] p1]| |] eqn:Hnext;
    cbn [bind]; try discriminate.
  - destruct (next_sound _ _ _ _ _ Hok Hnext)
      as (Hok1 & H1 & H2 & H3 & H4 & _ & Hs).
    assert (Hp1 : _position parser <= _position p1) by lia.
    destruct segment as [e|text a b|text a b comment];
      cbn [segment_sound] in Hs.
    + destruct Hs as [Hname Hkeys].
      destruct (el_open e).
      * destruct (negb (el_close e)
                  && negb (in_strs (el_name e) _voidTags)) eqn:Hrec.
        -- destruct (_loadChildren html strict comments fuel (el_name e)
                       [] p1) as [[[resp sub] p2]| |] eqn:Hsub;
             cbn [bind]; try discriminate.
           destruct (IH _ _ _ _ _ _ Hok1 (Forall_nil _) Hsub)
             as (Hok2 & Hp2 & Hsubs).
           assert (Hall' :
             Forall (node_sound comments)
               (children ++ [HTMLElementNode (el_name e)
                               (el_attributes e) sub])).
           { apply Forall_snoc; [exact Hall|].
             apply node_sound_element; try assumption.
             intro Hv. apply andb_true_iff in Hrec as [_ Hrec].
             rewrite Hv in Hrec. discriminate. }
           destruct resp as [r|].
           ++ destruct (str_eqb (el_name e) parent);
                intros [= <- <- <-]; (split; [exact Hok2|]);
                (split; [lia | exact Hall']).
           ++ intro H. apply IH in H as (Ha & Hb & Hc);
                [|exact Hok2 | exact Hall'].
              split; [exact Ha|]. split; [lia | exact Hc].
        -- intro H. apply IH in H as (Ha & Hb & Hc); [|exact Hok1|].
           ++ split; [exact Ha|]. split; [lia | exact Hc].
           ++ apply Forall_snoc; [exact Hall|].
              apply node_sound_element; try assumption;
                [reflexivity | constructor].
      * destruct (el_close e).
        -- destruct (str_eqb (el_name e) parent);
             intros [= <- <- <-]; (split; [exact Hok1|]);
             (split; [lia | exact Hall]).
        -- destruct strict eqn:Hst; [discriminate|].
           intro H. apply IH in H as (Ha & Hb & Hc);
             [|exact Hok1 | exact Hall].
           split; [exact Ha|]. split; [lia | exact Hc].
    + intro H. apply IH in H as (Ha & Hb & Hc); [|exact Hok1|].
      * split; [exact Ha|]. split; [lia | exact Hc].
      * apply Forall_snoc; [exact Hall | exact Hs].
    + destruct comments eqn:Hcom.
      * intro H. apply IH in H as (Ha & Hb & Hc); [|exact Hok1|].
        -- split; [exact Ha|]. split; [lia | exact Hc].
        -- apply Forall_snoc; [exact Hall|]. split; [reflexivity|exact Hs].
      * intro H. apply IH in H as (Ha & Hb & Hc);
          [|exact Hok1 | exact Hall].
        split; [exact Ha|]. split; [lia | exact Hc].
  - destruct (next_none_sound _ _ _ _ Hok Hnext) as [Hok1 Hp1].
    destruct strict; [discriminate|].
    intros [= <- <- <-]. auto.
Qed.

Lemma load_loop_sound (fuel : nat) :
  forall rootList parser rootList',
    parser_ok html strict parser ->
    Forall (node_sound comments) rootList ->
    load_loop html strict comments fuel rootList parser = Ok rootList' ->
    Forall (node_sound comments) rootList'.
Proof.
  induction fuel as [|fuel IH];
    intros rootList parser rootList' Hok Hall; [discriminate|].
  cbn [load_loop].
  destruct (next html strict parser) as [[[segment|] p1]| |] eqn:Hnext;
    cbn [bind]; try discriminate.
  - destruct (next_sound _ _ _ _ _ Hok Hnext)
      as (Hok1 & H1 & H2 & H3 & H4 & _ & Hs).
    destruct segment as [e|text a b|text a b comment];
      cbn [segment_sound] in Hs.
    + destruct Hs as [Hname Hkeys].
      destruct (el_open e).
      * destruct (negb (el_close e)
                  && negb (in_strs (el_name e) _voidTags)) eqn:Hrec.
        -- destruct (_loadChildren html strict comments fuel (el_name e)
                       [] p1) as [[[resp sub] p2]| |] eqn:Hsub;
             cbn [bind]; try discriminate.
           destruct (loadChildren_sound _ _ _ _ _ _ _ Hok1
                       (Forall_nil _) Hsub) as (Hok2 & Hp2 & Hsubs).
           assert (Hall' :
             Forall (node_sound comments)
               (rootList ++ [HTMLElementNode (el_name e)
                               (el_attributes e) sub])).
           { apply Forall_snoc; [exact Hall|].
             apply node_sound_element; try assumption.
             intro Hv. apply andb_true_iff in Hrec as [_ Hrec].
             rewrite Hv in Hrec. discriminate. }
           destruct resp as [r|].
           ++ destruct strict; [discriminate|].
              apply IH; assumption.
           ++ apply IH; assumption.
        -- apply IH; [exact Hok1|].
           apply Forall_snoc; [exact Hall|].
           apply node_sound_element; try assumption;
             [reflexivity | constructor].
      * destruct strict; [discriminate|]. apply IH; assumption.
    + apply IH; [exact Hok1|].
      apply Forall_snoc; [exact Hall | exact Hs].
    + destruct comments eqn:Hcom; [|discriminate].
      apply IH; [exact Hok1|].
      apply Forall_snoc; [exact Hall|]. split; [reflexivity | exact Hs].
  - intros [= <-]. exact Hall.
Qed.



End BuilderInvariants.

Lemma built_tree_sound (html : str) (strict comments : bool)
  (rootList : list HTMLNode) :
  HTMLDocument html strict comments = Ok rootList ->
  Forall (node_sound comments) rootList.
Proof.
  apply load_loop_sound; [apply parser_ok_init | constructor].
Qed.

Lemma node_sound_preorder (comments : bool) (node : HTMLNode) :
  node_sound comments node ->
  forall n, In n (preorder node) -> node_sound comments n.
Proof.
  induction node as [name attributes children IH|text|comment]
    using HTMLNode_nested_ind; intros Hs n Hin;
    cbn [preorder In] in Hin.
  - destruct Hin as [<- | Hin]; [exact Hs|].
    cbn [node_sound] in Hs. destruct Hs as (_ & _ & _ & Hall).
    apply node_sound_children in Hall.
    apply in_flat_map in Hin as (child & Hc & Hn).
    rewrite Forall_forall in IH, Hall.
    exact (IH child Hc (Hall child Hc) n Hn).
  - destruct Hin as [<- | []]. exact Hs.
  - destruct Hin as [<- | []]. exact Hs.
Qed.

Lemma built_nodes_sound (html : str) (strict comments : bool)
  (rootList : list HTMLNode) :
  HTMLDocument html strict comments = Ok rootList ->
  forall n, In n (nodes_of rootList) -> node_sound comments n.
Proof.
  intros H n Hin. apply built_tree_sound in H.
  apply in_flat_map in Hin as (root & Hr & Hn).
  rewrite Forall_forall in H.
  exact (node_sound_preorder _ _ (H root Hr) n Hn).
Qed.

(** In every built tree, whatever the buffer and the mode, the name of an
    element and the names of its attributes are in lower case, and a void
    element ([br], [img], [input], the doctype, ...) has no child. *)
Theorem built_elements_lower_case (html : str) (strict comments : bool)
  (rootList : list HTMLNode) :
  HTMLDocument html strict comments = Ok rootList ->
  forall name attributes children,
    In (HTMLElementNode name attributes children) (nodes_of rootList) ->
    lower name = name
    /\ (forall key value, In (key, value) attributes -> lower key = key)
    /\ (in_strs name _voidTags = true -> children = []).
Proof.
  intros H name attributes children Hin.
  assert (Hs := built_nodes_sound _ _ _ _ H _ Hin).
  cbn [node_sound] in Hs. destruct Hs as (H1 & H2 & H3 & _).
  split; [exact H1|]. split; [|exact H3].
  intros key value Hkv. unfold keys_lower in H2.
  rewrite Forall_forall in H2. exact (H2 _ Hkv).
Qed.

Lemma built_elements_lower_case_witness :
  exists rootList,
    HTMLDocument (lit "<DIV Class='A'><BR>x</DIV>") false false
    = Ok rootList
    /\ forall name attributes children,
         In (HTMLElementNode name attributes children) (nodes_of rootList) ->
         lower name = name
         /\ (forall key value,
               In (key, value) attributes -> lower key = key)
         /\ (in_strs name _voidTags = true -> children = []).
Proof.
  eexists. split; [vm_compute; reflexivity|].
  apply (built_elements_lower_case (lit "<DIV Class='A'><BR>x</DIV>")
           false false).
  vm_compute. reflexivity.
Defined.

(** In every built tree a text node holds a text that is stripped and
    not empty, and a comment node, which only a document built with
    [comments] has, holds a stripped comment. *)
Theorem built_texts_stripped (html : str) (strict comments : bool)
  (rootList : list HTMLNode) :
  HTMLDocument html strict comments = Ok rootList ->
  (forall text,
     In (HTMLTextNode text) (nodes_of rootList) ->
     strip text = text /\ text <> [])
  /\ (forall comment,
        In (HTMLCommentNode comment) (nodes_of rootList) ->
        comments = true /\ strip comment = comment).
Proof.
  intro H. split.
  - intros text Hin. exact (built_nodes_sound _ _ _ _ H _ Hin).
  - intros comment Hin. exact (built_nodes_sound _ _ _ _ H _ Hin).
Qed.

Lemma built_texts_stripped_witness :
  exists rootList,
    HTMLDocument (lit "<p> a <!-- c --> b </p>") false true = Ok rootList
    /\ (forall text,
          In (HTMLTextNode text) (nodes_of rootList) ->
          strip text = text /\ text <> [])
    /\ (forall comment,
          In (HTMLCommentNode comment) (nodes_of rootList) ->
          true = true /\ strip comment = comment).
Proof.
  eexists. split; [vm_compute; reflexivity|].
  apply (built_texts_stripped (lit "<p> a <!-- c --> b </p>") false true).
  vm_compute. reflexivity.
Defined.

(** [getElementsByTagName] compares names as they are, and the names of
    a built tree are in lower case: on a node of a built tree, a name
    that is not in lower case finds nothing. *)
Theorem getElementsByTagName_upper_case_finds_nothing (html : str)
  (strict comments : bool) (rootList : list HTMLNode) (root : HTMLNode)
  (tagName : str) :
  HTMLDocument html strict comments = Ok rootList ->
  In root rootList ->
  lower tagName <> tagName ->
  getElementsByTagName root tagName = [].
Proof.
  intros H Hroot Hcase. unfold getElementsByTagName.
  rewrite search_unbounded.
  destruct (List.filter (is_named tagName) (preorder root)) as [|n l]
    eqn:E; [reflexivity|].
  exfalso.
  assert (Hin : In n (List.filter (is_named tagName) (preorder root)))
    by (rewrite E; left; reflexivity).
  apply filter_In in Hin as [Hin Hn].
  destruct n as [name attributes children| |]; try discriminate.
  cbn [is_named] in Hn. apply str_eqb_eq in Hn. subst name.
  assert (Hs : node_sound comments
                 (HTMLElementNode tagName attributes children)).
  { apply (built_nodes_sound _ _ _ _ H). unfold nodes_of.
    apply in_flat_map. eauto. }
  cbn [node_sound] in Hs. destruct Hs as [Hl _]. exact (Hcase Hl).
Qed.

Lemma getElementsByTagName_upper_case_finds_nothing_witness :
  getElementsByTagName
    (HTMLElementNode (lit "div") [] [HTMLElementNode (lit "p") [] []])
    (lit "DIV")
  = [].
Proof.
  apply (getElementsByTagName_upper_case_finds_nothing
           (lit "<DIV><P></P></DIV>") false false
           [HTMLElementNode (lit "div") []
              [HTMLElementNode (lit "p") [] []]]).
  - vm_compute. reflexivity.
  - left. reflexivity.
  - vm_compute. discriminate.
Defined.


(** ** Edge cases of the tokenizer *)

(** A buffer that holds only whitespace, the empty buffer included, has
    no segment and builds the empty document, in both modes. *)
Theorem whitespace_only_document (html : str) (strict comments : bool) :
  forallb isspace html = true ->
  tokenize html strict = Ok []
  /\ HTMLDocument html strict comments = Ok []
  /\ _linkNodes strict [] = mkLinks None None None None.
Proof.
  intro Hws.
  assert (Hnext : next html strict HTMLParser_init
                  = Ok (None, mkParser (length html) None None)).
  { unfold next, HTMLParser_init, _htmlLength.
    cbn [_position _segmentCurrent _segmentNext].
    rewrite (readWhitespace_end html html 0 eq_refl Hws).
    cbn [Nat.add]. rewrite Nat.eqb_refl. reflexivity. }
  split; [|split; [|reflexivity]].
  - unfold tokenize. cbn [segments]. rewrite Hnext. reflexivity.
  - unfold HTMLDocument, _load.
    replace (2 * length html + 2) with (S (2 * length html + 1)) by lia.
    cbn [load_loop]. rewrite Hnext. reflexivity.
Qed.

Lemma whitespace_only_document_witness :
  tokenize [" "; "010"; "009"] true = Ok []
  /\ HTMLDocument [" "; "010"; "009"] true false = Ok []
  /\ _linkNodes true [] = mkLinks None None None None.
Proof.
  apply (whitespace_only_document [" "; "010"; "009"] true false).
  reflexivity.
Defined.

Lemma readQuoted_loop_escaped (quote : ascii) (rest : str) :
  quote <> "\" ->
  forall body position,
    escaped_body quote body = true ->
    readQuoted_loop quote (body ++ quote :: rest) position
    = Some (position + length body + 1).
Proof.
  intro Hquote.
  assert (Hq : Ascii.eqb "\" quote = false).
  { apply Ascii.eqb_neq. congruence. }
  assert (H : forall n body position,
             length body <= n ->
             escaped_body quote body = true ->
             readQuoted_loop quote (body ++ quote :: rest) position
             = Some (position + length body + 1)).
  { induction n as [|n IH]; intros body position Hn Hb;
      destruct body as [|c body]; cbn [length] in Hn; try lia.
    - cbn [app readQuoted_loop]. rewrite Ascii.eqb_refl. f_equal. cbn. lia.
    - cbn [app readQuoted_loop]. rewrite Ascii.eqb_refl. f_equal. cbn. lia.
    - cbn [escaped_body] in Hb. cbn [app readQuoted_loop].
      destruct (Ascii.eqb c "\") eqn:Hc.
      + apply Ascii.eqb_eq in Hc. subst c. rewrite Hq.
        destruct body as [|c' body]; [discriminate|].
        cbn [app length] in *. rewrite IH by (try lia; exact Hb).
        f_equal. lia.
      + apply andb_true_iff in Hb as [Hcq Hb].
        apply negb_true_iff in Hcq. rewrite Hcq.
        cbn [length]. rewrite IH by (try lia; exact Hb). f_equal. lia. }
  intros body position. apply (H (length body)). apply Nat.le_refl.
Qed.

(** A quoted attribute value ends at the first quote that no backslash
    precedes, and the value stored is the text between the quotes as it
    is written, its backslashes included: [_unwrap] removes the quotes
    and nothing else. *)
Theorem quoted_value_keeps_backslashes (html : str) (strict : bool)
  (position : nat) (quote : ascii) (body rest : str) :
  in_chars quote quotes = true ->
  escaped_body quote body = true ->
  skipn position html = quote :: body ++ quote :: rest ->
  _readTagAttributeValue html strict position
  = Ok (Some (position + length body + 2))
  /\ _unwrap (slice html position (position + length body + 2)) = body.
Proof.
  intros Hq Hbody Hskip.
  assert (Hne : quote <> "\").
  { intros ->. discriminate. }
  split.
  - unfold _readTagAttributeValue.
    rewrite (getitem_skipn_cons _ _ _ _ Hskip). cbn [bind]. rewrite Hq.
    rewrite (skipn_cons_shift _ _ _ _ _ Hskip).
    rewrite (readQuoted_loop_escaped quote rest Hne body _ Hbody).
    do 2 f_equal. lia.
  - assert (Hs : slice html position (position + length body + 2)
                 = quote :: body ++ [quote]).
    { replace (position + length body + 2)
        with (position + length (quote :: body ++ [quote]))
        by (cbn [length]; rewrite length_app; cbn [length]; lia).
      apply (slice_skipn html _ rest). rewrite Hskip.
      cbn [app]. rewrite <- app_assoc. reflexivity. }
    rewrite Hs. unfold _unwrap.
    assert (Hstart : startswith (quote :: body ++ [quote]) [dquote]
                     || startswith (quote :: body ++ [quote]) ["'"]
                     = true).
    { cbn [startswith]. rewrite !andb_true_r.
      unfold in_chars, quotes in Hq. cbn [existsb] in Hq.
      rewrite orb_false_r in Hq. exact Hq. }
    rewrite Hstart. unfold slice. cbn [length skipn].
    rewrite length_app. cbn [length].
    replace (S (length body + 1) - 1 - 1) with (length body) by lia.
    rewrite firstn_app, firstn_all, Nat.sub_diag. cbn [firstn].
    apply app_nil_r.
Qed.

Lemma quoted_value_keeps_backslashes_witness :
  _readTagAttributeValue (lit "<a x='y\'z'>") true 5 = Ok (Some (5 + 4 + 2))
  /\ _unwrap (slice (lit "<a x='y\'z'>") 5 (5 + 4 + 2)) = lit "y\'z".
Proof.
  apply (quoted_value_keeps_backslashes (lit "<a x='y\'z'>") true 5 "'"
           (lit "y\'z") (lit ">"));
    reflexivity.
Defined.

(** ** Comments and close tags out of place *)

Lemma document_app (a b : list (str * markup)) :
  document (a ++ b) = document a ++ document b.
Proof. unfold document. apply flat_map_app. Qed.

Lemma weight_positive (node : HTMLNode) : 1 <= weight node.
Proof. destruct node; cbn; lia. Qed.

Lemma weight_forest_cons (node : HTMLNode) (l : list HTMLNode) :
  weight_forest (node :: l) = weight node + weight_forest l.
Proof. reflexivity. Qed.

Lemma weight_forest_app (a b : list HTMLNode) :
  weight_forest (a ++ b) = weight_forest a + weight_forest b.
Proof.
  induction a as [|x a IH]; [reflexivity|].
  cbn [app]. rewrite !weight_forest_cons, IH. lia.
Qed.

Lemma length_weight_forest (l : list HTMLNode) :
  length l <= weight_forest l.
Proof.
  induction l as [|node l IH]; [apply Nat.le_refl|].
  rewrite weight_forest_cons. assert (H := weight_positive node).
  cbn [length]. lia.
Qed.

Lemma pieces_of_app (selfClosing : bool) (a b : list HTMLNode) :
  pieces_of selfClosing (a ++ b)
  = pieces_of selfClosing a ++ pieces_of selfClosing b.
Proof.
  unfold pieces_of, unprefixed. rewrite flat_map_app. apply map_app.
Qed.

Section BuildEdges.

Variable html : str.
Variables (strict comments selfClosing : bool).

(** The loop of [_load] over the pieces of some root nodes, in front of
    other pieces. *)
Lemma root_prefix_loads (R : list (str * markup)) (l : list HTMLNode) :
  forall fuel acc self offset,
    weight_forest l <= fuel ->
    forallb (safe_node comments) l = true ->
    Ready html self offset None (pieces_of selfClosing l ++ R) ->
    wf_pieces strict None (pieces_of selfClosing l ++ R) = true ->
    exists self' offset',
      load_loop html strict comments (length l + fuel) acc self
      = load_loop html strict comments fuel (acc ++ l) self'
      /\ Ready html self' offset' None R
      /\ wf_pieces strict None R = true.
Proof.
  induction l as [|node l IH]; intros fuel acc self offset Hfuel Hsafe HR
    Hwf.
  - exists self, offset. rewrite app_nil_r. auto.
  - rewrite pieces_of_cons, <- app_assoc in HR, Hwf.
    rewrite weight_forest_cons in Hfuel.
    cbn [forallb] in Hsafe. apply andb_true_iff in Hsafe as [Hs Hsl].
    destruct (root_step html strict comments selfClosing node
                (length l + fuel) acc self offset None _
                ltac:(lia) Hs HR Hwf)
      as (self1 & offset1 & Hstep & HR1 & Hwf1).
    destruct (IH fuel (acc ++ [node]) self1 offset1 ltac:(lia) Hsl HR1
                Hwf1) as (self2 & offset2 & Hrest & HR2 & Hwf2).
    exists self2, offset2. split; [|split; assumption].
    cbn [length Nat.add]. rewrite Hstep, Hrest, <- app_assoc.
    reflexivity.
Qed.

(** The loop of [_loadChildren] over the pieces of some children, in
    front of other pieces. *)
Lemma children_prefix_loads (R : list (str * markup)) (l : list HTMLNode) :
  forall fuel parent acc self offset context,
    weight_forest l <= fuel ->
    forallb (safe_node comments) l = true ->
    Ready html self offset context (pieces_of selfClosing l ++ R) ->
    wf_pieces strict context (pieces_of selfClosing l ++ R) = true ->
    exists self' offset',
      _loadChildren html strict comments (length l + fuel) parent acc self
      = _loadChildren html strict comments fuel parent (acc ++ l) self'
      /\ Ready html self' offset'
           (match l with [] => context | _ => None end) R
      /\ wf_pieces strict (match l with [] => context | _ => None end) R
         = true.
Proof.
  induction l as [|node l IH];
    intros fuel parent acc self offset context Hfuel Hsafe HR Hwf.
  - exists self, offset. rewrite app_nil_r. auto.
  - rewrite pieces_of_cons, <- app_assoc in HR, Hwf.
    rewrite weight_forest_cons in Hfuel.
    cbn [forallb] in Hsafe. apply andb_true_iff in Hsafe as [Hs Hsl].
    destruct (safe_node_loads html strict comments selfClosing node
                (length l + fuel) parent acc self offset context _
                ltac:(lia) Hs HR Hwf)
      as (self1 & offset1 & Hstep & HR1 & Hwf1).
    destruct (IH fuel parent (acc ++ [node]) self1 offset1 None
                ltac:(lia) Hsl HR1 Hwf1)
      as (self2 & offset2 & Hrest & HR2 & Hwf2).
    exists self2, offset2. split.
    + cbn [length Nat.add]. rewrite Hstep, Hrest, <- app_assoc.
      reflexivity.
    + destruct l; auto.
Qed.

End BuildEdges.

Lemma fuel_split (html : str) (strict : bool) (a : nat)
  (pieces : list (str * markup)) :
  wf_pieces strict None pieces = true ->
  html = document pieces ->
  a <= 2 * length pieces ->
  exists fuel, 2 * length html + 2 = a + S (S fuel).
Proof.
  intros Hwf -> Ha. apply wf_pieces_length in Hwf.
  exists (2 * length (document pieces) - a). lia.
Qed.

(** With [comments] off, a comment at the root of the document makes the
    build fail with "Unknown node type.", in both modes: for the root
    nodes [l] as [write] writes them, followed by a comment and by any
    well-formed rest, the builder raises. *)
Theorem root_comment_raises (strict selfClosing : bool)
  (l : list HTMLNode) (c : str) (R : list (str * markup)) :
  forallb (safe_node false) l = true ->
  wf_pieces strict None
    (pieces_of selfClosing l ++ ([], MComment c) :: R) = true ->
  HTMLDocument
    (document (pieces_of selfClosing l ++ ([], MComment c) :: R))
    strict false
  = Raise UnknownNodeType.
Proof.
  intros Hsafe Hwf.
  set (pieces := pieces_of selfClosing l ++ ([], MComment c) :: R) in *.
  set (html := document pieces).
  assert (Hw := weight_pieces false selfClosing l Hsafe).
  assert (Hl := length_weight_forest l).
  assert (Hlen : length pieces
                 = length (pieces_of selfClosing l) + S (length R)).
  { subst pieces. rewrite length_app. reflexivity. }
  destruct (fuel_split html strict (length l + weight_forest l) pieces
              Hwf eq_refl ltac:(lia)) as [fuel Hfuel].
  unfold HTMLDocument, _load. fold html. rewrite Hfuel.
  replace (length l + weight_forest l + S (S fuel))
    with (length l + S (weight_forest l + S fuel)) by lia.
  destruct (root_prefix_loads html strict false selfClosing
              (([], MComment c) :: R) l (S (weight_forest l + S fuel)) []
              HTMLParser_init 0 ltac:(lia) Hsafe)
    as (self1 & offset1 & Hload & HR1 & Hwf1).
  { split; [reflexivity|]. split; [lia|]. split; [reflexivity|].
    left. auto. }
  { exact Hwf. }
  rewrite Hload. cbn [load_loop].
  destruct (ready_step html strict self1 offset1 None _ R HR1 Hwf1)
    as (segment & self2 & Hnext & Hcap & _).
  rewrite Hnext. cbn [bind].
  destruct segment as [e|t a b|t a b c']; cbn [captures snd] in Hcap;
    try contradiction.
  reflexivity.
Qed.

Lemma root_comment_raises_witness :
  HTMLDocument
    (document
       (pieces_of true
          [HTMLElementNode (lit "!doctype") [(lit "html", lit "true")] []]
        ++ ([], MComment (lit "c"))
           :: [([], MTag (lit "p") [] NoSlash); ([], MClose (lit "p"))]))
    true false
  = Raise UnknownNodeType.
Proof.
  apply (root_comment_raises true true
           [HTMLElementNode (lit "!doctype") [(lit "html", lit "true")] []]
           (lit "c")
           [([], MTag (lit "p") [] NoSlash); ([], MClose (lit "p"))]);
    reflexivity.
Defined.

(** A close tag at the root of the document, after the root nodes [l1]
    as [write] writes them and before the root nodes [l2]: in strict mode
    the build fails with "A closing tag was found at the root level of
    the document" at the offset of the tag; in lenient mode the tag is
    dropped and the document has the root nodes [l1] and [l2]. *)
Theorem root_close_tag (strict comments selfClosing : bool)
  (l1 l2 : list HTMLNode) (n : str) :
  forallb (safe_node comments) l1 = true ->
  forallb (safe_node comments) l2 = true ->
  wf_pieces strict None
    (pieces_of selfClosing l1
     ++ ([], MClose n) :: pieces_of selfClosing l2) = true ->
  HTMLDocument
    (document (pieces_of selfClosing l1
               ++ ([], MClose n) :: pieces_of selfClosing l2))
    strict comments
  = if strict
    then Raise (StrayCloseTag
                  (length (document (pieces_of selfClosing l1))))
    else Ok (l1 ++ l2).
Proof.
  intros Hsafe1 Hsafe2 Hwf.
  set (pieces := pieces_of selfClosing l1
                 ++ ([], MClose n) :: pieces_of selfClosing l2) in *.
  set (html := document pieces).
  assert (Hw1 := weight_pieces comments selfClosing l1 Hsafe1).
  assert (Hw2 := weight_pieces comments selfClosing l2 Hsafe2).
  assert (Hl := length_weight_forest l1).
  assert (Hlen : length pieces
                 = length (pieces_of selfClosing l1)
                   + S (length (pieces_of selfClosing l2))).
  { subst pieces. rewrite length_app. reflexivity. }
  destruct (fuel_split html strict
              (length l1 + weight_forest l1 + weight_forest l2) pieces
              Hwf eq_refl ltac:(lia)) as [fuel Hfuel].
  unfold HTMLDocument, _load. fold html. rewrite Hfuel.
  replace (length l1 + weight_forest l1 + weight_forest l2 + S (S fuel))
    with (length l1
          + S (weight_forest l1 + weight_forest l2 + S fuel)) by lia.
  destruct (root_prefix_loads html strict comments selfClosing
              (([], MClose n) :: pieces_of selfClosing l2) l1
              (S (weight_forest l1 + weight_forest l2 + S fuel)) []
              HTMLParser_init 0 ltac:(lia) Hsafe1)
    as (self1 & offset1 & Hload & HR1 & Hwf1).
  { split; [reflexivity|]. split; [lia|]. split; [reflexivity|].
    left. auto. }
  { exact Hwf. }
  rewrite Hload. cbn [load_loop app].
  assert (Hoff : offset1 = length (document (pieces_of selfClosing l1))).
  { assert (H := Ready_length html _ _ _ _ HR1).
    unfold html, pieces in H. rewrite document_app, length_app in H.
    lia. }
  destruct (next_step html strict self1 offset1 None [] (MClose n) _ HR1
              Hwf1) as (segment & self2 & Hnext & Hexp & HR2).
  rewrite expected_nontext in Hexp by reflexivity.
  injection Hexp as Hseg. rewrite Hnext. cbn [bind].
  rewrite <- Hseg. cbn [expected_segment el_open el_start length].
  rewrite Nat.add_0_r, Hoff.
  destruct strict; [reflexivity|].
  cbn [wf_pieces] in Hwf1. apply andb_true_iff in Hwf1 as [_ Hwf2].
  cbn [context_after] in HR2, Hwf2.
  refine (root_loads html false comments selfClosing l2 _ l1 self2 _ None
            _ Hsafe2 HR2 Hwf2).
  lia.
Qed.

Lemma root_close_tag_witness :
  HTMLDocument
    (document
       (pieces_of true [HTMLElementNode (lit "p") [] []]
        ++ ([], MClose (lit "b"))
           :: pieces_of true [HTMLElementNode (lit "i") [] []]))
    true false
  = Raise (StrayCloseTag
             (length (document
                        (pieces_of true
                           [HTMLElementNode (lit "p") [] []])))).
Proof.
  apply (root_close_tag true false true
           [HTMLElementNode (lit "p") [] []]
           [HTMLElementNode (lit "i") [] []] (lit "b"));
    reflexivity.
Defined.

(** With [comments] off, a comment among the children of an element is
    dropped without a trace: the children read before it and after it
    are the children of the element, so that two texts the comment kept
    apart become two text nodes in a row. *)
Theorem child_comment_dropped (strict selfClosing : bool) (n : str)
  (attributes : list (str * option str)) (l1 l2 : list HTMLNode)
  (c : str) :
  lower n = n ->
  in_strs n _voidTags = false ->
  in_strs n _contextSwitchTags = false ->
  forallb (safe_node false) l1 = true ->
  forallb (safe_node false) l2 = true ->
  wf_pieces strict None
    (([], MTag n attributes NoSlash)
     :: pieces_of selfClosing l1
        ++ ([], MComment c)
           :: pieces_of selfClosing l2 ++ [([], MClose n)]) = true ->
  HTMLDocument
    (document
       (([], MTag n attributes NoSlash)
        :: pieces_of selfClosing l1
           ++ ([], MComment c)
              :: pieces_of selfClosing l2 ++ [([], MClose n)]))
    strict false
  = Ok [HTMLElementNode n (attribute_dict attributes) (l1 ++ l2)].
Proof.
  intros Hlow Hvoid Hraw Hsafe1 Hsafe2 Hwf.
  set (inner := pieces_of selfClosing l1
                ++ ([], MComment c)
                   :: pieces_of selfClosing l2 ++ [([], MClose n)]) in *.
  set (pieces := ([], MTag n attributes NoSlash) :: inner) in *.
  set (html := document pieces).
  assert (Hw1 := weight_pieces false selfClosing l1 Hsafe1).
  assert (Hw2 := weight_pieces false selfClosing l2 Hsafe2).
  assert (Hl := length_weight_forest l1).
  assert (Hlen : length pieces
                 = S (length (pieces_of selfClosing l1)
                      + S (length (pieces_of selfClosing l2) + 1))).
  { subst pieces inner. cbn [length]. rewrite length_app. cbn [length].
    rewrite length_app. reflexivity. }
  assert (Hbound : length l1 + weight_forest l1 + weight_forest l2 + 1
                   <= 2 * length pieces).
  { rewrite Hlen. lia. }
  destruct (fuel_split html strict
              (length l1 + weight_forest l1 + weight_forest l2 + 1)
              pieces Hwf eq_refl Hbound) as [fuel Hfuel].
  unfold HTMLDocument, _load. fold html. rewrite Hfuel.
  replace (length l1 + weight_forest l1 + weight_forest l2 + 1
           + S (S fuel))
    with (S (length l1
             + S (weight_forest l1 + weight_forest l2 + S fuel)))
    by lia.
  cbn [load_loop].
  assert (HR0 : Ready html HTMLParser_init 0 None pieces).
  { split; [reflexivity|]. split; [lia|]. split; [reflexivity|].
    left. auto. }
  destruct (ready_step html strict HTMLParser_init 0 None _ inner HR0 Hwf)
    as (segment & self1 & Hnext & Hcap & HR1 & Hwf1).
  rewrite Hnext. cbn [bind].
  destruct segment as [e| |]; cbn [captures snd] in Hcap;
    try contradiction.
  destruct Hcap as (_ & Hn & Ha & Ho & Hc).
  rewrite Ho, Hc, Hn, Ha, Hlow, Hvoid. cbn [negb andb].
  cbn [context_after] in HR1, Hwf1. rewrite Hlow, Hraw in HR1, Hwf1.
  destruct (children_prefix_loads html strict false selfClosing
              (([], MComment c)
               :: pieces_of selfClosing l2 ++ [([], MClose n)]) l1
              (S (weight_forest l1 + weight_forest l2 + S fuel)) n []
              self1 _ None ltac:(lia) Hsafe1 HR1 Hwf1)
    as (self2 & offset2 & Hload & HR2 & Hwf2).
  assert (Hnone : match l1 with [] => @None str | _ => None end = None)
    by (destruct l1; reflexivity).
  rewrite Hnone in HR2, Hwf2.
  rewrite Hload. cbn [_loadChildren app].
  destruct (ready_step html strict self2 offset2 None _ _ HR2 Hwf2)
    as (segment & self3 & Hnext3 & Hcap3 & HR3 & Hwf3).
  rewrite Hnext3. cbn [bind].
  destruct segment as [e'|t a b|t a b c']; cbn [captures snd] in Hcap3;
    try contradiction.
  cbn [context_after] in HR3, Hwf3.
  assert (Hall : Forall (node_loads html strict false selfClosing) l2).
  { apply Forall_forall. intros node _. apply safe_node_loads. }
  destruct (forest_loads html strict false selfClosing l2 Hall
              (weight_forest l1 + weight_forest l2 + S fuel) n l1 self3 _
              None [] ltac:(lia) Hsafe2 Hlow HR3 Hwf3)
    as (self4 & offset4 & Hrest & HR4 & Hwf4).
  rewrite Hrest. cbn [bind app].
  apply (root_loads html strict false selfClosing []
           _ [HTMLElementNode n (attribute_dict attributes) (l1 ++ l2)]
           self4 offset4 None);
    [cbn; lia | reflexivity | exact HR4 | exact Hwf4].
Qed.

Lemma child_comment_dropped_witness :
  HTMLDocument
    (document
       (([], MTag (lit "p") [] NoSlash)
        :: pieces_of true [HTMLTextNode (lit "a")]
           ++ ([], MComment (lit "c"))
              :: pieces_of true [HTMLTextNode (lit "b")]
                 ++ [([], MClose (lit "p"))]))
    true false
  = Ok [HTMLElementNode (lit "p") (attribute_dict [])
          ([HTMLTextNode (lit "a")] ++ [HTMLTextNode (lit "b")])].
Proof.
  apply (child_comment_dropped true true (lit "p") []
           [HTMLTextNode (lit "a")] [HTMLTextNode (lit "b")] (lit "c"));
    reflexivity.
Defined.

(** ** The builder on a properly nested document *)

Section Nested.

Variable html : str.
Variables (strict comments : bool).

(** One call of [next] in front of a piece, whatever its prefix. *)
Lemma piece_step (self : HTMLParser) (offset : nat)
  (context : option str) (pre : str) (m : markup)
  (R : list (str * markup)) :
  Ready html self offset context ((pre, m) :: R) ->
  wf_pieces strict context ((pre, m) :: R) = true ->
  exists segment self' offset',
    next html strict self = Ok (Some segment, self')
    /\ captures (pre, m) segment
    /\ Ready html self' offset' (context_after m) R
    /\ wf_pieces strict (context_after m) R = true.
Proof.
  intros HR Hwf.
  destruct (next_step html strict self offset context pre m R HR Hwf)
    as (segment & self' & Hnext & Hexp & HR').
  exists segment, self', (offset + length pre + length (render m)).
  split; [exact Hnext|]. split; [|split; [exact HR'|]].
  - assert (H : Forall2 captures ((pre, m) :: R)
                  (segment
                   :: expected (offset + length pre + length (render m))
                        R)).
    { rewrite <- Hexp. apply expected_captures. }
    inversion H; subst. assumption.
  - cbn [wf_pieces] in Hwf. apply andb_true_iff in Hwf as [_ H]. exact H.
Qed.

(** The child pass over the pieces of properly nested children and the
    close tag of the parent. *)
Lemma nested_children (top : bool) (pieces : list (str * markup))
  (l : list HTMLNode) :
  nested comments top pieces l ->
  top = false ->
  forall fuel parent acc self offset context pre' n' K,
    length pieces < fuel ->
    lower n' = parent ->
    Ready html self offset context (pieces ++ (pre', MClose n') :: K) ->
    wf_pieces strict context (pieces ++ (pre', MClose n') :: K) = true ->
    exists self' offset',
      _loadChildren html strict comments fuel parent acc self
      = Ok (None, acc ++ l, self')
      /\ Ready html self' offset' None K
      /\ wf_pieces strict None K = true.
Proof.
  induction 1 as [top
                 |top pre t rest l _ IH
                 |top pre c rest l Hcom _ IH
                 |pre c rest l Hcom _ IH
                 |top pre n attributes e rest l Hsingle _ IH
                 |top pre n attributes inner children pre1 n1 rest l
                    Hvoid _ IHinner Hname _ IHrest];
    intros Htop fuel parent acc self offset context pre' n' K Hfuel Hparent
      HR Hwf;
    (destruct fuel as [|fuel]; [lia|]); cbn [length] in Hfuel;
    cbn [app] in HR, Hwf.
  - destruct (piece_step _ _ _ _ _ _ HR Hwf)
      as (segment & self' & offset' & Hnext & Hcap & HR' & Hwf').
    exists self', offset'. split; [|split; assumption].
    cbn [_loadChildren]. rewrite Hnext. cbn [bind].
    destruct segment as [e| |]; cbn [captures snd] in Hcap;
      try contradiction.
    destruct Hcap as (_ & Hn & Ho & Hc).
    rewrite Ho, Hc, Hn, Hparent, str_eqb_refl, app_nil_r. reflexivity.
  - destruct (piece_step _ _ _ _ _ _ HR Hwf)
      as (segment & self1 & offset1 & Hnext & Hcap & HR1 & Hwf1).
    destruct (IH Htop fuel parent (acc ++ [HTMLTextNode (strip t)]) self1
                offset1 _ pre' n' K ltac:(lia) Hparent HR1 Hwf1)
      as (self2 & offset2 & Hrest & HR2 & Hwf2).
    exists self2, offset2. split; [|split; assumption].
    cbn [_loadChildren]. rewrite Hnext. cbn [bind].
    destruct segment as [|text a b|]; cbn [captures snd] in Hcap;
      try contradiction.
    rewrite Hcap, Hrest, <- app_assoc. reflexivity.
  - destruct (piece_step _ _ _ _ _ _ HR Hwf)
      as (segment & self1 & offset1 & Hnext & Hcap & HR1 & Hwf1).
    destruct (IH Htop fuel parent (acc ++ [HTMLCommentNode (strip c)])
                self1 offset1 _ pre' n' K ltac:(lia) Hparent HR1 Hwf1)
      as (self2 & offset2 & Hrest & HR2 & Hwf2).
    exists self2, offset2. split; [|split; assumption].
    cbn [_loadChildren]. rewrite Hnext. cbn [bind].
    destruct segment as [| |text a b c']; cbn [captures snd] in Hcap;
      try contradiction.
    destruct Hcap as [_ ->].
    assert (Hif : forall (A : Type) (x y : A),
               (if comments then x else y) = x)
      by (intros; rewrite Hcom; reflexivity).
    rewrite Hif, Hrest, <- app_assoc. reflexivity.
  - destruct (piece_step _ _ _ _ _ _ HR Hwf)
      as (segment & self1 & offset1 & Hnext & Hcap & HR1 & Hwf1).
    destruct (IH eq_refl fuel parent acc self1 offset1 _ pre' n' K
                ltac:(lia) Hparent HR1 Hwf1)
      as (self2 & offset2 & Hrest & HR2 & Hwf2).
    exists self2, offset2. split; [|split; assumption].
    cbn [_loadChildren]. rewrite Hnext. cbn [bind].
    destruct segment as [| |text a b c']; cbn [captures snd] in Hcap;
      try contradiction.
    assert (Hif : forall (A : Type) (x y : A),
               (if comments then x else y) = y)
      by (intros; rewrite Hcom; reflexivity).
    rewrite Hif, Hrest. reflexivity.
  - destruct (piece_step _ _ _ _ _ _ HR Hwf)
      as (segment & self1 & offset1 & Hnext & Hcap & HR1 & Hwf1).
    assert (Hctx : context_after (MTag n attributes e) = None
                   \/ in_strs (lower n) _voidTags = true).
    { destruct Hsingle as [He | Hv]; [|auto].
      left. destruct e; [congruence | reflexivity | reflexivity]. }
    assert (Hctx' : context_after (MTag n attributes e) = None).
    { destruct Hctx as [H | Hv]; [exact H|].
      destruct e; try reflexivity. cbn [context_after].
      destruct (void_not_raw _ Hv) as [-> _]. reflexivity. }
    rewrite Hctx' in HR1, Hwf1.
    destruct (IH Htop fuel parent
                (acc ++ [HTMLElementNode (lower n)
                           (attribute_dict attributes) []])
                self1 offset1 _ pre' n' K ltac:(lia) Hparent HR1 Hwf1)
      as (self2 & offset2 & Hrest & HR2 & Hwf2).
    exists self2, offset2. split; [|split; assumption].
    cbn [_loadChildren]. rewrite Hnext. cbn [bind].
    destruct segment as [s| |]; cbn [captures snd] in Hcap;
      try contradiction.
    destruct Hcap as (_ & Hn & Ha & Ho & Hc).
    rewrite Ho, Hc, Hn, Ha.
    assert (Hcond : negb match e with NoSlash => false | _ => true end
                    && negb (in_strs (lower n) _voidTags) = false).
    { destruct Hsingle as [He | Hv].
      - destruct e; [congruence | reflexivity | reflexivity].
      - rewrite Hv. apply andb_false_r. }
    rewrite Hcond, Hrest, <- app_assoc. reflexivity.
  - rewrite <- app_assoc in HR, Hwf. cbn [app] in HR, Hwf.
    rewrite length_app in Hfuel. cbn [length] in Hfuel.
    destruct (piece_step _ _ _ _ _ _ HR Hwf)
      as (segment & self1 & offset1 & Hnext & Hcap & HR1 & Hwf1).
    destruct (IHinner eq_refl fuel (lower n) [] self1 offset1 _ pre1 n1
                (rest ++ (pre', MClose n') :: K) ltac:(lia) Hname HR1
                Hwf1)
      as (self2 & offset2 & Hin & HR2 & Hwf2).
    destruct (IHrest Htop fuel parent
                (acc ++ [HTMLElementNode (lower n)
                           (attribute_dict attributes) children])
                self2 offset2 _ pre' n' K ltac:(lia) Hparent HR2 Hwf2)
      as (self3 & offset3 & Hrest & HR3 & Hwf3).
    exists self3, offset3. split; [|split; assumption].
    cbn [_loadChildren]. rewrite Hnext. cbn [bind].
    destruct segment as [s| |]; cbn [captures snd] in Hcap;
      try contradiction.
    destruct Hcap as (_ & Hn & Ha & Ho & Hc).
    rewrite Ho, Hc, Hn, Ha, Hvoid. cbn [negb andb].
    rewrite Hin. cbn [bind app]. rewrite Hrest, <- app_assoc.
    reflexivity.
Qed.

(** The loop of [_load] over the pieces of properly nested root nodes. *)
Lemma nested_root (top : bool) (pieces : list (str * markup))
  (l : list HTMLNode) :
  nested comments top pieces l ->
  top = true ->
  forall fuel acc self offset context,
    length pieces < fuel ->
    Ready html self offset context pieces ->
    wf_pieces strict context pieces = true ->
    load_loop html strict comments fuel acc self = Ok (acc ++ l).
Proof.
  induction 1 as [top
                 |top pre t rest l _ IH
                 |top pre c rest l Hcom _ IH
                 |pre c rest l Hcom _ IH
                 |top pre n attributes e rest l Hsingle _ IH
                 |top pre n attributes inner children pre1 n1 rest l
                    Hvoid Hinner _ Hname _ IHrest];
    intros Htop fuel acc self offset context Hfuel HR Hwf;
    try discriminate;
    (destruct fuel as [|fuel]; [lia|]); cbn [length] in Hfuel.
  - assert (Hlen := Ready_length html self offset context _ HR).
    destruct HR as (_ & _ & _ & [[_ Hp] | (pre & m & rest & He & _)]);
      [|discriminate].
    cbn [document flat_map length] in Hlen.
    cbn [load_loop]. rewrite next_end by lia. cbn [bind].
    rewrite app_nil_r. reflexivity.
  - destruct (piece_step _ _ _ _ _ _ HR Hwf)
      as (segment & self1 & offset1 & Hnext & Hcap & HR1 & Hwf1).
    cbn [load_loop]. rewrite Hnext. cbn [bind].
    destruct segment as [|text a b|]; cbn [captures snd] in Hcap;
      try contradiction.
    rewrite Hcap.
    rewrite (IH Htop fuel _ self1 offset1 _ ltac:(lia) HR1 Hwf1),
      <- app_assoc. reflexivity.
  - destruct (piece_step _ _ _ _ _ _ HR Hwf)
      as (segment & self1 & offset1 & Hnext & Hcap & HR1 & Hwf1).
    cbn [load_loop]. rewrite Hnext. cbn [bind].
    destruct segment as [| |text a b c']; cbn [captures snd] in Hcap;
      try contradiction.
    destruct Hcap as [_ ->].
    assert (Hif : forall (A : Type) (x y : A),
               (if comments then x else y) = x)
      by (intros; rewrite Hcom; reflexivity).
    rewrite Hif.
    rewrite (IH Htop fuel _ self1 offset1 _ ltac:(lia) HR1 Hwf1),
      <- app_assoc. reflexivity.
  - destruct (piece_step _ _ _ _ _ _ HR Hwf)
      as (segment & self1 & offset1 & Hnext & Hcap & HR1 & Hwf1).
    assert (Hctx' : context_after (MTag n attributes e) = None).
    { destruct Hsingle as [He | Hv].
      - destruct e; [congruence | reflexivity | reflexivity].
      - destruct e; try reflexivity. cbn [context_after].
        destruct (void_not_raw _ Hv) as [-> _]. reflexivity. }
    rewrite Hctx' in HR1, Hwf1.
    cbn [load_loop]. rewrite Hnext. cbn [bind].
    destruct segment as [s| |]; cbn [captures snd] in Hcap;
      try contradiction.
    destruct Hcap as (_ & Hn & Ha & Ho & Hc).
    rewrite Ho, Hc, Hn, Ha.
    assert (Hcond : negb match e with NoSlash => false | _ => true end
                    && negb (in_strs (lower n) _voidTags) = false).
    { destruct Hsingle as [He | Hv].
      - destruct e; [congruence | reflexivity | reflexivity].
      - rewrite Hv. apply andb_false_r. }
    rewrite Hcond.
    rewrite (IH Htop fuel _ self1 offset1 _ ltac:(lia) HR1 Hwf1),
      <- app_assoc. reflexivity.
  - rewrite length_app in Hfuel. cbn [length] in Hfuel.
    destruct (piece_step _ _ _ _ _ _ HR Hwf)
      as (segment & self1 & offset1 & Hnext & Hcap & HR1 & Hwf1).
    destruct (nested_children _ _ _ Hinner eq_refl fuel (lower n) []
                self1 offset1 _ pre1 n1 rest ltac:(lia) Hname HR1 Hwf1)
      as (self2 & offset2 & Hin & HR2 & Hwf2).
    cbn [load_loop]. rewrite Hnext. cbn [bind].
    destruct segment as [s| |]; cbn [captures snd] in Hcap;
      try contradiction.
    destruct Hcap as (_ & Hn & Ha & Ho & Hc).
    rewrite Ho, Hc, Hn, Ha, Hvoid. cbn [negb andb].
    rewrite Hin. cbn [bind app].
    rewrite (IHrest Htop fuel _ self2 offset2 _ ltac:(lia) HR2 Hwf2),
      <- app_assoc. reflexivity.
Qed.

End Nested.

Lemma nested_builds (strict comments : bool)
  (pieces : list (str * markup)) (rootList : list HTMLNode) :
  nested comments true pieces rootList ->
  wf_pieces strict None pieces = true ->
  HTMLDocument (document pieces) strict comments = Ok rootList.
Proof.
  intros Hnested Hwf. unfold HTMLDocument, _load.
  apply (nested_root (document pieces) strict comments true pieces
           rootList Hnested eq_refl _ [] HTMLParser_init 0 None).
  - apply wf_pieces_length in Hwf. lia.
  - split; [reflexivity|]. split; [lia|]. split; [reflexivity|].
    left. auto.
  - exact Hwf.
Qed.

(** For every well-formed document whose tags are properly nested, the
    builder returns the trees the tags describe, in both modes: the
    elements with the names and the attribute names in lower case, the
    texts and the comments stripped, the comments among the children
    dropped when the document does not keep them. *)
Theorem build_nested_document (strict comments : bool)
  (pieces : list (str * markup)) (rootList : list HTMLNode) :
  nested comments true pieces rootList ->
  wf_pieces strict None pieces = true ->
  HTMLDocument (document pieces) strict comments = Ok rootList.
Proof. apply nested_builds. Qed.

Lemma build_nested_document_witness :
  HTMLDocument
    (document
       [([], MTag (lit "P") [(lit "Class", Some (lit "x"))] NoSlash);
        ([" "], MText (lit "a "));
        ([], MComment (lit "c"));
        ([], MTag (lit "br") [] NoSlash);
        ([" "], MText (lit "b"));
        (["010"], MClose (lit "p"))])
    true false
  = Ok [HTMLElementNode (lit "p") [(lit "class", lit "x")]
          [HTMLTextNode (lit "a"); HTMLElementNode (lit "br") [] [];
           HTMLTextNode (lit "b")]].
Proof.
  apply (build_nested_document true false
           [([], MTag (lit "P") [(lit "Class", Some (lit "x"))] NoSlash);
            ([" "], MText (lit "a "));
            ([], MComment (lit "c"));
            ([], MTag (lit "br") [] NoSlash);
            ([" "], MText (lit "b"));
            (["010"], MClose (lit "p"))]);
    [|reflexivity].
  apply (nested_pair false true [] (lit "P")
           [(lit "Class", Some (lit "x"))]
           [([" "], MText (lit "a "));
            ([], MComment (lit "c"));
            ([], MTag (lit "br") [] NoSlash);
            ([" "], MText (lit "b"))]
           [HTMLTextNode (lit "a"); HTMLElementNode (lit "br") [] [];
            HTMLTextNode (lit "b")]
           ["010"] (lit "p") [] []);
    [reflexivity | | reflexivity | constructor].
  apply (nested_text false false [" "] (lit "a ")).
  apply nested_comment_dropped; [reflexivity|].
  apply (nested_single false false [] (lit "br") [] NoSlash);
    [right; reflexivity|].
  apply (nested_text false false [" "] (lit "b")).
  constructor.
Defined.

(** ** [write] with any settings *)

Section WrittenPieces.

Variables (pretty : bool) (indent : nat) (tabs selfClosing : bool)
          (shrinkText : bool) (shrinkLimit : nat).

Local Abbreviation W :=
  (writeOne pretty indent tabs selfClosing shrinkText shrinkLimit).
Local Abbreviation P :=
  (pieces_written pretty indent tabs selfClosing shrinkText shrinkLimit).
Local Abbreviation ind := (indentation pretty indent tabs).
Local Abbreviation br := (line_break pretty).

Lemma pieces_written_lead (node : HTMLNode) (depth : nat) (lead : str) :
  document (P node depth lead) = lead ++ document (P node depth []).
Proof.
  destruct node as [name attributes children|text|comment];
    cbn [pieces_written].
  - destruct (negb (in_strs name _neverSelfClosing)
              && (in_strs name _voidTags
                  || selfClosing && (length children =? 0)));
      rewrite !document_cons; cbn [app]; rewrite <- !app_assoc;
      reflexivity.
  - rewrite !document_cons. cbn [app]. rewrite <- !app_assoc.
    reflexivity.
  - rewrite !document_cons. cbn [app]. rewrite <- !app_assoc.
    reflexivity.
Qed.

Lemma writeList_pieces (nodes : list HTMLNode) (depth : nat) :
  Forall (fun node => forall depth first,
            pretty && first = false ->
            W node depth first = document (P node depth [])) nodes ->
  forall first,
    writeList pretty W depth nodes first
    = document
        match nodes with
        | node :: nodes' =>
            P node depth (if pretty && negb first then crlf else [])
            ++ flat_map (fun node => P node depth br) nodes'
        | [] => []
        end.
Proof.
  induction 1 as [|node nodes Hnode _ IH]; intro first; [reflexivity|].
  cbn [writeList].
  assert (Hfirst : pretty && (if pretty then false else first) = false)
    by (destruct pretty; reflexivity).
  rewrite (Hnode depth _ Hfirst), IH.
  rewrite document_app.
  rewrite (pieces_written_lead node depth
             (if pretty && negb first then crlf else [])).
  rewrite <- app_assoc. f_equal. f_equal.
  destruct nodes as [|node' nodes]; [reflexivity|].
  cbn [flat_map]. do 2 f_equal.
  unfold line_break. destruct pretty; reflexivity.
Qed.

Lemma writeOne_pieces (node : HTMLNode) :
  forall depth first,
    pretty && first = false ->
    W node depth first = document (P node depth []).
Proof.
  induction node as [name attributes children IH|text|comment]
    using HTMLNode_nested_ind; intros depth first Hfirst.
  - cbn [writeOne pieces_written app].
    rewrite writeAttributes_written.
    fold (indentation pretty indent tabs depth).
    destruct (negb (in_strs name _neverSelfClosing)
              && (in_strs name _voidTags
                  || selfClosing && (length children =? 0))).
    + rewrite document_cons. cbn [document flat_map render].
      rewrite app_nil_r.
      destruct (negb (in_strs name _voidTags));
        [destruct (0 <? length attributes)|];
        cbn [render_ending]; rewrite <- ?app_assoc; reflexivity.
    + assert (Hlist :
        writeList pretty
          (writeOne pretty indent tabs selfClosing shrinkText shrinkLimit)
          (depth + 1) children first
        ++ (if pretty
            then crlf ++ indentation pretty indent tabs depth
            else [])
        ++ lit "</" ++ name ++ lit ">"
        = document
            (flat_map
               (fun child =>
                  pieces_written pretty indent tabs selfClosing shrinkText
                    shrinkLimit child (depth + 1) (line_break pretty))
               children
             ++ [(line_break pretty ++ indentation pretty indent tabs depth,
                  MClose name)])).
      { rewrite (writeList_pieces children (depth + 1) IH first).
        rewrite document_app. rewrite document_cons.
        cbn [document flat_map render]. rewrite app_nil_r.
        assert (Hlead : (if pretty && negb first then crlf else [])
                        = line_break pretty).
        { unfold line_break. destruct pretty; [|reflexivity].
          cbn [andb] in Hfirst. subst first. reflexivity. }
        rewrite Hlead. f_equal.
        - destruct children; reflexivity.
        - unfold line_break, indentation. destruct pretty;
            rewrite <- ?app_assoc; reflexivity. }
      rewrite document_cons. cbn [render render_ending app].
      rewrite <- !app_assoc. do 4 f_equal. cbn [app]. f_equal.
      destruct children as [|[n a c|t|c] [|b l]];
        try (rewrite <- Hlist; rewrite <- ?app_assoc; reflexivity).
      destruct (shrinkText && (length t <=? shrinkLimit)).
      * cbn [document flat_map fst snd render app].
        rewrite app_nil_r. reflexivity.
      * rewrite <- Hlist. rewrite <- ?app_assoc. reflexivity.
  - cbn [writeOne pieces_written node_html app].
    rewrite document_cons. cbn [document flat_map render].
    rewrite app_nil_r. reflexivity.
  - cbn [writeOne pieces_written node_html app].
    rewrite document_cons. cbn [document flat_map render].
    rewrite app_nil_r. reflexivity.
Qed.

(** With any settings, [write] emits the pieces of the tree. *)
Lemma write_pieces (rootList : list HTMLNode) :
  write pretty indent tabs selfClosing shrinkText shrinkLimit rootList
  = document
      (pieces_written_root pretty indent tabs selfClosing shrinkText
         shrinkLimit rootList).
Proof.
  unfold write, writeNode.
  rewrite (writeList_pieces rootList 0).
  - unfold pieces_written_root. destruct rootList; [reflexivity|].
    cbn [negb andb]. rewrite andb_false_r. reflexivity.
  - apply Forall_forall. intros node _. apply writeOne_pieces.
Qed.

Lemma indentation_space (depth : nat) : forallb isspace (ind depth) = true.
Proof.
  unfold indentation.
  destruct pretty; [|reflexivity].
  destruct tabs.
  - induction depth as [|d IH]; [reflexivity | exact IH].
  - induction (depth * indent) as [|d IH]; [reflexivity | exact IH].
Qed.

Lemma line_break_space : forallb isspace br = true.
Proof. unfold line_break. destruct pretty; reflexivity. Qed.

(** The pieces [write] emits are the segments of [markups_of], behind
    whitespace. *)
Lemma pieces_written_markups (node : HTMLNode) :
  forall depth lead,
    forallb isspace lead = true ->
    map snd (P node depth lead) = markups_of selfClosing node
    /\ forallb (fun p => forallb isspace (fst p)) (P node depth lead)
       = true.
Proof.
  induction node as [name attributes children IH|text|comment]
    using HTMLNode_nested_ind; intros depth lead Hlead;
    cbn [pieces_written markups_of].
  - assert (Hprefix : forallb isspace
                        (lead ++ indentation pretty indent tabs depth)
                      = true).
    { rewrite forallb_app, Hlead. apply indentation_space. }
    assert (Hclose : forallb isspace
                       (line_break pretty
                        ++ indentation pretty indent tabs depth) = true).
    { rewrite forallb_app. rewrite line_break_space.
      apply indentation_space. }
    destruct (negb (in_strs name _neverSelfClosing)
              && (in_strs name _voidTags
                  || selfClosing && (length children =? 0))).
    + cbn [map snd fst forallb]. rewrite Hprefix. auto.
    + assert (Hall :
        map snd
          (flat_map
             (fun child =>
                pieces_written pretty indent tabs selfClosing shrinkText
                  shrinkLimit child (depth + 1) (line_break pretty))
             children)
        = flat_map (markups_of selfClosing) children
        /\ forallb (fun p => forallb isspace (fst p))
             (flat_map
                (fun child =>
                   pieces_written pretty indent tabs selfClosing
                     shrinkText shrinkLimit child (depth + 1)
                     (line_break pretty))
                children) = true).
      { clear Hprefix Hclose.
        induction IH as [|child children Hchild _ IHl];
          [split; reflexivity|].
        destruct (Hchild (depth + 1) (line_break pretty) line_break_space)
          as [H1 H2].
        destruct IHl as [H3 H4].
        cbn [flat_map]. split.
        - rewrite map_app, H1, H3. reflexivity.
        - rewrite forallb_app. apply andb_true_iff.
          split; [exact H2 | exact H4]. }
      destruct Hall as [Hm Hs].
      assert (Hgen :
        map snd
          (flat_map
             (fun child =>
                pieces_written pretty indent tabs selfClosing shrinkText
                  shrinkLimit child (depth + 1) (line_break pretty))
             children
           ++ [(line_break pretty ++ indentation pretty indent tabs depth,
                MClose name)])
        = flat_map (markups_of selfClosing) children ++ [MClose name]
        /\ forallb (fun p => forallb isspace (fst p))
             (flat_map
                (fun child =>
                   pieces_written pretty indent tabs selfClosing
                     shrinkText shrinkLimit child (depth + 1)
                     (line_break pretty))
                children
              ++ [(line_break pretty
                   ++ indentation pretty indent tabs depth,
                   MClose name)]) = true).
      { split.
        - rewrite map_app, Hm. reflexivity.
        - rewrite forallb_app. apply andb_true_iff.
          split; [exact Hs|]. cbn [fst forallb].
          rewrite Hclose. reflexivity. }
      destruct Hgen as [Hgm Hgs].
      cbn [map snd fst forallb]. rewrite Hprefix. cbn [andb].
      destruct children as [|[n a c|t|c] [|b l]];
        try (rewrite Hgm, Hgs; split; reflexivity).
      destruct (shrinkText && (length t <=? shrinkLimit));
        [split; reflexivity|].
      rewrite Hgm, Hgs. split; reflexivity.
  - cbn [map snd fst forallb]. rewrite forallb_app, Hlead.
    rewrite indentation_space. auto.
  - cbn [map snd fst forallb]. rewrite forallb_app, Hlead.
    rewrite indentation_space. auto.
Qed.

Lemma pieces_written_root_markups (rootList : list HTMLNode) :
  map snd
    (pieces_written_root pretty indent tabs selfClosing shrinkText
       shrinkLimit rootList)
  = map snd (pieces_of selfClosing rootList)
  /\ forallb (fun p => forallb isspace (fst p))
       (pieces_written_root pretty indent tabs selfClosing shrinkText
          shrinkLimit rootList) = true.
Proof.
  assert (Hsnd : forall l, map snd (pieces_of selfClosing l)
                           = flat_map (markups_of selfClosing) l).
  { intro l. unfold pieces_of, unprefixed. rewrite map_map.
    apply map_id. }
  rewrite Hsnd. unfold pieces_written_root.
  destruct rootList as [|node rootList]; [split; reflexivity|].
  destruct (pieces_written_markups node 0 [] eq_refl) as [H1 H2].
  assert (Hrest :
    map snd
      (flat_map
         (fun node =>
            pieces_written pretty indent tabs selfClosing shrinkText
              shrinkLimit node 0 (line_break pretty)) rootList)
    = flat_map (markups_of selfClosing) rootList
    /\ forallb (fun p => forallb isspace (fst p))
         (flat_map
            (fun node =>
               pieces_written pretty indent tabs selfClosing shrinkText
                 shrinkLimit node 0 (line_break pretty)) rootList)
       = true).
  { induction rootList as [|n l IH]; [split; reflexivity|].
    destruct (pieces_written_markups n 0 (line_break pretty)
                line_break_space) as [H3 H4].
    destruct IH as [H5 H6]. cbn [flat_map]. split.
    - rewrite map_app, H3, H5. reflexivity.
    - rewrite forallb_app. apply andb_true_iff.
      split; [exact H4 | exact H6]. }
  destruct Hrest as [H3 H4]. cbn [flat_map]. split.
  - rewrite map_app, H1, H3. reflexivity.
  - rewrite forallb_app. apply andb_true_iff.
    split; [exact H2 | exact H4].
Qed.

End WrittenPieces.

(** Proper nesting and well-formedness look at the segments, not at the
    whitespace in front of them. *)
Lemma nested_same_markups (comments top : bool)
  (pieces : list (str * markup)) (l : list HTMLNode) :
  nested comments top pieces l ->
  forall pieces',
    map snd pieces' = map snd pieces -> nested comments top pieces' l.
Proof.
  induction 1 as [top
                 |top pre t rest l _ IH
                 |top pre c rest l Hcom _ IH
                 |pre c rest l Hcom _ IH
                 |top pre n attributes e rest l Hsingle _ IH
                 |top pre n attributes inner children pre1 n1 rest l
                    Hvoid _ IHinner Hname _ IHrest];
    intros pieces' Hmap; cbn [map snd] in Hmap.
  - apply map_eq_nil in Hmap. subst. constructor.
  - apply map_eq_cons in Hmap as ([p m] & rest' & -> & Hm & Hrest).
    cbn [snd] in Hm. subst m. constructor. apply IH. exact Hrest.
  - apply map_eq_cons in Hmap as ([p m] & rest' & -> & Hm & Hrest).
    cbn [snd] in Hm. subst m. constructor; [exact Hcom|].
    apply IH. exact Hrest.
  - apply map_eq_cons in Hmap as ([p m] & rest' & -> & Hm & Hrest).
    cbn [snd] in Hm. subst m. constructor; [exact Hcom|].
    apply IH. exact Hrest.
  - apply map_eq_cons in Hmap as ([p m] & rest' & -> & Hm & Hrest).
    cbn [snd] in Hm. subst m. constructor; [exact Hsingle|].
    apply IH. exact Hrest.
  - apply map_eq_cons in Hmap as ([p m] & tail & -> & Hm & Htail).
    cbn [snd] in Hm. subst m. rewrite map_app in Htail.
    cbn [map snd] in Htail.
    apply map_eq_app in Htail as (inner' & tail' & -> & Hi & Ht).
    apply map_eq_cons in Ht as ([p1 m1] & rest' & -> & Hm1 & Hrest).
    cbn [snd] in Hm1. subst m1.
    apply nested_pair; [exact Hvoid | | exact Hname |].
    + apply IHinner. exact Hi.
    + apply IHrest. exact Hrest.
Qed.

Lemma wf_pieces_same_markups (strict : bool)
  (pieces : list (str * markup)) :
  forall pieces' context,
    map snd pieces' = map snd pieces ->
    forallb (fun p => forallb isspace (fst p)) pieces' = true ->
    wf_pieces strict context pieces = true ->
    wf_pieces strict context pieces' = true.
Proof.
  induction pieces as [|[pre m] rest IH]; intros pieces' context Hmap Hws
    Hwf; cbn [map snd] in Hmap.
  - apply map_eq_nil in Hmap. subst. reflexivity.
  - apply map_eq_cons in Hmap as ([pre' m'] & rest' & -> & Hm & Hrest).
    cbn [snd] in Hm. subst m'.
    cbn [forallb fst] in Hws. apply andb_true_iff in Hws as [Hpre Hws].
    cbn [wf_pieces] in Hwf |- *.
    apply andb_true_iff in Hwf as [Hwf Htail].
    apply andb_true_iff in Hwf as [Hwf Hctx].
    apply andb_true_iff in Hwf as [Hwf Htext].
    apply andb_true_iff in Hwf as [_ Hok].
    rewrite Hpre, Hok, (IH rest' _ Hrest Hws Htail). cbn [andb].
    rewrite andb_true_r. apply andb_true_iff. split.
    + destruct (is_text m); [|reflexivity].
      destruct rest as [|[p1 m1] rest]; destruct rest' as [|[p1' m1'] rest'];
        cbn [map snd] in Hrest; try discriminate;
        try (injection Hrest as -> _); exact Htext.
    + destruct context as [name|]; [|reflexivity].
      destruct (is_text m).
      * destruct rest as [|[p1 m1] rest];
          destruct rest' as [|[p1' m1'] rest'];
          cbn [map snd] in Hrest; try discriminate;
          try (injection Hrest as -> _); exact Hctx.
      * exact Hctx.
Qed.

Section SafeNested.

Variables (comments selfClosing : bool).

Lemma safe_forest_nested (l : list HTMLNode) :
  Forall (fun node =>
            safe_node comments node = true ->
            forall top rest l',
              nested comments top rest l' ->
              nested comments top
                (unprefixed (markups_of selfClosing node) ++ rest)
                (node :: l')) l ->
  forallb (safe_node comments) l = true ->
  forall top rest l',
    nested comments top rest l' ->
    nested comments top (pieces_of selfClosing l ++ rest) (l ++ l').
Proof.
  induction 1 as [|node l Hnode _ IH]; intros Hsafe top rest l' Hrest;
    [exact Hrest|].
  cbn [forallb] in Hsafe. apply andb_true_iff in Hsafe as [Hs Hsl].
  rewrite pieces_of_cons, <- app_assoc. cbn [app].
  apply Hnode; [exact Hs|]. apply IH; assumption.
Qed.

(** The pieces of a safe node are properly nested and describe the
    node. *)
Lemma safe_node_nested (node : HTMLNode) :
  safe_node comments node = true ->
  forall top rest l,
    nested comments top rest l ->
    nested comments top (unprefixed (markups_of selfClosing node) ++ rest)
      (node :: l).
Proof.
  induction node as [name attributes children IH|t|c]
    using HTMLNode_nested_ind; intros Hsafe top rest l Hrest.
  - cbn [safe_node] in Hsafe.
    apply andb_true_iff in Hsafe as [Hsafe Hapart].
    apply andb_true_iff in Hsafe as [Hsafe Hchildren].
    apply andb_true_iff in Hsafe as [Hsafe Hraw].
    apply andb_true_iff in Hsafe as [Hsafe Hvoid].
    apply andb_true_iff in Hsafe as [Hsafe Hdup].
    apply andb_true_iff in Hsafe as [Hname Hattrs].
    destruct (element_name_written name Hname) as [_ Hlow].
    destruct (written_attributes_ok name attributes Hattrs Hdup)
      as (_ & _ & Hdict).
    cbn [markups_of].
    destruct (negb (in_strs name _neverSelfClosing)
              && (in_strs name _voidTags
                  || selfClosing && (length children =? 0))) eqn:Hbranch.
    + assert (Hnone : children = []).
      { apply andb_true_iff in Hbranch as [_ Hb].
        destruct (in_strs name _voidTags).
        - apply Nat.eqb_eq in Hvoid. destruct children; [reflexivity|].
          discriminate.
        - cbn [orb] in Hb. apply andb_true_iff in Hb as [_ Hb].
          apply Nat.eqb_eq in Hb. destruct children; [reflexivity|].
          discriminate. }
      subst children. cbn [unprefixed map app].
      replace (HTMLElementNode name attributes [])
        with (HTMLElementNode (lower (writeName name))
                (attribute_dict (written_attributes name attributes)) [])
        by (rewrite Hlow, Hdict; reflexivity).
      apply nested_single; [|exact Hrest].
      rewrite Hlow.
      destruct (in_strs name _voidTags); cbn [negb]; [right; reflexivity|].
      left. destruct (0 <? length attributes); discriminate.
    + assert (Hnotvoid : in_strs name _voidTags = false).
      { destruct (in_strs name _voidTags) eqn:Hv; [|reflexivity].
        destruct (void_not_raw name Hv) as [_ Hn].
        rewrite Hn in Hbranch. discriminate. }
      assert (Hcl : lower name = name).
      { destruct (element_name_cases name Hname)
          as [[-> _] | (_ & H2 & _)]; [discriminate | exact H2]. }
      assert (Hpieces :
        unprefixed
          (MTag (writeName name) (written_attributes name attributes)
             NoSlash
           :: flat_map (markups_of selfClosing) children ++ [MClose name])
        ++ rest
        = ([], MTag (writeName name) (written_attributes name attributes)
                 NoSlash)
          :: (pieces_of selfClosing children
              ++ ([], MClose name) :: rest)).
      { unfold pieces_of, unprefixed. cbn [map app].
        rewrite map_app, <- app_assoc. reflexivity. }
      rewrite Hpieces.
      replace (HTMLElementNode name attributes children)
        with (HTMLElementNode (lower (writeName name))
                (attribute_dict (written_attributes name attributes))
                children)
        by (rewrite Hlow, Hdict; reflexivity).
      apply nested_pair.
      * rewrite Hlow. exact Hnotvoid.
      * rewrite <- (app_nil_r (pieces_of selfClosing children)).
        rewrite <- (app_nil_r children) at 2.
        apply safe_forest_nested; [exact IH | exact Hchildren|].
        constructor.
      * rewrite Hlow. exact Hcl.
      * exact Hrest.
  - cbn [safe_node] in Hsafe. destruct (text_ok_markup t Hsafe) as [_ Hs].
    cbn [markups_of unprefixed map app].
    replace (HTMLTextNode t) with (HTMLTextNode (strip t))
      by (rewrite Hs; reflexivity).
    constructor. exact Hrest.
  - cbn [safe_node] in Hsafe. apply andb_true_iff in Hsafe as [Hcom Hc].
    unfold comment_ok in Hc. apply andb_true_iff in Hc as [_ Hs].
    apply str_eqb_eq in Hs.
    cbn [markups_of unprefixed map app].
    replace (HTMLCommentNode c) with (HTMLCommentNode (strip c))
      by (rewrite Hs; reflexivity).
    apply nested_comment_kept; [exact Hcom | exact Hrest].
Qed.

Lemma safe_document_nested (l : list HTMLNode) (top : bool) :
  forallb (safe_node comments) l = true ->
  nested comments top (pieces_of selfClosing l) l.
Proof.
  intro Hsafe.
  rewrite <- (app_nil_r (pieces_of selfClosing l)).
  rewrite <- (app_nil_r l) at 2.
  apply safe_forest_nested; [|exact Hsafe | constructor].
  apply Forall_forall. intros node _. apply safe_node_nested.
Qed.

End SafeNested.

(** Whatever the settings of [write] (pretty printing with spaces or
    tabs, self-closing tags, shrunk texts), building the text it writes
    for a safe tree gives the tree back: the whitespace the pretty
    printer adds changes nothing. *)
Theorem write_rebuilds_with_any_settings (strict comments : bool)
  (pretty : bool) (indent : nat) (tabs selfClosing shrinkText : bool)
  (shrinkLimit : nat) (rootList : list HTMLNode) :
  safe_document strict comments rootList = true ->
  HTMLDocument
    (write pretty indent tabs selfClosing shrinkText shrinkLimit rootList)
    strict comments
  = Ok rootList.
Proof.
  intro Hsafe. rewrite write_pieces.
  destruct (pieces_written_root_markups pretty indent tabs selfClosing
              shrinkText shrinkLimit rootList) as [Hm Hs].
  assert (Hwf := safe_document_wf strict comments selfClosing rootList
                   Hsafe).
  unfold safe_document in Hsafe.
  apply andb_true_iff in Hsafe as [Hsafe _].
  apply andb_true_iff in Hsafe as [Hall _].
  apply nested_builds.
  - apply (nested_same_markups comments true
             (pieces_of selfClosing rootList)); [|exact Hm].
    apply safe_document_nested. exact Hall.
  - exact (wf_pieces_same_markups strict _ _ None Hm Hs Hwf).
Qed.

Lemma write_rebuilds_with_any_settings_witness :
  let tree :=
    [HTMLElementNode (lit "!doctype") [(lit "html", lit "true")] [];
     HTMLElementNode (lit "html") []
       [HTMLElementNode (lit "body") [(lit "class", lit "x")]
          [HTMLTextNode (lit "a long text that is not shrunk");
           HTMLElementNode (lit "br") [] [];
           HTMLElementNode (lit "b") [] [HTMLTextNode (lit "c")]]]] in
  HTMLDocument (write true 2 false true true 20 tree) true false = Ok tree.
Proof.
  apply (write_rebuilds_with_any_settings true false true 2 false true true
           20).
  reflexivity.
Defined.

(** ** The [html] property read back *)

Lemma htmlAttributes_valued (attributes : dict) :
  htmlAttributes attributes = flat_map render_attribute (valued attributes).
Proof.
  induction attributes as [|[k v] attributes IH]; [reflexivity|].
  unfold htmlAttributes, valued in *. cbn [flat_map map].
  rewrite IH. f_equal.
Qed.

Lemma html_forest_markups (l : list HTMLNode) :
  Forall (fun node =>
            HTMLNode_html node = document (unprefixed (html_markups node)))
    l ->
  flat_map HTMLNode_html l
  = document (unprefixed (flat_map html_markups l)).
Proof.
  induction 1 as [|node l Hnode _ IH]; [reflexivity|].
  cbn [flat_map]. rewrite document_unprefixed_app, Hnode, IH. reflexivity.
Qed.

Lemma html_node_markups (node : HTMLNode) :
  HTMLNode_html node = document (unprefixed (html_markups node)).
Proof.
  induction node as [name attributes children IH|text|comment]
    using HTMLNode_nested_ind.
  - cbn [HTMLNode_html html_markups]. rewrite htmlAttributes_valued.
    destruct (0 <? length children).
    + rewrite document_unprefixed_cons, document_unprefixed_app.
      rewrite (html_forest_markups children IH).
      cbn [render render_ending document unprefixed map flat_map fst snd].
      rewrite !app_nil_r, <- !app_assoc. reflexivity.
    + cbn [document unprefixed map flat_map fst snd render render_ending].
      rewrite !app_nil_r, <- !app_assoc. reflexivity.
  - cbn. rewrite app_nil_r. reflexivity.
  - cbn [HTMLNode_html html_markups document unprefixed map flat_map fst
         snd render app].
    rewrite app_nil_r. reflexivity.
Qed.

Lemma valued_attributes_ok (attributes : dict) :
  forallb safe_attribute attributes = true ->
  nodupb (map fst attributes) = true ->
  forallb attribute_ok (valued attributes) = true
  /\ nodupb (map (fun a => lower (fst a)) (valued attributes)) = true
  /\ attribute_dict (valued attributes) = attributes.
Proof.
  intros Hsafe Hdup.
  assert (Hkeys : map (fun a => lower (fst a)) (valued attributes)
                  = map fst attributes
                  /\ forallb attribute_ok (valued attributes) = true
                  /\ attribute_dict (valued attributes) = attributes).
  { clear Hdup. induction attributes as [|[k v] attributes IH];
      [repeat split; reflexivity|].
    cbn [forallb] in Hsafe. apply andb_true_iff in Hsafe as [Hkv Hrest].
    destruct (IH Hrest) as (IH1 & IH2 & IH3).
    unfold safe_attribute in Hkv. cbn [fst snd] in Hkv.
    apply andb_true_iff in Hkv as [Hkv Hv].
    apply andb_true_iff in Hkv as [Hk Hlow]. apply str_eqb_eq in Hlow.
    cbn [valued map fst snd forallb attribute_dict].
    fold (valued attributes).
    fold (attribute_dict (valued attributes)).
    rewrite IH1, IH2, IH3, Hlow. unfold attribute_ok, attribute_value.
    cbn [fst snd]. rewrite Hk, Hv. repeat split; reflexivity. }
  destruct Hkeys as (H1 & H2 & H3). rewrite H1. auto.
Qed.

Lemma html_head_nontext (node : HTMLNode) (K : list (str * markup))
  (strict : bool) :
  is_text_node node = false ->
  text_may_precede strict (unprefixed (html_markups node) ++ K) = true.
Proof.
  destruct node as [name attributes children|t|c]; [| discriminate |].
  - intros _. cbn [html_markups].
    destruct (0 <? length children); reflexivity.
  - reflexivity.
Qed.

Section HtmlWellFormed.

Variables (strict comments : bool).

(** The segments of the [html] property of a safe node without doctype,
    in front of well-formed pieces [K], are well formed. *)
Let html_wf (node : HTMLNode) : Prop :=
  forall K context,
    safe_node comments node = true ->
    no_doctype node = true ->
    wf_pieces strict None K = true ->
    (is_text_node node = true -> text_may_precede strict K = true) ->
    match context with
    | Some name => is_text_node node = true /\ closes name K = true
    | None => True
    end ->
    wf_pieces strict context (unprefixed (html_markups node) ++ K) = true.

Lemma html_forest_wf (l : list HTMLNode) :
  Forall html_wf l ->
  forall K,
    forallb (safe_node comments) l = true ->
    forallb no_doctype l = true ->
    texts_apart l = true ->
    wf_pieces strict None K = true ->
    (ends_with_text l = true -> text_may_precede strict K = true) ->
    wf_pieces strict None
      (unprefixed (flat_map html_markups l) ++ K) = true.
Proof.
  induction 1 as [|node l Hnode _ IH]; intros K Hsafe Hplain Hapart HK Hend;
    [exact HK|].
  cbn [flat_map]. unfold unprefixed. rewrite map_app, <- app_assoc.
  fold (unprefixed (html_markups node)).
  fold (unprefixed (flat_map html_markups l)).
  cbn [forallb] in Hsafe, Hplain.
  apply andb_true_iff in Hsafe as [Hs Hsl].
  apply andb_true_iff in Hplain as [Hp Hpl].
  cbn [texts_apart] in Hapart. apply andb_true_iff in Hapart as [Hadj Hal].
  assert (Hend' : ends_with_text l = true -> text_may_precede strict K = true).
  { intro H. apply Hend. unfold ends_with_text in *. cbn [rev].
    destruct (rev l) as [|x r]; [discriminate|]. exact H. }
  apply (Hnode _ None Hs Hp (IH K Hsl Hpl Hal HK Hend')); [|exact I].
  intro Htext. destruct l as [|b l'].
  - apply Hend. unfold ends_with_text. cbn. exact Htext.
  - rewrite Htext in Hadj. cbn [andb] in Hadj. apply negb_true_iff in Hadj.
    cbn [flat_map]. unfold unprefixed. rewrite map_app, <- app_assoc.
    apply html_head_nontext. exact Hadj.
Qed.

Lemma html_node_wf (node : HTMLNode) : html_wf node.
Proof.
  induction node as [name attributes children IH|t|c]
    using HTMLNode_nested_ind; intros K context Hsafe Hplain HK Htext Hctx.
  - assert (Hnone : context = None).
    { destruct context as [n|]; [|reflexivity].
      destruct Hctx as [H _]. discriminate. }
    subst context. cbn [safe_node] in Hsafe.
    apply andb_true_iff in Hsafe as [Hsafe Hapart].
    apply andb_true_iff in Hsafe as [Hsafe Hchildren].
    apply andb_true_iff in Hsafe as [Hsafe Hraw].
    apply andb_true_iff in Hsafe as [Hsafe Hvoid].
    apply andb_true_iff in Hsafe as [Hsafe Hdup].
    apply andb_true_iff in Hsafe as [Hname Hattrs].
    cbn [no_doctype] in Hplain.
    apply andb_true_iff in Hplain as [Hnd Hplain].
    apply negb_true_iff in Hnd.
    assert (Hclose : tag_name_ok name = true /\ lower name = name).
    { destruct (element_name_cases name Hname)
        as [[-> _] | (H1 & H2 & _)]; [discriminate | auto]. }
    destruct Hclose as [Hcn Hcl].
    destruct (valued_attributes_ok attributes Hattrs Hdup)
      as (Haok & Hadup & _).
    assert (Htag : forall e,
      markup_ok (MTag name (valued attributes) e) = true).
    { intro e. cbn [markup_ok]. unfold name_ok.
      rewrite Hcn, Haok, Hadup, orb_true_r. reflexivity. }
    cbn [html_markups].
    destruct (0 <? length children) eqn:Hbranch.
    + cbn [unprefixed map app wf_pieces forallb is_text].
      rewrite Htag. cbn [andb context_after]. rewrite Hcl.
      rewrite map_app. cbn [map]. rewrite <- app_assoc. cbn [app].
      fold (unprefixed (flat_map html_markups children)).
      assert (HK' : forall ctx,
        match ctx with
        | Some n => str_eqb name n = true
        | None => True
        end ->
        wf_pieces strict ctx (([], MClose name) :: K) = true).
      { intros ctx Hc. cbn [wf_pieces forallb is_text markup_ok].
        rewrite Hcn. cbn [andb context_after]. rewrite HK, andb_true_r.
        destruct ctx as [n|]; [|reflexivity].
        cbn [closes]. rewrite Hcl. exact Hc. }
      destruct (in_strs name _contextSwitchTags) eqn:Hr.
      * destruct children as [|[n a ch|t|c] [|b l]]; try discriminate.
        cbn [forallb safe_node] in Hchildren.
        rewrite andb_true_r in Hchildren.
        destruct (text_ok_markup t Hchildren) as [Hm _].
        cbn [flat_map html_markups app unprefixed map
             wf_pieces forallb is_text closes context_after].
        rewrite Hm, Hcl, str_eqb_refl. cbn [andb negb].
        apply (HK' None). exact I.
      * apply (html_forest_wf children IH); try assumption.
        -- apply (HK' None). exact I.
        -- intros _. reflexivity.
    + cbn [unprefixed map app wf_pieces forallb is_text].
      rewrite Htag. cbn [andb context_after]. exact HK.
  - cbn [safe_node] in Hsafe. destruct (text_ok_markup t Hsafe) as [Hm _].
    cbn [html_markups unprefixed map app wf_pieces forallb is_text
         context_after].
    rewrite Hm, HK. cbn [andb].
    assert (Hpre : match K with
                   | [] => negb strict
                   | (_, m') :: _ => negb (is_text m')
                   end = true) by exact (Htext eq_refl).
    rewrite Hpre. cbn [andb]. rewrite andb_true_r.
    destruct context as [n|]; [|reflexivity]. apply Hctx.
  - assert (Hnone : context = None).
    { destruct context as [n|]; [|reflexivity].
      destruct Hctx as [H _]. discriminate. }
    subst context. cbn [safe_node] in Hsafe.
    apply andb_true_iff in Hsafe as [_ Hc]. unfold comment_ok in Hc.
    apply andb_true_iff in Hc as [Hc _].
    cbn [html_markups unprefixed map app wf_pieces forallb is_text
         context_after markup_ok].
    rewrite Hc, HK. reflexivity.
Qed.

(** The segments of the [html] properties of a safe list of nodes are a
    well-formed document. *)
Lemma html_document_wf (l : list HTMLNode) :
  safe_document strict comments l = true ->
  forallb no_doctype l = true ->
  wf_pieces strict None (unprefixed (flat_map html_markups l)) = true.
Proof.
  unfold safe_document. intros H Hplain.
  apply andb_true_iff in H as [H Hend].
  apply andb_true_iff in H as [Hsafe Hapart].
  rewrite <- (app_nil_r (unprefixed (flat_map html_markups l))).
  apply html_forest_wf; try assumption; try reflexivity.
  - apply Forall_forall. intros node _. apply html_node_wf.
  - intro He. rewrite He, andb_true_r in Hend. exact Hend.
Qed.

End HtmlWellFormed.

Section HtmlNested.

Variable comments : bool.

Lemma html_forest_nested (l : list HTMLNode) :
  Forall (fun node =>
            safe_node comments node = true ->
            no_doctype node = true ->
            forall top rest l',
              nested comments top rest l' ->
              nested comments top
                (unprefixed (html_markups node) ++ rest) (node :: l')) l ->
  forallb (safe_node comments) l = true ->
  forallb no_doctype l = true ->
  forall top rest l',
    nested comments top rest l' ->
    nested comments top
      (unprefixed (flat_map html_markups l) ++ rest) (l ++ l').
Proof.
  induction 1 as [|node l Hnode _ IH]; intros Hsafe Hplain top rest l' Hrest;
    [exact Hrest|].
  cbn [forallb] in Hsafe, Hplain.
  apply andb_true_iff in Hsafe as [Hs Hsl].
  apply andb_true_iff in Hplain as [Hp Hpl].
  cbn [flat_map]. unfold unprefixed. rewrite map_app, <- app_assoc.
  fold (unprefixed (html_markups node)).
  fold (unprefixed (flat_map html_markups l)). cbn [app].
  apply Hnode; [exact Hs | exact Hp|]. apply IH; assumption.
Qed.

(** The segments of the [html] property of a safe node without doctype
    are properly nested and describe the node. *)
Lemma html_node_nested (node : HTMLNode) :
  safe_node comments node = true ->
  no_doctype node = true ->
  forall top rest l,
    nested comments top rest l ->
    nested comments top (unprefixed (html_markups node) ++ rest)
      (node :: l).
Proof.
  induction node as [name attributes children IH|t|c]
    using HTMLNode_nested_ind; intros Hsafe Hplain top rest l Hrest.
  - cbn [safe_node] in Hsafe.
    apply andb_true_iff in Hsafe as [Hsafe Hapart].
    apply andb_true_iff in Hsafe as [Hsafe Hchildren].
    apply andb_true_iff in Hsafe as [Hsafe Hraw].
    apply andb_true_iff in Hsafe as [Hsafe Hvoid].
    apply andb_true_iff in Hsafe as [Hsafe Hdup].
    apply andb_true_iff in Hsafe as [Hname Hattrs].
    cbn [no_doctype] in Hplain.
    apply andb_true_iff in Hplain as [_ Hplain].
    assert (Hcl : lower name = name).
    { destruct (element_name_cases name Hname)
        as [[-> _] | (_ & H2 & _)]; [reflexivity | exact H2]. }
    destruct (valued_attributes_ok attributes Hattrs Hdup)
      as (_ & _ & Hdict).
    cbn [html_markups].
    destruct (0 <? length children) eqn:Hbranch.
    + assert (Hnotvoid : in_strs name _voidTags = false).
      { destruct (in_strs name _voidTags); [|reflexivity].
        apply Nat.eqb_eq in Hvoid. rewrite Hvoid in Hbranch.
        discriminate. }
      assert (Hpieces :
        unprefixed
          (MTag name (valued attributes) NoSlash
           :: flat_map html_markups children ++ [MClose name])
        ++ rest
        = ([], MTag name (valued attributes) NoSlash)
          :: (unprefixed (flat_map html_markups children)
              ++ ([], MClose name) :: rest)).
      { unfold unprefixed. cbn [map app].
        rewrite map_app, <- app_assoc. reflexivity. }
      rewrite Hpieces.
      replace (HTMLElementNode name attributes children)
        with (HTMLElementNode (lower name)
                (attribute_dict (valued attributes)) children)
        by (rewrite Hcl, Hdict; reflexivity).
      apply nested_pair.
      * rewrite Hcl. exact Hnotvoid.
      * rewrite <- (app_nil_r (unprefixed (flat_map html_markups children))).
        rewrite <- (app_nil_r children) at 2.
        apply html_forest_nested;
          [exact IH | exact Hchildren | exact Hplain|].
        constructor.
      * reflexivity.
      * exact Hrest.
    + assert (Hnone : children = []).
      { destruct children; [reflexivity | discriminate]. }
      subst children. cbn [unprefixed map app].
      replace (HTMLElementNode name attributes [])
        with (HTMLElementNode (lower name)
                (attribute_dict (valued attributes)) [])
        by (rewrite Hcl, Hdict; reflexivity).
      apply nested_single; [|exact Hrest]. left. discriminate.
  - cbn [safe_node] in Hsafe. destruct (text_ok_markup t Hsafe) as [_ Hs].
    cbn [html_markups unprefixed map app].
    replace (HTMLTextNode t) with (HTMLTextNode (strip t))
      by (rewrite Hs; reflexivity).
    constructor. exact Hrest.
  - cbn [safe_node] in Hsafe. apply andb_true_iff in Hsafe as [Hcom Hc].
    unfold comment_ok in Hc. apply andb_true_iff in Hc as [_ Hs].
    apply str_eqb_eq in Hs.
    cbn [html_markups unprefixed map app].
    replace (HTMLCommentNode c) with (HTMLCommentNode (strip c))
      by (rewrite Hs; reflexivity).
    apply nested_comment_kept; [exact Hcom | exact Hrest].
Qed.

End HtmlNested.

(** The texts of the [html] properties of a safe list of nodes without
    doctype build the list back. *)
Lemma html_forest_builds (strict comments : bool) (l : list HTMLNode) :
  safe_document strict comments l = true ->
  forallb no_doctype l = true ->
  HTMLDocument (flat_map HTMLNode_html l) strict comments = Ok l.
Proof.
  intros Hsafe Hplain.
  rewrite html_forest_markups
    by (apply Forall_forall; intros node _; apply html_node_markups).
  assert (Hwf := html_document_wf strict comments l Hsafe Hplain).
  unfold safe_document in Hsafe.
  apply andb_true_iff in Hsafe as [Hsafe _].
  apply andb_true_iff in Hsafe as [Hall _].
  apply nested_builds; [|exact Hwf].
  rewrite <- (app_nil_r (unprefixed (flat_map html_markups l))).
  rewrite <- (app_nil_r l) at 2.
  apply html_forest_nested; [|exact Hall | exact Hplain | constructor].
  apply Forall_forall. intros node _. apply html_node_nested.
Qed.

(** The [html] property of a safe element without doctype in its
    subtree (names and attribute names the tokenizer reads back, values
    without double quote or backslash, stripped texts without markup, no
    two texts side by side) builds back, in both modes, a document whose
    only root node is the element; and its [innerHtml] builds back its
    children, unless the last child is a text and the mode is strict. *)
Theorem html_property_rebuilds (strict comments : bool)
  (name : str) (attributes : dict) (children : list HTMLNode) :
  let self := HTMLElementNode name attributes children in
  safe_node comments self = true ->
  no_doctype self = true ->
  HTMLDocument (HTMLNode_html self) strict comments = Ok [self]
  /\ (strict && ends_with_text children = false ->
      HTMLDocument (innerHtml self) strict comments = Ok children).
Proof.
  intros self Hsafe Hplain. split.
  - rewrite <- (app_nil_r (HTMLNode_html self)).
    change (HTMLNode_html self ++ []) with (flat_map HTMLNode_html [self]).
    apply html_forest_builds.
    + unfold safe_document. cbn [forallb texts_apart].
      rewrite Hsafe. unfold ends_with_text. cbn [rev app is_text_node].
      rewrite andb_false_r. reflexivity.
    + cbn [forallb]. rewrite Hplain. reflexivity.
  - intro Hend. cbn [innerHtml self]. apply html_forest_builds.
    + unfold safe_document. rewrite Hend.
      subst self. cbn [safe_node] in Hsafe.
      apply andb_true_iff in Hsafe as [Hsafe Hapart].
      apply andb_true_iff in Hsafe as [_ Hchildren].
      rewrite Hchildren, Hapart. reflexivity.
    + subst self. cbn [no_doctype] in Hplain.
      apply andb_true_iff in Hplain as [_ Hplain]. exact Hplain.
Qed.

Lemma html_property_rebuilds_witness :
  let children :=
    [HTMLElementNode (lit "br") [] [];
     HTMLElementNode (lit "script") [] [HTMLTextNode (lit "x = 1;")];
     HTMLElementNode (lit "p") [(lit "id", lit "a b")]
       [HTMLTextNode (lit "text")]] in
  let self := HTMLElementNode (lit "div") [(lit "class", lit "c")] children in
  HTMLNode_html self
  = lit "<div class=" ++ quoted (lit "c")
    ++ lit "><br/><script>x = 1;</script><p id=" ++ quoted (lit "a b")
    ++ lit ">text</p></div>"
  /\ HTMLDocument (HTMLNode_html self) true false = Ok [self]
  /\ HTMLDocument (innerHtml self) true false = Ok children.
Proof.
  intros children self. split; [reflexivity|].
  destruct (html_property_rebuilds true false (lit "div")
              [(lit "class", lit "c")] children eq_refl eq_refl)
    as [H1 H2].
  split; [exact H1 | exact (H2 eq_refl)].
Defined.

(** ** The search, for every depth bound *)

Lemma preorder_depth_preorder (node : HTMLNode) :
  forall d x, In x (preorder_depth d node) -> In x (preorder node).
Proof.
  induction node as [name attributes children IH|text|comment]
    using HTMLNode_nested_ind; intros d x Hin.
  - destruct d as [|d]; cbn [preorder_depth preorder] in Hin |- *.
    + destruct Hin as [<- | []]. left. reflexivity.
    + destruct Hin as [<- | Hin]; [left; reflexivity|]. right.
      apply in_flat_map in Hin as (child & Hchild & Hx).
      apply in_flat_map. exists child. split; [exact Hchild|].
      rewrite Forall_forall in IH. exact (IH child Hchild d x Hx).
  - destruct d; cbn in Hin |- *; exact Hin.
  - destruct d; cbn in Hin |- *; exact Hin.
Qed.

(** [search] returns the nodes that satisfy the filter among the nodes at
    most [maxDepth] generations below the start, the start included, in
    document order: every node of the subtree without a bound, the start
    alone for a bound below 1. With a cap [k] of 1 or more it returns the
    first [k] of them. Every result is a node of the subtree that
    satisfies the filter. *)
Theorem search_document_order (self : HTMLNode)
  (filter : HTMLNode -> bool) (maxDepth maxResults : option Z) :
  match maxResults with
  | Some k => (1 <= k)%Z
  | None => True
  end ->
  search self filter maxDepth maxResults
  = (let matches := List.filter filter (nodes_within maxDepth self) in
     match maxResults with
     | Some k => firstn (Z.to_nat k) matches
     | None => matches
     end)
  /\ (forall d, (d <= 0)%Z -> nodes_within (Some d) self = [self])
  /\ nodes_within None self = preorder self
  /\ (forall node,
        In node (search self filter maxDepth maxResults) ->
        filter node = true /\ In node (preorder self)).
Proof.
  intro Hk.
  assert (Heq : search self filter maxDepth maxResults
                = match maxResults with
                  | Some k =>
                      firstn (Z.to_nat k)
                        (List.filter filter (nodes_within maxDepth self))
                  | None => List.filter filter (nodes_within maxDepth self)
                  end).
  { destruct maxResults as [k|];
      [apply search_capped; exact Hk | apply search_uncapped]. }
  split; [exact Heq|]. split; [|split; [reflexivity|]].
  - intros d Hd. cbn [nodes_within].
    replace (Z.to_nat d) with 0 by lia. apply preorder_depth_0.
  - intros node Hin. rewrite Heq in Hin.
    assert (Hf : In node (List.filter filter (nodes_within maxDepth self))).
    { destruct maxResults as [k|]; [|exact Hin].
      rewrite <- (firstn_skipn (Z.to_nat k)
                    (List.filter filter (nodes_within maxDepth self))).
      apply in_or_app. left. exact Hin. }
    apply filter_In in Hf as [Hn Hf]. split; [exact Hf|].
    destruct maxDepth as [d|]; cbn [nodes_within] in Hn; [|exact Hn].
    exact (preorder_depth_preorder self _ node Hn).
Qed.

Lemma search_document_order_witness :
  let leaf := HTMLElementNode (lit "b") [] [HTMLTextNode (lit "deep")] in
  let self :=
    HTMLElementNode (lit "p") [] [HTMLTextNode (lit "a"); leaf;
                                  HTMLTextNode (lit "c")] in
  search self is_text_node (Some 1%Z) (Some 2%Z)
  = [HTMLTextNode (lit "a"); HTMLTextNode (lit "c")]
  /\ search self is_text_node (Some (-3)%Z) None = [].
Proof.
  intros leaf self. split.
  - exact (proj1 (search_document_order self is_text_node (Some 1%Z)
                    (Some 2%Z) ltac:(cbn; lia))).
  - exact (proj1 (search_document_order self is_text_node (Some (-3)%Z)
                    None I)).
Defined.

(** ** The text a segment stores, for every buffer *)

(** Whatever the buffer and the mode, when tokenizing succeeds each
    element or comment segment stores the slice of the buffer between
    its offsets, [html[start:end]], and each text segment that slice
    stripped of the whitespace at its ends. *)
Theorem tokenize_segments_keep_slices (html : str) (strict : bool)
  (l : list HTMLParserSegment) :
  tokenize html strict = Ok l ->
  forall s,
    In s l ->
    match s with
    | TextSegment text start end_ => text = strip (slice html start end_)
    | _ => seg_text s = slice html (seg_start s) (seg_end s)
    end.
Proof.
  intros Htok s Hin.
  assert (H : Forall (seg_text_ok html) l)
    by (revert Htok; apply segments_text; exact I).
  rewrite Forall_forall in H. exact (H s Hin).
Qed.

Lemma tokenize_segments_keep_slices_witness :
  let html := lit "<p>  a text  <!-- note --></p>" in
  tokenize html false
  = Ok [ElementSegment
          (mkElementSegment (lit "<p>") 0 3 (lit "p") [] true false);
        TextSegment (lit "a text") 5 13;
        CommentSegment (lit "<!-- note -->") 13 26 (lit "note");
        ElementSegment
          (mkElementSegment (lit "</p>") 26 30 (lit "p") [] false true)]
  /\ lit "a text" = strip (slice html 5 13).
Proof.
  intro html.
  assert (Htok : tokenize html false
    = Ok [ElementSegment
            (mkElementSegment (lit "<p>") 0 3 (lit "p") [] true false);
          TextSegment (lit "a text") 5 13;
          CommentSegment (lit "<!-- note -->") 13 26 (lit "note");
          ElementSegment
            (mkElementSegment (lit "</p>") 26 30 (lit "p") [] false true)])
    by reflexivity.
  split; [exact Htok|].
  exact (tokenize_segments_keep_slices html false _ Htok
           (TextSegment (lit "a text") 5 13) (or_intror (or_introl eq_refl))).
Defined.

(** ** The flags of the segments, and the branch the builder never takes *)

Lemma readTagHead_flags (html : str) (strict : bool) (p q : nat)
  (open close : bool) (name : str) :
  readTagHead html strict p = Ok (Some (q, open, close, name)) ->
  open = negb close.
Proof.
  unfold readTagHead.
  destruct (getitem html p) as [c| |]; cbn [bind]; try discriminate.
  destruct (negb (Ascii.eqb c "<")); [discriminate|].
  destruct (getitem html (p + 1)) as [c1| |]; cbn [bind];
    try discriminate.
  destruct (Ascii.eqb c1 "/");
    (destruct (_readTagName html strict _) as [[r|]| |]; cbn [bind];
     try discriminate; intros [= <- <- <- <-]; reflexivity).
Qed.

Lemma readTagTail_flags (html : str) (strict : bool) (start : nat)
  (name : str) (open close : bool) (q : nat) (attributes : dict)
  (e : HTMLParserElementSegment) :
  open = negb close ->
  readTagTail html strict start name open close q attributes
  = Ok (Some e) ->
  flags_ok (ElementSegment e).
Proof.
  intro Hflags. unfold readTagTail.
  destruct (negb open && (0 <? length attributes)) eqn:Hattr;
    [discriminate|].
  destruct (getitem html q) as [c| |]; cbn [bind]; try discriminate.
  destruct (Ascii.eqb c "/" && strict && close); [discriminate|].
  destruct (Ascii.eqb c "/");
    (destruct (getitem html _) as [c1| |]; cbn [bind]; try discriminate;
     destruct (Ascii.eqb c1 ">"); [|discriminate];
     intros [= <-]; cbn [flags_ok el_open el_close el_attributes];
     split;
     [subst open; destruct close; reflexivity
     |intro Ho; rewrite Ho in Hattr; cbn [negb andb] in Hattr;
      destruct attributes; [reflexivity | discriminate]]).
Qed.

Lemma readTag_flags (html : str) (strict : bool) (p : nat)
  (e : HTMLParserElementSegment) :
  _readTag html strict p = Ok (Some e) -> flags_ok (ElementSegment e).
Proof.
  rewrite readTag_parts.
  destruct (readTagHead html strict p) as [[[[[q open] close] name]|]| |]
    eqn:Hh; cbn [bind]; try discriminate.
  apply readTagHead_flags in Hh.
  destruct (readTagAttributes html strict _ q [])
    as [[q' attributes]| |]; cbn [bind fst snd]; try discriminate.
  apply readTagTail_flags. exact Hh.
Qed.

Lemma read_fresh_flags (html : str) (strict : bool) (q : nat)
  (s : HTMLParserSegment) :
  read_fresh html strict q s -> flags_ok s.
Proof.
  intros [H | (e & H & ->)].
  - unfold _readComment in H.
    destruct (str_eqb (slice html q (q + 4)) (lit "<!--"));
      [|discriminate].
    destruct (find html (lit "-->") (q + 4)); [|discriminate].
    injection H as <-. exact I.
  - exact (readTag_flags _ _ _ _ H).
Qed.

Lemma next_flags (html : str) (strict : bool) (self self' : HTMLParser)
  (s : HTMLParserSegment) :
  parser_ok html strict self ->
  next html strict self = Ok (Some s, self') ->
  flags_ok s.
Proof.
  intros [_ Hcache] Hnext.
  destruct (next_origin _ _ _ _ _ Hnext)
    as (_ & cache & _ & [[Hc _] | [_ [[_ Hf] | Ht]]]).
  - rewrite Hc in Hcache. exact (read_fresh_flags _ _ _ _ Hcache).
  - exact (read_fresh_flags _ _ _ _ Hf).
  - destruct Ht as (end_ & -> & _). exact I.
Qed.

Lemma segments_flags (html : str) (strict : bool) (fuel : nat) :
  forall self l,
    parser_ok html strict self ->
    segments html strict fuel self = Ok l ->
    Forall flags_ok l.
Proof.
  induction fuel as [|fuel IH]; intros self l Hok; [discriminate|].
  cbn [segments].
  destruct (next html strict self) as [[[s|] self']| |] eqn:Hnext;
    cbn [bind]; try discriminate.
  - destruct (next_sound _ _ _ _ _ Hok Hnext) as (Hok' & _).
    destruct (segments html strict fuel self') as [l'| |] eqn:Hrest;
      cbn [bind]; try discriminate.
    intros [= <-]. constructor; [exact (next_flags _ _ _ _ _ Hok Hnext)|].
    exact (IH _ _ Hok' Hrest).
  - intros [= <-]. constructor.
Qed.

Lemma no_unidentified_bind (A B : Type) (r : result A)
  (k : A -> result B) :
  no_unidentified r ->
  (forall a, r = Ok a -> no_unidentified (k a)) ->
  no_unidentified (x <- r ;; k x).
Proof. destruct r as [a|[]|]; cbn; auto. Qed.

Lemma no_unidentified_next (html : str) (strict : bool)
  (self : HTMLParser) :
  no_unidentified (next html strict self).
Proof.
  assert (H := next_outcome html strict self).
  destruct (next html strict self) as [a|[]|]; cbn in *; auto.
Qed.

Section BuilderFlags.

Variable html : str.
Variables (strict comments : bool).

Lemma loadChildren_no_unidentified (fuel : nat) :
  forall parent children parser,
    parser_ok html strict parser ->
    no_unidentified
      (_loadChildren html strict comments fuel parent children parser).
Proof.
  induction fuel as [|fuel IH]; intros parent children parser Hok;
    [exact I|].
  cbn [_loadChildren].
  apply no_unidentified_bind; [apply no_unidentified_next|].
  intros [[segment|] p1] Hnext.
  - destruct (next_sound _ _ _ _ _ Hok Hnext) as (Hok1 & _).
    assert (Hflags := next_flags _ _ _ _ _ Hok Hnext).
    destruct segment as [e|text a b|text a b comment].
    + destruct Hflags as [Hflags _].
      destruct (el_open e).
      * destruct (negb (el_close e)
                  && negb (in_strs (el_name e) _voidTags)).
        -- apply no_unidentified_bind; [apply IH; assumption|].
           intros [[resp sub] p2] Hsub.
           destruct (loadChildren_sound _ _ _ _ _ _ _ _ _ _ Hok1
                       (Forall_nil (node_sound comments)) Hsub)
             as (Hok2 & _).
           destruct resp as [r|].
           ++ destruct (str_eqb (el_name e) parent); exact I.
           ++ apply IH. exact Hok2.
        -- apply IH. exact Hok1.
      * destruct (el_close e); [|discriminate].
        destruct (str_eqb (el_name e) parent); exact I.
    + apply IH. exact Hok1.
    + destruct comments; apply IH; exact Hok1.
  - destruct strict; exact I.
Qed.

Lemma load_loop_no_unidentified (fuel : nat) :
  forall rootList parser,
    parser_ok html strict parser ->
    no_unidentified (load_loop html strict comments fuel rootList parser).
Proof.
  induction fuel as [|fuel IH]; intros rootList parser Hok; [exact I|].
  cbn [load_loop].
  apply no_unidentified_bind; [apply no_unidentified_next|].
  intros [[segment|] p1] Hnext; [|exact I].
  destruct (next_sound _ _ _ _ _ Hok Hnext) as (Hok1 & _).
  destruct segment as [e|text a b|text a b comment].
  - destruct (el_open e).
    + destruct (negb (el_close e)
                && negb (in_strs (el_name e) _voidTags)).
      * apply no_unidentified_bind;
          [apply loadChildren_no_unidentified; assumption|].
        intros [[resp sub] p2] Hsub.
        destruct (loadChildren_sound _ _ _ _ _ _ _ _ _ _ Hok1
                    (Forall_nil (node_sound comments)) Hsub)
          as (Hok2 & _).
        destruct resp as [r|].
        -- destruct strict; [exact I|]. apply IH. exact Hok2.
        -- apply IH. exact Hok2.
      * apply IH. exact Hok1.
    + destruct strict; [exact I|]. apply IH. exact Hok1.
  - apply IH. exact Hok1.
  - destruct comments; [apply IH; exact Hok1 | exact I].
Qed.

End BuilderFlags.

(** Whatever the buffer and the mode, every element segment of the
    tokenizer is open, close, or both, and a segment that is not open (a
    close tag) has no attribute. So the branch of [_loadChildren] for an
    element segment that is neither open nor close is never taken: no
    build raises "An unidentified tag was found". *)
Theorem unidentified_tag_unreachable (html : str)
  (strict comments : bool) :
  (forall l,
     tokenize html strict = Ok l ->
     forall e,
       In (ElementSegment e) l ->
       el_open e || el_close e = true
       /\ (el_open e = false -> el_attributes e = []))
  /\ (forall position,
        HTMLDocument html strict comments
        <> Raise (UnidentifiedTag position)).
Proof.
  split.
  - intros l Htok e Hin.
    assert (H : Forall flags_ok l).
    { revert Htok. apply segments_flags. apply parser_ok_init. }
    rewrite Forall_forall in H. exact (H _ Hin).
  - intros position Hraise.
    assert (H : no_unidentified (HTMLDocument html strict comments)).
    { apply load_loop_no_unidentified. apply parser_ok_init. }
    rewrite Hraise in H. exact H.
Qed.

(** ** A buffer that holds only text *)




(** ** The names of tags *)






(** ** Elements left open at the end of the buffer *)

(** The child pass over properly nested pieces, in front of other
    pieces: after [j] passes of the loop the nodes are appended and the
    parser stands in front of the pieces that follow. *)
Lemma nested_prefix_children (html : str) (strict comments : bool)
  (top : bool) (pieces : list (str * markup)) (l : list HTMLNode) :
  nested comments top pieces l ->
  top = false ->
  exists j,
    j <= length pieces
    /\ forall fuel parent acc self offset context R,
         length pieces <= fuel ->
         Ready html self offset context (pieces ++ R) ->
         wf_pieces strict context (pieces ++ R) = true ->
         exists self' offset',
           _loadChildren html strict comments (j + fuel) parent acc self
           = _loadChildren html strict comments fuel parent (acc ++ l)
               self'
           /\ Ready html self' offset'
                (match pieces with [] => context | _ => None end) R
           /\ wf_pieces strict
                (match pieces with [] => context | _ => None end) R
              = true.
Proof.
  induction 1 as [top
                 |top pre t rest l _ IH
                 |top pre c rest l Hcom _ IH
                 |pre c rest l Hcom _ IH
                 |top pre n attributes e rest l Hsingle _ IH
                 |top pre n attributes inner children pre1 n1 rest l
                    Hvoid Hinner _ Hname _ IHrest];
    intro Htop.
  - exists 0. split; [cbn; lia|].
    intros fuel parent acc self offset context R _ HR Hwf.
    exists self, offset. rewrite app_nil_r. auto.
  - destruct (IH Htop) as (j & Hj & IHj). exists (S j).
    split; [cbn [length]; lia|].
    intros fuel parent acc self offset context R Hfuel HR Hwf.
    cbn [app length] in Hfuel, HR, Hwf.
    destruct (piece_step html strict _ _ _ _ _ _ HR Hwf)
      as (segment & self1 & offset1 & Hnext & Hcap & HR1 & Hwf1).
    destruct (IHj fuel parent (acc ++ [HTMLTextNode (strip t)]) self1
                offset1 _ R ltac:(lia) HR1 Hwf1)
      as (self2 & offset2 & Hrest & HR2 & Hwf2).
    exists self2, offset2. split.
    + cbn [Nat.add _loadChildren]. rewrite Hnext. cbn [bind].
      destruct segment as [|text a b|]; cbn [captures snd] in Hcap;
        try contradiction.
      rewrite Hcap, Hrest, <- app_assoc. reflexivity.
    + cbn [context_after] in HR2, Hwf2. destruct rest; auto.
  - destruct (IH Htop) as (j & Hj & IHj). exists (S j).
    split; [cbn [length]; lia|].
    intros fuel parent acc self offset context R Hfuel HR Hwf.
    cbn [app length] in Hfuel, HR, Hwf.
    destruct (piece_step html strict _ _ _ _ _ _ HR Hwf)
      as (segment & self1 & offset1 & Hnext & Hcap & HR1 & Hwf1).
    destruct (IHj fuel parent (acc ++ [HTMLCommentNode (strip c)]) self1
                offset1 _ R ltac:(lia) HR1 Hwf1)
      as (self2 & offset2 & Hrest & HR2 & Hwf2).
    exists self2, offset2. split.
    + cbn [Nat.add _loadChildren]. rewrite Hnext. cbn [bind].
      destruct segment as [| |text a b c']; cbn [captures snd] in Hcap;
        try contradiction.
      destruct Hcap as [_ ->].
      assert (Hif : forall (A : Type) (x y : A),
                 (if comments then x else y) = x)
        by (intros; rewrite Hcom; reflexivity).
      rewrite Hif, Hrest, <- app_assoc. reflexivity.
    + cbn [context_after] in HR2, Hwf2. destruct rest; auto.
  - destruct (IH eq_refl) as (j & Hj & IHj). exists (S j).
    split; [cbn [length]; lia|].
    intros fuel parent acc self offset context R Hfuel HR Hwf.
    cbn [app length] in Hfuel, HR, Hwf.
    destruct (piece_step html strict _ _ _ _ _ _ HR Hwf)
      as (segment & self1 & offset1 & Hnext & Hcap & HR1 & Hwf1).
    destruct (IHj fuel parent acc self1 offset1 _ R ltac:(lia) HR1 Hwf1)
      as (self2 & offset2 & Hrest & HR2 & Hwf2).
    exists self2, offset2. split.
    + cbn [Nat.add _loadChildren]. rewrite Hnext. cbn [bind].
      destruct segment as [| |text a b c']; cbn [captures snd] in Hcap;
        try contradiction.
      assert (Hif : forall (A : Type) (x y : A),
                 (if comments then x else y) = y)
        by (intros; rewrite Hcom; reflexivity).
      rewrite Hif, Hrest. reflexivity.
    + cbn [context_after] in HR2, Hwf2. destruct rest; auto.
  - destruct (IH Htop) as (j & Hj & IHj). exists (S j).
    split; [cbn [length]; lia|].
    intros fuel parent acc self offset context R Hfuel HR Hwf.
    cbn [app length] in Hfuel, HR, Hwf.
    destruct (piece_step html strict _ _ _ _ _ _ HR Hwf)
      as (segment & self1 & offset1 & Hnext & Hcap & HR1 & Hwf1).
    assert (Hctx' : context_after (MTag n attributes e) = None).
    { destruct Hsingle as [He | Hv].
      - destruct e; [congruence | reflexivity | reflexivity].
      - destruct e; try reflexivity. cbn [context_after].
        destruct (void_not_raw _ Hv) as [-> _]. reflexivity. }
    rewrite Hctx' in HR1, Hwf1.
    destruct (IHj fuel parent
                (acc ++ [HTMLElementNode (lower n)
                           (attribute_dict attributes) []])
                self1 offset1 _ R ltac:(lia) HR1 Hwf1)
      as (self2 & offset2 & Hrest & HR2 & Hwf2).
    exists self2, offset2. split.
    + cbn [Nat.add _loadChildren]. rewrite Hnext. cbn [bind].
      destruct segment as [s| |]; cbn [captures snd] in Hcap;
        try contradiction.
      destruct Hcap as (_ & Hn & Ha & Ho & Hc).
      rewrite Ho, Hc, Hn, Ha.
      assert (Hcond : negb match e with NoSlash => false | _ => true end
                      && negb (in_strs (lower n) _voidTags) = false).
      { destruct Hsingle as [He | Hv].
        - destruct e; [congruence | reflexivity | reflexivity].
        - rewrite Hv. apply andb_false_r. }
      rewrite Hcond, Hrest, <- app_assoc. reflexivity.
    + destruct rest; auto.
  - destruct (IHrest Htop) as (j & Hj & IHj). exists (S j).
    split; [cbn [length]; rewrite length_app; cbn [length]; lia|].
    intros fuel parent acc self offset context R Hfuel HR Hwf.
    cbn [app length] in Hfuel, HR, Hwf.
    rewrite length_app in Hfuel. cbn [length] in Hfuel.
    rewrite <- app_assoc in HR, Hwf. cbn [app] in HR, Hwf.
    destruct (piece_step html strict _ _ _ _ _ _ HR Hwf)
      as (segment & self1 & offset1 & Hnext & Hcap & HR1 & Hwf1).
    destruct (nested_children html strict comments _ _ _ Hinner eq_refl
                (j + fuel) (lower n) [] self1 offset1 _ pre1 n1
                (rest ++ R) ltac:(lia) Hname HR1 Hwf1)
      as (self2 & offset2 & Hin & HR2 & Hwf2).
    destruct (IHj fuel parent
                (acc ++ [HTMLElementNode (lower n)
                           (attribute_dict attributes) children])
                self2 offset2 _ R ltac:(lia) HR2 Hwf2)
      as (self3 & offset3 & Hrest & HR3 & Hwf3).
    exists self3, offset3. split.
    + cbn [Nat.add _loadChildren]. rewrite Hnext. cbn [bind].
      destruct segment as [s| |]; cbn [captures snd] in Hcap;
        try contradiction.
      destruct Hcap as (_ & Hn & Ha & Ho & Hc).
      rewrite Ho, Hc, Hn, Ha, Hvoid. cbn [negb andb].
      rewrite Hin. cbn [bind app]. rewrite Hrest, <- app_assoc.
      reflexivity.
    + destruct rest; auto.
Qed.

(** The loop of [_load] over properly nested pieces, in front of other
    pieces. *)
Lemma nested_prefix_root (html : str) (strict comments : bool)
  (top : bool) (pieces : list (str * markup)) (l : list HTMLNode) :
  nested comments top pieces l ->
  top = true ->
  exists j,
    j <= length pieces
    /\ forall fuel acc self offset context R,
         length pieces <= fuel ->
         Ready html self offset context (pieces ++ R) ->
         wf_pieces strict context (pieces ++ R) = true ->
         exists self' offset',
           load_loop html strict comments (j + fuel) acc self
           = load_loop html strict comments fuel (acc ++ l) self'
           /\ Ready html self' offset'
                (match pieces with [] => context | _ => None end) R
           /\ wf_pieces strict
                (match pieces with [] => context | _ => None end) R
              = true.
Proof.
  induction 1 as [top
                 |top pre t rest l _ IH
                 |top pre c rest l Hcom _ IH
                 |pre c rest l Hcom _ IH
                 |top pre n attributes e rest l Hsingle _ IH
                 |top pre n attributes inner children pre1 n1 rest l
                    Hvoid Hinner _ Hname _ IHrest];
    intro Htop; try discriminate.
  - exists 0. split; [cbn; lia|].
    intros fuel acc self offset context R _ HR Hwf.
    exists self, offset. rewrite app_nil_r. auto.
  - destruct (IH Htop) as (j & Hj & IHj). exists (S j).
    split; [cbn [length]; lia|].
    intros fuel acc self offset context R Hfuel HR Hwf.
    cbn [app length] in Hfuel, HR, Hwf.
    destruct (piece_step html strict _ _ _ _ _ _ HR Hwf)
      as (segment & self1 & offset1 & Hnext & Hcap & HR1 & Hwf1).
    destruct (IHj fuel (acc ++ [HTMLTextNode (strip t)]) self1
                offset1 _ R ltac:(lia) HR1 Hwf1)
      as (self2 & offset2 & Hrest & HR2 & Hwf2).
    exists self2, offset2. split.
    + cbn [Nat.add load_loop]. rewrite Hnext. cbn [bind].
      destruct segment as [|text a b|]; cbn [captures snd] in Hcap;
        try contradiction.
      rewrite Hcap, Hrest, <- app_assoc. reflexivity.
    + cbn [context_after] in HR2, Hwf2. destruct rest; auto.
  - destruct (IH Htop) as (j & Hj & IHj). exists (S j).
    split; [cbn [length]; lia|].
    intros fuel acc self offset context R Hfuel HR Hwf.
    cbn [app length] in Hfuel, HR, Hwf.
    destruct (piece_step html strict _ _ _ _ _ _ HR Hwf)
      as (segment & self1 & offset1 & Hnext & Hcap & HR1 & Hwf1).
    destruct (IHj fuel (acc ++ [HTMLCommentNode (strip c)]) self1
                offset1 _ R ltac:(lia) HR1 Hwf1)
      as (self2 & offset2 & Hrest & HR2 & Hwf2).
    exists self2, offset2. split.
    + cbn [Nat.add load_loop]. rewrite Hnext. cbn [bind].
      destruct segment as [| |text a b c']; cbn [captures snd] in Hcap;
        try contradiction.
      destruct Hcap as [_ ->].
      assert (Hif : forall (A : Type) (x y : A),
                 (if comments then x else y) = x)
        by (intros; rewrite Hcom; reflexivity).
      rewrite Hif, Hrest, <- app_assoc. reflexivity.
    + cbn [context_after] in HR2, Hwf2. destruct rest; auto.
  - destruct (IH Htop) as (j & Hj & IHj). exists (S j).
    split; [cbn [length]; lia|].
    intros fuel acc self offset context R Hfuel HR Hwf.
    cbn [app length] in Hfuel, HR, Hwf.
    destruct (piece_step html strict _ _ _ _ _ _ HR Hwf)
      as (segment & self1 & offset1 & Hnext & Hcap & HR1 & Hwf1).
    assert (Hctx' : context_after (MTag n attributes e) = None).
    { destruct Hsingle as [He | Hv].
      - destruct e; [congruence | reflexivity | reflexivity].
      - destruct e; try reflexivity. cbn [context_after].
        destruct (void_not_raw _ Hv) as [-> _]. reflexivity. }
    rewrite Hctx' in HR1, Hwf1.
    destruct (IHj fuel
                (acc ++ [HTMLElementNode (lower n)
                           (attribute_dict attributes) []])
                self1 offset1 _ R ltac:(lia) HR1 Hwf1)
      as (self2 & offset2 & Hrest & HR2 & Hwf2).
    exists self2, offset2. split.
    + cbn [Nat.add load_loop]. rewrite Hnext. cbn [bind].
      destruct segment as [s| |]; cbn [captures snd] in Hcap;
        try contradiction.
      destruct Hcap as (_ & Hn & Ha & Ho & Hc).
      rewrite Ho, Hc, Hn, Ha.
      assert (Hcond : negb match e with NoSlash => false | _ => true end
                      && negb (in_strs (lower n) _voidTags) = false).
      { destruct Hsingle as [He | Hv].
        - destruct e; [congruence | reflexivity | reflexivity].
        - rewrite Hv. apply andb_false_r. }
      rewrite Hcond, Hrest, <- app_assoc. reflexivity.
    + destruct rest; auto.
  - destruct (IHrest Htop) as (j & Hj & IHj). exists (S j).
    split; [cbn [length]; rewrite length_app; cbn [length]; lia|].
    intros fuel acc self offset context R Hfuel HR Hwf.
    cbn [app length] in Hfuel, HR, Hwf.
    rewrite length_app in Hfuel. cbn [length] in Hfuel.
    rewrite <- app_assoc in HR, Hwf. cbn [app] in HR, Hwf.
    destruct (piece_step html strict _ _ _ _ _ _ HR Hwf)
      as (segment & self1 & offset1 & Hnext & Hcap & HR1 & Hwf1).
    destruct (nested_children html strict comments _ _ _ Hinner eq_refl
                (j + fuel) (lower n) [] self1 offset1 _ pre1 n1
                (rest ++ R) ltac:(lia) Hname HR1 Hwf1)
      as (self2 & offset2 & Hin & HR2 & Hwf2).
    destruct (IHj fuel
                (acc ++ [HTMLElementNode (lower n)
                           (attribute_dict attributes) children])
                self2 offset2 _ R ltac:(lia) HR2 Hwf2)
      as (self3 & offset3 & Hrest & HR3 & Hwf3).
    exists self3, offset3. split.
    + cbn [Nat.add load_loop]. rewrite Hnext. cbn [bind].
      destruct segment as [s| |]; cbn [captures snd] in Hcap;
        try contradiction.
      destruct Hcap as (_ & Hn & Ha & Ho & Hc).
      rewrite Ho, Hc, Hn, Ha, Hvoid. cbn [negb andb].
      rewrite Hin. cbn [bind app]. rewrite Hrest, <- app_assoc.
      reflexivity.
    + destruct rest; auto.
Qed.

Lemma Ready_end (html : str) (self : HTMLParser) (offset : nat)
  (context : option str) :
  Ready html self offset context [] -> _position self = length html.
Proof.
  intro HR. assert (Hlen := Ready_length html self offset context _ HR).
  destruct HR as (_ & _ & _ & [[_ Hp] | (pre & m & rest & He & _)]);
    [|discriminate].
  cbn [document flat_map length] in Hlen. lia.
Qed.

(** The child pass over pieces that run to the end of the buffer: strict
    mode raises, lenient mode closes every open element there. *)
Lemma open_ended_children (html : str) (strict comments : bool)
  (pieces : list (str * markup)) (l : list HTMLNode) :
  open_ended comments pieces l ->
  forall fuel parent acc self offset context,
    2 * length pieces < fuel ->
    Ready html self offset context pieces ->
    wf_pieces strict context pieces = true ->
    exists self',
      _position self' = length html
      /\ _loadChildren html strict comments fuel parent acc self
         = if strict then Raise UnclosedElement
           else Ok (None, acc ++ l, self').
Proof.
  induction 1 as [pieces l Hnested
                 |before l pre n attributes inner children Hbefore Hvoid
                    _ IH];
    intros fuel parent acc self offset context Hfuel HR Hwf.
  - destruct (nested_prefix_children html strict comments _ _ _ Hnested
                eq_refl) as (j & Hj & Hpre).
    rewrite <- (app_nil_r pieces) in HR, Hwf.
    destruct (Hpre (S (fuel - j - 1)) parent acc self offset context []
                ltac:(lia) HR Hwf)
      as (self1 & offset1 & Heq & HR1 & _).
    apply Ready_end in HR1.
    exists (mkParser (length html) (_segmentCurrent self1)
              (_segmentNext self1)).
    split; [reflexivity|].
    replace fuel with (j + S (fuel - j - 1)) by lia. rewrite Heq.
    apply loadChildren_end_of_input. apply next_end. exact HR1.
  - rewrite length_app in Hfuel. cbn [length] in Hfuel.
    destruct (nested_prefix_children html strict comments _ _ _ Hbefore
                eq_refl) as (j & Hj & Hpre).
    destruct (Hpre (S (S (fuel - j - 2))) parent acc self offset context
                ((pre, MTag n attributes NoSlash) :: inner)
                ltac:(lia) HR Hwf)
      as (self1 & offset1 & Heq & HR1 & Hwf1).
    destruct (piece_step html strict _ _ _ _ _ _ HR1 Hwf1)
      as (segment & self2 & offset2 & Hnext & Hcap & HR2 & Hwf2).
    destruct (IH (S (fuel - j - 2)) (lower n) [] self2 offset2 _
                ltac:(lia) HR2 Hwf2) as (self3 & Hpos3 & Hin).
    exists (mkParser (length html) (_segmentCurrent self3)
              (_segmentNext self3)).
    split; [reflexivity|].
    replace fuel with (j + S (S (fuel - j - 2))) by lia. rewrite Heq.
    cbn [_loadChildren]. rewrite Hnext. cbn [bind].
    destruct segment as [s| |]; cbn [captures snd] in Hcap;
      try contradiction.
    destruct Hcap as (_ & Hn & Ha & Ho & Hc).
    rewrite Ho, Hc, Hn, Ha, Hvoid. cbn [negb andb].
    cbn [_loadChildren] in Hin. rewrite Hin.
    destruct strict; [reflexivity|]. cbn [bind app].
    rewrite (next_end html false self3 Hpos3). cbn [bind].
    rewrite <- app_assoc. reflexivity.
Qed.

(** A well-formed document that ends inside open elements: properly
    nested root nodes, then an open tag that is never closed, with its
    children up to the end of the buffer (some of which may be left open
    in turn). In strict mode the build raises "HTML ended before all tags
    were closed."; in lenient mode every open element is closed at the
    end of the buffer and the build returns the root nodes with the
    element, which holds the nodes read after its tag. *)
Theorem unclosed_elements_at_end (strict comments : bool)
  (before : list (str * markup)) (l : list HTMLNode) (pre n : str)
  (attributes : list (str * option str)) (inner : list (str * markup))
  (children : list HTMLNode) :
  nested comments true before l ->
  in_strs (lower n) _voidTags = false ->
  open_ended comments inner children ->
  wf_pieces strict None
    (before ++ (pre, MTag n attributes NoSlash) :: inner) = true ->
  HTMLDocument
    (document (before ++ (pre, MTag n attributes NoSlash) :: inner))
    strict comments
  = if strict then Raise UnclosedElement
    else Ok (l ++ [HTMLElementNode (lower n) (attribute_dict attributes)
                     children]).
Proof.
  intros Hbefore Hvoid Hinner Hwf.
  set (pieces := before ++ (pre, MTag n attributes NoSlash) :: inner)
    in *.
  set (html := document pieces).
  assert (Hlen : length pieces <= length html)
    by exact (wf_pieces_length strict pieces None Hwf).
  assert (Hpieces : length pieces = length before + S (length inner)).
  { unfold pieces. rewrite length_app. reflexivity. }
  destruct (nested_prefix_root html strict comments _ _ _ Hbefore eq_refl)
    as (j & Hj & Hpre).
  assert (HR : Ready html HTMLParser_init 0 None pieces).
  { split; [reflexivity|]. split; [lia|]. split; [reflexivity|].
    left. auto. }
  destruct (Hpre (S (S (2 * length html - j))) [] HTMLParser_init 0 None
              ((pre, MTag n attributes NoSlash) :: inner)
              ltac:(lia) HR Hwf)
    as (self1 & offset1 & Heq & HR1 & Hwf1).
  destruct (piece_step html strict _ _ _ _ _ _ HR1 Hwf1)
    as (segment & self2 & offset2 & Hnext & Hcap & HR2 & Hwf2).
  destruct (open_ended_children html strict comments _ _ Hinner
              (S (2 * length html - j)) (lower n) [] self2 offset2 _
              ltac:(lia) HR2 Hwf2) as (self3 & Hpos3 & Hin).
  unfold HTMLDocument, _load. fold html.
  replace (2 * length html + 2)
    with (j + S (S (2 * length html - j))) by lia.
  rewrite Heq. cbn [load_loop app]. rewrite Hnext. cbn [bind].
  destruct segment as [s| |]; cbn [captures snd] in Hcap;
    try contradiction.
  destruct Hcap as (_ & Hn & Ha & Ho & Hc).
  rewrite Ho, Hc, Hn, Ha, Hvoid. cbn [negb andb]. rewrite Hin.
  destruct strict; [reflexivity|]. cbn [bind app].
  rewrite (next_end html false self3 Hpos3). reflexivity.
Qed.

Lemma unclosed_elements_at_end_witness :
  let pieces :=
    [([], MTag (lit "p") [] NoSlash); ([], MText (lit "a"));
     ([], MClose (lit "p"));
     ([], MTag (lit "div") [(lit "id", Some (lit "x"))] NoSlash);
     ([], MText (lit "b")); ([], MTag (lit "i") [] NoSlash);
     ([], MText (lit "c"))] in
  document pieces = lit "<p>a</p><div id=" ++ quoted (lit "x")
                    ++ lit ">b<i>c"
  /\ HTMLDocument (document pieces) false false
     = Ok [HTMLElementNode (lit "p") [] [HTMLTextNode (lit "a")];
           HTMLElementNode (lit "div") [(lit "id", lit "x")]
             [HTMLTextNode (lit "b");
              HTMLElementNode (lit "i") [] [HTMLTextNode (lit "c")]]].
Proof.
  intro pieces. split; [reflexivity|].
  apply (unclosed_elements_at_end false false
           [([], MTag (lit "p") [] NoSlash); ([], MText (lit "a"));
            ([], MClose (lit "p"))]
           [HTMLElementNode (lit "p") [] [HTMLTextNode (lit "a")]]
           [] (lit "div") [(lit "id", Some (lit "x"))]
           [([], MText (lit "b")); ([], MTag (lit "i") [] NoSlash);
            ([], MText (lit "c"))]
           [HTMLTextNode (lit "b");
            HTMLElementNode (lit "i") [] [HTMLTextNode (lit "c")]]).
  - apply (nested_pair false true [] (lit "p") []
             [([], MText (lit "a"))] [HTMLTextNode (lit "a")]
             [] (lit "p") [] []);
      [reflexivity | | reflexivity | constructor].
    apply (nested_text false false [] (lit "a") [] []). constructor.
  - reflexivity.
  - apply (open_ended_open false [([], MText (lit "b"))]
             [HTMLTextNode (lit "b")] [] (lit "i") []
             [([], MText (lit "c"))] [HTMLTextNode (lit "c")]).
    + apply (nested_text false false [] (lit "b") [] []). constructor.
    + reflexivity.
    + apply open_ended_closed.
      apply (nested_text false false [] (lit "c") [] []). constructor.
  - reflexivity.
Defined.

(** ** A close tag that matches no open element *)

(** A root element whose properly nested children are followed by the
    close tag of another name. In strict mode the build raises "A close
    tag was found that has no matching open", and the position it
    reports is the offset of the open tag of the root element, not the
    offset of the close tag. In lenient mode the close tag ends the
    element, which keeps the children read so far, and the build goes on
    at the root level with the segments that follow. *)
Theorem unmatched_close_in_root_element (strict comments : bool)
  (before : list (str * markup)) (l : list HTMLNode) (pre n : str)
  (attributes : list (str * option str)) (inner : list (str * markup))
  (children : list HTMLNode) (pre' n' : str)
  (rest : list (str * markup)) (l2 : list HTMLNode) :
  nested comments true before l ->
  in_strs (lower n) _voidTags = false ->
  nested comments false inner children ->
  lower n' <> lower n ->
  nested comments true rest l2 ->
  wf_pieces strict None
    (before ++ (pre, MTag n attributes NoSlash)
               :: inner ++ (pre', MClose n') :: rest) = true ->
  HTMLDocument
    (document (before ++ (pre, MTag n attributes NoSlash)
                         :: inner ++ (pre', MClose n') :: rest))
    strict comments
  = if strict
    then Raise (NoMatchingOpen (length (document before) + length pre))
    else Ok (l ++ HTMLElementNode (lower n) (attribute_dict attributes)
                    children :: l2).
Proof.
  intros Hbefore Hvoid Hinner Hname Hrest Hwf.
  set (pieces := before ++ (pre, MTag n attributes NoSlash)
                           :: inner ++ (pre', MClose n') :: rest) in *.
  set (html := document pieces).
  assert (Hlen : length pieces <= length html)
    by exact (wf_pieces_length strict pieces None Hwf).
  assert (Hpieces : length pieces
                    = length before
                      + S (length inner + S (length rest))).
  { unfold pieces. rewrite length_app. cbn [length].
    rewrite length_app. reflexivity. }
  destruct (nested_prefix_root html strict comments _ _ _ Hbefore eq_refl)
    as (j & Hj & Hpre).
  destruct (nested_prefix_children html strict comments _ _ _ Hinner
              eq_refl) as (j2 & Hj2 & Hpre2).
  assert (HR : Ready html HTMLParser_init 0 None pieces).
  { split; [reflexivity|]. split; [lia|]. split; [reflexivity|].
    left. auto. }
  set (f1 := 2 * length html + 1 - j).
  destruct (Hpre (S f1) [] HTMLParser_init 0 None
              ((pre, MTag n attributes NoSlash)
               :: inner ++ (pre', MClose n') :: rest)
              ltac:(unfold f1; lia) HR Hwf)
    as (self1 & offset1 & Heq & HR1 & Hwf1).
  assert (Hoff : offset1 = length (document before)).
  { assert (H := Ready_length html _ _ _ _ HR1).
    unfold html, pieces in H. rewrite document_app, length_app in H.
    lia. }
  destruct (next_step html strict self1 offset1 _ pre
              (MTag n attributes NoSlash) _ HR1 Hwf1)
    as (segment & self2 & Hnext & Hexp & HR2).
  rewrite expected_nontext in Hexp by reflexivity.
  injection Hexp as Hseg.
  assert (Hwf2 : wf_pieces strict
                   (context_after (MTag n attributes NoSlash))
                   (inner ++ (pre', MClose n') :: rest) = true).
  { cbn [wf_pieces] in Hwf1. apply andb_true_iff in Hwf1 as [_ H].
    exact H. }
  set (f3 := f1 - j2 - 1).
  destruct (Hpre2 (S f3) (lower n) [] self2 _ _
              ((pre', MClose n') :: rest)
              ltac:(unfold f3, f1; lia) HR2 Hwf2)
    as (self3 & offset3 & Heq2 & HR3 & Hwf3).
  destruct (piece_step html strict _ _ _ _ _ _ HR3 Hwf3)
    as (close & self4 & offset4 & Hnext2 & Hcap2 & HR4 & Hwf4).
  cbn [context_after] in HR4, Hwf4.
  assert (Hchildren :
    _loadChildren html strict comments f1 (lower n) [] self2
    = Ok (Some close, children, self4)).
  { replace f1 with (j2 + S f3) by (unfold f3, f1; lia).
    rewrite Heq2. cbn [_loadChildren app]. rewrite Hnext2. cbn [bind].
    destruct close as [e| |]; cbn [captures snd] in Hcap2;
      try contradiction.
    destruct Hcap2 as (_ & Hn & Ho & Hc). rewrite Ho, Hc, Hn.
    replace (str_eqb (lower n') (lower n)) with false; [reflexivity|].
    symmetry. apply str_eqb_neq. exact Hname. }
  unfold HTMLDocument, _load. fold html.
  replace (2 * length html + 2) with (j + S f1) by (unfold f1; lia).
  rewrite Heq. cbn [load_loop app]. rewrite Hnext. cbn [bind].
  rewrite <- Hseg.
  cbn [expected_segment el_open el_close el_name el_attributes el_start].
  rewrite Hvoid. cbn [negb andb]. rewrite Hchildren. cbn [bind].
  rewrite Hoff. destruct strict; [reflexivity|].
  replace (l ++ HTMLElementNode (lower n) (attribute_dict attributes)
                  children :: l2)
    with ((l ++ [HTMLElementNode (lower n) (attribute_dict attributes)
                   children]) ++ l2)
    by (rewrite <- app_assoc; reflexivity).
  apply (nested_root html false comments true rest l2 Hrest eq_refl f1 _
           self4 offset4 None); [unfold f1; lia | exact HR4 | exact Hwf4].
Qed.

Lemma unmatched_close_in_root_element_witness :
  let pieces :=
    [([], MTag (lit "br") [] NoSlash);
     ([], MTag (lit "div") [] NoSlash); ([], MText (lit "a"));
     ([], MClose (lit "p")); ([], MTag (lit "hr") [] NoSlash)] in
  document pieces = lit "<br><div>a</p><hr>"
  /\ HTMLDocument (document pieces) true false
     = Raise (NoMatchingOpen 4)
  /\ HTMLDocument (document pieces) false false
     = Ok [HTMLElementNode (lit "br") [] [];
           HTMLElementNode (lit "div") [] [HTMLTextNode (lit "a")];
           HTMLElementNode (lit "hr") [] []].
Proof.
  intro pieces. split; [reflexivity|].
  assert (Hbefore : nested false true [([], MTag (lit "br") [] NoSlash)]
                      [HTMLElementNode (lit "br") [] []]).
  { apply (nested_single false true [] (lit "br") [] NoSlash [] []);
      [right; reflexivity | constructor]. }
  assert (Hinner : nested false false [([], MText (lit "a"))]
                     [HTMLTextNode (lit "a")]).
  { apply (nested_text false false [] (lit "a") [] []). constructor. }
  assert (Hrest : nested false true [([], MTag (lit "hr") [] NoSlash)]
                    [HTMLElementNode (lit "hr") [] []]).
  { apply (nested_single false true [] (lit "hr") [] NoSlash [] []);
      [right; reflexivity | constructor]. }
  split.
  - apply (unmatched_close_in_root_element true false _ _ [] (lit "div")
             [] _ _ [] (lit "p") _ _ Hbefore eq_refl Hinner
             ltac:(discriminate) Hrest eq_refl).
  - apply (unmatched_close_in_root_element false false _ _ [] (lit "div")
             [] _ _ [] (lit "p") _ _ Hbefore eq_refl Hinner
             ltac:(discriminate) Hrest eq_refl).
Defined.
